(** * PICA200 vertex-shader core: x86-64 JIT back-end and shader cache

    A shallow embedding of [video_core/shader/shader.cpp] (Setup, Shutdown,
    Run) and [video_core/shader/shader_jit_x64.cpp] (the recompiler).

    The recompiler is embedded as a function from a PICA program to the
    host code it emits; the emitted code is given the semantics of the
    Intel SDM for the instructions the recompiler uses.  Conventions:

    - a 32-bit lane, a 64-bit general-purpose register and a byte are
      unsigned [Z] values, with the wrap-around written out;
    - a packed-single lane is its binary32 bit pattern; arithmetic goes
      through [spec_float] at precision 24 and maximal exponent 128;
    - MXCSR keeps its reset value (round to nearest even, exceptions
      masked, no flush to zero): the emitted code never writes it;
    - a forward branch and the [SetJumpTarget] that patches it are
      represented by the region of code they enclose. *)

From Stdlib Require Import ZArith List Bool Lia SpecFloat Znumtheory.
From stdpp Require Import base option list gmap.

Local Open Scope Z_scope.

(** ** Machine integers *)

Module Bits.

Definition wrap (bits z : Z) : Z := z mod 2 ^ bits.
Definition wrap8 (z : Z) : Z := z mod 256.
Definition wrap32 (z : Z) : Z := z mod 4294967296.
Definition wrap64 (z : Z) : Z := z mod 18446744073709551616.

(** The signed reading of the low 32 bits. *)
Definition signed32 (z : Z) : Z :=
  let v := wrap32 z in if v <? 2147483648 then v else v - 4294967296.

(** The signed reading of the low 64 bits. *)
Definition signed64 (z : Z) : Z :=
  let v := wrap64 z in
  if v <? 9223372036854775808 then v else v - 18446744073709551616.

(** The signed reading of the low [bits] bits. *)
Definition signed (bits z : Z) : Z :=
  let v := wrap bits z in if v <? 2 ^ (bits - 1) then v else v - 2 ^ bits.

Definition bit (z i : Z) : bool := Z.testbit z i.

End Bits.

(** ** Binary32 lanes *)

Module F32.

Definition prec : Z := 24.
Definition emax : Z := 128.

Definition sign_bit (b : Z) : bool := Z.testbit b 31.
Definition biased_exp (b : Z) : Z := Z.land (Z.shiftr b 23) 255.
Definition fraction (b : Z) : Z := Z.land b 8388607.

(** Decoding of a 32-bit pattern. *)
Definition to_sf (b : Z) : spec_float :=
  let s := sign_bit b in
  let e := biased_exp b in
  let m := fraction b in
  if e =? 0 then
    match m with
    | Zpos p => S754_finite s p (-149)
    | _ => S754_zero s
    end
  else if e =? 255 then
    match m with
    | Z0 => S754_infinity s
    | _ => S754_nan
    end
  else
    match m + 8388608 with
    | Zpos p => S754_finite s p (e - 150)
    | _ => S754_nan
    end.

Definition sign_mask (s : bool) : Z := if s then 2147483648 else 0.

(** The default quiet NaN of SSE (the "real indefinite" value). *)
Definition qnan_indefinite : Z := 4290772992.   (* 0xFFC00000 *)

(** Encoding; a [spec_float] NaN carries no payload and becomes the
    real indefinite. *)
Definition of_sf (f : spec_float) : Z :=
  match f with
  | S754_zero s => sign_mask s
  | S754_infinity s => sign_mask s + 2139095040
  | S754_nan => qnan_indefinite
  | S754_finite s m e =>
      if Zpos m <? 8388608 then sign_mask s + Zpos m
      else sign_mask s + (e + 150) * 8388608 + (Zpos m - 8388608)
  end.

Definition is_nan (b : Z) : bool :=
  match to_sf b with S754_nan => true | _ => false end.

Definition is_finite (b : Z) : bool :=
  match to_sf b with
  | S754_zero _ | S754_finite _ _ _ => true
  | _ => false
  end.

(** Setting the quiet bit of a NaN. *)
Definition quiet (b : Z) : Z := Z.lor b 4194304.

(** Result of a two-operand SSE arithmetic instruction whose first
    operand is [a] and second is [b]: a NaN operand is forwarded
    (the first one when both are), quieted. *)
Definition nan_prop (a b r : Z) : Z :=
  if is_nan a then quiet a else if is_nan b then quiet b else r.

Definition add (a b : Z) : Z :=
  nan_prop a b (of_sf (SFadd prec emax (to_sf a) (to_sf b))).

Definition mul (a b : Z) : Z :=
  nan_prop a b (of_sf (SFmul prec emax (to_sf a) (to_sf b))).

Definition div (a b : Z) : Z :=
  nan_prop a b (of_sf (SFdiv prec emax (to_sf a) (to_sf b))).

Definition sqrt (a : Z) : Z :=
  if is_nan a then quiet a else of_sf (SFsqrt prec emax (to_sf a)).

Definition ltb (a b : Z) : bool := SFltb (to_sf a) (to_sf b).
Definition leb (a b : Z) : bool := SFleb (to_sf a) (to_sf b).
Definition eqb (a b : Z) : bool := SFeqb (to_sf a) (to_sf b).
Definition unordered (a b : Z) : bool := is_nan a || is_nan b.

Definition one : Z := 1065353216.        (* 0x3F800000 *)
Definition zero : Z := 0.
Definition neg_zero : Z := 2147483648.   (* 0x80000000 *)

(** The exact product of two finite lanes plus a third, rounded once
    (fused multiply-add). *)
Definition fma_sf (x y z : spec_float) : spec_float :=
  match SFmul 1000 100000 x y with
  | S754_finite sp mp ep =>
      match z with
      | S754_finite sz mz ez =>
          let e := Z.min ep ez in
          binary_normalize prec emax
            (cond_Zopp sp (Zpos (fst (shl_align mp ep e)))
             + cond_Zopp sz (Zpos (fst (shl_align mz ez e)))) e false
      | S754_zero _ => binary_round prec emax sp mp ep
      | _ => z
      end
  | p => SFadd prec emax p z
  end.

(** [fma a b c] is [a * b + c]. *)
Definition fma (a b c : Z) : Z :=
  if is_nan a then quiet a
  else if is_nan b then quiet b
  else if is_nan c then quiet c
  else of_sf (fma_sf (to_sf a) (to_sf b) (to_sf c)).

(** The integer nearest to [(-1)^s * m * 2^e], ties to even. *)
Definition round_nearest_int (s : bool) (m : positive) (e : Z) : Z :=
  let mag :=
    if 0 <=? e then Zpos m * 2 ^ e
    else
      let d := 2 ^ (- e) in
      let q := Zpos m / d in
      let r := Zpos m mod d in
      match 2 * r ?= d with
      | Lt => q
      | Gt => q + 1
      | Eq => if Z.even q then q else q + 1
      end in
  if s then - mag else mag.

(** The integer obtained by discarding the fraction (round toward zero). *)
Definition truncate_int (s : bool) (m : positive) (e : Z) : Z :=
  let mag := if 0 <=? e then Zpos m * 2 ^ e else Zpos m / 2 ^ (- e) in
  if s then - mag else mag.

(** The largest integer not greater than [(-1)^s * m * 2^e]. *)
Definition floor_int (s : bool) (m : positive) (e : Z) : Z :=
  if 0 <=? e then (if s then - (Zpos m * 2 ^ e) else Zpos m * 2 ^ e)
  else
    let d := 2 ^ (- e) in
    if s then - ((Zpos m + d - 1) / d) else Zpos m / d.

(** The "integer indefinite" value of the SSE conversions. *)
Definition int_indefinite : Z := 2147483648.   (* 0x80000000 *)

Definition int32_of_Z (n : Z) : Z :=
  if (-2147483648 <=? n) && (n <=? 2147483647) then Bits.wrap32 n
  else int_indefinite.

(** CVTPS2DQ on one lane, MXCSR.RC = round to nearest. *)
Definition cvtps2dq (b : Z) : Z :=
  match to_sf b with
  | S754_zero _ => 0
  | S754_finite s m e => int32_of_Z (round_nearest_int s m e)
  | _ => int_indefinite
  end.

(** Conversion by truncation: the C cast [(int)x], and CVTTPS2DQ. *)
Definition cvttps2dq (b : Z) : Z :=
  match to_sf b with
  | S754_zero _ => 0
  | S754_finite s m e => int32_of_Z (truncate_int s m e)
  | _ => int_indefinite
  end.

(** CVTDQ2PS on one lane: a signed 32-bit integer to binary32. *)
Definition cvtdq2ps (b : Z) : Z :=
  of_sf (binary_normalize prec emax (Bits.signed32 b) 0 false).

(** ROUNDPS with the round-down immediate, on one lane. *)
Definition roundfloor (b : Z) : Z :=
  match to_sf b with
  | S754_nan => quiet b
  | S754_finite s m e =>
      if 0 <=? e then b
      else
        match floor_int s m e with
        | Z0 => sign_mask s
        | n => of_sf (binary_normalize prec emax n 0 false)
        end
  | _ => b
  end.

(** The mathematical floor of a finite lane, as an integer. *)
Definition floor_Z (b : Z) : option Z :=
  match to_sf b with
  | S754_zero _ => Some 0
  | S754_finite s m e => Some (floor_int s m e)
  | _ => None
  end.

(** The value of a lane when it is an integer. *)
Definition integer_value (b : Z) : option Z :=
  match to_sf b with
  | S754_zero _ => Some 0
  | S754_finite s m e =>
      if 0 <=? e then Some (if s then - (Zpos m * 2 ^ e) else Zpos m * 2 ^ e)
      else if Zpos m mod 2 ^ (- e) =? 0
           then Some (if s then - (Zpos m / 2 ^ (- e)) else Zpos m / 2 ^ (- e))
           else None
  | _ => None
  end.

(** [std::fabs] on a float: the sign bit is cleared. *)
Definition fabs (b : Z) : Z := Z.land b 2147483647.

(** [std::fmin]: a NaN argument is treated as missing data. *)
Definition fmin (a b : Z) : Z :=
  if is_nan a then b
  else if is_nan b then a
  else if ltb b a then b else a.

(** MAXPS and MINPS on one lane: the second operand is returned unless
    the first is strictly greater (smaller). *)
Definition maxps (a b : Z) : Z := if ltb b a then a else b.
Definition minps (a b : Z) : Z := if ltb a b then a else b.

End F32.

(** ** Four-lane vectors *)

Record Vec4 := mkVec4 { vx : Z; vy : Z; vz : Z; vw : Z }.

Module Vec.

(** Lane [i] (0 = X, 1 = Y, 2 = Z, 3 = W). *)
Definition lane (v : Vec4) (i : Z) : Z :=
  match i with
  | 0 => vx v
  | 1 => vy v
  | 2 => vz v
  | _ => vw v
  end.

Definition map (f : Z -> Z) (v : Vec4) : Vec4 :=
  mkVec4 (f (vx v)) (f (vy v)) (f (vz v)) (f (vw v)).

Definition map2 (f : Z -> Z -> Z) (a b : Vec4) : Vec4 :=
  mkVec4 (f (vx a) (vx b)) (f (vy a) (vy b)) (f (vz a) (vz b)) (f (vw a) (vw b)).

Definition map3 (f : Z -> Z -> Z -> Z) (a b c : Vec4) : Vec4 :=
  mkVec4 (f (vx a) (vx b) (vx c)) (f (vy a) (vy b) (vy c))
         (f (vz a) (vz b) (vz c)) (f (vw a) (vw b) (vw c)).

Definition splat (z : Z) : Vec4 := mkVec4 z z z z.

Definition zero : Vec4 := splat 0.

(** The low and high quadwords of the 128-bit register. *)
Definition low64 (v : Vec4) : Z := vx v + vy v * 4294967296.
Definition high64 (v : Vec4) : Z := vz v + vw v * 4294967296.

End Vec.

(** ** The PICA instruction model

    [nihstro/shader_bytecode.h], which declares the bit fields of an
    instruction word, of a swizzle pattern and of the register
    encodings, is not part of the sources.  An instruction is therefore
    kept as its decoded view: one field per bit field the recompiler
    reads. *)

Module Pica.

(** Opcodes are the 6-bit values that index [instr_table]. *)
Module OpCode.
Definition ADD : Z := 0.
Definition DP3 : Z := 1.
Definition DP4 : Z := 2.
Definition DPH : Z := 3.
Definition MUL : Z := 8.
Definition SGE : Z := 9.
Definition SLT : Z := 10.
Definition FLR : Z := 11.
Definition MAX : Z := 12.
Definition MIN : Z := 13.
Definition RCP : Z := 14.
Definition RSQ : Z := 15.
Definition MOVA : Z := 18.
Definition MOV : Z := 19.
Definition DPHI : Z := 24.
Definition SGEI : Z := 26.
Definition SLTI : Z := 27.
Definition NOP : Z := 33.
Definition END : Z := 34.
Definition BREAKC : Z := 35.
Definition CALL : Z := 36.
Definition CALLC : Z := 37.
Definition CALLU : Z := 38.
Definition IFU : Z := 39.
Definition IFC : Z := 40.
Definition LOOP : Z := 41.
Definition JMPC : Z := 44.
Definition JMPU : Z := 45.
Definition CMP : Z := 46.
Definition MADI : Z := 48.
Definition MAD : Z := 56.

(** Modelled from the spec: [OpCode::EffectiveOpCode] is declared in the
    absent [shader_bytecode.h].  The opcodes of the MAD form, of the MADI
    form and of CMP span several 6-bit values (eight, eight and two rows
    of [instr_table]); the effective opcode is the first of each range. *)
Definition EffectiveOpCode (op : Z) : Z :=
  if (56 <=? op) && (op <=? 63) then MAD
  else if (48 <=? op) && (op <=? 55) then MADI
  else if (46 <=? op) && (op <=? 47) then CMP
  else op.

(** Modelled from the spec: [OpCode::Info::SrcInversed] of the absent
    [shader_bytecode.h].  The inverted forms are the arithmetic opcodes
    whose wide source is src2 (the "I" variants). *)
Definition SrcInversed (op : Z) : bool :=
  (op =? DPHI) || (op =? SGEI) || (op =? SLTI).
End OpCode.

Inductive RegisterType := Input | Temporary | FloatUniform | Output.

(** Modelled from the spec: a source register is a 7-bit index selecting
    among input (0..15), temporary (16..31) and float-uniform (32..127)
    registers. *)
Abbreviation SourceRegister := Z (only parsing).

Definition GetRegisterType (r : SourceRegister) : RegisterType :=
  if r <? 16 then Input else if r <? 32 then Temporary else FloatUniform.

Definition GetIndex (r : SourceRegister) : Z :=
  if r <? 16 then r else if r <? 32 then r - 16 else r - 32.

(** Modelled from the spec: a destination register is an output register
    (0..15) or a temporary (16..31). *)
Abbreviation DestRegister := Z (only parsing).

Definition DestRegisterType (r : DestRegister) : RegisterType :=
  if r <? 16 then Output else Temporary.

Definition DestIndex (r : DestRegister) : Z :=
  if r <? 16 then r else r - 16.

(** Comparison operators of CMP, in the order of the recompiler's
    [cmp] table. *)
Module CompareOp.
Definition Equal : Z := 0.
Definition NotEqual : Z := 1.
Definition LessThan : Z := 2.
Definition LessEqual : Z := 3.
Definition GreaterThan : Z := 4.
Definition GreaterEqual : Z := 5.
End CompareOp.

Inductive FlowControlType := Or | And | JustX | JustY.

Record CommonFields := mkCommon {
  operand_desc_id : Z;
  src1 : SourceRegister;
  src2 : SourceRegister;
  src1i : SourceRegister;
  src2i : SourceRegister;
  address_register_index : Z;
  compare_op_x : Z;
  compare_op_y : Z;
  dest : DestRegister
}.

Record FlowControlFields := mkFlow {
  num_instructions : Z;
  dest_offset : Z;
  op : FlowControlType;
  bool_uniform_id : Z;
  int_uniform_id : Z;
  refx : Z;
  refy : Z
}.

Record MadFields := mkMad {
  mad_operand_desc_id : Z;
  mad_src1 : SourceRegister;
  mad_src2 : SourceRegister;
  mad_src3 : SourceRegister;
  mad_src2i : SourceRegister;
  mad_src3i : SourceRegister;
  mad_dest : DestRegister
}.

Record Instruction := mkInstruction {
  opcode : Z;
  common : CommonFields;
  flow_control : FlowControlFields;
  mad : MadFields
}.

(** The decoded operand descriptor. *)
Record SwizzlePattern := mkSwizzle {
  dest_mask : Z;
  negate_src1 : bool;
  src1_selector : Z;
  negate_src2 : bool;
  src2_selector : Z;
  negate_src3 : bool;
  src3_selector : Z
}.

Definition GetRawSelector (swiz : SwizzlePattern) (src_num : Z) : Z :=
  match src_num with
  | 1 => src1_selector swiz
  | 2 => src2_selector swiz
  | _ => src3_selector swiz
  end.

(** Modelled from the spec: [SwizzlePattern::DestComponentEnabled] of the
    absent [shader_bytecode.h].  Component 0 (X) is the most significant
    bit of the 4-bit mask, as the BLENDPS immediate of
    [Compile_DestEnable] also reads it. *)
Definition DestComponentEnabled (swiz : SwizzlePattern) (i : Z) : bool :=
  negb (Z.land (dest_mask swiz) (Z.shiftr 8 i) =? 0).

Definition default_common : CommonFields := mkCommon 0 0 0 0 0 0 0 0 0.
Definition default_flow : FlowControlFields := mkFlow 0 0 Or 0 0 0 0.
Definition default_mad : MadFields := mkMad 0 0 0 0 0 0 0.
Definition default_swizzle : SwizzlePattern :=
  mkSwizzle 15 false 27 false 27 false 27.

(** An instruction of the common form. *)
Definition common_instr (opc : Z) (c : CommonFields) : Instruction :=
  mkInstruction opc c default_flow default_mad.

(** An instruction of the flow-control form. *)
Definition flow_instr (opc : Z) (f : FlowControlFields) : Instruction :=
  mkInstruction opc default_common f default_mad.

(** An instruction of the MAD form. *)
Definition mad_instr (opc : Z) (m : MadFields) : Instruction :=
  mkInstruction opc default_common default_flow m.

Definition nop_instr : Instruction :=
  mkInstruction OpCode.NOP default_common default_flow default_mad.

Definition end_instr : Instruction :=
  mkInstruction OpCode.END default_common default_flow default_mad.

End Pica.

(** ** The host: registers, operands and the instructions the emitter is
    asked for *)

Module X64.

(** [Gen::X64Reg] names general-purpose and vector registers alike. *)
Inductive X64Reg :=
  | RAX | RBX | RCX | RDX | RSI | RDI | R8 | R9 | R10 | R11 | R12 | R13
  | R14 | R15
  | XMM0 | XMM1 | XMM2 | XMM3 | XMM4 | XMM14 | XMM15.

(** The number of a register in the enumeration. *)
Definition reg_index (r : X64Reg) : Z :=
  match r with
  | RAX => 0 | RBX => 1 | RCX => 2 | RDX => 3 | RSI => 4 | RDI => 5
  | R8 => 6 | R9 => 7 | R10 => 8 | R11 => 9 | R12 => 10 | R13 => 11
  | R14 => 12 | R15 => 13
  | XMM0 => 14 | XMM1 => 15 | XMM2 => 16 | XMM3 => 17 | XMM4 => 18
  | XMM14 => 19 | XMM15 => 20
  end.

Definition reg_eqb (a b : X64Reg) : bool := reg_index a =? reg_index b.

Inductive OpArg :=
  | R (r : X64Reg)
  | MDisp (base : X64Reg) (disp : Z)
  | MComplex (base index : X64Reg) (scale disp : Z)
  | Imm8 (v : Z)
  | Imm32 (v : Z)
  | ImmPtr (p : Z).

Inductive CCFlags := CC_Z | CC_NZ.

(** The comparison predicates of CMPPS and CMPSS. *)
Inductive SSECompare :=
  | CMP_EQ | CMP_LT | CMP_LE | CMP_UNORD | CMP_NEQ | CMP_NLT | CMP_NLE
  | CMP_ORD.

(** One constructor per emitter method the recompiler calls. *)
Inductive Instr :=
  | MOVAPS (dest : X64Reg) (arg : OpArg)
  | MOVAPS_store (arg : OpArg) (src : X64Reg)
  | SHUFPS (dest : X64Reg) (arg : OpArg) (imm : Z)
  | XORPS (dest : X64Reg) (arg : OpArg)
  | ANDPS (dest : X64Reg) (arg : OpArg)
  | ADDPS (dest : X64Reg) (arg : OpArg)
  | MULPS (dest : X64Reg) (arg : OpArg)
  | MAXPS (dest : X64Reg) (arg : OpArg)
  | MINPS (dest : X64Reg) (arg : OpArg)
  | DPPS (dest : X64Reg) (arg : OpArg) (imm : Z)
  | ROUNDFLOORPS (dest : X64Reg) (arg : OpArg)
  | CVTPS2DQ (dest : X64Reg) (arg : OpArg)
  | CVTDQ2PS (dest : X64Reg) (arg : OpArg)
  | RCPPS (dest : X64Reg) (arg : OpArg)
  | RSQRTPS (dest : X64Reg) (arg : OpArg)
  | CMPSS (dest : X64Reg) (arg : OpArg) (pred : SSECompare)
  | CMPPS (dest : X64Reg) (arg : OpArg) (pred : SSECompare)
  | BLENDPS (dest : X64Reg) (arg : OpArg) (imm : Z)
  | UNPCKHPS (dest : X64Reg) (arg : OpArg)
  | UNPCKLPS (dest : X64Reg) (arg : OpArg)
  | VFMADD213PS (a b : X64Reg) (arg : OpArg)
  | MOVQ_xmm (arg : OpArg) (src : X64Reg)
  | MOVSX (dbits sbits : Z) (dest : X64Reg) (arg : OpArg)
  | MOVZX (dbits sbits : Z) (dest : X64Reg) (arg : OpArg)
  | MOV (bits : Z) (a1 a2 : OpArg)
  | SHR (bits : Z) (dest shift : OpArg)
  | SHL (bits : Z) (dest shift : OpArg)
  | XOR (bits : Z) (a1 a2 : OpArg)
  | OR (bits : Z) (a1 a2 : OpArg)
  | AND (bits : Z) (a1 a2 : OpArg)
  | ADD (bits : Z) (a1 a2 : OpArg)
  | SUB (bits : Z) (a1 a2 : OpArg)
  | CMP (bits : Z) (a1 a2 : OpArg)
  | ABI_PushAllCalleeSavedRegsAndAdjustStack
  | ABI_PopAllCalleeSavedRegsAndAdjustStack
  | RET.

(** Emitted code.  [J_CC_skip cc body] is
    [b = J_CC(cc, true); body; SetJumpTarget(b)];
    [J_CC_else cc thn els] is
    [b = J_CC(cc, true); thn; b2 = J(true); SetJumpTarget(b); els;
     SetJumpTarget(b2)];
    [J_CC_loop body cc] is
    [loop_start = GetCodePtr(); body; J_CC(cc, loop_start)]. *)
Inductive Code :=
  | Skip
  | Emit (i : Instr)
  | Seq (c1 c2 : Code)
  | J_CC_skip (cc : CCFlags) (body : Code)
  | J_CC_else (cc : CCFlags) (thn els : Code)
  | J_CC_loop (body : Code) (cc : CCFlags).

Fixpoint emit_all (l : list Instr) : Code :=
  match l with
  | [] => Skip
  | i :: l' => Seq (Emit i) (emit_all l')
  end.

(** What the host leaves open: the approximations RCPPS and RSQRTPS
    return (any value within 1.5 * 2^-12 relative error). *)
Record Host := mkHost {
  rcp_lane : Z -> Z;
  rsqrt_lane : Z -> Z
}.

(** Machine state.  Memory is kept per access width: 128-bit slots at
    16-byte aligned addresses (the register file, the float uniforms,
    the constants of the prologue) and bytes (the boolean and integer
    uniforms).  An access outside what is mapped is a fault. *)
Record State := mkState {
  gpr : X64Reg -> Z;
  xmm : X64Reg -> Vec4;
  zf : bool;
  vmem : gmap Z Vec4;
  bmem : gmap Z Z
}.

Inductive Outcome :=
  | Next (s : State)
  | Returned (s : State)
  | Fault
  | OutOfFuel.

(** The state an outcome carries, or [d]. *)
Definition state_of (o : Outcome) (d : State) : State :=
  match o with
  | Next s | Returned s => s
  | _ => d
  end.

Definition set_gpr (s : State) (r : X64Reg) (v : Z) : State :=
  mkState (fun r' => if reg_eqb r' r then v else gpr s r')
          (xmm s) (zf s) (vmem s) (bmem s).

Definition set_xmm (s : State) (r : X64Reg) (v : Vec4) : State :=
  mkState (gpr s) (fun r' => if reg_eqb r' r then v else xmm s r')
          (zf s) (vmem s) (bmem s).

Definition set_zf (s : State) (b : bool) : State :=
  mkState (gpr s) (xmm s) b (vmem s) (bmem s).

Definition set_vmem (s : State) (m : gmap Z Vec4) : State :=
  mkState (gpr s) (xmm s) (zf s) m (bmem s).

Definition set_bmem (s : State) (m : gmap Z Z) : State :=
  mkState (gpr s) (xmm s) (zf s) (vmem s) m.

(** The effective address of a memory operand. *)
Definition effective_address (s : State) (arg : OpArg) : option Z :=
  match arg with
  | MDisp base disp => Some (Bits.wrap64 (gpr s base + disp))
  | MComplex base index scale disp =>
      Some (Bits.wrap64 (gpr s base + gpr s index * scale + disp))
  | _ => None
  end.

(** MOVAPS faults on an address that is not 16-byte aligned. *)
Definition load128 (s : State) (a : Z) : option Vec4 :=
  if a mod 16 =? 0 then vmem s !! a else None.

Definition store128 (s : State) (a : Z) (v : Vec4) : option State :=
  if a mod 16 =? 0 then
    match vmem s !! a with
    | Some _ => Some (set_vmem s (<[a := v]> (vmem s)))
    | None => None
    end
  else None.

(** Little-endian load of [n] bytes. *)
Fixpoint load_bytes (m : gmap Z Z) (a : Z) (n : nat) : option Z :=
  match n with
  | O => Some 0
  | S n' =>
      match m !! a, load_bytes m (a + 1) n' with
      | Some b, Some rest => Some (b + 256 * rest)
      | _, _ => None
      end
  end.

Fixpoint store_bytes (m : gmap Z Z) (a v : Z) (n : nat) : option (gmap Z Z) :=
  match n with
  | O => Some m
  | S n' =>
      match m !! a with
      | Some _ => store_bytes (<[a := v mod 256]> m) (a + 1) (v / 256) n'
      | None => None
      end
  end.

(** The value of a vector operand. *)
Definition read_xmm (s : State) (arg : OpArg) : option Vec4 :=
  match arg with
  | R r => Some (xmm s r)
  | MDisp _ _ | MComplex _ _ _ _ =>
      match effective_address s arg with
      | Some a => load128 s a
      | None => None
      end
  | _ => None
  end.

(** The value of an integer operand of width [bits]; immediates are
    sign-extended to the width. *)
Definition read_int (bits : Z) (s : State) (arg : OpArg) : option Z :=
  match arg with
  | R r => Some (Bits.wrap bits (gpr s r))
  | Imm8 v => Some (Bits.wrap bits (Bits.signed 8 v))
  | Imm32 v => Some (Bits.wrap bits (Bits.signed 32 v))
  | ImmPtr p => Some (Bits.wrap bits p)
  | MDisp _ _ | MComplex _ _ _ _ =>
      match effective_address s arg with
      | Some a => load_bytes (bmem s) a (Z.to_nat (bits / 8))
      | None => None
      end
  end.

(** Writing an integer result: a 32-bit write to a register clears its
    upper half, narrower writes keep the rest of the register. *)
Definition write_int (bits : Z) (s : State) (arg : OpArg) (v : Z)
  : option State :=
  match arg with
  | R r =>
      if (bits =? 64) || (bits =? 32) then Some (set_gpr s r (Bits.wrap bits v))
      else Some (set_gpr s r (gpr s r - Bits.wrap bits (gpr s r) + Bits.wrap bits v))
  | MDisp _ _ | MComplex _ _ _ _ =>
      match effective_address s arg with
      | Some a =>
          match store_bytes (bmem s) a (Bits.wrap bits v) (Z.to_nat (bits / 8)) with
          | Some m => Some (set_bmem s m)
          | None => None
          end
      | None => None
      end
  | _ => None
  end.

Definition of_option (o : option State) : Outcome :=
  match o with
  | Some s => Next s
  | None => Fault
  end.

(** A vector instruction [dest <- f dest arg]. *)
Definition sse2 (f : Vec4 -> Vec4 -> Vec4) (s : State) (dest : X64Reg)
  (arg : OpArg) : Outcome :=
  match read_xmm s arg with
  | Some b => Next (set_xmm s dest (f (xmm s dest) b))
  | None => Fault
  end.

(** A vector instruction [dest <- f arg]. *)
Definition sse1 (f : Vec4 -> Vec4) (s : State) (dest : X64Reg) (arg : OpArg)
  : Outcome :=
  match read_xmm s arg with
  | Some b => Next (set_xmm s dest (f b))
  | None => Fault
  end.

(** An integer instruction [a1 <- f a1 a2] that sets the zero flag. *)
Definition alu (bits : Z) (f : Z -> Z -> Z) (s : State) (a1 a2 : OpArg)
  : Outcome :=
  match read_int bits s a1, read_int bits s a2 with
  | Some x, Some y =>
      let r := Bits.wrap bits (f x y) in
      match write_int bits s a1 r with
      | Some s' => Next (set_zf s' (r =? 0))
      | None => Fault
      end
  | _, _ => Fault
  end.

(** Shifts mask their count to 5 bits (6 for a 64-bit operand) and leave
    the flags alone when the masked count is zero. *)
Definition shift (bits : Z) (f : Z -> Z -> Z) (s : State) (dest sh : OpArg)
  : Outcome :=
  match read_int bits s dest, read_int 8 s sh with
  | Some x, Some c =>
      let c' := Z.land c (if bits =? 64 then 63 else 31) in
      let r := Bits.wrap bits (f x c') in
      match write_int bits s dest r with
      | Some s' => Next (if c' =? 0 then s' else set_zf s' (r =? 0))
      | None => Fault
      end
  | _, _ => Fault
  end.

Definition all_ones : Z := 4294967295.

Definition compare (pred : SSECompare) (a b : Z) : bool :=
  match pred with
  | CMP_EQ => F32.eqb a b
  | CMP_LT => F32.ltb a b
  | CMP_LE => F32.leb a b
  | CMP_UNORD => F32.unordered a b
  | CMP_NEQ => negb (F32.eqb a b)
  | CMP_NLT => negb (F32.ltb a b)
  | CMP_NLE => negb (F32.leb a b)
  | CMP_ORD => negb (F32.unordered a b)
  end.

Definition compare_mask (pred : SSECompare) (a b : Z) : Z :=
  if compare pred a b then all_ones else 0.

Definition shufps (imm : Z) (a b : Vec4) : Vec4 :=
  mkVec4 (Vec.lane a (Z.land imm 3))
         (Vec.lane a (Z.land (Z.shiftr imm 2) 3))
         (Vec.lane b (Z.land (Z.shiftr imm 4) 3))
         (Vec.lane b (Z.land (Z.shiftr imm 6) 3)).

Definition blendps (imm : Z) (a b : Vec4) : Vec4 :=
  mkVec4 (if Z.testbit imm 0 then vx b else vx a)
         (if Z.testbit imm 1 then vy b else vy a)
         (if Z.testbit imm 2 then vz b else vz a)
         (if Z.testbit imm 3 then vw b else vw a).

(** DPPS: bits 4..7 of the immediate choose the products that enter the
    sum, bits 0..3 the lanes that receive it (the others are zeroed). *)
Definition dpps (imm : Z) (a b : Vec4) : Vec4 :=
  let p i := if Z.testbit imm (4 + i)
             then F32.mul (Vec.lane a i) (Vec.lane b i) else 0 in
  let sum := F32.add (F32.add (p 0) (p 1)) (F32.add (p 2) (p 3)) in
  let out i := if Z.testbit imm i then sum else 0 in
  mkVec4 (out 0) (out 1) (out 2) (out 3).

Definition cmpss (pred : SSECompare) (a b : Vec4) : Vec4 :=
  mkVec4 (compare_mask pred (vx a) (vx b)) (vy a) (vz a) (vw a).

Definition unpckhps (a b : Vec4) : Vec4 := mkVec4 (vz a) (vz b) (vw a) (vw b).
Definition unpcklps (a b : Vec4) : Vec4 := mkVec4 (vx a) (vx b) (vy a) (vy b).

(** One emitted instruction. *)
Definition step (h : Host) (i : Instr) (s : State) : Outcome :=
  match i with
  | MOVAPS dest arg => sse1 (fun b => b) s dest arg
  | MOVAPS_store arg src =>
      match effective_address s arg with
      | Some a => of_option (store128 s a (xmm s src))
      | None => Fault
      end
  | SHUFPS dest arg imm => sse2 (shufps imm) s dest arg
  | XORPS dest arg => sse2 (Vec.map2 Z.lxor) s dest arg
  | ANDPS dest arg => sse2 (Vec.map2 Z.land) s dest arg
  | ADDPS dest arg => sse2 (Vec.map2 F32.add) s dest arg
  | MULPS dest arg => sse2 (Vec.map2 F32.mul) s dest arg
  | MAXPS dest arg => sse2 (Vec.map2 F32.maxps) s dest arg
  | MINPS dest arg => sse2 (Vec.map2 F32.minps) s dest arg
  | DPPS dest arg imm => sse2 (dpps imm) s dest arg
  | ROUNDFLOORPS dest arg => sse1 (Vec.map F32.roundfloor) s dest arg
  | CVTPS2DQ dest arg => sse1 (Vec.map F32.cvtps2dq) s dest arg
  | CVTDQ2PS dest arg => sse1 (Vec.map F32.cvtdq2ps) s dest arg
  | RCPPS dest arg => sse1 (Vec.map (rcp_lane h)) s dest arg
  | RSQRTPS dest arg => sse1 (Vec.map (rsqrt_lane h)) s dest arg
  | CMPSS dest arg pred => sse2 (cmpss pred) s dest arg
  | CMPPS dest arg pred => sse2 (Vec.map2 (compare_mask pred)) s dest arg
  | BLENDPS dest arg imm => sse2 (blendps imm) s dest arg
  | UNPCKHPS dest arg => sse2 unpckhps s dest arg
  | UNPCKLPS dest arg => sse2 unpcklps s dest arg
  | VFMADD213PS a b arg =>
      match read_xmm s arg with
      | Some c => Next (set_xmm s a (Vec.map3 F32.fma (xmm s b) (xmm s a) c))
      | None => Fault
      end
  | MOVQ_xmm arg src => of_option (write_int 64 s arg (Vec.low64 (xmm s src)))
  | MOVSX dbits sbits dest arg =>
      match read_int sbits s arg with
      | Some v => of_option (write_int dbits s (R dest) (Bits.signed sbits v))
      | None => Fault
      end
  | MOVZX dbits sbits dest arg =>
      match read_int sbits s arg with
      | Some v => of_option (write_int dbits s (R dest) v)
      | None => Fault
      end
  | MOV bits a1 a2 =>
      match read_int bits s a2 with
      | Some v => of_option (write_int bits s a1 v)
      | None => Fault
      end
  | SHR bits dest sh => shift bits Z.shiftr s dest sh
  | SHL bits dest sh => shift bits Z.shiftl s dest sh
  | XOR bits a1 a2 => alu bits Z.lxor s a1 a2
  | OR bits a1 a2 => alu bits Z.lor s a1 a2
  | AND bits a1 a2 => alu bits Z.land s a1 a2
  | ADD bits a1 a2 => alu bits Z.add s a1 a2
  | SUB bits a1 a2 => alu bits Z.sub s a1 a2
  | CMP bits a1 a2 =>
      match read_int bits s a1, read_int bits s a2 with
      | Some x, Some y => Next (set_zf s (Bits.wrap bits (x - y) =? 0))
      | _, _ => Fault
      end
  | ABI_PushAllCalleeSavedRegsAndAdjustStack => Next s
  | ABI_PopAllCalleeSavedRegsAndAdjustStack => Next s
  | RET => Returned s
  end.

Definition test_cc (cc : CCFlags) (s : State) : bool :=
  match cc with
  | CC_Z => zf s
  | CC_NZ => negb (zf s)
  end.

(** A backward branch: the body runs, then again as long as the
    condition holds; [n] bounds the number of passes. *)
Fixpoint loop_back (body : State -> Outcome) (cc : CCFlags) (n : nat)
  (s : State) : Outcome :=
  match n with
  | O => OutOfFuel
  | S n' =>
      match body s with
      | Next s' => if test_cc cc s' then loop_back body cc n' s' else Next s'
      | o => o
      end
  end.

(** Execution of emitted code.  [fuel] bounds the number of passes of
    each loop; code without a backward branch ignores it. *)
Fixpoint exec (h : Host) (c : Code) (fuel : nat) (s : State) : Outcome :=
  match c with
  | Skip => Next s
  | Emit i => step h i s
  | Seq c1 c2 =>
      match exec h c1 fuel s with
      | Next s' => exec h c2 fuel s'
      | o => o
      end
  | J_CC_skip cc body =>
      if test_cc cc s then Next s else exec h body fuel s
  | J_CC_else cc thn els =>
      if test_cc cc s then exec h els fuel s else exec h thn fuel s
  | J_CC_loop body cc => loop_back (exec h body fuel) cc fuel s
  end.

End X64.

(** ** The recompiler ([shader_jit_x64.cpp]) *)

Module Jit.

Import Pica X64.

Inductive AssertMsg :=
  | Backwards_if_statements_not_supported
  | Backwards_loops_not_supported
  | Nested_loops_not_supported
  | Backwards_jumps_not_supported.

(** How a compilation can end without code: a failed [ASSERT_MSG], an
    [UNREACHABLE()], a read outside an array, or the recursion bound of
    this embedding. *)
Inductive Error :=
  | AssertFailed (msg : AssertMsg)
  | Unreachable
  | OutOfBounds
  | OutOfFuel.

Inductive Result (A : Type) :=
  | Ok (a : A)
  | Err (e : Error).
Arguments Ok {A} a.
Arguments Err {A} e.

Definition bind {A B : Type} (r : Result A) (k : A -> Result B) : Result B :=
  match r with
  | Ok a => k a
  | Err e => Err e
  end.

Notation "'let?' p ':=' r 'in' k" := (bind r (fun p => k))
  (at level 10, p pattern, r at level 100, k at level 200).

Definition is_assert {A : Type} (r : Result A) : bool :=
  match r with
  | Err (AssertFailed _) => true
  | _ => false
  end.

(** [Common::GetCPUCaps()]. *)
Record CPUCaps := mkCaps { sse4_1 : bool; fma : bool }.

(** What the recompiler reads from [g_state] and from the host: the
    program, the operand descriptors, the entry offset, the features of
    the CPU and the addresses it embeds as immediates.
    [program_code] and [swizzle_data] are arrays of 1024 words in
    [pica.h]; the lists may have any length, and [program_code.size()]
    is the length of the list. *)
Record Globals := mkGlobals {
  program_code : list Instruction;
  swizzle_data : list SwizzlePattern;
  main_offset : Z;
  caps : CPUCaps;
  uniforms_ptr : Z;
  one_ptr : Z;
  neg_ptr : Z
}.

(** The handlers [instr_table] points to. *)
Inductive JitFunction :=
  | F_ADD | F_DP3 | F_DP4 | F_MUL | F_FLR | F_MAX | F_MIN | F_RCP | F_RSQ
  | F_MOVA | F_MOV | F_SLTI | F_NOP | F_END | F_CALL | F_CALLC | F_CALLU
  | F_IF | F_LOOP | F_JMP | F_CMP | F_MAD.

Definition instr_table : list (option JitFunction) :=
  [ Some F_ADD;      (* add *)
    Some F_DP3;      (* dp3 *)
    Some F_DP4;      (* dp4 *)
    None;            (* dph *)
    None;            (* unknown *)
    None;            (* ex2 *)
    None;            (* lg2 *)
    None;            (* unknown *)
    Some F_MUL;      (* mul *)
    None;            (* lge *)
    None;            (* slt *)
    Some F_FLR;      (* flr *)
    Some F_MAX;      (* max *)
    Some F_MIN;      (* min *)
    Some F_RCP;      (* rcp *)
    Some F_RSQ;      (* rsq *)
    None;            (* unknown *)
    None;            (* unknown *)
    Some F_MOVA;     (* mova *)
    Some F_MOV;      (* mov *)
    None;            (* unknown *)
    None;            (* unknown *)
    None;            (* unknown *)
    None;            (* unknown *)
    None;            (* dphi *)
    None;            (* unknown *)
    None;            (* sgei *)
    Some F_SLTI;     (* slti *)
    None;            (* unknown *)
    None;            (* unknown *)
    None;            (* unknown *)
    None;            (* unknown *)
    None;            (* unknown *)
    Some F_NOP;      (* nop *)
    Some F_END;      (* end *)
    None;            (* break *)
    Some F_CALL;     (* call *)
    Some F_CALLC;    (* callc *)
    Some F_CALLU;    (* callu *)
    Some F_IF;       (* ifu *)
    Some F_IF;       (* ifc *)
    Some F_LOOP;     (* loop *)
    None;            (* emit *)
    None;            (* sete *)
    Some F_JMP;      (* jmpc *)
    Some F_JMP;      (* jmpu *)
    Some F_CMP;      (* cmp *)
    Some F_CMP;      (* cmp *)
    Some F_MAD;      (* madi *)
    Some F_MAD;      (* madi *)
    Some F_MAD;      (* madi *)
    Some F_MAD;      (* madi *)
    Some F_MAD;      (* madi *)
    Some F_MAD;      (* madi *)
    Some F_MAD;      (* madi *)
    Some F_MAD;      (* madi *)
    Some F_MAD;      (* mad *)
    Some F_MAD;      (* mad *)
    Some F_MAD;      (* mad *)
    Some F_MAD;      (* mad *)
    Some F_MAD;      (* mad *)
    Some F_MAD;      (* mad *)
    Some F_MAD;      (* mad *)
    Some F_MAD       (* mad *) ].

(** Pointer to the uniform memory *)
Definition UNIFORMS : X64Reg := R9.
(** The two 32-bit VS address offset registers set by the MOVA instruction *)
Definition ADDROFFS_REG_0 : X64Reg := R10.
Definition ADDROFFS_REG_1 : X64Reg := R11.
(** VS loop count register *)
Definition LOOPCOUNT_REG : X64Reg := R12.
(** Current VS loop iteration number *)
Definition LOOPCOUNT : X64Reg := RSI.
(** Number to increment LOOPCOUNT_REG by on each loop iteration *)
Definition LOOPINC : X64Reg := RDI.
(** Result of the previous CMP instruction for the X-component comparison *)
Definition COND0 : X64Reg := R13.
(** Result of the previous CMP instruction for the Y-component comparison *)
Definition COND1 : X64Reg := R14.
(** Pointer to the UnitState instance for the current VS unit *)
Definition REGISTERS : X64Reg := R15.
(** SIMD scratch register *)
Definition SCRATCH : X64Reg := XMM0.
Definition SRC1 : X64Reg := XMM1.
Definition SRC2 : X64Reg := XMM2.
Definition SRC3 : X64Reg := XMM3.
(** Constant vector of [1.0f, 1.0f, 1.0f, 1.0f] *)
Definition ONE : X64Reg := XMM14.
(** Constant vector of [-0.f, -0.f, -0.f, -0.f] *)
Definition NEGBIT : X64Reg := XMM15.

(** The first integer argument of the host calling convention
    (System V). *)
Definition ABI_PARAM1 : X64Reg := RDI.

Definition NO_SRC_REG_SWIZZLE : Z := 27.   (* 0x1b *)
Definition NO_DEST_REG_MASK : Z := 15.     (* 0xf *)

(** Modelled from the spec: [UnitState::Registers] of the absent
    [shader.h] holds 16 input, 16 output and 16 temporary vectors of
    four lanes, 16 bytes each, in that order. *)
Definition sizeof_Vec4 : Z := 16.
Definition offsetof_input : Z := 0.
Definition offsetof_output : Z := 256.
Definition offsetof_temporary : Z := 512.

(** Modelled from the spec: [UnitState::InputOffset] of the absent
    [shader.h], the byte offset of a source register inside
    [UnitState::Registers]. *)
Definition InputOffset (reg : SourceRegister) : Z :=
  match GetRegisterType reg with
  | Input => offsetof_input + GetIndex reg * sizeof_Vec4
  | Temporary => offsetof_temporary + GetIndex reg * sizeof_Vec4
  | _ => 0
  end.

(** Modelled from the spec: [UnitState::OutputOffset] of the absent
    [shader.h], the byte offset of a destination register. *)
Definition OutputOffset (reg : DestRegister) : Z :=
  match DestRegisterType reg with
  | Output => offsetof_output + DestIndex reg * sizeof_Vec4
  | _ => offsetof_temporary + DestIndex reg * sizeof_Vec4
  end.

(** Modelled from the spec: the uniform bank of the absent [pica.h]
    holds 96 float vectors, then 16 booleans of one byte, then 4 integer
    vectors of four bytes. *)
Definition offsetof_uniforms_f : Z := 0.
Definition offsetof_uniforms_b : Z := 1536.
Definition offsetof_uniforms_i : Z := 1552.

(** The zero word of the [swizzle_data] array. *)
Definition zero_swizzle : SwizzlePattern :=
  mkSwizzle 0 false 0 false 0 false 0.

Section WithGlobals.

Variable g : Globals.

Definition swizzle_at (operand_desc_id : Z) : SwizzlePattern :=
  default zero_swizzle (swizzle_data g !! Z.to_nat operand_desc_id).

Definition is_mad (instr : Instruction) : bool :=
  (OpCode.EffectiveOpCode (opcode instr) =? OpCode.MAD)
  || (OpCode.EffectiveOpCode (opcode instr) =? OpCode.MADI).

(** The load of [Compile_SwizzleSrc]: a plain displacement, or base plus
    one of the three offset registers. *)
Definition Compile_SwizzleSrc_load (instr : Instruction) (src_num : Z)
  (src_reg : SourceRegister) (dest : X64Reg) : Result Instr :=
  let '(src_ptr, src_offset) :=
    match GetRegisterType src_reg with
    | FloatUniform => (UNIFORMS, GetIndex src_reg * sizeof_Vec4)
    | _ => (REGISTERS, InputOffset src_reg)
    end in
  if is_mad instr then
    (* The MAD and MADI instructions do not use the address offset
       registers *)
    Ok (MOVAPS dest (MDisp src_ptr src_offset))
  else
    let is_inverted := OpCode.SrcInversed (opcode instr) in
    let offset_src := if is_inverted then 2 else 1 in
    if (src_num =? offset_src)
       && negb (address_register_index (common instr) =? 0) then
      match address_register_index (common instr) with
      | 1 => Ok (MOVAPS dest (MComplex src_ptr ADDROFFS_REG_0 1 src_offset))
      | 2 => Ok (MOVAPS dest (MComplex src_ptr ADDROFFS_REG_1 1 src_offset))
      | 3 => Ok (MOVAPS dest (MComplex src_ptr LOOPCOUNT_REG 1 src_offset))
      | _ => Err Unreachable
      end
    else Ok (MOVAPS dest (MDisp src_ptr src_offset)).

(** Selector component order reversed for the SHUFPS instruction. *)
Definition reverse_selector (sel : Z) : Z :=
  Bits.wrap8
    (Z.lor (Z.lor (Z.lor (Z.shiftr (Z.land sel 192) 6)
                         (Z.shiftl (Z.land sel 3) 6))
                  (Z.shiftl (Z.land sel 12) 2))
           (Z.shiftr (Z.land sel 48) 2)).

(** The negate flag of source [src_num] (1, 2 or 3). *)
Definition negate_of (swiz : SwizzlePattern) (src_num : Z) : bool :=
  match src_num with
  | 1 => negate_src1 swiz
  | 2 => negate_src2 swiz
  | _ => negate_src3 swiz
  end.

(** The shuffle and the sign flip that follow the load. *)
Definition Compile_SwizzleSrc_swizzle (instr : Instruction) (src_num : Z)
  (dest : X64Reg) : Code :=
  let operand_desc_id :=
    if is_mad instr then mad_operand_desc_id (mad instr)
    else operand_desc_id (common instr) in
  let swiz := swizzle_at operand_desc_id in
  let sel := GetRawSelector swiz src_num in
  Seq (if sel =? NO_SRC_REG_SWIZZLE then Skip
       else Emit (SHUFPS dest (R dest) (reverse_selector sel)))
      (if negate_of swiz src_num then Emit (XORPS dest (R NEGBIT)) else Skip).

Definition Compile_SwizzleSrc (instr : Instruction) (src_num : Z)
  (src_reg : SourceRegister) (dest : X64Reg) : Result Code :=
  let? load := Compile_SwizzleSrc_load instr src_num src_reg dest in
  Ok (Seq (Emit load) (Compile_SwizzleSrc_swizzle instr src_num dest)).

Definition blend_mask (dest_mask : Z) : Z :=
  Bits.wrap8
    (Z.lor (Z.lor (Z.lor (Z.shiftl (Z.land dest_mask 1) 3)
                         (Z.shiftr (Z.land dest_mask 8) 3))
                  (Z.shiftl (Z.land dest_mask 2) 1))
           (Z.shiftr (Z.land dest_mask 4) 1)).

Definition shuffle_selector (swiz : SwizzlePattern) : Z :=
  Bits.wrap8
    (Z.lor (Z.lor (Z.lor
      (Z.shiftl (if DestComponentEnabled swiz 0 then 1 else 0) 0)
      (Z.shiftl (if DestComponentEnabled swiz 1 then 3 else 2) 2))
      (Z.shiftl (if DestComponentEnabled swiz 2 then 0 else 1) 4))
      (Z.shiftl (if DestComponentEnabled swiz 3 then 2 else 3) 6)).

Definition Compile_DestEnable (instr : Instruction) (src : X64Reg) : Code :=
  let '(operand_desc_id, dest) :=
    if is_mad instr then (mad_operand_desc_id (mad instr), mad_dest (mad instr))
    else (operand_desc_id (common instr), Pica.dest (common instr)) in
  let swiz := swizzle_at operand_desc_id in
  if dest_mask swiz =? NO_DEST_REG_MASK then
    Emit (MOVAPS_store (MDisp REGISTERS (OutputOffset dest)) src)
  else
    Seq (Emit (MOVAPS SCRATCH (MDisp REGISTERS (OutputOffset dest))))
   (Seq (if sse4_1 (caps g) then
           Emit (BLENDPS SCRATCH (R src) (blend_mask (dest_mask swiz)))
         else
           emit_all [ MOVAPS XMM4 (R src);
                      UNPCKHPS XMM4 (R SCRATCH);
                      UNPCKLPS SCRATCH (R src);
                      SHUFPS SCRATCH (R XMM4) (shuffle_selector swiz) ])
        (Emit (MOVAPS_store (MDisp REGISTERS (OutputOffset dest)) SCRATCH))).

Definition Compile_EvaluateCondition (instr : Instruction) : Code :=
  let fc := flow_control instr in
  match op fc with
  | Or =>
      emit_all [ MOV 32 (R RAX) (R COND0);
                 MOV 32 (R RBX) (R COND1);
                 XOR 32 (R RAX) (Imm32 (Z.lxor (refx fc) 1));
                 XOR 32 (R RBX) (Imm32 (Z.lxor (refy fc) 1));
                 OR 32 (R RAX) (R RBX) ]
  | And =>
      emit_all [ MOV 32 (R RAX) (R COND0);
                 MOV 32 (R RBX) (R COND1);
                 XOR 32 (R RAX) (Imm32 (Z.lxor (refx fc) 1));
                 XOR 32 (R RBX) (Imm32 (Z.lxor (refy fc) 1));
                 AND 32 (R RAX) (R RBX) ]
  | JustX =>
      emit_all [ MOV 32 (R RAX) (R COND0);
                 XOR 32 (R RAX) (Imm32 (Z.lxor (refx fc) 1)) ]
  | JustY =>
      emit_all [ MOV 32 (R RAX) (R COND1);
                 XOR 32 (R RAX) (Imm32 (Z.lxor (refy fc) 1)) ]
  end.

Definition Compile_UniformCondition (instr : Instruction) : Code :=
  let offset := offsetof_uniforms_b + bool_uniform_id (flow_control instr) * 1 in
  Emit (CMP 8 (MDisp UNIFORMS offset) (Imm8 0)).

(** The shape shared by the two-source arithmetic handlers. *)
Definition Compile_binary (instr : Instruction) (body : Code) : Result Code :=
  let? s1 := Compile_SwizzleSrc instr 1 (src1 (common instr)) SRC1 in
  let? s2 := Compile_SwizzleSrc instr 2 (src2 (common instr)) SRC2 in
  Ok (Seq s1 (Seq s2 (Seq body (Compile_DestEnable instr SRC1)))).

(** The shape shared by the one-source arithmetic handlers. *)
Definition Compile_unary (instr : Instruction) (body : Code) : Result Code :=
  let? s1 := Compile_SwizzleSrc instr 1 (src1 (common instr)) SRC1 in
  Ok (Seq s1 (Seq body (Compile_DestEnable instr SRC1))).

Definition Compile_ADD (instr : Instruction) : Result Code :=
  Compile_binary instr (Emit (ADDPS SRC1 (R SRC2))).

(** [_MM_SHUFFLE(z, y, x, w)]. *)
Definition MM_SHUFFLE (z y x w : Z) : Z := z * 64 + y * 16 + x * 4 + w.

Definition Compile_DP3 (instr : Instruction) : Result Code :=
  Compile_binary instr
    (if sse4_1 (caps g) then Emit (DPPS SRC1 (R SRC2) 127)
     else emit_all [ MULPS SRC1 (R SRC2);
                     MOVAPS SRC2 (R SRC1);
                     SHUFPS SRC2 (R SRC2) (MM_SHUFFLE 1 1 1 1);
                     MOVAPS SRC3 (R SRC1);
                     SHUFPS SRC3 (R SRC3) (MM_SHUFFLE 2 2 2 2);
                     SHUFPS SRC1 (R SRC1) (MM_SHUFFLE 0 0 0 0);
                     ADDPS SRC1 (R SRC2);
                     ADDPS SRC1 (R SRC3) ]).

Definition Compile_DP4 (instr : Instruction) : Result Code :=
  Compile_binary instr
    (if sse4_1 (caps g) then Emit (DPPS SRC1 (R SRC2) 255)
     else emit_all [ MULPS SRC1 (R SRC2);
                     MOVAPS SRC2 (R SRC1);
                     SHUFPS SRC1 (R SRC1) (MM_SHUFFLE 2 3 0 1);
                     ADDPS SRC1 (R SRC2);
                     MOVAPS SRC2 (R SRC1);
                     SHUFPS SRC1 (R SRC1) (MM_SHUFFLE 0 1 2 3);
                     ADDPS SRC1 (R SRC2) ]).

Definition Compile_MUL (instr : Instruction) : Result Code :=
  Compile_binary instr (Emit (MULPS SRC1 (R SRC2))).

Definition Compile_FLR_body : Code :=
  if sse4_1 (caps g) then Emit (ROUNDFLOORPS SRC1 (R SRC1))
  else emit_all [ CVTPS2DQ SRC1 (R SRC1); CVTDQ2PS SRC1 (R SRC1) ].

Definition Compile_FLR (instr : Instruction) : Result Code :=
  Compile_unary instr Compile_FLR_body.

Definition Compile_MAX (instr : Instruction) : Result Code :=
  Compile_binary instr (Emit (MAXPS SRC1 (R SRC2))).

Definition Compile_MIN (instr : Instruction) : Result Code :=
  Compile_binary instr (Emit (MINPS SRC1 (R SRC2))).

(** The conversion and the writes of the address offset registers that
    follow the source load of MOVA. *)
Definition Compile_MOVA_body (swiz : SwizzlePattern) : Code :=
  Seq (emit_all [ CVTPS2DQ SRC1 (R SRC1);    (* floats to integers *)
                  MOVQ_xmm (R RAX) SRC1 ])   (* get result *)
      (if DestComponentEnabled swiz 0 && DestComponentEnabled swiz 1 then
         emit_all [ MOVSX 64 32 ADDROFFS_REG_0 (R RAX);
                    SHR 64 (R RAX) (Imm8 32);
                    MOVSX 64 32 ADDROFFS_REG_1 (R RAX);
                    (* multiply by 16 to be used as an offset later *)
                    SHL 64 (R ADDROFFS_REG_0) (Imm8 4);
                    SHL 64 (R ADDROFFS_REG_1) (Imm8 4) ]
       else if DestComponentEnabled swiz 0 then
         emit_all [ MOVSX 64 32 ADDROFFS_REG_0 (R RAX);
                    SHL 64 (R ADDROFFS_REG_0) (Imm8 4) ]
       else if DestComponentEnabled swiz 1 then
         emit_all [ SHR 64 (R RAX) (Imm8 32);
                    MOVSX 64 32 ADDROFFS_REG_1 (R RAX);
                    SHL 64 (R ADDROFFS_REG_1) (Imm8 4) ]
       else Skip).

Definition Compile_MOVA (instr : Instruction) : Result Code :=
  let swiz := swizzle_at (operand_desc_id (common instr)) in
  if negb (DestComponentEnabled swiz 0) && negb (DestComponentEnabled swiz 1)
  then Ok Skip   (* NoOp *)
  else
    let? s1 := Compile_SwizzleSrc instr 1 (src1 (common instr)) SRC1 in
    Ok (Seq s1 (Compile_MOVA_body swiz)).

Definition Compile_MOV (instr : Instruction) : Result Code :=
  Compile_unary instr Skip.

Definition Compile_SLTI_body : Code :=
  emit_all [ CMPSS SRC1 (R SRC2) CMP_LT; ANDPS SRC1 (R ONE) ].

Definition Compile_SLTI (instr : Instruction) : Result Code :=
  let? s1 := Compile_SwizzleSrc instr 1 (src1i (common instr)) SRC1 in
  let? s2 := Compile_SwizzleSrc instr 1 (src2i (common instr)) SRC2 in
  Ok (Seq s1 (Seq s2 (Seq Compile_SLTI_body (Compile_DestEnable instr SRC1)))).

Definition Compile_RCP (instr : Instruction) : Result Code :=
  Compile_unary instr (Emit (RCPPS SRC1 (R SRC1))).

Definition Compile_RSQ (instr : Instruction) : Result Code :=
  Compile_unary instr (Emit (RSQRTPS SRC1 (R SRC1))).

Definition Compile_NOP (instr : Instruction) : Result Code := Ok Skip.

Definition Compile_END (instr : Instruction) : Result Code :=
  Ok (emit_all [ ABI_PopAllCalleeSavedRegsAndAdjustStack; RET ]).

(** The table [cmp] of [Compile_CMP]. *)
Definition cmp_table : list SSECompare :=
  [ CMP_EQ; CMP_NEQ; CMP_LT; CMP_LE; CMP_NLE; CMP_NLT ].

Definition cmp_at (compare_op : Z) : Result SSECompare :=
  match cmp_table !! Z.to_nat compare_op with
  | Some p => if 0 <=? compare_op then Ok p else Err OutOfBounds
  | None => Err OutOfBounds
  end.

(** The comparison and the extraction of the two condition codes that
    follow the source loads of CMP. *)
Definition Compile_CMP_body (instr : Instruction) : Result Code :=
  let? px := cmp_at (compare_op_x (common instr)) in
  let? py := cmp_at (compare_op_y (common instr)) in
  Ok (Seq (if compare_op_x (common instr) =? compare_op_y (common instr) then
             (* Compare X-component and Y-component together *)
             emit_all [ CMPPS SRC1 (R SRC2) px;
                        MOVQ_xmm (R COND0) SRC1;
                        MOV 64 (R COND1) (R COND0) ]
           else
             emit_all [ MOVAPS SCRATCH (R SRC1);
                        CMPSS SCRATCH (R SRC2) px;   (* X-component *)
                        CMPPS SRC1 (R SRC2) py;      (* Y-component *)
                        MOVQ_xmm (R COND0) SCRATCH;
                        MOVQ_xmm (R COND1) SRC1 ])
          (emit_all [ SHR 32 (R COND0) (Imm8 31);
                      SHR 64 (R COND1) (Imm8 63) ])).

Definition Compile_CMP (instr : Instruction) : Result Code :=
  let? s1 := Compile_SwizzleSrc instr 1 (src1 (common instr)) SRC1 in
  let? s2 := Compile_SwizzleSrc instr 2 (src2 (common instr)) SRC2 in
  let? body := Compile_CMP_body instr in
  Ok (Seq s1 (Seq s2 body)).

Definition Compile_MAD (instr : Instruction) : Result Code :=
  let? s1 := Compile_SwizzleSrc instr 1 (mad_src1 (mad instr)) SRC1 in
  let? (s2, s3) :=
    (if OpCode.EffectiveOpCode (opcode instr) =? OpCode.MADI then
       let? s2 := Compile_SwizzleSrc instr 2 (mad_src2i (mad instr)) SRC2 in
       let? s3 := Compile_SwizzleSrc instr 3 (mad_src3i (mad instr)) SRC3 in
       Ok (s2, s3)
     else
       let? s2 := Compile_SwizzleSrc instr 2 (mad_src2 (mad instr)) SRC2 in
       let? s3 := Compile_SwizzleSrc instr 3 (mad_src3 (mad instr)) SRC3 in
       Ok (s2, s3)) in
  Ok (Seq s1 (Seq s2 (Seq s3 (Seq
        (if fma (caps g) then Emit (VFMADD213PS SRC1 SRC2 (R SRC3))
         else emit_all [ MULPS SRC1 (R SRC2); ADDPS SRC1 (R SRC3) ])
        (Compile_DestEnable instr SRC1))))).

(** The setup of the loop registers from the integer uniform. *)
Definition Compile_LOOP_init (instr : Instruction) : Code :=
  let offset := offsetof_uniforms_i + int_uniform_id (flow_control instr) * 4 in
  emit_all [ MOV 32 (R LOOPCOUNT) (MDisp UNIFORMS offset);
             MOV 32 (R LOOPCOUNT_REG) (R LOOPCOUNT);
             SHR 32 (R LOOPCOUNT_REG) (Imm8 8);
             AND 32 (R LOOPCOUNT_REG) (Imm32 255);   (* Y-component is the start *)
             MOV 32 (R LOOPINC) (R LOOPCOUNT);
             SHR 32 (R LOOPINC) (Imm8 16);
             MOVZX 32 8 LOOPINC (R LOOPINC);         (* Z-component is the incrementer *)
             MOVZX 32 8 LOOPCOUNT (R LOOPCOUNT);     (* X-component is iteration count *)
             ADD 32 (R LOOPCOUNT) (Imm8 1) ].        (* Iteration count is X-component + 1 *)

(** What follows the body inside the loop, before the backward branch. *)
Definition Compile_LOOP_step : Code :=
  emit_all [ ADD 32 (R LOOPCOUNT_REG) (R LOOPINC);
             SUB 32 (R LOOPCOUNT) (Imm8 1) ].

(** The recursive handlers.  The member [offset_ptr] always points to
    the offset variable of the innermost running [Compile_NextInstr]
    caller, so the offset is passed and returned; [looping] is threaded
    as state.  Each function returns the code it emits, the value its
    caller's offset variable has afterwards, and [looping]. *)
Fixpoint Compile_NextInstr (fuel : nat) (offset : Z) (looping : bool)
  {struct fuel} : Result (Code * Z * bool) :=
  match fuel with
  | O => Err OutOfFuel
  | S fuel' =>
      match (if 0 <=? offset then program_code g !! Z.to_nat offset else None) with
      | None => Err OutOfBounds
      | Some instr =>
          let offset := offset + 1 in        (* post-increment through offset_ptr *)
          let simple (r : Result Code) :=
            let? c := r in Ok (c, offset, looping) in
          let fc := flow_control instr in
          let call :=
            let? (c, l) := Compile_CALL_loop fuel'
                         (dest_offset fc + num_instructions fc)
                         (dest_offset fc) looping in
            Ok (c, l) in
          match default None (instr_table !! Z.to_nat (opcode instr)) with
          | None => Ok (Skip, offset, looping)   (* Unhandled instruction *)
          | Some F_ADD => simple (Compile_ADD instr)
          | Some F_DP3 => simple (Compile_DP3 instr)
          | Some F_DP4 => simple (Compile_DP4 instr)
          | Some F_MUL => simple (Compile_MUL instr)
          | Some F_FLR => simple (Compile_FLR instr)
          | Some F_MAX => simple (Compile_MAX instr)
          | Some F_MIN => simple (Compile_MIN instr)
          | Some F_RCP => simple (Compile_RCP instr)
          | Some F_RSQ => simple (Compile_RSQ instr)
          | Some F_MOVA => simple (Compile_MOVA instr)
          | Some F_MOV => simple (Compile_MOV instr)
          | Some F_SLTI => simple (Compile_SLTI instr)
          | Some F_NOP => simple (Compile_NOP instr)
          | Some F_END => simple (Compile_END instr)
          | Some F_CMP => simple (Compile_CMP instr)
          | Some F_MAD => simple (Compile_MAD instr)
          | Some F_CALL =>
              let? (c, l) := call in Ok (c, offset, l)
          | Some F_CALLC =>
              let? (c, l) := call in
              Ok (Seq (Compile_EvaluateCondition instr) (J_CC_skip CC_Z c),
                  offset, l)
          | Some F_CALLU =>
              let? (c, l) := call in
              Ok (Seq (Compile_UniformCondition instr) (J_CC_skip CC_Z c),
                  offset, l)
          | Some F_IF =>
              if dest_offset fc <=? offset then
                Err (AssertFailed Backwards_if_statements_not_supported)
              else
                let cond :=
                  if opcode instr =? OpCode.IFU then Compile_UniformCondition instr
                  else if opcode instr =? OpCode.IFC then Compile_EvaluateCondition instr
                  else Skip in
                let? (thn, offset, l) :=
                  Compile_Block fuel' (dest_offset fc - 1) offset looping in
                if num_instructions fc =? 0 then
                  Ok (Seq cond (J_CC_skip CC_Z thn), offset, l)
                else
                  let? (els, offset, l) :=
                    Compile_Block fuel'
                      (dest_offset fc + num_instructions fc - 1) offset l in
                  Ok (Seq cond (J_CC_else CC_Z thn els), offset, l)
          | Some F_LOOP =>
              if dest_offset fc <=? offset then
                Err (AssertFailed Backwards_loops_not_supported)
              else if looping then
                Err (AssertFailed Nested_loops_not_supported)
              else
                let? (body, offset, _) :=
                  Compile_Block fuel' (dest_offset fc) offset true in
                Ok (Seq (Compile_LOOP_init instr)
                        (J_CC_loop (Seq body Compile_LOOP_step) CC_NZ),
                    offset, false)
          | Some F_JMP =>
              if dest_offset fc <=? offset then
                Err (AssertFailed Backwards_jumps_not_supported)
              else
                let? cond :=
                  (if opcode instr =? OpCode.JMPC
                   then Ok (Compile_EvaluateCondition instr)
                   else if opcode instr =? OpCode.JMPU
                   then Ok (Compile_UniformCondition instr)
                   else Err Unreachable) in
                let? (body, offset, l) :=
                  Compile_Block fuel' (dest_offset fc) offset looping in
                Ok (Seq cond (J_CC_skip CC_NZ body), offset, l)
          end
      end
  end

(** [Compile_Block]: [while (offset <= stop) Compile_NextInstr(&offset)],
    then the offset is written back through the saved [offset_ptr]. *)
with Compile_Block (fuel : nat) (stop offset : Z) (looping : bool)
  {struct fuel} : Result (Code * Z * bool) :=
  match fuel with
  | O => Err OutOfFuel
  | S fuel' =>
      if offset <=? stop then
        let? (c1, offset, l) := Compile_NextInstr fuel' offset looping in
        let? (c2, offset, l) := Compile_Block fuel' stop offset l in
        Ok (Seq c1 c2, offset, l)
      else Ok (Skip, offset, looping)
  end

(** The loop of [Compile_CALL]:
    [while (offset < dest_offset + num_instructions)
       Compile_NextInstr(&offset)] on a local offset. *)
with Compile_CALL_loop (fuel : nat) (limit offset : Z) (looping : bool)
  {struct fuel} : Result (Code * bool) :=
  match fuel with
  | O => Err OutOfFuel
  | S fuel' =>
      if offset <? limit then
        let? (c1, offset, l) := Compile_NextInstr fuel' offset looping in
        let? (c2, l) := Compile_CALL_loop fuel' limit offset l in
        Ok (Seq c1 c2, l)
      else Ok (Skip, looping)
  end.

(** The prologue of [Compile]. *)
Definition Compile_prologue : Code :=
  emit_all [ ABI_PushAllCalleeSavedRegsAndAdjustStack;
             MOV 64 (R REGISTERS) (R ABI_PARAM1);
             MOV 64 (R UNIFORMS) (ImmPtr (uniforms_ptr g));
             (* Zero address/loop registers *)
             XOR 64 (R ADDROFFS_REG_0) (R ADDROFFS_REG_0);
             XOR 64 (R ADDROFFS_REG_1) (R ADDROFFS_REG_1);
             XOR 64 (R LOOPCOUNT_REG) (R LOOPCOUNT_REG);
             (* Used to set a register to one *)
             MOV 64 (R RAX) (ImmPtr (one_ptr g));
             MOVAPS ONE (MDisp RAX 0);
             (* Used to negate registers *)
             MOV 64 (R RAX) (ImmPtr (neg_ptr g));
             MOVAPS NEGBIT (MDisp RAX 0) ].

(** The main loop of [Compile]:
    [while (offset < program_code.size()) Compile_NextInstr(&offset)]. *)
Definition Compile_main (fuel : nat) : Result (Code * bool) :=
  Compile_CALL_loop fuel (Z.of_nat (length (program_code g)))
                    (main_offset g) false.

Definition Compile (fuel : nat) : Result Code :=
  let? (c, _) := Compile_main fuel in
  Ok (Seq Compile_prologue c).

End WithGlobals.

End Jit.

(** ** The shader core ([shader.cpp]) *)

Module Shader.

Import Pica.

(** Modelled from the spec: [UnitState::Registers] of the absent
    [shader.h]: 16 input, 16 output and 16 temporary vectors. *)
Record Registers := mkRegisters {
  input : list Vec4;
  output : list Vec4;
  temporary : list Vec4
}.

Record UnitState := mkUnitState {
  registers : Registers;
  program_counter : Z;
  conditional_code : bool * bool
}.

(** Modelled from the spec: the uniform bank of the absent [pica.h]:
    96 float vectors, 16 booleans, 4 integer vectors of four bytes
    (x = iteration count, y = start, z = increment). *)
Record Uniforms := mkUniforms {
  uniforms_f : list Vec4;
  uniforms_b : list bool;
  uniforms_i : list Vec4
}.

(** [Regs::VSOutputAttributes]: for each component of an output
    register, the index of the field of the output vertex it goes to. *)
Record VSOutputAttributes := mkVSOut {
  map_x : Z; map_y : Z; map_z : Z; map_w : Z
}.

Definition INVALID : Z := 31.   (* 0x1F *)

(** What [Run] and [Setup] read from the ambient context: the program
    and its entry offset, the attribute and output maps, the uniforms,
    and [VideoCore::g_shader_jit_enabled]. *)
Record Context := mkContext {
  globals : Jit.Globals;
  input_register_map : list Z;
  vs_output_attributes : list VSOutputAttributes;
  uniforms : Uniforms;
  g_shader_jit_enabled : bool
}.

(** Modelled from the spec: [float24] of the absent [pica.h] keeps a
    binary32 value, and [FromFloat32] and [ToFloat32] preserve it. *)
Abbreviation float24 := Z (only parsing).
Definition FromFloat32 (f : Z) : float24 := f.
Definition ToFloat32 (f : float24) : Z := f.

(** Modelled from the spec: [OutputVertex] is a flat array of [float24]
    fields; [pos] is at 0..3, [quat] at 4..7, [color] at 8..11.  The
    semantic indices are 5-bit values, so the record is read as 32
    slots. *)
Abbreviation OutputVertex := (list Z) (only parsing).
Definition OutputVertex_size : nat := 32.
Definition color_index (i : Z) : nat := Z.to_nat (8 + i).

Abbreviation InputVertex := (list Vec4) (only parsing).

(** *** The shader cache *)

Section Cache.

(** [Common::ComputeHash64] of the absent [common/hash.h], over the
    bytes of the program and over the bytes of the descriptor table. *)
Variable ComputeHash64_code : list Instruction -> Z.
Variable ComputeHash64_swizzle : list SwizzlePattern -> Z.

(** [JitCompiler]: the code region, as the sequence of the programs
    compiled into it.  A [CompiledShader*] is a position in it. *)
Record JitCompiler := mkJitCompiler { code_space : list X64.Code }.

Abbreviation CompiledShader := nat (only parsing).

(** The three statics of [shader.cpp]. *)
Record Core := mkCore {
  shader_map : gmap Z CompiledShader;
  jit : JitCompiler;
  jit_shader : option CompiledShader
}.

Definition cache_key (g : Jit.Globals) : Z :=
  Z.lxor (Z.lxor (ComputeHash64_code (Jit.program_code g))
                 (ComputeHash64_swizzle (Jit.swizzle_data g)))
         (Jit.main_offset g).

(** [jit.Compile()]: the code is appended to the region, its start is
    returned. *)
Definition jit_Compile (fuel : nat) (g : Jit.Globals) (j : JitCompiler)
  : Jit.Result (CompiledShader * JitCompiler) :=
  Jit.bind (Jit.Compile g fuel) (fun code =>
    Jit.Ok (length (code_space j), mkJitCompiler (code_space j ++ [code]))).

Definition Setup (fuel : nat) (ctx : Context) (core : Core) : Jit.Result Core :=
  if g_shader_jit_enabled ctx then
    let key := cache_key (globals ctx) in
    match shader_map core !! key with
    | Some sh => Jit.Ok (mkCore (shader_map core) (jit core) (Some sh))
    | None =>
        Jit.bind (jit_Compile fuel (globals ctx) (jit core)) (fun '(sh, j) =>
          Jit.Ok (mkCore (<[key := sh]> (shader_map core)) j (Some sh)))
    end
  else Jit.Ok core.

Definition Shutdown (core : Core) : Core :=
  mkCore ∅ (jit core) (jit_shader core).

(** The number of compilations a core has performed. *)
Definition compilations (core : Core) : nat := length (code_space (jit core)).

(** A series of [Setup] calls, one per context. *)
Fixpoint Setup_all (fuel : nat) (ctxs : list Context) (core : Core)
  : Jit.Result Core :=
  match ctxs with
  | [] => Jit.Ok core
  | ctx :: rest =>
      Jit.bind (Setup fuel ctx core) (Setup_all fuel rest)
  end.

(** The fingerprints of the calls that consult the cache. *)
Definition fingerprints (ctxs : list Context) : gset Z :=
  list_to_set (cache_key ∘ globals <$> filter (fun c => g_shader_jit_enabled c = true) ctxs).

End Cache.

(** *** Run *)

(** [if (num_attributes > i) input[attribute_register_map[i]] = attr[i]],
    for the attributes from [i] on, in order. *)
Fixpoint load_attributes (num_attributes : Z) (i : Z) (map : list Z)
  (attrs : list Vec4) (regs : list Vec4) : list Vec4 :=
  match map, attrs with
  | r :: map', a :: attrs' =>
      load_attributes num_attributes (i + 1) map' attrs'
        (if i <? num_attributes then <[Z.to_nat r := a]> regs else regs)
  | _, _ => regs
  end.

Definition Run_setup (ctx : Context) (state : UnitState) (input : InputVertex)
  (num_attributes : Z) : UnitState :=
  let regs := registers state in
  mkUnitState
    (mkRegisters
       (load_attributes num_attributes 0 (input_register_map ctx) input
                        (Shader.input regs))
       (output regs) (temporary regs))
    (Jit.main_offset (globals ctx))
    (false, false).

(** One component of one output register. *)
Definition write_semantic (ret : OutputVertex) (semantic : Z) (v : float24)
  : OutputVertex :=
  if semantic =? INVALID then <[Z.to_nat semantic := 0]> ret
  else <[Z.to_nat semantic := v]> ret.

Definition write_output_register (ret : OutputVertex)
  (m : VSOutputAttributes) (o : Vec4) : OutputVertex :=
  let ret := write_semantic ret (map_x m) (vx o) in
  let ret := write_semantic ret (map_y m) (vy o) in
  let ret := write_semantic ret (map_z m) (vz o) in
  write_semantic ret (map_w m) (vw o).

(** [for (int i = 0; i < 7; ++i)] over the output registers. *)
Fixpoint write_output_registers (n : nat) (ret : OutputVertex)
  (maps : list VSOutputAttributes) (outs : list Vec4) : OutputVertex :=
  match n, maps, outs with
  | S n', m :: maps', o :: outs' =>
      write_output_registers n' (write_output_register ret m o) maps' outs'
  | _, _, _ => ret
  end.

(** The saturation of one colour component. *)
Definition saturate (c : float24) : float24 :=
  FromFloat32 (F32.fmin (F32.fabs (ToFloat32 c)) F32.one).

Definition saturate_color (ret : OutputVertex) : OutputVertex :=
  foldl (fun r i => alter saturate (color_index i) r) ret [0; 1; 2; 3].

(** The output stage of [Run]; [ret] is the content of the
    uninitialised local the vertex is built in. *)
Definition Run_output (ctx : Context) (state : UnitState) (ret : OutputVertex)
  : OutputVertex :=
  saturate_color
    (write_output_registers 7 ret (vs_output_attributes ctx)
                            (output (registers state))).

(** [Run].  The two back-ends are partial functions on unit states:
    [jit_shader] is the entrypoint [Setup] selected, [RunInterpreter]
    the interpreter. *)
Definition Run (jit_shader RunInterpreter : UnitState -> option UnitState)
  (ctx : Context) (state : UnitState) (input : InputVertex)
  (num_attributes : Z) (ret : OutputVertex) : option OutputVertex :=
  let state := Run_setup ctx state input num_attributes in
  match (if g_shader_jit_enabled ctx then jit_shader state
         else RunInterpreter state) with
  | Some state' => Some (Run_output ctx state' ret)
  | None => None
  end.

(** *** Calling a compiled shader *)

Fixpoint store_vecs (base : Z) (l : list Vec4) (m : gmap Z Vec4)
  : gmap Z Vec4 :=
  match l with
  | [] => m
  | v :: l' => <[base := v]> (store_vecs (base + 16) l' m)
  end.

Fixpoint load_vecs (base : Z) (n : nat) (m : gmap Z Vec4)
  : option (list Vec4) :=
  match n with
  | O => Some []
  | S n' =>
      match m !! base, load_vecs (base + 16) n' m with
      | Some v, Some l => Some (v :: l)
      | _, _ => None
      end
  end.

Fixpoint store_byte_list (base : Z) (l : list Z) (m : gmap Z Z) : gmap Z Z :=
  match l with
  | [] => m
  | b :: l' => <[base := b]> (store_byte_list (base + 1) l' m)
  end.

Definition bytes_of_bool (b : bool) : Z := if b then 1 else 0.

Definition bytes_of_ivec (v : Vec4) : list Z := [vx v; vy v; vz v; vw v].

(** The memory a compiled shader sees: the register file at
    [registers_ptr], the uniforms and the two constants of the prologue
    at the addresses the code embeds. *)
Definition shader_memory (g : Jit.Globals) (u : Uniforms) (registers_ptr : Z)
  (r : Registers) : gmap Z Vec4 * gmap Z Z :=
  (store_vecs (registers_ptr + Jit.offsetof_input) (input r)
     (store_vecs (registers_ptr + Jit.offsetof_output) (output r)
        (store_vecs (registers_ptr + Jit.offsetof_temporary) (temporary r)
           (store_vecs (Jit.uniforms_ptr g + Jit.offsetof_uniforms_f) (uniforms_f u)
              (<[Jit.one_ptr g := Vec.splat F32.one]>
                 (<[Jit.neg_ptr g := Vec.splat F32.neg_zero]> ∅))))),
   store_byte_list (Jit.uniforms_ptr g + Jit.offsetof_uniforms_b)
     (bytes_of_bool <$> uniforms_b u)
     (store_byte_list (Jit.uniforms_ptr g + Jit.offsetof_uniforms_i)
        (concat (bytes_of_ivec <$> uniforms_i u)) ∅)).

(** The machine state at the call: the argument register holds the
    pointer to the register file, everything else is what the caller
    left ([gpr0], [xmm0]). *)
Definition entry_state (g : Jit.Globals) (u : Uniforms) (registers_ptr : Z)
  (gpr0 : X64.X64Reg -> Z) (xmm0 : X64.X64Reg -> Vec4) (r : Registers)
  : X64.State :=
  let '(vm, bm) := shader_memory g u registers_ptr r in
  X64.mkState (fun x => if X64.reg_eqb x Jit.ABI_PARAM1 then registers_ptr else gpr0 x)
              xmm0 false vm bm.

Definition read_registers (registers_ptr : Z) (s : X64.State)
  : option Registers :=
  match load_vecs (registers_ptr + Jit.offsetof_input) 16 (X64.vmem s),
        load_vecs (registers_ptr + Jit.offsetof_output) 16 (X64.vmem s),
        load_vecs (registers_ptr + Jit.offsetof_temporary) 16 (X64.vmem s) with
  | Some i, Some o, Some t => Some (mkRegisters i o t)
  | _, _, _ => None
  end.

(** [jit_shader(&state.registers)] for the code [code]: the call returns
    when the code executes RET. *)
Definition call_jit_shader (h : X64.Host) (code : X64.Code) (fuel : nat)
  (ctx : Context) (registers_ptr : Z) (gpr0 : X64.X64Reg -> Z)
  (xmm0 : X64.X64Reg -> Vec4) (state : UnitState) : option UnitState :=
  match X64.exec h code fuel
          (entry_state (globals ctx) (uniforms ctx) registers_ptr gpr0 xmm0
                       (registers state)) with
  | X64.Returned s =>
      match read_registers registers_ptr s with
      | Some r => Some (mkUnitState r (program_counter state)
                                    (conditional_code state))
      | None => None
      end
  | _ => None
  end.

End Shader.

(** ** The interpreter back-end

    [shader_interpreter.cpp] is not part of the sources; [Run] only
    calls it. *)

Module Interpreter.

Import Pica Shader.

(** Modelled from the spec: the unit state the interpreter works on:
    the register file, 2 signed address offsets, 1 loop counter,
    2 conditional-code bits. *)
Record InterpState := mkInterp {
  regs : Registers;
  address_offset : Z * Z;
  loop_counter : Z;
  cc : bool * bool
}.

Section WithContext.

Variable ctx : Context.

Definition bank_size : Z := 96.

Definition lookup_vec (l : list Vec4) (i : Z) : Vec4 :=
  default Vec.zero (l !! Z.to_nat i).

(** Modelled from the spec: operand loading, steps 1 and 2.  The
    category and raw index are resolved; for the offsettable source of
    an instruction whose address-register index is nonzero,
    [address_offset[idx-1]] (idx = 3 selects the loop counter) is added
    to the index modulo the uniform bank size. *)
Definition load_source (st : InterpState) (instr : Instruction)
  (offsettable : bool) (r : SourceRegister) : Vec4 :=
  let idx := address_register_index (common instr) in
  let off :=
    if offsettable && negb (idx =? 0) then
      match idx with
      | 1 => fst (address_offset st)
      | 2 => snd (address_offset st)
      | _ => loop_counter st
      end
    else 0 in
  let i := if offsettable && negb (idx =? 0)
           then (GetIndex r + off) mod bank_size else GetIndex r in
  match GetRegisterType r with
  | Input => lookup_vec (input (regs st)) i
  | Temporary => lookup_vec (temporary (regs st)) i
  | _ => lookup_vec (uniforms_f (uniforms ctx)) i
  end.

(** Modelled from the spec: operand loading, steps 3 and 4:
    [new[c] = src[selector[c]]] (two selector bits per component, the
    identity being 0x1B), then the sign of all four lanes is flipped
    when the negate flag of the source is set. *)
Definition apply_swizzle (swiz : SwizzlePattern) (src_num : Z) (v : Vec4)
  : Vec4 :=
  let sel := GetRawSelector swiz src_num in
  let pick c := Vec.lane v (Z.land (Z.shiftr sel (6 - 2 * c)) 3) in
  let w := mkVec4 (pick 0) (pick 1) (pick 2) (pick 3) in
  if Jit.negate_of swiz src_num then Vec.map (Z.lxor F32.neg_zero) w else w.

(** Modelled from the spec: destination commit: a lane is written when
    its bit of the destination mask is set, the others are preserved. *)
Definition commit (swiz : SwizzlePattern) (old new : Vec4) : Vec4 :=
  mkVec4 (if DestComponentEnabled swiz 0 then vx new else vx old)
         (if DestComponentEnabled swiz 1 then vy new else vy old)
         (if DestComponentEnabled swiz 2 then vz new else vz old)
         (if DestComponentEnabled swiz 3 then vw new else vw old).

Definition write_dest (st : InterpState) (swiz : SwizzlePattern)
  (d : DestRegister) (new : Vec4) : InterpState :=
  let r := regs st in
  let i := Z.to_nat (DestIndex d) in
  let r' :=
    match DestRegisterType d with
    | Output =>
        mkRegisters (input r)
          (alter (fun old => commit swiz old new) i (output r)) (temporary r)
    | _ =>
        mkRegisters (input r) (output r)
          (alter (fun old => commit swiz old new) i (temporary r))
    end in
  mkInterp r' (address_offset st) (loop_counter st) (cc st).

Definition bool_lane (b : bool) : Z := if b then F32.one else F32.zero.

(** Modelled from the spec: the comparison operators of CMP. *)
Definition compare_op (o : Z) (a b : Z) : bool :=
  match o with
  | 0 => F32.eqb a b
  | 1 => negb (F32.eqb a b)
  | 2 => F32.ltb a b
  | 3 => F32.leb a b
  | 4 => F32.ltb b a
  | _ => F32.leb b a
  end.

(** Modelled from the spec: the semantics table of section 4.2, for an
    instruction of the common form. *)
Definition exec_common (st : InterpState) (instr : Instruction)
  : InterpState :=
  let c := common instr in
  let swiz := Jit.swizzle_at (globals ctx) (operand_desc_id c) in
  let inv := OpCode.SrcInversed (opcode instr) in
  let s1 := apply_swizzle swiz 1
              (load_source st instr (negb inv) (if inv then src1i c else src1 c)) in
  let s2 := apply_swizzle swiz 2
              (load_source st instr inv (if inv then src2i c else src2 c)) in
  let put := write_dest st swiz (dest c) in
  let opc := OpCode.EffectiveOpCode (opcode instr) in
  if opc =? OpCode.ADD then put (Vec.map2 F32.add s1 s2)
  else if opc =? OpCode.MUL then put (Vec.map2 F32.mul s1 s2)
  else if opc =? OpCode.MAX then put (Vec.map2 F32.maxps s1 s2)
  else if opc =? OpCode.MIN then put (Vec.map2 F32.minps s1 s2)
  else if opc =? OpCode.FLR then put (Vec.map F32.roundfloor s1)
  else if opc =? OpCode.RCP then
    put (Vec.splat (F32.div F32.one (vx s1)))
  else if opc =? OpCode.RSQ then
    put (Vec.splat (F32.div F32.one (F32.sqrt (vx s1))))
  else if opc =? OpCode.MOV then put s1
  else if opc =? OpCode.MOVA then
    mkInterp (regs st)
      (if DestComponentEnabled swiz 0
       then Bits.signed32 (F32.cvttps2dq (vx s1)) else fst (address_offset st),
       if DestComponentEnabled swiz 1
       then Bits.signed32 (F32.cvttps2dq (vy s1)) else snd (address_offset st))
      (loop_counter st) (cc st)
  else if opc =? OpCode.DP3 then
    put (Vec.splat (F32.add (F32.add (F32.mul (vx s1) (vx s2))
                                     (F32.mul (vy s1) (vy s2)))
                            (F32.mul (vz s1) (vz s2))))
  else if opc =? OpCode.DP4 then
    put (Vec.splat (F32.add (F32.add (F32.add (F32.mul (vx s1) (vx s2))
                                              (F32.mul (vy s1) (vy s2)))
                                     (F32.mul (vz s1) (vz s2)))
                            (F32.mul (vw s1) (vw s2))))
  else if (opc =? OpCode.SLT) || (opc =? OpCode.SLTI) then
    put (Vec.map2 (fun a b => bool_lane (F32.ltb a b)) s1 s2)
  else if opc =? OpCode.CMP then
    mkInterp (regs st) (address_offset st) (loop_counter st)
             (compare_op (compare_op_x c) (vx s1) (vx s2),
              compare_op (compare_op_y c) (vy s1) (vy s2))
  else st.

(** Modelled from the spec: MAD and MADI, [d = s1 * s2 + s3]. *)
Definition exec_mad (st : InterpState) (instr : Instruction) : InterpState :=
  let m := mad instr in
  let swiz := Jit.swizzle_at (globals ctx) (mad_operand_desc_id m) in
  let madi := OpCode.EffectiveOpCode (opcode instr) =? OpCode.MADI in
  let s1 := apply_swizzle swiz 1 (load_source st instr false (mad_src1 m)) in
  let s2 := apply_swizzle swiz 2
              (load_source st instr false (if madi then mad_src2i m else mad_src2 m)) in
  let s3 := apply_swizzle swiz 3
              (load_source st instr false (if madi then mad_src3i m else mad_src3 m)) in
  write_dest st swiz (mad_dest m)
             (Vec.map2 F32.add (Vec.map2 F32.mul s1 s2) s3).

(** Modelled from the spec: condition evaluation on the two
    condition codes. *)
Definition evaluate_condition (st : InterpState) (instr : Instruction) : bool :=
  let fc := flow_control instr in
  let x := Bool.eqb (fst (cc st)) (negb (refx fc =? 0)) in
  let y := Bool.eqb (snd (cc st)) (negb (refy fc =? 0)) in
  match op fc with
  | JustX => x
  | JustY => y
  | And => x && y
  | Or => x || y
  end.

Definition uniform_condition (instr : Instruction) : bool :=
  default false
    (uniforms_b (uniforms ctx) !! Z.to_nat (bool_uniform_id (flow_control instr))).

Inductive Status :=
  | Ended (st : InterpState)      (* END was executed *)
  | Fallthrough (st : InterpState).  (* the range was run to its end *)

(** Modelled from the spec: the control flow of section 4.2.
    [run fuel pc limit st] executes the instructions [pc, limit); a
    backwards transfer is rejected. *)
Fixpoint run (fuel : nat) (pc limit : Z) (st : InterpState) {struct fuel}
  : option Status :=
  match fuel with
  | O => None
  | S fuel' =>
      if limit <=? pc then Some (Fallthrough st) else
      match (if 0 <=? pc then Jit.program_code (globals ctx) !! Z.to_nat pc
             else None) with
      | None => None
      | Some instr =>
          let fc := flow_control instr in
          let opc := OpCode.EffectiveOpCode (opcode instr) in
          let resume (pc' : Z) (r : option Status) :=
            match r with
            | Some (Fallthrough st') => run fuel' pc' limit st'
            | r => r
            end in
          let call :=
            resume (pc + 1)
              (run fuel' (dest_offset fc)
                   (dest_offset fc + num_instructions fc) st) in
          let branch (b : bool) :=
            if dest_offset fc <=? pc then None
            else if b then
              resume (dest_offset fc + num_instructions fc)
                     (run fuel' (pc + 1) (dest_offset fc) st)
            else
              resume (dest_offset fc + num_instructions fc)
                     (run fuel' (dest_offset fc)
                          (dest_offset fc + num_instructions fc) st) in
          let jump (b : bool) :=
            if dest_offset fc <=? pc then None
            else if b then run fuel' (dest_offset fc) limit st
            else run fuel' (pc + 1) limit st in
          if opc =? OpCode.END then Some (Ended st)
          else if opc =? OpCode.CALL then call
          else if opc =? OpCode.CALLC then
            if evaluate_condition st instr then call
            else run fuel' (pc + 1) limit st
          else if opc =? OpCode.CALLU then
            if uniform_condition instr then call
            else run fuel' (pc + 1) limit st
          else if opc =? OpCode.IFC then branch (evaluate_condition st instr)
          else if opc =? OpCode.IFU then branch (uniform_condition instr)
          else if opc =? OpCode.JMPC then jump (evaluate_condition st instr)
          else if opc =? OpCode.JMPU then jump (uniform_condition instr)
          else if opc =? OpCode.LOOP then
            if dest_offset fc <=? pc then None
            else
              let u := lookup_vec (uniforms_i (uniforms ctx)) (int_uniform_id fc) in
              resume (dest_offset fc + 1)
                ((fix iterate (n : nat) (st : InterpState) : option Status :=
                    match n with
                    | O => Some (Fallthrough st)
                    | S n' =>
                        match run fuel' (pc + 1) (dest_offset fc + 1) st with
                        | Some (Fallthrough st') =>
                            iterate n'
                              (mkInterp (regs st') (address_offset st')
                                        (loop_counter st' + vz u) (cc st'))
                        | r => r
                        end
                    end)
                   (Z.to_nat (vx u + 1))
                   (mkInterp (regs st) (address_offset st) (vy u) (cc st)))
          else if (opc =? OpCode.MAD) || (opc =? OpCode.MADI) then
            run fuel' (pc + 1) limit (exec_mad st instr)
          else run fuel' (pc + 1) limit (exec_common st instr)
      end
  end.

(** Modelled from the spec: [RunInterpreter]: execution starts at the
    program counter with cleared address and loop state and lasts until
    END. *)
Definition RunInterpreter (fuel : nat) (state : UnitState)
  : option UnitState :=
  match run fuel (program_counter state)
            (Z.of_nat (length (Jit.program_code (globals ctx))))
            (mkInterp (registers state) (0, 0) 0 (conditional_code state)) with
  | Some (Ended st) =>
      Some (mkUnitState (regs st) (program_counter state) (cc st))
  | _ => None
  end.

End WithContext.

End Interpreter.

(** ** Vocabulary of the properties *)

Module Spec.

Import Pica X64 Jit Shader.

(** [0 <= c <= 1], as binary32 comparisons. *)
Definition in_unit_interval (c : float24) : Prop :=
  F32.leb F32.zero (ToFloat32 c) = true /\ F32.leb (ToFloat32 c) F32.one = true.

(** The condition-code bit CMP is claimed to produce when a compared
    lane is NaN: set for NEQ, GT and GE, clear for EQ, LT and LE. *)
Definition cmp_on_nan (compare_op : Z) : Z :=
  if (compare_op =? CompareOp.NotEqual)
     || (compare_op =? CompareOp.GreaterThan)
     || (compare_op =? CompareOp.GreaterEqual)
  then 1 else 0.

(** The state in which the first pass of a compiled loop starts. *)
Definition loop_entry (h : Host) (instr : Instruction) (s : State) : State :=
  state_of (exec h (Compile_LOOP_init instr) 0 s) s.

(** One pass of a compiled loop: the body, then the update of the loop
    registers that precedes the backward branch. *)
Definition loop_pass (h : Host) (body : Code) (fuel : nat) (s : State)
  : State :=
  state_of (exec h (Seq body Compile_LOOP_step) fuel s) s.

(** The state after [k] passes. *)
Fixpoint loop_passes (h : Host) (instr : Instruction) (body : Code)
  (fuel : nat) (s : State) (k : nat) : State :=
  match k with
  | O => loop_entry h instr s
  | S k' => loop_pass h body fuel (loop_passes h instr body fuel s k')
  end.

(** The general-purpose register an instruction writes. *)
Definition gpr_written (i : Instr) : option X64Reg :=
  match i with
  | MOVQ_xmm (R r) _ => Some r
  | MOVSX _ _ d _ | MOVZX _ _ d _ => Some d
  | MOV _ (R r) _ | SHR _ (R r) _ | SHL _ (R r) _ | XOR _ (R r) _
  | OR _ (R r) _ | AND _ (R r) _ | ADD _ (R r) _ | SUB _ (R r) _ => Some r
  | _ => None
  end.

Definition is_loop_register (r : X64Reg) : bool :=
  reg_eqb r LOOPCOUNT || reg_eqb r LOOPINC || reg_eqb r LOOPCOUNT_REG.

(** Code in which no instruction writes one of the three registers a
    compiled loop lives in. *)
Fixpoint spares_loop_registers (c : Code) : bool :=
  match c with
  | Skip => true
  | Emit i =>
      match gpr_written i with
      | Some r => negb (is_loop_register r)
      | None => true
      end
  | Seq c1 c2 => spares_loop_registers c1 && spares_loop_registers c2
  | J_CC_skip _ body => spares_loop_registers body
  | J_CC_else _ thn els => spares_loop_registers thn && spares_loop_registers els
  | J_CC_loop body _ => spares_loop_registers body
  end.

(** The code keeps the three registers a compiled loop lives in. *)
Definition keeps_loop_registers (s s' : State) : Prop :=
  gpr s' LOOPCOUNT = gpr s LOOPCOUNT
  /\ gpr s' LOOPINC = gpr s LOOPINC
  /\ gpr s' LOOPCOUNT_REG = gpr s LOOPCOUNT_REG.

(** Agreement of two lanes within 2^-22. *)
Definition epsilon : Z := 880803840.   (* 0x34800000 *)

Definition within_epsilon (a b : Z) : bool :=
  F32.leb (F32.fabs (F32.add a (Z.lxor b F32.neg_zero))) epsilon.

(** Component-wise agreement of two output vertices. *)
Definition vertices_agree (u v : list Z) : bool :=
  (length u =? length v)%nat
  && forallb (fun ab => within_epsilon (fst ab) (snd ab)) (zip u v).

(** The address of a source register in the memory of the host. *)
Definition register_address (s : State) (r : Z) : Z :=
  match GetRegisterType r with
  | FloatUniform => gpr s UNIFORMS + GetIndex r * sizeof_Vec4
  | _ => gpr s REGISTERS + InputOffset r
  end.

(** The host register behind address-register index 1, 2 or 3. *)
Definition offset_register (idx : Z) : X64Reg :=
  match idx with
  | 1 => ADDROFFS_REG_0
  | 2 => ADDROFFS_REG_1
  | _ => LOOPCOUNT_REG
  end.

(** The source the address offset applies to: src1, or src2 for the
    inverted forms. *)
Definition offsettable_source (instr : Instruction) : Z :=
  if OpCode.SrcInversed (opcode instr) then 2 else 1.

(** The address a load instruction reads. *)
Definition load_address (s : State) (load : Instr) : option Z :=
  match load with
  | MOVAPS _ arg => effective_address s arg
  | _ => None
  end.

(** The address the offsettable float-uniform source would be read from
    if the offset index were reduced modulo the bank size: the offset is
    what MOVA left in the offset register, in units of 16 bytes. *)
Definition reduced_load_address (s : State) (instr : Instruction) (r : Z) : Z :=
  let off :=
    Bits.signed64 (gpr s (offset_register (address_register_index (common instr))))
    / sizeof_Vec4 in
  gpr s UNIFORMS + sizeof_Vec4 * ((GetIndex r + off) mod 96).

(** The load of the offsettable source reads the reduced address. *)
Definition offset_load_is_reduced (instr : Instruction) (r : Z)
  (dest : X64Reg) (s : State) : Prop :=
  exists load,
    Compile_SwizzleSrc_load instr (offsettable_source instr) r dest = Ok load
    /\ load_address s load = Some (Bits.wrap64 (reduced_load_address s instr r)).

(** The handler [instr_table] gives an instruction. *)
Definition handler (instr : Instruction) : option JitFunction :=
  default None (instr_table !! Z.to_nat (opcode instr)).

(** IF, LOOP and JMP: the handlers that assert a forward destination. *)
Definition is_transfer (instr : Instruction) : bool :=
  match handler instr with
  | Some F_IF | Some F_LOOP | Some F_JMP => true
  | _ => false
  end.

Definition is_loop (instr : Instruction) : bool :=
  match handler instr with
  | Some F_LOOP => true
  | _ => false
  end.

(** The handlers that compile other instructions recursively. *)
Definition is_flow (instr : Instruction) : bool :=
  match handler instr with
  | Some F_CALL | Some F_CALLC | Some F_CALLU | Some F_IF | Some F_LOOP
  | Some F_JMP => true
  | _ => false
  end.

(** The program contains an IF, LOOP or JMP whose destination offset is
    not strictly greater than its own offset. *)
Definition has_backwards_transfer (code : list Instruction) : Prop :=
  exists (pc : nat) instr,
    code !! pc = Some instr
    /\ is_transfer instr = true
    /\ dest_offset (flow_control instr) <= Z.of_nat pc.

(** The program contains a LOOP inside the body of another LOOP. *)
Definition has_nested_loop (code : list Instruction) : Prop :=
  exists (p q : nat) ip iq,
    code !! p = Some ip /\ code !! q = Some iq
    /\ is_loop ip = true /\ is_loop iq = true
    /\ Z.of_nat p < Z.of_nat q <= dest_offset (flow_control ip).

(** Compilation stops on a failed assertion. *)
Definition assertion_fires (g : Globals) : Prop :=
  exists fuel msg, Compile g fuel = Err (AssertFailed msg).

(** The assertions fire exactly for the programs with a backwards
    transfer or a nested loop. *)
Definition assertions_characterised (g : Globals) : Prop :=
  has_backwards_transfer (program_code g) \/ has_nested_loop (program_code g)
  <-> assertion_fires g.

(** Every IF, LOOP and JMP of the program has a destination offset
    greater than its own offset plus one. *)
Definition transfers_forward (code : list Instruction) : Prop :=
  forall (pc : nat) instr,
    code !! pc = Some instr -> is_transfer instr = true ->
    Z.of_nat pc + 1 < dest_offset (flow_control instr).

(** No instruction at the offsets [lo, hi] compiles other instructions. *)
Definition straight_range (code : list Instruction) (lo hi : Z) : Prop :=
  forall (q : nat) iq,
    lo <= Z.of_nat q <= hi -> code !! q = Some iq -> is_flow iq = false.

(** The body of every LOOP is straight-line code. *)
Definition straight_loop_bodies (code : list Instruction) : Prop :=
  forall (p : nat) ip,
    code !! p = Some ip -> is_loop ip = true ->
    straight_range code (Z.of_nat p + 1) (dest_offset (flow_control ip)).

(** The range of offsets an instruction at [p], compiled with [looping]
    at [l], has compiled in its turn, and the value of [looping] they
    are compiled with: the range of a CALL, the two branches of an IF,
    the block of a JMP, and the body of a LOOP, which sets [looping]. *)
Definition range_of (instr : Instruction) (p : Z) (l : bool) (q : Z)
  (l' : bool) : Prop :=
  let fc := flow_control instr in
  match handler instr with
  | Some F_CALL | Some F_CALLC | Some F_CALLU =>
      l' = l /\ dest_offset fc <= q < dest_offset fc + num_instructions fc
  | Some F_IF =>
      l' = l /\ p < q
      /\ (q < dest_offset fc
          \/ (num_instructions fc <> 0
              /\ q < dest_offset fc + num_instructions fc))
  | Some F_JMP => l' = l /\ p < q <= dest_offset fc
  | Some F_LOOP => l' = true /\ p < q <= dest_offset fc
  | _ => False
  end.

(** The offsets compilation reaches, with the value of [looping] it
    reaches them with: the offsets from the entry offset on, and the
    ranges of the instructions reached. *)
Inductive reaches (g : Globals) : Z -> bool -> Prop :=
  | reaches_entry (q : Z) : main_offset g <= q -> reaches g q false
  | reaches_range (p : Z) (l : bool) (instr : Instruction) (q : Z) (l' : bool) :
      reaches g p l -> 0 <= p ->
      program_code g !! Z.to_nat p = Some instr ->
      range_of instr p l q l' ->
      reaches g q l'.

(** Every IF, LOOP and JMP compilation reaches has a destination offset
    greater than its own offset plus one, and no LOOP is reached as
    part of the body of a LOOP. *)
Definition reached_well_formed (g : Globals) : Prop :=
  forall (p : Z) (l : bool) instr,
    reaches g p l -> 0 <= p ->
    program_code g !! Z.to_nat p = Some instr ->
    (is_transfer instr = true -> p + 1 < dest_offset (flow_control instr))
    /\ (is_loop instr = true -> l = false).

End Spec.

(** ** What the emitted code computes

    The vocabulary of the properties of the handlers: the values the
    emitted instructions leave, read off the instructions. *)

Module Sem.

Import Pica X64 Jit.

(** [P] holds of every integer of [0, n). *)
Definition below (P : Z -> bool) (n : nat) : bool :=
  forallb P (Z.of_nat <$> seq 0 n).

(** Component [c] (0 = X) of a raw selector: two bits per component,
    the X component in the two most significant bits, so that
    [NO_SRC_REG_SWIZZLE] is the identity. *)
Definition selector_component (sel c : Z) : Z :=
  Z.land (Z.shiftr sel (6 - 2 * c)) 3.

Definition select (sel : Z) (v : Vec4) : Vec4 :=
  mkVec4 (Vec.lane v (selector_component sel 0))
         (Vec.lane v (selector_component sel 1))
         (Vec.lane v (selector_component sel 2))
         (Vec.lane v (selector_component sel 3)).

(** The sign bit of every lane flipped. *)
Definition negate (v : Vec4) : Vec4 :=
  Vec.map (fun x => Z.lxor x F32.neg_zero) v.

(** Source [src_num] of a descriptor applied to a loaded vector. *)
Definition swizzled (swiz : SwizzlePattern) (src_num : Z) (v : Vec4) : Vec4 :=
  let w := select (GetRawSelector swiz src_num) v in
  if negate_of swiz src_num then negate w else w.

(** The enabled components of [new] over [old]. *)
Definition merge (swiz : SwizzlePattern) (old new : Vec4) : Vec4 :=
  mkVec4 (if DestComponentEnabled swiz 0 then vx new else vx old)
         (if DestComponentEnabled swiz 1 then vy new else vy old)
         (if DestComponentEnabled swiz 2 then vz new else vz old)
         (if DestComponentEnabled swiz 3 then vw new else vw old).

(** The operand descriptor an instruction names. *)
Definition descriptor (g : Globals) (instr : Instruction) : SwizzlePattern :=
  swizzle_at g (if is_mad instr then mad_operand_desc_id (mad instr)
                else operand_desc_id (common instr)).

(** The fields of an operand descriptor are within their bit fields. *)
Definition descriptor_in_range (swiz : SwizzlePattern) : Prop :=
  0 <= dest_mask swiz < 16
  /\ 0 <= src1_selector swiz < 256
  /\ 0 <= src2_selector swiz < 256
  /\ 0 <= src3_selector swiz < 256.

(** The address of the destination register of an instruction. *)
Definition dest_address (s : State) (instr : Instruction) : Z :=
  Bits.wrap64 (gpr s REGISTERS
               + OutputOffset (if is_mad instr then mad_dest (mad instr)
                               else dest (common instr))).

(** The destination register is mapped, aligned, and holds [old]. *)
Definition dest_holds (s : State) (instr : Instruction) (old : Vec4) : Prop :=
  dest_address s instr mod 16 = 0
  /\ vmem s !! dest_address s instr = Some old.

(** The address the load of source [src_num] reads (it does not depend
    on the register loaded). *)
Definition source_address (s : State) (instr : Instruction) (src_num r : Z)
  : option Z :=
  match Compile_SwizzleSrc_load instr src_num r SCRATCH with
  | Ok (MOVAPS _ arg) => effective_address s arg
  | _ => None
  end.

(** The load of source [src_num] succeeds and reads [v]. *)
Definition reads (s : State) (instr : Instruction) (src_num r : Z) (v : Vec4)
  : Prop :=
  exists a, source_address s instr src_num r = Some a
            /\ a mod 16 = 0 /\ vmem s !! a = Some v.

(** [s'] differs from [s] at most in the vector registers [regs]. *)
Definition xmm_frame (regs : list X64Reg) (s s' : State) : Prop :=
  gpr s' = gpr s /\ zf s' = zf s /\ vmem s' = vmem s /\ bmem s' = bmem s
  /\ forall r, existsb (reg_eqb r) regs = false -> xmm s' r = xmm s r.

(** What the middle of a handler does: SRC1 receives [f] of the three
    source registers; memory and the general-purpose registers stay. *)
Definition computes (h : Host) (body : Code)
  (f : Vec4 -> Vec4 -> Vec4 -> Vec4) : Prop :=
  forall fuel s, exists s',
    exec h body fuel s = Next s'
    /\ xmm s' SRC1 = f (xmm s SRC1) (xmm s SRC2) (xmm s SRC3)
    /\ gpr s' = gpr s /\ vmem s' = vmem s /\ bmem s' = bmem s.

(** The handler compiles, and its code stores [v] at [a] and changes
    nothing else in memory, nor a general-purpose register. *)
Definition stores (h : Host) (r : Result Code) (fuel : nat) (s : State)
  (a : Z) (v : Vec4) : Prop :=
  exists code s',
    r = Ok code /\ exec h code fuel s = Next s'
    /\ vmem s' = <[a := v]> (vmem s) /\ gpr s' = gpr s /\ bmem s' = bmem s.

(** The products of the lanes. *)
Definition products (a b : Vec4) : Vec4 := Vec.map2 F32.mul a b.

(** DP3 through DPPS: the fourth product is replaced by +0.0. *)
Definition dot3_sse4 (a b : Vec4) : Vec4 :=
  let p := products a b in
  Vec.splat (F32.add (F32.add (vx p) (vy p)) (F32.add (vz p) 0)).

(** DP3 through MULPS, SHUFPS and ADDPS. *)
Definition dot3_fallback (a b : Vec4) : Vec4 :=
  let p := products a b in
  Vec.splat (F32.add (F32.add (vx p) (vy p)) (vz p)).

(** DP4 through DPPS. *)
Definition dot4_sse4 (a b : Vec4) : Vec4 :=
  let p := products a b in
  Vec.splat (F32.add (F32.add (vx p) (vy p)) (F32.add (vz p) (vw p))).

(** DP4 through MULPS, SHUFPS and ADDPS: every lane adds the same four
    products, in an order of its own. *)
Definition dot4_fallback (a b : Vec4) : Vec4 :=
  let p := products a b in
  mkVec4 (F32.add (F32.add (vz p) (vw p)) (F32.add (vy p) (vx p)))
         (F32.add (F32.add (vw p) (vz p)) (F32.add (vx p) (vy p)))
         (F32.add (F32.add (vx p) (vy p)) (F32.add (vw p) (vz p)))
         (F32.add (F32.add (vy p) (vx p)) (F32.add (vz p) (vw p))).

Definition dot3 (c : CPUCaps) (a b : Vec4) : Vec4 :=
  if sse4_1 c then dot3_sse4 a b else dot3_fallback a b.

Definition dot4 (c : CPUCaps) (a b : Vec4) : Vec4 :=
  if sse4_1 c then dot4_sse4 a b else dot4_fallback a b.

(** FLR on either host path. *)
Definition flr_lanes (c : CPUCaps) (v : Vec4) : Vec4 :=
  if sse4_1 c then Vec.map F32.roundfloor v
  else Vec.map F32.cvtdq2ps (Vec.map F32.cvtps2dq v).

(** MAD on either host path: fused, or the product rounded before the
    sum. *)
Definition mad_lanes (c : CPUCaps) (s1 s2 s3 : Vec4) : Vec4 :=
  if fma c then Vec.map3 F32.fma s2 s1 s3
  else Vec.map2 F32.add (Vec.map2 F32.mul s1 s2) s3.

(** The condition of a flow-control instruction on the two condition
    codes: a code is compared with its reference bit. *)
Definition condition (fc : FlowControlFields) (c0 c1 : Z) : bool :=
  match op fc with
  | Or => (c0 =? refx fc) || (c1 =? refy fc)
  | And => (c0 =? refx fc) && (c1 =? refy fc)
  | JustX => c0 =? refx fc
  | JustY => c1 =? refy fc
  end.

Definition is_bit (z : Z) : Prop := z = 0 \/ z = 1.

(** The address of the boolean uniform an instruction names. *)
Definition bool_uniform_address (s : State) (instr : Instruction) : Z :=
  Bits.wrap64 (gpr s UNIFORMS
               + (offsetof_uniforms_b
                  + bool_uniform_id (flow_control instr) * 1)).

(** What a conditional instruction tests: a boolean uniform, or the
    condition codes. *)
Inductive TestKind := OnUniform | OnCondition.

Definition test_code (kind : TestKind) (instr : Instruction) : Code :=
  match kind with
  | OnUniform => Compile_UniformCondition instr
  | OnCondition => Compile_EvaluateCondition instr
  end.

(** The test of [instr] is defined in [s] and gives [b]: the byte of
    the boolean uniform is mapped and not zero, or the condition codes
    and the reference bits are bits and the condition holds. *)
Definition tested (kind : TestKind) (s : State) (instr : Instruction)
  (b : bool) : Prop :=
  match kind with
  | OnUniform =>
      exists byte, bmem s !! bool_uniform_address s instr = Some byte
                   /\ 0 <= byte < 256 /\ b = negb (byte =? 0)
  | OnCondition =>
      is_bit (gpr s COND0) /\ is_bit (gpr s COND1)
      /\ is_bit (refx (flow_control instr))
      /\ is_bit (refy (flow_control instr))
      /\ b = condition (flow_control instr) (gpr s COND0) (gpr s COND1)
  end.

(** [s'] differs from [s] at most in RAX, RBX and the flags. *)
Definition scratch_frame (s s' : State) : Prop :=
  xmm s' = xmm s /\ vmem s' = vmem s /\ bmem s' = bmem s
  /\ forall r, reg_eqb r RAX = false -> reg_eqb r RBX = false ->
               gpr s' r = gpr s r.


(** The registers the prologue sets up for the whole run: the two base
    pointers and the two constant vectors. *)
Definition reserved (r : X64Reg) : bool :=
  reg_eqb r REGISTERS || reg_eqb r UNIFORMS || reg_eqb r ONE
  || reg_eqb r NEGBIT.

(** The instruction writes no reserved register, and writes memory only
    as a MOVAPS through REGISTERS. *)
Definition respects (i : Instr) : bool :=
  match i with
  | MOVAPS_store (MDisp b _) _ => reg_eqb b REGISTERS
  | MOVAPS_store _ _ => false
  | MOVAPS d _ | SHUFPS d _ _ | XORPS d _ | ANDPS d _ | ADDPS d _
  | MULPS d _ | MAXPS d _ | MINPS d _ | DPPS d _ _ | ROUNDFLOORPS d _
  | CVTPS2DQ d _ | CVTDQ2PS d _ | RCPPS d _ | RSQRTPS d _ | CMPSS d _ _
  | CMPPS d _ _ | BLENDPS d _ _ | UNPCKHPS d _ | UNPCKLPS d _
  | VFMADD213PS d _ _ | MOVSX _ _ d _ | MOVZX _ _ d _ => negb (reserved d)
  | MOVQ_xmm a _ | MOV _ a _ | SHR _ a _ | SHL _ a _ | XOR _ a _ | OR _ a _
  | AND _ a _ | ADD _ a _ | SUB _ a _ =>
      match a with
      | R r => negb (reserved r)
      | _ => false
      end
  | CMP _ _ _ | ABI_PushAllCalleeSavedRegsAndAdjustStack
  | ABI_PopAllCalleeSavedRegsAndAdjustStack | RET => true
  end.

(** Every instruction of the code satisfies [p]. *)
Fixpoint every (p : Instr -> bool) (c : Code) : bool :=
  match c with
  | Skip => true
  | Emit i => p i
  | Seq c1 c2 => every p c1 && every p c2
  | J_CC_skip _ body => every p body
  | J_CC_else _ thn els => every p thn && every p els
  | J_CC_loop body _ => every p body
  end.

(** What the code of a shader relies on from its prologue is still
    there: the base pointers, the constants, the uniforms, and the
    extent of the mapped vector memory. *)
Definition keeps_reserved (s s' : State) : Prop :=
  gpr s' REGISTERS = gpr s REGISTERS /\ gpr s' UNIFORMS = gpr s UNIFORMS
  /\ xmm s' ONE = xmm s ONE /\ xmm s' NEGBIT = xmm s NEGBIT
  /\ bmem s' = bmem s
  /\ forall a, is_Some (vmem s' !! a) <-> is_Some (vmem s !! a).

(** The fields a handler uses as an index are within what it indexes:
    the address-register index selects one of three registers or none,
    the comparison operators of a CMP one of the six entries of [cmp]. *)
Definition encodable (instr : Instruction) : Prop :=
  0 <= address_register_index (common instr) <= 3
  /\ (Spec.handler instr = Some F_CMP ->
      0 <= compare_op_x (common instr) <= 5
      /\ 0 <= compare_op_y (common instr) <= 5).

(** The instructions from [lo] on compile no other instructions and are
    encodable. *)
Definition straight_from (code : list Instruction) (lo : Z) : Prop :=
  forall (q : nat) iq,
    lo <= Z.of_nat q -> code !! q = Some iq ->
    Spec.is_flow iq = false /\ encodable iq.


(** *** The input and output stages of [Run] *)

(** The writes one output register causes, in order: the slot of the
    output vertex and the value, zero for the INVALID semantic. *)
Definition component_writes (m : Shader.VSOutputAttributes) (o : Vec4)
  : list (nat * Z) :=
  [ (Z.to_nat (Shader.map_x m), if Shader.map_x m =? Shader.INVALID then 0 else vx o);
    (Z.to_nat (Shader.map_y m), if Shader.map_y m =? Shader.INVALID then 0 else vy o);
    (Z.to_nat (Shader.map_z m), if Shader.map_z m =? Shader.INVALID then 0 else vz o);
    (Z.to_nat (Shader.map_w m), if Shader.map_w m =? Shader.INVALID then 0 else vw o) ].

(** The writes of the first [n] output registers. *)
Fixpoint register_writes (n : nat) (maps : list Shader.VSOutputAttributes)
  (outs : list Vec4) : list (nat * Z) :=
  match n, maps, outs with
  | S n', m :: maps', o :: outs' =>
      component_writes m o ++ register_writes n' maps' outs'
  | _, _, _ => []
  end.

(** What slot [k] holds after the writes [ws], when it held [d]. *)
Fixpoint last_write (k : nat) (ws : list (nat * Z)) (d : option Z)
  : option Z :=
  match ws with
  | [] => d
  | w :: ws' => last_write k ws' (if (fst w =? k)%nat then Some (snd w) else d)
  end.

(** The slots of the [color] field. *)
Definition is_color_slot (k : nat) : bool := (8 <=? k)%nat && (k <=? 11)%nat.

(** The attribute loads of [Run], in order: the first [num_attributes]
    attributes, each with the input register the map gives it. *)
Fixpoint attribute_writes (num_attributes i : Z) (map : list Z)
  (attrs : list Vec4) : list (nat * Vec4) :=
  match map, attrs with
  | r :: map', a :: attrs' =>
      (if i <? num_attributes then [(Z.to_nat r, a)] else [])
      ++ attribute_writes num_attributes (i + 1) map' attrs'
  | _, _ => []
  end.

(** What input register [k] holds after the loads [ws], when it held
    [d]. *)
Fixpoint last_load (k : nat) (ws : list (nat * Vec4)) (d : option Vec4)
  : option Vec4 :=
  match ws with
  | [] => d
  | w :: ws' => last_load k ws' (if (fst w =? k)%nat then Some (snd w) else d)
  end.

(** The comparison a CMP operator index stands for, on operands that
    are not NaN: the six entries of [cmp] in order are equal, not equal,
    less, less or equal, greater, greater or equal. *)
Definition ordered_compare (compare_op : Z) (a b : Z) : bool :=
  match compare_op with
  | 0 => F32.eqb a b
  | 1 => negb (F32.eqb a b)
  | 2 => F32.ltb a b
  | 3 => F32.leb a b
  | 4 => F32.ltb b a
  | 5 => F32.leb b a
  | _ => false
  end.

(** The 16-byte constant [v] is mapped at the address [p] the code
    embeds. *)
Definition constant_at (s : State) (p : Z) (v : Vec4) : Prop :=
  Bits.wrap64 p mod 16 = 0 /\ vmem s !! Bits.wrap64 p = Some v.

(** An instruction word [instr_table] has no handler for, replaced by
    NOP. *)
Definition without_unhandled (instr : Instruction) : Instruction :=
  match Spec.handler instr with
  | None => nop_instr
  | Some _ => instr
  end.

(** The same globals around another program. *)
Definition with_program (g : Globals) (code : list Instruction) : Globals :=
  mkGlobals code (swizzle_data g) (main_offset g) (caps g) (uniforms_ptr g)
            (one_ptr g) (neg_ptr g).


End Sem.


(** ** Fixtures for the concrete scenarios *)

Module Examples.

Import Pica X64 Jit Shader.

(** A host whose reciprocal approximations are exact. *)
Definition host : Host :=
  mkHost (fun x => F32.div F32.one x)
         (fun x => F32.div F32.one (F32.sqrt x)).

Definition f0_5 : Z := 1056964608.   (* 0.5f *)
Definition f1 : Z := 1065353216.     (* 1.0f *)
Definition f1_5 : Z := 1069547520.   (* 1.5f *)
Definition f2 : Z := 1073741824.     (* 2.0f *)
Definition f5 : Z := 1084227584.     (* 5.0f *)
Definition f100 : Z := 1120403456.   (* 100.0f *)
Definition fneg2 : Z := 3221225472.  (* -2.0f *)
Definition fnan : Z := 2143289344.   (* 0x7FC00000 *)

(** The identity descriptor: no swizzle, no negation, full mask. *)
Definition swizzle_identity : SwizzlePattern :=
  mkSwizzle 15 false 27 false 27 false 27.

(** Identity selectors with only X (mask 8), or only Y (mask 4), enabled. *)
Definition swizzle_x_only : SwizzlePattern :=
  mkSwizzle 8 false 27 false 27 false 27.
Definition swizzle_y_only : SwizzlePattern :=
  mkSwizzle 4 false 27 false 27 false 27.

Definition registers_ptr : Z := 65536.

Definition example_globals (prog : list Instruction)
  (swz : list SwizzlePattern) (entry : Z) (c : CPUCaps) : Globals :=
  mkGlobals prog swz entry c 131072 196608 196624.

Definition all_caps : CPUCaps := mkCaps true true.
Definition no_caps : CPUCaps := mkCaps false false.

Definition zero_registers : Registers :=
  mkRegisters (replicate 16 Vec.zero) (replicate 16 Vec.zero)
              (replicate 16 Vec.zero).

(** Float uniforms all 1.0; i0 = (count 4, start 0, increment 2). *)
Definition example_uniforms : Uniforms :=
  mkUniforms (replicate 96 (Vec.splat f1)) (replicate 16 false)
             (mkVec4 4 0 2 0 :: replicate 3 Vec.zero).

(** o0 goes to [pos], o1 to [color], the other registers nowhere. *)
Definition example_output_map : list VSOutputAttributes :=
  mkVSOut 0 1 2 3 :: mkVSOut 8 9 10 11 :: replicate 5 (mkVSOut 31 31 31 31).

Definition example_context (prog : list Instruction)
  (swz : list SwizzlePattern) (entry : Z) (c : CPUCaps) (jit_on : bool)
  : Context :=
  mkContext (example_globals prog swz entry c) (Z.of_nat <$> seq 0 16)
            example_output_map example_uniforms jit_on.

Definition initial_state : UnitState :=
  mkUnitState zero_registers 0 (false, false).

Definition garbage_gpr : X64Reg -> Z := fun _ => 3735928559.
Definition garbage_xmm : X64Reg -> Vec4 := fun _ => Vec.splat 3735928559.
Definition garbage_vertex : OutputVertex := replicate 32 3735928559.

(** The machine state in which a compiled shader is entered, after its
    prologue has run. *)
Definition after_prologue (g : Globals) (r : Registers) : Outcome :=
  exec host (Compile_prologue g) 0
       (entry_state g example_uniforms registers_ptr garbage_gpr garbage_xmm r).

(** The back-end [jit_shader] for a program, compiled on the spot. *)
Definition jit_backend (ctx : Context) (state : UnitState)
  : option UnitState :=
  match Compile (globals ctx) 2000 with
  | Ok code =>
      call_jit_shader host code 2000 ctx registers_ptr garbage_gpr
                      garbage_xmm state
  | Err _ => None
  end.

Definition interpreter_backend (ctx : Context) (state : UnitState)
  : option UnitState :=
  Interpreter.RunInterpreter ctx 2000 state.

(** [MOV o1.xyzw, v1; END] *)
Definition mov_o1_v1 : Instruction :=
  common_instr OpCode.MOV (mkCommon 0 1 0 0 0 0 0 0 1).
Definition program_color : list Instruction := [mov_o1_v1; end_instr].

(** Colour saturation: o1 is routed to [color]. *)
Definition color_context : Context :=
  example_context program_color [swizzle_identity] 0 all_caps true.
Definition color_input : list Vec4 :=
  [Vec.zero; mkVec4 fneg2 f0_5 fnan f100].
Definition color_output : list Z :=
  [0; 0; 0; 0; 3735928559; 3735928559; 3735928559; 3735928559;
   f1; f0_5; f1; f1;
   3735928559; 3735928559; 3735928559; 3735928559; 3735928559; 3735928559;
   3735928559; 3735928559; 3735928559; 3735928559; 3735928559; 3735928559;
   3735928559; 3735928559; 3735928559; 3735928559; 3735928559; 3735928559;
   3735928559; 0].

(** Shader cache: a toy hash, a fresh core, and the core after one
    [Setup] of the colour program. *)
Definition toy_hash_code (l : list Instruction) : Z := Z.of_nat (length l).
Definition toy_hash_swizzle (l : list SwizzlePattern) : Z :=
  7 * Z.of_nat (length l).
Definition fresh_core : Core := mkCore ∅ (mkJitCompiler []) None.
Definition core_after_setup : Core :=
  match Setup toy_hash_code toy_hash_swizzle 100 color_context fresh_core with
  | Ok c => c
  | Err _ => fresh_core
  end.

Definition code_of (r : Result Code) : Code :=
  match r with
  | Ok c => c
  | Err _ => Skip
  end.

Definition empty_state : State :=
  mkState garbage_gpr garbage_xmm false ∅ ∅.

(** [CMP v0, v1] with GT on X and EQ on Y, on v0 = (NaN, NaN, 0, 0) and
    v1 = (1, 1, 1, 1). *)
Definition cmp_instr : Instruction :=
  common_instr OpCode.CMP (mkCommon 0 0 1 0 0 0 4 0 0).
Definition cmp_globals : Globals :=
  example_globals [cmp_instr; end_instr] [swizzle_identity] 0 all_caps.
Definition cmp_registers : Registers :=
  mkRegisters (mkVec4 fnan fnan 0 0 :: Vec.splat f1 :: replicate 14 Vec.zero)
              (replicate 16 Vec.zero) (replicate 16 Vec.zero).
Definition cmp_state : State :=
  state_of (after_prologue cmp_globals cmp_registers) empty_state.
Definition cmp_src1 : Code :=
  code_of (Compile_SwizzleSrc cmp_globals cmp_instr 1 0 SRC1).
Definition cmp_src2 : Code :=
  code_of (Compile_SwizzleSrc cmp_globals cmp_instr 2 1 SRC2).
Definition cmp_loaded : State :=
  state_of (exec host (Seq cmp_src1 cmp_src2) 0 cmp_state) empty_state.

(** The loop scenario: [LOOP i0] over [ADD r0, c0, r0; NOP], then END,
    with i0 = (count 4, start 0, increment 2) and c0 = 1.0. *)
Definition add_r0_c0 : Instruction :=
  common_instr OpCode.ADD (mkCommon 0 32 16 0 0 0 0 0 16).
Definition loop_instr : Instruction :=
  flow_instr OpCode.LOOP (mkFlow 0 2 Or 0 0 0 0).
Definition loop_program : list Instruction :=
  [loop_instr; add_r0_c0; nop_instr; end_instr].
Definition loop_globals : Globals :=
  example_globals loop_program [swizzle_identity] 0 all_caps.
Definition loop_state : State :=
  state_of (after_prologue loop_globals zero_registers) empty_state.
Definition loop_body : Code :=
  match Compile_Block loop_globals 10 2 1 true with
  | Ok (c, _, _) => c
  | Err _ => Skip
  end.

(** [MOVA a0.x, v0] (identity selectors, only X enabled) on
    v0 = (1.5, 1.5, 0, 0). *)
Definition mova_instr : Instruction :=
  common_instr OpCode.MOVA (mkCommon 0 0 0 0 0 0 0 0 0).
Definition mova_globals : Globals :=
  example_globals [mova_instr; end_instr] [swizzle_x_only] 0 all_caps.
Definition mova_registers : Registers :=
  mkRegisters (mkVec4 f1_5 f1_5 0 0 :: replicate 15 Vec.zero)
              (replicate 16 Vec.zero) (replicate 16 Vec.zero).
Definition mova_state : State :=
  state_of (after_prologue mova_globals mova_registers) empty_state.
Definition mova_code : Code := code_of (Compile_MOVA mova_globals mova_instr).
Definition mova_final : State :=
  state_of (exec host mova_code 0 mova_state) empty_state.

(** [SLTI o0, v0, v1; END] on v0 = (0, 0, 0, 0) and v1 = (1, 1, 1, 1). *)
Definition slti_instr : Instruction :=
  common_instr OpCode.SLTI (mkCommon 0 0 0 0 1 0 0 0 0).
Definition slti_context (jit_on : bool) : Context :=
  example_context [slti_instr; end_instr] [swizzle_identity] 0 all_caps jit_on.
Definition slti_input : list Vec4 := [Vec.zero; Vec.splat f1].
Definition slti_vertex (pos : list Z) : list Z :=
  pos ++ replicate 4 3735928559 ++ replicate 4 0 ++ replicate 19 3735928559
      ++ [0].

(** [FLR o0, v0; END] on v0 = (1.5, 1.5, 1.5, 1.5). *)
Definition flr_instr : Instruction :=
  common_instr OpCode.FLR (mkCommon 0 0 0 0 0 0 0 0 0).
Definition flr_context (c : CPUCaps) : Context :=
  example_context [flr_instr; end_instr] [swizzle_identity] 0 c true.
Definition flr_input : list Vec4 := [Vec.splat f1_5].

(** Relative addressing: [MOVA a0.x, v0; MOV o0, c95[a0.x]; END] on
    v0 = (1, 0, 0, 0). *)
Definition mov_c95_a0 : Instruction :=
  common_instr OpCode.MOV (mkCommon 1 127 0 0 0 1 0 0 0).
Definition relative_globals : Globals :=
  example_globals [mova_instr; mov_c95_a0; end_instr]
                  [swizzle_x_only; swizzle_identity] 0 all_caps.
Definition relative_registers : Registers :=
  mkRegisters (mkVec4 f1 0 0 0 :: replicate 15 Vec.zero)
              (replicate 16 Vec.zero) (replicate 16 Vec.zero).
(** The state after the MOVA. *)
Definition relative_state : State :=
  state_of (exec host (code_of (Compile_MOVA relative_globals mova_instr)) 0
                 (state_of (after_prologue relative_globals relative_registers)
                           empty_state))
           empty_state.
(** [MOV o0, c94[a0.x]] reads c95 in that state. *)
Definition mov_c94_a0 : Instruction :=
  common_instr OpCode.MOV (mkCommon 1 126 0 0 0 1 0 0 0).

(** A backwards JMPC in front of the entry point:
    [JMPC 0; END], entered at offset 1. *)
Definition jmpc_backwards : Instruction :=
  flow_instr OpCode.JMPC (mkFlow 0 0 JustX 0 0 1 0).
Definition unreached_globals : Globals :=
  example_globals [jmpc_backwards; end_instr] [swizzle_identity] 1 all_caps.

(** [LOOP i0] whose body is [NOP; LOOP i0 ...]: a nested loop at
    offset 2. *)
Definition nested_program : list Instruction :=
  [ flow_instr OpCode.LOOP (mkFlow 0 5 Or 0 0 0 0);
    nop_instr;
    flow_instr OpCode.LOOP (mkFlow 0 4 Or 0 0 0 0);
    nop_instr; nop_instr; nop_instr; end_instr ].
Definition nested_globals : Globals :=
  example_globals nested_program [swizzle_identity] 0 all_caps.

(** An IF whose true branch is empty: [IFC 1; END]. *)
Definition ifc_to_next : Instruction :=
  flow_instr OpCode.IFC (mkFlow 0 1 JustX 0 0 1 0).
Definition if_next_globals : Globals :=
  example_globals [ifc_to_next; end_instr] [swizzle_identity] 0 all_caps.

(** The arithmetic handlers: [ADD o0, v0, v1], [MOV o0, v0] and
    [MAD o0, v0, v1, v2] under a descriptor that enables X and Z only,
    reverses the components of source 1 and negates it, on a host
    without SSE4.1 and FMA. *)
Definition swizzle_wzyx_neg : SwizzlePattern :=
  mkSwizzle 10 true 228 false 27 false 27.
Definition arith_instr : Instruction :=
  common_instr OpCode.ADD (mkCommon 0 0 1 0 0 0 0 0 0).
Definition mad_v0_v1_v2 : Instruction :=
  mad_instr OpCode.MAD (mkMad 0 0 1 2 0 0 0).
Definition arith_globals : Globals :=
  example_globals [arith_instr; end_instr] [swizzle_wzyx_neg] 0 no_caps.
Definition arith_v0 : Vec4 := mkVec4 f1 f2 f5 f100.
Definition arith_registers : Registers :=
  mkRegisters (arith_v0 :: Vec.splat f1 :: Vec.splat f2 :: replicate 13 Vec.zero)
              (replicate 16 (Vec.splat f0_5)) (replicate 16 Vec.zero).
Definition arith_state : State :=
  state_of (after_prologue arith_globals arith_registers) empty_state.


(** Conditional control flow on the boolean uniform b0 (false):
    [IFU b0 (else at 2, 1 instruction); ADD; NOP; END],
    [JMPU b0, 2; ADD; NOP; END] and [CALLU b0, 2, 1; END; ADD; END]. *)
Definition ifu_instr : Instruction :=
  flow_instr OpCode.IFU (mkFlow 1 2 Or 0 0 0 0).
Definition jmpu_instr : Instruction :=
  flow_instr OpCode.JMPU (mkFlow 0 2 Or 0 0 0 0).
Definition callu_instr : Instruction :=
  flow_instr OpCode.CALLU (mkFlow 1 2 Or 0 0 0 0).
Definition branch_globals (first : Instruction) : Globals :=
  example_globals [first; add_r0_c0; nop_instr; end_instr]
                  [swizzle_identity] 0 all_caps.
Definition callu_globals : Globals :=
  example_globals [callu_instr; end_instr; add_r0_c0; end_instr]
                  [swizzle_identity] 0 all_caps.
Definition branch_state : State :=
  state_of (after_prologue (branch_globals ifu_instr) zero_registers)
           empty_state.
(** The code [Compile_NextInstr] gives for the first instruction. *)
Definition first_code (g : Globals) : Code :=
  match Compile_NextInstr g 6 0 false with
  | Ok (c, _, _) => c
  | Err _ => Skip
  end.


(** A call whose range is the call itself: [CALL 0, 1; END]. *)
Definition self_call : Instruction :=
  flow_instr OpCode.CALL (mkFlow 1 0 Or 0 0 0 0).
Definition self_call_globals : Globals :=
  example_globals [self_call; end_instr] [swizzle_identity] 0 all_caps.

(** A CMP whose X operator is the undefined value 6. *)
Definition cmp_unknown : Instruction :=
  common_instr OpCode.CMP (mkCommon 0 0 1 0 0 0 6 0 0).

(** The state the loop scenario ends its loop in. *)
Definition loop_final : State :=
  state_of (exec host (first_code loop_globals) 10 loop_state) empty_state.


(** A unit state whose output registers o0 and o1 hold values, and two
    programs of the same length: the toy hash gives them one
    fingerprint. *)
Definition output_state : UnitState :=
  mkUnitState
    (mkRegisters (replicate 16 Vec.zero)
                 (Vec.splat f2 :: mkVec4 fneg2 f0_5 fnan f100
                    :: replicate 14 Vec.zero)
                 (replicate 16 Vec.zero))
    0 (false, false).
Definition other_context : Context :=
  example_context [nop_instr; end_instr] [swizzle_identity] 0 all_caps true.

(** [CMP v0, v1] with GT on X and LE on Y, under the descriptor of the
    arithmetic scenario. *)
Definition cmp_gt_le : Instruction :=
  common_instr OpCode.CMP (mkCommon 0 0 1 0 0 0 4 3 0).


(** The loop scenario with a body of one instruction:
    [LOOP i0 (dest 1); ADD r0, c0, r0; END]. *)
Definition loop1_instr : Instruction :=
  flow_instr OpCode.LOOP (mkFlow 0 1 Or 0 0 0 0).
Definition loop1_program : list Instruction :=
  [loop1_instr; add_r0_c0; end_instr].
Definition loop1_globals : Globals :=
  example_globals loop1_program [swizzle_identity] 0 all_caps.

(** A LOOP whose body holds an IF:
    [LOOP i0 (dest 3); IFU b0 (dest 3); NOP; NOP; END]. *)
Definition loop_if_program : list Instruction :=
  [ flow_instr OpCode.LOOP (mkFlow 0 3 Or 0 0 0 0);
    flow_instr OpCode.IFU (mkFlow 0 3 Or 0 0 0 0);
    nop_instr; nop_instr; end_instr ].
Definition loop_if_globals : Globals :=
  example_globals loop_if_program [swizzle_identity] 0 all_caps.

(** A LOOP whose body calls a range that holds a LOOP; neither LOOP
    lies in the body of the other:
    [LOOP i0 (dest 2); CALL 4, 3; NOP; END; LOOP i0 (dest 6); NOP; NOP;
     END]. *)
Definition call_in_loop_program : list Instruction :=
  [ flow_instr OpCode.LOOP (mkFlow 0 2 Or 0 0 0 0);
    flow_instr OpCode.CALL (mkFlow 3 4 Or 0 0 0 0);
    nop_instr; end_instr;
    flow_instr OpCode.LOOP (mkFlow 0 6 Or 0 0 0 0);
    nop_instr; nop_instr; end_instr ].
Definition call_in_loop_globals : Globals :=
  example_globals call_in_loop_program [swizzle_identity] 0 all_caps.

End Examples.

(** * Properties *)

(** ** Colour saturation *)

Section Saturation.

Import Shader.

Lemma sign_bit_fabs (x : Z) : F32.sign_bit (F32.fabs x) = false.
Proof.
  unfold F32.sign_bit, F32.fabs.
  rewrite Z.land_spec.
  replace (Z.testbit 2147483647 31) with false by reflexivity.
  apply andb_false_r.
Qed.

(** The decoding of a lane whose sign bit is clear is never negative. *)
Lemma to_sf_fabs (x : Z) :
  F32.to_sf (F32.fabs x) = S754_nan
  \/ F32.to_sf (F32.fabs x) = S754_zero false
  \/ F32.to_sf (F32.fabs x) = S754_infinity false
  \/ exists m e, F32.to_sf (F32.fabs x) = S754_finite false m e.
Proof.
  unfold F32.to_sf. rewrite sign_bit_fabs.
  destruct (F32.biased_exp (F32.fabs x) =? 0).
  - destruct (F32.fraction (F32.fabs x)); eauto 10.
  - destruct (F32.biased_exp (F32.fabs x) =? 255).
    + destruct (F32.fraction (F32.fabs x)); eauto 10.
    + destruct (F32.fraction (F32.fabs x) + 8388608); eauto 10.
Qed.

Lemma to_sf_one : F32.to_sf F32.one = S754_finite false 8388608 (-23).
Proof. reflexivity. Qed.

Lemma to_sf_zero : F32.to_sf F32.zero = S754_zero false.
Proof. reflexivity. Qed.

Lemma saturate_in_unit_interval (c : float24) :
  Spec.in_unit_interval (saturate c).
Proof.
  unfold Spec.in_unit_interval, saturate, FromFloat32, ToFloat32, F32.fmin.
  unfold F32.is_nan, F32.ltb, F32.leb.
  rewrite to_sf_one, to_sf_zero.
  destruct (to_sf_fabs c) as [H | [H | [H | (m & e & H)]]]; rewrite H.
  - rewrite to_sf_one. split; reflexivity.
  - cbn [SFltb SFcompare]. rewrite H. split; reflexivity.
  - cbn [SFltb SFcompare]. rewrite to_sf_one. split; reflexivity.
  - cbn [SFltb SFcompare].
    rewrite (Z.compare_antisym e (-23)).
    destruct (e ?= -23) eqn:He; cbn [CompOpp].
    + replace (Pos.compare_cont Eq 8388608 m)
        with (CompOpp (Pos.compare_cont Eq m 8388608))
        by apply (Pos.compare_cont_antisym m 8388608 Eq).
      destruct (Pos.compare_cont Eq m 8388608) eqn:Hm; cbn [CompOpp];
        rewrite ?H, ?to_sf_one; cbn [SFleb SFcompare]; rewrite ?He, ?Hm;
        split; reflexivity.
    + rewrite H. cbn [SFleb SFcompare]. rewrite He. split; reflexivity.
    + rewrite to_sf_one. split; reflexivity.
Qed.


Lemma length_write_semantic ret sem v :
  length (write_semantic ret sem v) = length ret.
Proof. unfold write_semantic. destruct (sem =? INVALID); apply length_insert. Qed.

Lemma length_write_output_register ret m o :
  length (write_output_register ret m o) = length ret.
Proof. unfold write_output_register. now rewrite !length_write_semantic. Qed.

Lemma length_write_output_registers n : forall ret maps outs,
  length (write_output_registers n ret maps outs) = length ret.
Proof.
  induction n as [|n IH]; intros ret maps outs; cbn; [reflexivity|].
  destruct maps as [|m maps]; [reflexivity|].
  destruct outs as [|o outs]; [reflexivity|].
  now rewrite IH, length_write_output_register.
Qed.

Lemma lookup_saturate_color (ret : OutputVertex) (i : Z) :
  0 <= i < 4 ->
  saturate_color ret !! color_index i = saturate <$> ret !! color_index i.
Proof.
  intros Hi. unfold saturate_color, color_index. cbn [foldl].
  change (Z.to_nat (8 + 0)) with 8%nat. change (Z.to_nat (8 + 1)) with 9%nat.
  change (Z.to_nat (8 + 2)) with 10%nat. change (Z.to_nat (8 + 3)) with 11%nat.
  assert (i = 0 \/ i = 1 \/ i = 2 \/ i = 3) as [-> | [-> | [-> | ->]]] by lia.
  - change (Z.to_nat (8 + 0)) with 8%nat.
    do 3 (rewrite list_lookup_alter_ne by lia). now rewrite list_lookup_alter.
  - change (Z.to_nat (8 + 1)) with 9%nat.
    do 2 (rewrite list_lookup_alter_ne by lia). rewrite list_lookup_alter.
    now rewrite list_lookup_alter_ne by lia.
  - change (Z.to_nat (8 + 2)) with 10%nat.
    rewrite list_lookup_alter_ne by lia. rewrite list_lookup_alter.
    now do 2 (rewrite list_lookup_alter_ne by lia).
  - change (Z.to_nat (8 + 3)) with 11%nat.
    rewrite list_lookup_alter.
    now do 3 (rewrite list_lookup_alter_ne by lia).
Qed.

(** C8: every component of the [color] field of the vertex [Run] returns
    lies between 0 and 1, whatever the back-end left in the output
    registers (negative values, values above 1, NaN) and whatever the
    uninitialised local held. *)
Theorem C8_color_saturated
  (jit_shader RunInterpreter : UnitState -> option UnitState)
  (ctx : Context) (state : UnitState) (input : list Vec4) (n : Z)
  (ret out : list Z) (i : Z) :
  length ret = OutputVertex_size ->
  Run jit_shader RunInterpreter ctx state input n ret = Some out ->
  0 <= i < 4 ->
  exists c, out !! color_index i = Some c /\ Spec.in_unit_interval c.
Proof.
  intros Hlen Hrun Hi. unfold Run in Hrun.
  destruct (if g_shader_jit_enabled ctx
            then jit_shader (Run_setup ctx state input n)
            else RunInterpreter (Run_setup ctx state input n))
    as [state'|]; [|discriminate].
  injection Hrun as <-. unfold Run_output.
  rewrite lookup_saturate_color by assumption.
  set (w := write_output_registers _ _ _ _).
  assert (Hw : length w = OutputVertex_size)
    by (unfold w; now rewrite length_write_output_registers).
  destruct (lookup_lt_is_Some_2 w (color_index i)) as [c Hc].
  { rewrite Hw. unfold color_index, OutputVertex_size. lia. }
  rewrite Hc. exists (saturate c). split; [reflexivity|].
  apply saturate_in_unit_interval.
Qed.

Lemma C8_color_saturated_witness :
  length Examples.garbage_vertex = OutputVertex_size
  /\ Run (Examples.jit_backend Examples.color_context)
         (Examples.interpreter_backend Examples.color_context)
         Examples.color_context
         Examples.initial_state Examples.color_input 2 Examples.garbage_vertex
     = Some Examples.color_output
  /\ 0 <= 2 < 4
  /\ exists c, Examples.color_output !! color_index 2 = Some c
             /\ Spec.in_unit_interval c.
Proof.
  split; [reflexivity|]. split; [vm_compute; reflexivity|]. split; [lia|].
  apply (C8_color_saturated (Examples.jit_backend Examples.color_context)
           (Examples.interpreter_backend Examples.color_context)
           Examples.color_context Examples.initial_state Examples.color_input
           2 Examples.garbage_vertex Examples.color_output 2).
  - reflexivity.
  - vm_compute; reflexivity.
  - lia.
Defined.

End Saturation.

(** ** The shader cache *)

Section CacheProperties.

Import Shader.

Variable H1 : list Pica.Instruction -> Z.
Variable H2 : list Pica.SwizzlePattern -> Z.

Local Notation Setup := (Setup H1 H2).
Local Notation Setup_all := (Setup_all H1 H2).
Local Notation cache_key := (cache_key H1 H2).
Local Notation fingerprints := (fingerprints H1 H2).

(** A call that finds its fingerprint compiles nothing and selects the
    cached entrypoint. *)
Lemma Setup_hit fuel ctx core sh :
  g_shader_jit_enabled ctx = true ->
  shader_map core !! cache_key (globals ctx) = Some sh ->
  Setup fuel ctx core = Jit.Ok (mkCore (shader_map core) (jit core) (Some sh)).
Proof. intros He Hk. unfold Shader.Setup. now rewrite He, Hk. Qed.

(** What one successful call does to the cache and to the code region. *)
Lemma Setup_step fuel ctx core core1 :
  Setup fuel ctx core = Jit.Ok core1 ->
  (compilations core1 + size (shader_map core)
   = compilations core + size (shader_map core1))%nat
  /\ (compilations core <= compilations core1 <= S (compilations core))%nat
  /\ dom (shader_map core1)
     = dom (shader_map core)
       ∪ (if g_shader_jit_enabled ctx then {[cache_key (globals ctx)]} else ∅)
  /\ (g_shader_jit_enabled ctx = true ->
      exists sh, shader_map core1 !! cache_key (globals ctx) = Some sh
                 /\ jit_shader core1 = Some sh).
Proof.
  unfold Shader.Setup. intros HS.
  destruct (g_shader_jit_enabled ctx).
  - destruct (shader_map core !! cache_key (globals ctx)) as [sh|] eqn:Hk.
    + injection HS as <-. cbn. split; [reflexivity|].
      split; [unfold compilations; cbn; lia|]. split.
      * apply elem_of_dom_2 in Hk. set_solver.
      * intros _. eauto.
    + unfold jit_Compile in HS.
      destruct (Jit.Compile (globals ctx) fuel) as [code|e]; [|discriminate].
      cbn in HS. injection HS as <-. cbn. unfold compilations. cbn.
      rewrite length_app, map_size_insert_None by assumption. cbn.
      split; [lia|]. split; [lia|]. split.
      * rewrite dom_insert_L. set_solver.
      * intros _. eexists. split; [apply lookup_insert_eq|reflexivity].
  - injection HS as <-. split; [reflexivity|]. split; [lia|].
    split; [set_solver|discriminate].
Qed.

Lemma Setup_all_step fuel ctxs : forall core core',
  Setup_all fuel ctxs core = Jit.Ok core' ->
  (compilations core' + size (shader_map core)
   = compilations core + size (shader_map core'))%nat
  /\ dom (shader_map core') = dom (shader_map core) ∪ fingerprints ctxs.
Proof.
  induction ctxs as [|ctx rest IH]; intros core core' HS; cbn in HS.
  - injection HS as <-. split; [reflexivity|]. unfold Shader.fingerprints. cbn.
    set_solver.
  - destruct (Setup fuel ctx core) as [core1|e] eqn:H1'; [|discriminate].
    cbn in HS. apply IH in HS as [Hn Hd].
    apply Setup_step in H1' as (Hn1 & _ & Hd1 & _).
    split; [lia|]. rewrite Hd, Hd1.
    unfold Shader.fingerprints. rewrite filter_cons.
    destruct (g_shader_jit_enabled ctx) eqn:He.
    + rewrite decide_True by reflexivity. cbn. set_solver.
    + rewrite decide_False by discriminate. set_solver.
Qed.

(** C7: after a successful [Setup], the entrypoint selected is the one
    stored under the fingerprint, and a second [Setup] with the same
    program code, swizzle table and entry offset is a cache hit: it
    compiles nothing, leaves the code region and the cache as they are
    and selects that same stored entrypoint, so the two calls compile at
    most once; and from a cache cleared by [Shutdown], a series of calls
    compiles exactly once per distinct fingerprint. *)
Theorem C7_setup_compiles_once (fuel fuel' : nat) (ctx ctx' : Context)
  (core core1 : Core) :
  Setup fuel ctx core = Jit.Ok core1 ->
  Jit.program_code (globals ctx') = Jit.program_code (globals ctx) ->
  Jit.swizzle_data (globals ctx') = Jit.swizzle_data (globals ctx) ->
  Jit.main_offset (globals ctx') = Jit.main_offset (globals ctx) ->
  g_shader_jit_enabled ctx = true ->
  g_shader_jit_enabled ctx' = true ->
  (compilations core1 <= S (compilations core))%nat
  /\ (exists sh core2,
        shader_map core1 !! cache_key (globals ctx') = Some sh
        /\ jit_shader core1 = Some sh
        /\ Setup fuel' ctx' core1 = Jit.Ok core2
        /\ jit_shader core2 = Some sh
        /\ compilations core2 = compilations core1
        /\ jit_shader core2 = jit_shader core1
        /\ jit core2 = jit core1
        /\ shader_map core2 = shader_map core1)
  /\ (forall ctxs core',
        Setup_all fuel ctxs (Shutdown core1) = Jit.Ok core' ->
        compilations core' = (compilations core1 + size (fingerprints ctxs))%nat).
Proof.
  intros HS Hp Hs Hm He He'.
  assert (Hk : cache_key (globals ctx') = cache_key (globals ctx))
    by (unfold Shader.cache_key; now rewrite Hp, Hs, Hm).
  destruct (Setup_step _ _ _ _ HS) as (Hn & Hle & Hd & Hsh).
  destruct (Hsh He) as (sh & Hl & Hj).
  split; [|split].
  - lia.
  - exists sh. eexists. rewrite Hk.
    split; [exact Hl|]. split; [exact Hj|].
    split; [apply Setup_hit; [assumption|rewrite Hk; exact Hl]|].
    cbn. rewrite Hj. repeat split.
  - intros ctxs core' Hall.
    apply Setup_all_step in Hall as [Hn' Hd'].
    cbn in Hn', Hd'. rewrite map_size_empty in Hn'. rewrite dom_empty_L in Hd'.
    rewrite <- size_dom, Hd' in Hn'.
    replace (∅ ∪ fingerprints ctxs) with (fingerprints ctxs) in Hn' by set_solver.
    unfold compilations in *. cbn in Hn'. lia.
Qed.

End CacheProperties.

Lemma C7_setup_compiles_once_witness :
  let H1 := Examples.toy_hash_code in
  let H2 := Examples.toy_hash_swizzle in
  let ctx := Examples.color_context in
  Shader.Setup H1 H2 100 ctx Examples.fresh_core
    = Jit.Ok Examples.core_after_setup
  /\ Jit.program_code (Shader.globals ctx) = Jit.program_code (Shader.globals ctx)
  /\ Jit.swizzle_data (Shader.globals ctx) = Jit.swizzle_data (Shader.globals ctx)
  /\ Jit.main_offset (Shader.globals ctx) = Jit.main_offset (Shader.globals ctx)
  /\ Shader.g_shader_jit_enabled ctx = true
  /\ (Shader.compilations Examples.core_after_setup
       <= S (Shader.compilations Examples.fresh_core))%nat
  /\ (exists sh core2,
        Shader.shader_map Examples.core_after_setup
          !! Shader.cache_key H1 H2 (Shader.globals ctx) = Some sh
        /\ Shader.jit_shader Examples.core_after_setup = Some sh
        /\ Shader.Setup H1 H2 50 ctx Examples.core_after_setup = Jit.Ok core2
        /\ Shader.jit_shader core2 = Some sh
        /\ Shader.compilations core2
           = Shader.compilations Examples.core_after_setup
        /\ Shader.jit_shader core2 = Shader.jit_shader Examples.core_after_setup
        /\ Shader.jit core2 = Shader.jit Examples.core_after_setup
        /\ Shader.shader_map core2 = Shader.shader_map Examples.core_after_setup)
  /\ (forall ctxs core',
        Shader.Setup_all H1 H2 100 ctxs (Shader.Shutdown Examples.core_after_setup)
          = Jit.Ok core' ->
        Shader.compilations core'
        = (Shader.compilations Examples.core_after_setup
           + size (Shader.fingerprints H1 H2 ctxs))%nat).
Proof.
  intros H1 H2 ctx.
  assert (HS : Shader.Setup H1 H2 100 ctx Examples.fresh_core
               = Jit.Ok Examples.core_after_setup) by (vm_compute; reflexivity).
  split; [exact HS|]. do 4 (split; [reflexivity|]).
  exact (C7_setup_compiles_once H1 H2 100 50 ctx ctx Examples.fresh_core
           Examples.core_after_setup HS eq_refl eq_refl eq_refl eq_refl eq_refl).
Defined.

Import Pica X64 Jit.

(** ** Executing emitted code *)

Section Execution.

Variable h : Host.

Lemma exec_emit_all_cons i l fuel s :
  exec h (emit_all (i :: l)) fuel s
  = match step h i s with
    | Next s' => exec h (emit_all l) fuel s'
    | o => o
    end.
Proof. reflexivity. Qed.

Lemma exec_emit_all_nil fuel s : exec h (emit_all []) fuel s = Next s.
Proof. reflexivity. Qed.

Lemma exec_Seq c1 c2 fuel s :
  exec h (Seq c1 c2) fuel s
  = match exec h c1 fuel s with
    | Next s' => exec h c2 fuel s'
    | o => o
    end.
Proof. reflexivity. Qed.

Lemma exec_Seq_Next c1 c2 fuel s s' :
  exec h c1 fuel s = Next s' ->
  exec h (Seq c1 c2) fuel s = exec h c2 fuel s'.
Proof. intros H. cbn [exec]. now rewrite H. Qed.

Lemma step_MOVAPS_reg d r s :
  step h (MOVAPS d (R r)) s = Next (set_xmm s d (xmm s r)).
Proof. reflexivity. Qed.

Lemma step_CMPPS_reg d r p s :
  step h (CMPPS d (R r) p) s
  = Next (set_xmm s d (Vec.map2 (compare_mask p) (xmm s d) (xmm s r))).
Proof. reflexivity. Qed.

Lemma step_CMPSS_reg d r p s :
  step h (CMPSS d (R r) p) s = Next (set_xmm s d (cmpss p (xmm s d) (xmm s r))).
Proof. reflexivity. Qed.

Lemma step_MOVQ_xmm_reg r x s :
  step h (MOVQ_xmm (R r) x) s
  = Next (set_gpr s r (Bits.wrap64 (Vec.low64 (xmm s x)))).
Proof. reflexivity. Qed.

Lemma step_MOV64_reg a b s :
  step h (MOV 64 (R a) (R b)) s
  = Next (set_gpr s a (Bits.wrap64 (Bits.wrap64 (gpr s b)))).
Proof. reflexivity. Qed.

Lemma step_MOV32_reg a b s :
  step h (MOV 32 (R a) (R b)) s
  = Next (set_gpr s a (Bits.wrap32 (Bits.wrap32 (gpr s b)))).
Proof. reflexivity. Qed.

Lemma step_SHR32_imm r c s :
  0 < c < 32 ->
  step h (SHR 32 (R r) (Imm8 c)) s
  = Next (set_zf (set_gpr s r (Bits.wrap32 (Bits.wrap32 (Z.shiftr (Bits.wrap32 (gpr s r)) c))))
                 (Bits.wrap32 (Z.shiftr (Bits.wrap32 (gpr s r)) c) =? 0)).
Proof.
  intros Hc.
  assert (c = 1 \/ c = 2 \/ c = 3 \/ c = 4 \/ c = 5 \/ c = 6 \/ c = 7 \/ c = 8
          \/ c = 9 \/ c = 10 \/ c = 11 \/ c = 12 \/ c = 13 \/ c = 14 \/ c = 15
          \/ c = 16 \/ c = 17 \/ c = 18 \/ c = 19 \/ c = 20 \/ c = 21 \/ c = 22
          \/ c = 23 \/ c = 24 \/ c = 25 \/ c = 26 \/ c = 27 \/ c = 28 \/ c = 29
          \/ c = 30 \/ c = 31) as Hcases by lia.
  repeat (destruct Hcases as [-> | Hcases]; [reflexivity|]).
  subst c. reflexivity.
Qed.

Lemma step_SHR64_imm r c s :
  c = 32 \/ c = 63 ->
  step h (SHR 64 (R r) (Imm8 c)) s
  = Next (set_zf (set_gpr s r (Bits.wrap64 (Bits.wrap64 (Z.shiftr (Bits.wrap64 (gpr s r)) c))))
                 (Bits.wrap64 (Z.shiftr (Bits.wrap64 (gpr s r)) c) =? 0)).
Proof. intros [-> | ->]; reflexivity. Qed.

End Execution.

Lemma reg_eqb_refl r : reg_eqb r r = true.
Proof. apply Z.eqb_refl. Qed.

(** Reading registers of a state built by [set_gpr], [set_xmm] and
    [set_zf] from named registers. *)
Ltac reg_simpl :=
  cbn [gpr xmm zf vmem bmem set_gpr set_xmm set_zf set_vmem set_bmem];
  repeat match goal with
         | |- context [reg_eqb ?a ?b] =>
             let v := eval cbv in (reg_eqb a b) in
             change (reg_eqb a b) with v
         end;
  cbv beta iota.

Lemma wrap32_wrap64_low (m y : Z) :
  0 <= m < 4294967296 ->
  Bits.wrap32 (Bits.wrap64 (m + y * 4294967296)) = m.
Proof.
  intros Hm. unfold Bits.wrap32, Bits.wrap64.
  rewrite <- (Zmod_div_mod 4294967296 18446744073709551616); try reflexivity.
  - rewrite Z_mod_plus_full. now apply Z.mod_small.
  - exists 4294967296. reflexivity.
Qed.

Lemma compare_mask_range p a b : 0 <= compare_mask p a b < 4294967296.
Proof. unfold compare_mask, all_ones. destruct (compare p a b); lia. Qed.

Lemma exec_Compile_CMP_body h instr code fuel s :
  Compile_CMP_body instr = Ok code ->
  exists px py s',
    cmp_at (compare_op_x (common instr)) = Ok px
    /\ cmp_at (compare_op_y (common instr)) = Ok py
    /\ exec h code fuel s = Next s'
    /\ gpr s' COND0 = Z.b2z (compare px (vx (xmm s SRC1)) (vx (xmm s SRC2)))
    /\ gpr s' COND1 = Z.b2z (compare py (vy (xmm s SRC1)) (vy (xmm s SRC2))).
Proof.
  unfold Compile_CMP_body. intros HC.
  destruct (cmp_at (compare_op_x (common instr))) as [px|] eqn:Hx; [|discriminate].
  destruct (cmp_at (compare_op_y (common instr))) as [py|] eqn:Hy; [|discriminate].
  cbn [bind] in HC. injection HC as <-.
  exists px, py.
  destruct (compare_op_x (common instr) =? compare_op_y (common instr)) eqn:Heq.
  - apply Z.eqb_eq in Heq. rewrite <- Heq, Hx in Hy. injection Hy as <-.
    eexists. split; [reflexivity|]. split; [reflexivity|].
    cbn [exec emit_all].
    rewrite step_CMPPS_reg; cbv beta iota.
    rewrite step_MOVQ_xmm_reg; cbv beta iota.
    rewrite step_MOV64_reg; cbv beta iota.
    rewrite step_SHR32_imm by lia; cbv beta iota.
    rewrite step_SHR64_imm by auto; cbv beta iota.
    split; [reflexivity|]. reg_simpl.
    unfold Vec.low64, Vec.map2, compare_mask; cbn [vx vy].
    destruct (compare px (vx (xmm s SRC1)) (vx (xmm s SRC2)));
      destruct (compare px (vy (xmm s SRC1)) (vy (xmm s SRC2)));
      split; reflexivity.
  - eexists. split; [reflexivity|]. split; [reflexivity|].
    cbn [exec emit_all].
    rewrite step_MOVAPS_reg; cbv beta iota.
    rewrite step_CMPSS_reg; cbv beta iota.
    rewrite step_CMPPS_reg; cbv beta iota.
    rewrite step_MOVQ_xmm_reg; cbv beta iota.
    rewrite step_MOVQ_xmm_reg; cbv beta iota.
    rewrite step_SHR32_imm by lia; cbv beta iota.
    rewrite step_SHR64_imm by auto; cbv beta iota.
    split; [reflexivity|]. reg_simpl.
    unfold Vec.low64, Vec.map2, cmpss; cbn [vx vy].
    rewrite wrap32_wrap64_low by apply compare_mask_range.
    unfold compare_mask.
    destruct (compare px (vx (xmm s SRC1)) (vx (xmm s SRC2)));
      destruct (compare py (vx (xmm s SRC1)) (vx (xmm s SRC2)));
      destruct (compare py (vy (xmm s SRC1)) (vy (xmm s SRC2)));
      split; reflexivity.
Qed.

Lemma compare_unordered p a b :
  F32.unordered a b = true ->
  compare p a b
  = match p with
    | CMP_UNORD | CMP_NEQ | CMP_NLT | CMP_NLE => true
    | _ => false
    end.
Proof.
  unfold F32.unordered, F32.is_nan. intros Hu.
  assert (Hc : SFcompare (F32.to_sf a) (F32.to_sf b) = None).
  { destruct (F32.to_sf a), (F32.to_sf b); try reflexivity; discriminate. }
  destruct p; unfold compare, F32.eqb, F32.ltb, F32.leb, F32.unordered,
    F32.is_nan, SFeqb, SFltb, SFleb; rewrite ?Hc, ?Hu; reflexivity.
Qed.

Lemma cmp_at_on_nan o p a b :
  cmp_at o = Ok p ->
  F32.unordered a b = true ->
  Z.b2z (compare p a b) = Spec.cmp_on_nan o.
Proof.
  intros Hp Hu. rewrite (compare_unordered p a b Hu).
  unfold cmp_at in Hp.
  destruct (cmp_table !! Z.to_nat o) as [q|] eqn:Hq; [|discriminate].
  destruct (0 <=? o) eqn:Ho; [|discriminate]. injection Hp as ->.
  apply Z.leb_le in Ho.
  assert (Hlt : (Z.to_nat o < 6)%nat).
  { apply lookup_lt_Some in Hq. exact Hq. }
  assert (o = 0 \/ o = 1 \/ o = 2 \/ o = 3 \/ o = 4 \/ o = 5)
    as [-> | [-> | [-> | [-> | [-> | ->]]]]] by lia;
    cbn in Hq; injection Hq as <-; reflexivity.
Qed.

Lemma cmp_at_defined o : 0 <= o <= 5 -> exists p, cmp_at o = Ok p.
Proof.
  intros Ho.
  assert (o = 0 \/ o = 1 \/ o = 2 \/ o = 3 \/ o = 4 \/ o = 5)
    as [-> | [-> | [-> | [-> | [-> | ->]]]]] by lia; eexists; reflexivity.
Qed.

(** C10: when a compared lane of CMP is NaN, the condition code the
    emitted code leaves in COND0 (X) or COND1 (Y) is 1 for GT and GE
    (lowered to the unordered-true CMP_NLE and CMP_NLT) and for NEQ, and
    0 for EQ, LT and LE. *)
Theorem C10_cmp_nan (g : Globals) (h : Host) (instr : Instruction)
  (sw1 sw2 : Code) (fuel : nat) (s s1 : State) :
  Compile_SwizzleSrc g instr 1 (src1 (common instr)) SRC1 = Ok sw1 ->
  Compile_SwizzleSrc g instr 2 (src2 (common instr)) SRC2 = Ok sw2 ->
  0 <= compare_op_x (common instr) <= 5 ->
  0 <= compare_op_y (common instr) <= 5 ->
  exec h (Seq sw1 sw2) fuel s = Next s1 ->
  exists code s2,
    Compile_CMP g instr = Ok code
    /\ exec h code fuel s = Next s2
    /\ (F32.unordered (vx (xmm s1 SRC1)) (vx (xmm s1 SRC2)) = true ->
        gpr s2 COND0 = Spec.cmp_on_nan (compare_op_x (common instr)))
    /\ (F32.unordered (vy (xmm s1 SRC1)) (vy (xmm s1 SRC2)) = true ->
        gpr s2 COND1 = Spec.cmp_on_nan (compare_op_y (common instr))).
Proof.
  intros H1 H2 Hx Hy Hex.
  destruct (cmp_at_defined _ Hx) as [px Hpx].
  destruct (cmp_at_defined _ Hy) as [py Hpy].
  assert (Hbody : exists body, Compile_CMP_body instr = Ok body).
  { unfold Compile_CMP_body. rewrite Hpx, Hpy. cbn [bind]. eauto. }
  destruct Hbody as [body Hbody].
  destruct (exec_Compile_CMP_body h instr body fuel s1 Hbody)
    as (px' & py' & s2 & Hpx' & Hpy' & Hrun & H0 & H1').
  rewrite Hpx in Hpx'. injection Hpx' as <-.
  rewrite Hpy in Hpy'. injection Hpy' as <-.
  exists (Seq sw1 (Seq sw2 body)), s2.
  split; [unfold Compile_CMP; rewrite H1, H2, Hbody; reflexivity|].
  split.
  - cbn [exec] in Hex |- *.
    destruct (exec h sw1 fuel s) as [sa| | |]; try discriminate.
    rewrite Hex. exact Hrun.
  - split; intros Hu.
    + rewrite H0. now apply cmp_at_on_nan.
    + rewrite H1'. now apply cmp_at_on_nan.
Qed.

Lemma C10_cmp_nan_witness :
  let g := Examples.cmp_globals in
  let instr := Examples.cmp_instr in
  Compile_SwizzleSrc g instr 1 (src1 (common instr)) SRC1 = Ok Examples.cmp_src1
  /\ Compile_SwizzleSrc g instr 2 (src2 (common instr)) SRC2 = Ok Examples.cmp_src2
  /\ 0 <= compare_op_x (common instr) <= 5
  /\ 0 <= compare_op_y (common instr) <= 5
  /\ exec Examples.host (Seq Examples.cmp_src1 Examples.cmp_src2) 0
          Examples.cmp_state = Next Examples.cmp_loaded
  /\ F32.unordered (vx (xmm Examples.cmp_loaded SRC1))
                   (vx (xmm Examples.cmp_loaded SRC2)) = true
  /\ exists code s2,
       Compile_CMP g instr = Ok code
       /\ exec Examples.host code 0 Examples.cmp_state = Next s2
       /\ (F32.unordered (vx (xmm Examples.cmp_loaded SRC1))
                         (vx (xmm Examples.cmp_loaded SRC2)) = true ->
           gpr s2 COND0 = Spec.cmp_on_nan (compare_op_x (common instr)))
       /\ (F32.unordered (vy (xmm Examples.cmp_loaded SRC1))
                         (vy (xmm Examples.cmp_loaded SRC2)) = true ->
           gpr s2 COND1 = Spec.cmp_on_nan (compare_op_y (common instr))).
Proof.
  intros g instr.
  assert (H1 : Compile_SwizzleSrc g instr 1 (src1 (common instr)) SRC1
               = Ok Examples.cmp_src1) by reflexivity.
  assert (H2 : Compile_SwizzleSrc g instr 2 (src2 (common instr)) SRC2
               = Ok Examples.cmp_src2) by reflexivity.
  assert (Hx : 0 <= compare_op_x (common instr) <= 5) by (cbn; lia).
  assert (Hy : 0 <= compare_op_y (common instr) <= 5) by (cbn; lia).
  assert (He : exec Examples.host (Seq Examples.cmp_src1 Examples.cmp_src2) 0
                    Examples.cmp_state = Next Examples.cmp_loaded)
    by (vm_compute; reflexivity).
  repeat (split; [assumption|]).
  split; [vm_compute; reflexivity|].
  exact (C10_cmp_nan g Examples.host instr Examples.cmp_src1 Examples.cmp_src2
           0 Examples.cmp_state Examples.cmp_loaded H1 H2 Hx Hy He).
Defined.

(** ** The registers of a compiled loop *)

Section LoopRegisters.

Variable h : Host.

Lemma keeps_refl s : Spec.keeps_loop_registers s s.
Proof. repeat split. Qed.

Lemma keeps_trans s1 s2 s3 :
  Spec.keeps_loop_registers s1 s2 -> Spec.keeps_loop_registers s2 s3 ->
  Spec.keeps_loop_registers s1 s3.
Proof.
  intros (A & B & C) (A' & B' & C'). repeat split; congruence.
Qed.

Lemma keeps_set_gpr s r v :
  Spec.is_loop_register r = false ->
  Spec.keeps_loop_registers s (set_gpr s r v).
Proof.
  unfold Spec.is_loop_register, Spec.keeps_loop_registers. intros Hr.
  apply orb_false_elim in Hr as [Hr H3].
  apply orb_false_elim in Hr as [H1 H2].
  cbn [gpr set_gpr].
  unfold reg_eqb in *. rewrite Z.eqb_sym in H1, H2, H3.
  now rewrite H1, H2, H3.
Qed.

Lemma keeps_write_int bits s arg v s' :
  match arg with R r => Spec.is_loop_register r = false | _ => True end ->
  write_int bits s arg v = Some s' ->
  Spec.keeps_loop_registers s s'.
Proof.
  intros Hr Hw. unfold write_int in Hw.
  destruct arg; try discriminate.
  - destruct ((bits =? 64) || (bits =? 32)); injection Hw as <-;
      now apply keeps_set_gpr.
  - destruct (effective_address s _); [|discriminate].
    destruct (store_bytes _ _ _ _); [|discriminate].
    injection Hw as <-. repeat split.
  - destruct (effective_address s _); [|discriminate].
    destruct (store_bytes _ _ _ _); [|discriminate].
    injection Hw as <-. repeat split.
Qed.

Lemma keeps_sse2 f s d arg s' :
  sse2 f s d arg = Next s' -> Spec.keeps_loop_registers s s'.
Proof.
  unfold sse2. destruct (read_xmm s arg); [|discriminate].
  intros [= <-]. repeat split.
Qed.

Lemma keeps_sse1 f s d arg s' :
  sse1 f s d arg = Next s' -> Spec.keeps_loop_registers s s'.
Proof.
  unfold sse1. destruct (read_xmm s arg); [|discriminate].
  intros [= <-]. repeat split.
Qed.

Lemma keeps_set_zf s s' b :
  Spec.keeps_loop_registers s s' -> Spec.keeps_loop_registers s (set_zf s' b).
Proof. intros H. exact H. Qed.

Lemma keeps_alu bits f s a1 a2 s' :
  match a1 with R r => Spec.is_loop_register r = false | _ => True end ->
  alu bits f s a1 a2 = Next s' -> Spec.keeps_loop_registers s s'.
Proof.
  intros Hr. unfold alu.
  destruct (read_int bits s a1); [|discriminate].
  destruct (read_int bits s a2); [|discriminate].
  destruct (write_int bits s a1 _) as [s1|] eqn:Hw; [|discriminate].
  intros [= <-]. apply keeps_set_zf. eapply keeps_write_int; eassumption.
Qed.

Lemma keeps_shift bits f s a1 a2 s' :
  match a1 with R r => Spec.is_loop_register r = false | _ => True end ->
  shift bits f s a1 a2 = Next s' -> Spec.keeps_loop_registers s s'.
Proof.
  intros Hr. unfold shift.
  destruct (read_int bits s a1); [|discriminate].
  destruct (read_int 8 s a2); [|discriminate].
  destruct (write_int bits s a1 _) as [s1|] eqn:Hw; [|discriminate].
  intros [= <-].
  destruct (_ =? 0); [|apply keeps_set_zf]; eapply keeps_write_int; eassumption.
Qed.

Lemma keeps_of_option o s s' :
  (forall s1, o = Some s1 -> Spec.keeps_loop_registers s s1) ->
  of_option o = Next s' -> Spec.keeps_loop_registers s s'.
Proof. destruct o; [|discriminate]. intros H [= <-]. now apply H. Qed.

Lemma step_spares i s s' :
  Spec.spares_loop_registers (Emit i) = true ->
  step h i s = Next s' -> Spec.keeps_loop_registers s s'.
Proof.
  cbn [Spec.spares_loop_registers]. intros Hi Hs.
  destruct i; cbn [step] in Hs;
    try (eapply keeps_sse2; eassumption);
    try (eapply keeps_sse1; eassumption).
  - (* MOVAPS_store *)
    destruct (effective_address s arg) as [a|]; [|discriminate].
    eapply keeps_of_option; [|exact Hs]. intros s1 Hw.
    unfold store128 in Hw. destruct (a mod 16 =? 0); [|discriminate].
    revert Hw. destruct (_ !! _); [|intros; discriminate].
    intros [= <-]. repeat split.
  - (* MOVQ_xmm *)
    eapply keeps_of_option; [|exact Hs]. intros s1 Hw.
    eapply keeps_write_int; [|exact Hw].
    match goal with |- match ?a with R _ => _ | _ => _ end => destruct a end;
      try exact I. cbn in Hi. now apply negb_true_iff in Hi.
  - (* MOVSX *)
    destruct (read_int sbits s arg); [|discriminate].
    eapply keeps_of_option; [|exact Hs]. intros s1 Hw.
    eapply keeps_write_int; [|exact Hw]. cbn in Hi. now apply negb_true_iff in Hi.
  - (* MOVZX *)
    destruct (read_int sbits s arg); [|discriminate].
    eapply keeps_of_option; [|exact Hs]. intros s1 Hw.
    eapply keeps_write_int; [|exact Hw]. cbn in Hi. now apply negb_true_iff in Hi.
  - (* MOV *)
    destruct (read_int bits s a2); [|discriminate].
    eapply keeps_of_option; [|exact Hs]. intros s1 Hw.
    eapply keeps_write_int; [|exact Hw].
    match goal with |- match ?a with R _ => _ | _ => _ end => destruct a end;
      try exact I. cbn in Hi. now apply negb_true_iff in Hi.
  - eapply keeps_shift; [|exact Hs].
    match goal with |- match ?a with R _ => _ | _ => _ end => destruct a end;
      try exact I. cbn in Hi. now apply negb_true_iff in Hi.
  - eapply keeps_shift; [|exact Hs].
    match goal with |- match ?a with R _ => _ | _ => _ end => destruct a end;
      try exact I. cbn in Hi. now apply negb_true_iff in Hi.
  - eapply keeps_alu; [|exact Hs].
    match goal with |- match ?a with R _ => _ | _ => _ end => destruct a end;
      try exact I. cbn in Hi. now apply negb_true_iff in Hi.
  - eapply keeps_alu; [|exact Hs].
    match goal with |- match ?a with R _ => _ | _ => _ end => destruct a end;
      try exact I. cbn in Hi. now apply negb_true_iff in Hi.
  - eapply keeps_alu; [|exact Hs].
    match goal with |- match ?a with R _ => _ | _ => _ end => destruct a end;
      try exact I. cbn in Hi. now apply negb_true_iff in Hi.
  - eapply keeps_alu; [|exact Hs].
    match goal with |- match ?a with R _ => _ | _ => _ end => destruct a end;
      try exact I. cbn in Hi. now apply negb_true_iff in Hi.
  - eapply keeps_alu; [|exact Hs].
    match goal with |- match ?a with R _ => _ | _ => _ end => destruct a end;
      try exact I. cbn in Hi. now apply negb_true_iff in Hi.
  - (* CMP *)
    destruct (read_int bits s a1); [|discriminate].
    destruct (read_int bits s a2); [|discriminate].
    injection Hs as <-. repeat split.
  - injection Hs as <-. repeat split.
  - injection Hs as <-. repeat split.
  - discriminate.
Qed.

Lemma exec_spares c : forall fuel s s',
  Spec.spares_loop_registers c = true ->
  exec h c fuel s = Next s' -> Spec.keeps_loop_registers s s'.
Proof.
  induction c as [|i|c1 IH1 c2 IH2|cc body IH|cc thn IHt els IHe|body IH cc];
    intros fuel s s' Hc He; cbn [exec] in He.
  - injection He as <-. apply keeps_refl.
  - eapply step_spares; eassumption.
  - cbn [Spec.spares_loop_registers] in Hc. apply andb_true_iff in Hc as [H1 H2].
    destruct (exec h c1 fuel s) as [s1| | |] eqn:E1; try discriminate.
    eapply keeps_trans; [eapply IH1|eapply IH2]; eassumption.
  - destruct (test_cc cc s).
    + injection He as <-. apply keeps_refl.
    + eapply IH; eassumption.
  - cbn [Spec.spares_loop_registers] in Hc. apply andb_true_iff in Hc as [H1 H2].
    destruct (test_cc cc s); [eapply IHe|eapply IHt]; eassumption.
  - cbn [Spec.spares_loop_registers] in Hc.
    revert s He. generalize fuel at 2. intros n.
    induction n as [|n IHn]; intros s He; cbn [loop_back] in He;
      [discriminate|].
    destruct (exec h body fuel s) as [s1| | |] eqn:E1; try discriminate.
    destruct (test_cc cc s1).
    + eapply keeps_trans; [eapply IH; eassumption|]. now apply IHn.
    + injection He as <-. eapply IH; eassumption.
Qed.


Variable g : Globals.

Lemma spares_SwizzleSrc instr n r d c :
  Compile_SwizzleSrc g instr n r d = Ok c ->
  Spec.spares_loop_registers c = true.
Proof.
  unfold Compile_SwizzleSrc, Compile_SwizzleSrc_load, Compile_SwizzleSrc_swizzle.
  intros Hc.
  repeat match type of Hc with
         | context [match ?x with _ => _ end] => destruct x
         | context [if ?x then _ else _] => destruct x
         end;
    cbn [bind] in Hc; try discriminate Hc; injection Hc as <-; reflexivity.
Qed.

Lemma spares_DestEnable instr src :
  Spec.spares_loop_registers (Compile_DestEnable g instr src) = true.
Proof.
  unfold Compile_DestEnable.
  repeat match goal with
         | |- context [if ?x then _ else _] => destruct x
         end; reflexivity.
Qed.

Lemma spares_binary instr body c :
  Spec.spares_loop_registers body = true ->
  Compile_binary g instr body = Ok c ->
  Spec.spares_loop_registers c = true.
Proof.
  unfold Compile_binary. intros Hb Hc.
  destruct (Compile_SwizzleSrc g instr 1 _ SRC1) as [s1|] eqn:H1;
    [|discriminate].
  destruct (Compile_SwizzleSrc g instr 2 _ SRC2) as [s2|] eqn:H2;
    [|discriminate].
  cbn [bind] in Hc. injection Hc as <-. cbn [Spec.spares_loop_registers].
  now rewrite (spares_SwizzleSrc _ _ _ _ _ H1), (spares_SwizzleSrc _ _ _ _ _ H2),
    Hb, spares_DestEnable.
Qed.

Lemma spares_unary instr body c :
  Spec.spares_loop_registers body = true ->
  Compile_unary g instr body = Ok c ->
  Spec.spares_loop_registers c = true.
Proof.
  unfold Compile_unary. intros Hb Hc.
  destruct (Compile_SwizzleSrc g instr 1 _ SRC1) as [s1|] eqn:H1;
    [|discriminate].
  cbn [bind] in Hc. injection Hc as <-. cbn [Spec.spares_loop_registers].
  now rewrite (spares_SwizzleSrc _ _ _ _ _ H1), Hb, spares_DestEnable.
Qed.

Lemma spares_EvaluateCondition instr :
  Spec.spares_loop_registers (Compile_EvaluateCondition instr) = true.
Proof. unfold Compile_EvaluateCondition. destruct (op _); reflexivity. Qed.

(** The code of a handler that is not control flow writes none of the
    loop registers. *)
Lemma spares_simple instr c :
  Compile_ADD g instr = Ok c \/ Compile_DP3 g instr = Ok c
  \/ Compile_DP4 g instr = Ok c \/ Compile_MUL g instr = Ok c
  \/ Compile_FLR g instr = Ok c \/ Compile_MAX g instr = Ok c
  \/ Compile_MIN g instr = Ok c \/ Compile_RCP g instr = Ok c
  \/ Compile_RSQ g instr = Ok c \/ Compile_MOVA g instr = Ok c
  \/ Compile_MOV g instr = Ok c \/ Compile_SLTI g instr = Ok c
  \/ Compile_NOP instr = Ok c \/ Compile_END instr = Ok c
  \/ Compile_CMP g instr = Ok c \/ Compile_MAD g instr = Ok c ->
  Spec.spares_loop_registers c = true.
Proof.
  intros H.
  repeat (destruct H as [H|H];
          [try (eapply spares_binary; [|exact H];
                first [reflexivity | destruct (sse4_1 (caps g)); reflexivity]);
           try (eapply spares_unary; [|exact H];
                first [reflexivity
                      | unfold Compile_FLR_body;
                        destruct (sse4_1 (caps g)); reflexivity])|]).
  - (* MOVA *)
    unfold Compile_MOVA in H.
    destruct (negb _ && negb _); [injection H as <-; reflexivity|].
    destruct (Compile_SwizzleSrc g instr 1 _ SRC1) as [s1|] eqn:H1;
      [|discriminate].
    cbn [bind] in H. injection H as <-. cbn [Spec.spares_loop_registers].
    rewrite (spares_SwizzleSrc _ _ _ _ _ H1). unfold Compile_MOVA_body.
    destruct (DestComponentEnabled _ 0), (DestComponentEnabled _ 1);
      reflexivity.
  - (* SLTI *)
    unfold Compile_SLTI in H.
    destruct (Compile_SwizzleSrc g instr 1 (src1i _) SRC1) as [s1|] eqn:H1;
      [|discriminate].
    destruct (Compile_SwizzleSrc g instr 1 (src2i _) SRC2) as [s2|] eqn:H2;
      [|discriminate].
    cbn [bind] in H. injection H as <-. cbn [Spec.spares_loop_registers].
    now rewrite (spares_SwizzleSrc _ _ _ _ _ H1), (spares_SwizzleSrc _ _ _ _ _ H2),
      spares_DestEnable.
  - injection H as <-. reflexivity.
  - injection H as <-. reflexivity.
  - (* CMP *)
    unfold Compile_CMP, Compile_CMP_body in H.
    destruct (Compile_SwizzleSrc g instr 1 _ SRC1) as [s1|] eqn:H1;
      [|discriminate].
    destruct (Compile_SwizzleSrc g instr 2 _ SRC2) as [s2|] eqn:H2;
      [|discriminate].
    destruct (cmp_at (compare_op_x _)); [|discriminate].
    destruct (cmp_at (compare_op_y _)); [|discriminate].
    cbn [bind] in H. injection H as <-. cbn [Spec.spares_loop_registers].
    rewrite (spares_SwizzleSrc _ _ _ _ _ H1), (spares_SwizzleSrc _ _ _ _ _ H2).
    destruct (_ =? _); reflexivity.
  - (* MAD *)
    unfold Compile_MAD in H.
    destruct (Compile_SwizzleSrc g instr 1 _ SRC1) as [s1|] eqn:H1;
      [|discriminate].
    cbn [bind] in H.
    destruct (_ =? OpCode.MADI);
      (destruct (Compile_SwizzleSrc g instr 2 _ SRC2) as [s2|] eqn:H2;
         [|discriminate];
       destruct (Compile_SwizzleSrc g instr 3 _ SRC3) as [s3|] eqn:H3;
         [|discriminate];
       cbn [bind] in H; injection H as <-; cbn [Spec.spares_loop_registers];
       rewrite (spares_SwizzleSrc _ _ _ _ _ H1), (spares_SwizzleSrc _ _ _ _ _ H2),
         (spares_SwizzleSrc _ _ _ _ _ H3), spares_DestEnable;
       destruct (fma (caps g)); reflexivity).
Qed.


(** Code compiled while a loop body is being compiled writes none of
    the loop registers, and [looping] is still set afterwards. *)
Lemma Compile_in_loop_spares fuel :
  (forall offset c o l,
     Compile_NextInstr g fuel offset true = Ok (c, o, l) ->
     Spec.spares_loop_registers c = true /\ l = true)
  /\ (forall stop offset c o l,
        Compile_Block g fuel stop offset true = Ok (c, o, l) ->
        Spec.spares_loop_registers c = true /\ l = true)
  /\ (forall limit offset c l,
        Compile_CALL_loop g fuel limit offset true = Ok (c, l) ->
        Spec.spares_loop_registers c = true /\ l = true).
Proof.
  induction fuel as [|fuel (IHn & IHb & IHc)].
  { repeat apply conj; intros; discriminate. }
  split; [|split].
  - intros offset c o l. cbn [Compile_NextInstr].
    destruct (if 0 <=? offset then program_code g !! Z.to_nat offset else None)
      as [instr|]; [|discriminate].
    cbv zeta.
    assert (Hsimple : forall r,
              (forall c', r = Ok c' -> Spec.spares_loop_registers c' = true) ->
              bind r (fun c0 => Ok (c0, offset + 1, true)) = Ok (c, o, l) ->
              Spec.spares_loop_registers c = true /\ l = true).
    { intros r Hr Hb. destruct r as [c'|]; [|discriminate].
      cbn [bind] in Hb. injection Hb as <- _ <-. split; [now apply Hr|reflexivity]. }
    assert (Hcall : forall c' l',
              bind (Compile_CALL_loop g fuel
                      (dest_offset (flow_control instr)
                       + num_instructions (flow_control instr))
                      (dest_offset (flow_control instr)) true)
                   (fun '(c0, l0) => Ok (c0, l0)) = Ok (c', l') ->
              Spec.spares_loop_registers c' = true /\ l' = true).
    { intros c' l' Hb.
      destruct (Compile_CALL_loop g fuel _ _ true) as [[c0 l0]|] eqn:E;
        [|discriminate].
      cbn [bind] in Hb. injection Hb as <- <-. eapply IHc; exact E. }
    destruct (default None (instr_table !! Z.to_nat (opcode instr)))
      as [[]|];
      try (apply Hsimple; intros c' Hc'; apply (spares_simple instr c'); tauto).
    + (* CALL *)
      intros Hb.
      destruct (bind (Compile_CALL_loop g fuel _ _ true) _) as [[c0 l0]|] eqn:E;
        [|discriminate].
      cbn [bind] in Hb. injection Hb as <- _ <-. now apply Hcall.
    + (* CALLC *)
      intros Hb.
      destruct (bind (Compile_CALL_loop g fuel _ _ true) _) as [[c0 l0]|] eqn:E;
        [|discriminate].
      cbn [bind] in Hb. injection Hb as <- _ <-.
      destruct (Hcall c0 l0 eq_refl) as [Hs ->].
      cbn [Spec.spares_loop_registers].
      now rewrite spares_EvaluateCondition, Hs.
    + (* CALLU *)
      intros Hb.
      destruct (bind (Compile_CALL_loop g fuel _ _ true) _) as [[c0 l0]|] eqn:E;
        [|discriminate].
      cbn [bind] in Hb. injection Hb as <- _ <-.
      destruct (Hcall c0 l0 eq_refl) as [Hs ->].
      cbn [Spec.spares_loop_registers]. now rewrite Hs.
    + (* IF *)
      destruct (_ <=? _); [discriminate|].
      destruct (Compile_Block g fuel _ (offset + 1) true)
        as [[[thn o1] l1]|] eqn:E1; [|discriminate].
      cbn [bind]. destruct (IHb _ _ _ _ _ E1) as [Ht ->].
      assert (Hcond : Spec.spares_loop_registers
                (if opcode instr =? OpCode.IFU
                 then Compile_UniformCondition instr
                 else if opcode instr =? OpCode.IFC
                      then Compile_EvaluateCondition instr else Skip) = true).
      { destruct (_ =? OpCode.IFU); [reflexivity|].
        destruct (_ =? OpCode.IFC); [apply spares_EvaluateCondition|reflexivity]. }
      destruct (num_instructions (flow_control instr) =? 0).
      * intros [= <- _ <-]. cbn [Spec.spares_loop_registers].
        now rewrite Hcond, Ht.
      * destruct (Compile_Block g fuel _ o1 true)
          as [[[els o2] l2]|] eqn:E2; [|discriminate].
        cbn [bind]. destruct (IHb _ _ _ _ _ E2) as [He ->].
        intros [= <- _ <-]. cbn [Spec.spares_loop_registers].
        now rewrite Hcond, Ht, He.
    + (* LOOP: rejected inside a loop *)
      destruct (_ <=? _); discriminate.
    + (* JMP *)
      destruct (_ <=? _); [discriminate|].
      destruct (opcode instr =? OpCode.JMPC);
        [|destruct (opcode instr =? OpCode.JMPU); [|discriminate]];
        cbn [bind];
        (destruct (Compile_Block g fuel _ (offset + 1) true)
           as [[[body o1] l1]|] eqn:E1; [|discriminate];
         cbn [bind]; destruct (IHb _ _ _ _ _ E1) as [Hb ->];
         intros [= <- _ <-]; cbn [Spec.spares_loop_registers];
         rewrite ?spares_EvaluateCondition, Hb; split; reflexivity).
    + (* unhandled *)
      intros [= <- _ <-]. split; reflexivity.
  - intros stop offset c o l. cbn [Compile_Block].
    destruct (offset <=? stop).
    + destruct (Compile_NextInstr g fuel offset true)
        as [[[c1 o1] l1]|] eqn:E1; [|discriminate].
      cbn [bind]. destruct (IHn _ _ _ _ E1) as [H1 ->].
      destruct (Compile_Block g fuel stop o1 true)
        as [[[c2 o2] l2]|] eqn:E2; [|discriminate].
      cbn [bind]. destruct (IHb _ _ _ _ _ E2) as [H2 ->].
      intros [= <- _ <-]. cbn [Spec.spares_loop_registers].
      now rewrite H1, H2.
    + intros [= <- _ <-]. split; reflexivity.
  - intros limit offset c l. cbn [Compile_CALL_loop].
    destruct (offset <? limit).
    + destruct (Compile_NextInstr g fuel offset true)
        as [[[c1 o1] l1]|] eqn:E1; [|discriminate].
      cbn [bind]. destruct (IHn _ _ _ _ E1) as [H1 ->].
      destruct (Compile_CALL_loop g fuel limit o1 true)
        as [[c2 l2]|] eqn:E2; [|discriminate].
      cbn [bind]. destruct (IHc _ _ _ _ E2) as [H2 ->].
      intros [= <- <-]. cbn [Spec.spares_loop_registers].
      now rewrite H1, H2.
    + intros [= <- <-]. split; reflexivity.
Qed.

End LoopRegisters.

(** ** Loops *)

Section LoopExecution.

Variable h : Host.

Lemma step_MOV32_load r base disp s u :
  load_bytes (bmem s) (Bits.wrap64 (gpr s base + disp)) 4 = Some u ->
  step h (MOV 32 (R r) (MDisp base disp)) s
  = Next (set_gpr s r (Bits.wrap32 u)).
Proof.
  intros Hu. unfold step, read_int, effective_address.
  change (Z.to_nat (32 / 8)) with 4%nat. now rewrite Hu.
Qed.

Lemma step_AND32_imm255 r s :
  step h (AND 32 (R r) (Imm32 255)) s
  = Next (set_zf (set_gpr s r (Bits.wrap32 (Bits.wrap32 (Z.land (Bits.wrap32 (gpr s r)) 255))))
                 (Bits.wrap32 (Z.land (Bits.wrap32 (gpr s r)) 255) =? 0)).
Proof. reflexivity. Qed.

Lemma step_MOVZX32_8 d r s :
  step h (MOVZX 32 8 d (R r)) s
  = Next (set_gpr s d (Bits.wrap32 (Bits.wrap8 (gpr s r)))).
Proof. reflexivity. Qed.

Lemma step_ADD32_imm1 r s :
  step h (ADD 32 (R r) (Imm8 1)) s
  = Next (set_zf (set_gpr s r (Bits.wrap32 (Bits.wrap32 (Bits.wrap32 (gpr s r) + 1))))
                 (Bits.wrap32 (Bits.wrap32 (gpr s r) + 1) =? 0)).
Proof. reflexivity. Qed.

Lemma step_SUB32_imm1 r s :
  step h (SUB 32 (R r) (Imm8 1)) s
  = Next (set_zf (set_gpr s r (Bits.wrap32 (Bits.wrap32 (Bits.wrap32 (gpr s r) - 1))))
                 (Bits.wrap32 (Bits.wrap32 (gpr s r) - 1) =? 0)).
Proof. reflexivity. Qed.

Lemma step_ADD32_reg a b s :
  step h (ADD 32 (R a) (R b)) s
  = Next (set_zf (set_gpr s a (Bits.wrap32 (Bits.wrap32
                    (Bits.wrap32 (gpr s a) + Bits.wrap32 (gpr s b)))))
                 (Bits.wrap32 (Bits.wrap32 (gpr s a) + Bits.wrap32 (gpr s b)) =? 0)).
Proof. reflexivity. Qed.


(** The registers a loop lives in after [Compile_LOOP_init], when the
    integer uniform holds the bytes [count], [start], [inc], [w]. *)
Lemma exec_Compile_LOOP_init instr fuel s count start inc w :
  let a := Bits.wrap64 (gpr s UNIFORMS
             + (offsetof_uniforms_i + int_uniform_id (flow_control instr) * 4)) in
  bmem s !! a = Some count ->
  bmem s !! (a + 1) = Some start ->
  bmem s !! (a + 1 + 1) = Some inc ->
  bmem s !! (a + 1 + 1 + 1) = Some w ->
  0 <= count < 256 -> 0 <= start < 256 -> 0 <= inc < 256 -> 0 <= w < 256 ->
  exists s0,
    exec h (Compile_LOOP_init instr) fuel s = Next s0
    /\ gpr s0 LOOPCOUNT = count + 1
    /\ gpr s0 LOOPINC = inc
    /\ gpr s0 LOOPCOUNT_REG = start.
Proof.
  intros a H0 H1 H2 H3 Hc Hs Hi Hw.
  set (u := count + 256 * (start + 256 * (inc + 256 * (w + 256 * 0)))).
  assert (Hu : load_bytes (bmem s) a 4 = Some u).
  { cbn [load_bytes]. now rewrite H0, H1, H2, H3. }
  unfold Compile_LOOP_init. cbn [exec emit_all].
  rewrite (step_MOV32_load _ _ _ _ u) by exact Hu; cbv beta iota.
  rewrite step_MOV32_reg; cbv beta iota.
  rewrite step_SHR32_imm by lia; cbv beta iota.
  rewrite step_AND32_imm255; cbv beta iota.
  rewrite step_MOV32_reg; cbv beta iota.
  rewrite step_SHR32_imm by lia; cbv beta iota.
  rewrite step_MOVZX32_8; cbv beta iota.
  rewrite step_MOVZX32_8; cbv beta iota.
  rewrite step_ADD32_imm1; cbv beta iota.
  eexists. split; [reflexivity|]. reg_simpl.
  assert (Hub : 0 <= u < 4294967296) by (unfold u; lia).
  assert (Hw32 : forall x, 0 <= x < 4294967296 -> Bits.wrap32 x = x)
    by (intros x Hx; apply Z.mod_small; exact Hx).
  assert (H8 : Z.shiftr u 8 = start + 256 * (inc + 256 * w)).
  { rewrite Z.shiftr_div_pow2 by lia. change (2 ^ 8) with 256.
    unfold u. Z.div_mod_to_equations. lia. }
  assert (H16 : Z.shiftr u 16 = inc + 256 * w).
  { rewrite Z.shiftr_div_pow2 by lia. change (2 ^ 16) with 65536.
    unfold u. Z.div_mod_to_equations. lia. }
  rewrite !(Hw32 u Hub), H8, H16.
  rewrite !(Hw32 (start + 256 * (inc + 256 * w))) by lia.
  rewrite !(Hw32 (inc + 256 * w)) by lia.
  change 255 with (Z.ones 8). rewrite Z.land_ones by lia. change (2 ^ 8) with 256.
  unfold Bits.wrap8.
  replace (u mod 256) with count by (unfold u; Z.div_mod_to_equations; lia).
  replace ((inc + 256 * w) mod 256) with inc by (Z.div_mod_to_equations; lia).
  replace ((start + 256 * (inc + 256 * w)) mod 256) with start
    by (Z.div_mod_to_equations; lia).
  rewrite !(Hw32 count), !(Hw32 (count + 1)), !(Hw32 inc), !(Hw32 start) by lia.
  auto.
Qed.


(** What [Compile_LOOP_step] does: the loop counter advances by the
    increment, the pass count goes down by one and sets the zero flag. *)
Lemma exec_Compile_LOOP_step fuel s :
  exists s',
    exec h Compile_LOOP_step fuel s = Next s'
    /\ gpr s' LOOPCOUNT = Bits.wrap32 (Bits.wrap32 (gpr s LOOPCOUNT) - 1)
    /\ gpr s' LOOPINC = gpr s LOOPINC
    /\ gpr s' LOOPCOUNT_REG
       = Bits.wrap32 (Bits.wrap32 (gpr s LOOPCOUNT_REG) + Bits.wrap32 (gpr s LOOPINC))
    /\ zf s' = (Bits.wrap32 (Bits.wrap32 (gpr s LOOPCOUNT) - 1) =? 0).
Proof.
  unfold Compile_LOOP_step. cbn [exec emit_all].
  rewrite step_ADD32_reg; cbv beta iota.
  rewrite step_SUB32_imm1; cbv beta iota.
  eexists. split; [reflexivity|]. reg_simpl.
  unfold Bits.wrap32. rewrite !Z.mod_mod by lia. auto.
Qed.

Section Loop.

Variables (instr : Instruction) (body : Code) (fuel : nat) (s : State).
Variables (count start inc w : Z).

Let a := Bits.wrap64 (gpr s UNIFORMS
           + (offsetof_uniforms_i + int_uniform_id (flow_control instr) * 4)).

Hypothesis Hcount : bmem s !! a = Some count.
Hypothesis Hstart : bmem s !! (a + 1) = Some start.
Hypothesis Hinc : bmem s !! (a + 1 + 1) = Some inc.
Hypothesis Hw : bmem s !! (a + 1 + 1 + 1) = Some w.
Hypothesis count_byte : 0 <= count < 256.
Hypothesis start_byte : 0 <= start < 256.
Hypothesis inc_byte : 0 <= inc < 256.
Hypothesis w_byte : 0 <= w < 256.

Let pass (k : nat) : State := Spec.loop_passes h instr body fuel s k.

(** Every pass of the body falls through and keeps the loop registers. *)
Hypothesis Hbody : forall k : nat, Z.of_nat k <= count ->
  exists s', exec h body fuel (pass k) = Next s'
             /\ Spec.keeps_loop_registers (pass k) s'.

Lemma loop_pass_registers (k : nat) :
  Z.of_nat k <= count + 1 ->
  gpr (pass k) LOOPCOUNT = count + 1 - Z.of_nat k
  /\ gpr (pass k) LOOPINC = inc
  /\ gpr (pass k) LOOPCOUNT_REG = start + Z.of_nat k * inc.
Proof.
  induction k as [|k IH]; intros Hk.
  - destruct (exec_Compile_LOOP_init instr 0 s count start inc w)
      as (s0 & He & Hc & Hi & Hr); try assumption.
    unfold pass, Spec.loop_passes, Spec.loop_entry.
    rewrite He. cbn [state_of]. rewrite Hc, Hi, Hr. repeat split; lia.
  - destruct IH as (Hc & Hi & Hr); [lia|].
    destruct (Hbody k) as (s' & He & Kc & Ki & Kr); [lia|].
    destruct (exec_Compile_LOOP_step fuel s') as (s'' & He' & Sc & Si & Sr & _).
    assert (Hp : pass (S k) = s'').
    { unfold pass. cbn [Spec.loop_passes]. fold (pass k).
      unfold Spec.loop_pass. cbn [exec]. rewrite He, He'. reflexivity. }
    rewrite Hp, Sc, Si, Sr, Kc, Ki, Kr, Hc, Hi, Hr.
    assert (Hb : 0 <= Z.of_nat k * inc <= 256 * 256) by nia.
    unfold Bits.wrap32.
    rewrite (Z.mod_small (count + 1 - Z.of_nat k)) by lia.
    rewrite (Z.mod_small (count + 1 - Z.of_nat k - 1)) by lia.
    rewrite (Z.mod_small (start + Z.of_nat k * inc)) by lia.
    rewrite (Z.mod_small inc) by lia.
    rewrite (Z.mod_small (start + Z.of_nat k * inc + inc)) by lia.
    repeat split; lia.
Qed.

Lemma loop_pass_exec (k : nat) :
  Z.of_nat k <= count ->
  exec h (Seq body Compile_LOOP_step) fuel (pass k) = Next (pass (S k))
  /\ zf (pass (S k)) = (count - Z.of_nat k =? 0).
Proof.
  intros Hk.
  destruct (loop_pass_registers k) as (Hc & Hi & Hr); [lia|].
  destruct (Hbody k Hk) as (s' & He & Kc & Ki & Kr).
  destruct (exec_Compile_LOOP_step fuel s') as (s'' & He' & Sc & Si & Sr & Sz).
  assert (Hp : pass (S k) = s'').
  { unfold pass, Spec.loop_passes. cbn [Nat.iter].
    unfold Spec.loop_pass at 1. cbn [exec].
    fold (Spec.loop_passes h instr body fuel s k). fold (pass k).
    rewrite He, He'. reflexivity. }
  rewrite Hp. split.
  - cbn [exec]. rewrite He. exact He'.
  - rewrite Sz, Kc, Hc. unfold Bits.wrap32.
    rewrite (Z.mod_small (count + 1 - Z.of_nat k)) by lia.
    rewrite (Z.mod_small (count + 1 - Z.of_nat k - 1)) by lia.
    f_equal. lia.
Qed.

Lemma loop_back_passes (n k : nat) :
  Z.of_nat k <= count ->
  count + 1 - Z.of_nat k <= Z.of_nat n ->
  loop_back (exec h (Seq body Compile_LOOP_step) fuel) CC_NZ n (pass k)
  = Next (pass (Z.to_nat (count + 1))).
Proof.
  revert k. induction n as [|n IH]; intros k Hk Hn; [lia|].
  cbn [loop_back].
  destruct (loop_pass_exec k Hk) as [He Hz]. rewrite He.
  unfold test_cc. rewrite Hz.
  destruct (count - Z.of_nat k =? 0) eqn:E; cbn [negb].
  - apply Z.eqb_eq in E. f_equal. f_equal. lia.
  - apply Z.eqb_neq in E. apply IH; lia.
Qed.

End Loop.

End LoopExecution.

(** X25: the code compiled for a LOOP whose destination offset is
    greater than PC + 1 and whose integer uniform holds
    (count, start, inc) sets the loop counter to start, runs the code of
    the instructions [PC+1, dest] exactly count + 1 times and adds inc to
    the loop counter after each pass, so that pass number k starts with
    the counter at start + k * inc; this for every body whose passes
    fall through (no END inside the loop, no fault). *)
Theorem LOOP_runs_the_body_count_plus_one_times (g : Globals) (h : Host) (f : nat) (pc : Z)
  (instr : Instruction) (body : Code) (off' : Z) (lb : bool) (fuel : nat)
  (s : State) (count start inc w : Z) :
  let fc := flow_control instr in
  let a := Bits.wrap64 (gpr s UNIFORMS
             + (offsetof_uniforms_i + int_uniform_id fc * 4)) in
  0 <= pc ->
  program_code g !! Z.to_nat pc = Some instr ->
  opcode instr = OpCode.LOOP ->
  pc + 1 < dest_offset fc ->
  Compile_Block g f (dest_offset fc) (pc + 1) true = Ok (body, off', lb) ->
  bmem s !! a = Some count ->
  bmem s !! (a + 1) = Some start ->
  bmem s !! (a + 1 + 1) = Some inc ->
  bmem s !! (a + 1 + 1 + 1) = Some w ->
  0 <= count < 256 -> 0 <= start < 256 -> 0 <= inc < 256 -> 0 <= w < 256 ->
  count < Z.of_nat fuel ->
  (forall k : nat, Z.of_nat k <= count ->
     exists s', exec h body fuel (Spec.loop_passes h instr body fuel s k)
                = Next s') ->
  exists code,
    Compile_NextInstr g (S f) pc false = Ok (code, off', false)
    /\ exec h code fuel s
       = Next (Spec.loop_passes h instr body fuel s (Z.to_nat (count + 1)))
    /\ forall k : nat, Z.of_nat k <= count + 1 ->
         gpr (Spec.loop_passes h instr body fuel s k) LOOPCOUNT_REG
         = start + Z.of_nat k * inc.
Proof.
  intros fc a Hpc Hi Hop Hfwd HB H0 H1 H2 H3 Bc Bs Bi Bw Hfuel Hfalls.
  assert (Hbody : forall k : nat, Z.of_nat k <= count ->
            exists s',
              exec h body fuel (Spec.loop_passes h instr body fuel s k) = Next s'
              /\ Spec.keeps_loop_registers
                   (Spec.loop_passes h instr body fuel s k) s').
  { intros k Hk. destruct (Hfalls k Hk) as [s' Hs']. exists s'.
    split; [exact Hs'|].
    destruct (Compile_in_loop_spares g f) as (_ & Hb & _).
    destruct (Hb _ _ _ _ _ HB) as [Hsp _].
    exact (exec_spares h body fuel _ s' Hsp Hs'). }
  exists (Seq (Compile_LOOP_init instr)
              (J_CC_loop (Seq body Compile_LOOP_step) CC_NZ)).
  split; [|split].
  - cbn [Compile_NextInstr].
    destruct (0 <=? pc) eqn:E; [|apply Z.leb_gt in E; lia].
    rewrite Hi, Hop. cbn [default lookup].
    change (instr_table !! Z.to_nat OpCode.LOOP) with (Some (Some F_LOOP)).
    cbv beta iota.
    fold fc.
    destruct (dest_offset fc <=? pc + 1) eqn:E'; [apply Z.leb_le in E'; lia|].
    rewrite HB. reflexivity.
  - cbn [exec].
    destruct (exec_Compile_LOOP_init h instr fuel s count start inc w)
      as (s0 & He & _); try assumption.
    rewrite He.
    assert (Hs0 : s0 = Spec.loop_passes h instr body fuel s 0).
    { cbn [Spec.loop_passes]. unfold Spec.loop_entry.
      destruct (exec_Compile_LOOP_init h instr 0 s count start inc w)
        as (s0' & He0 & _); try assumption.
      rewrite He0. cbn [state_of].
      unfold Compile_LOOP_init in He, He0. cbn [exec emit_all] in He, He0.
      rewrite He in He0. now injection He0. }
    rewrite Hs0.
    apply (loop_back_passes h instr body fuel s count start inc w);
      try assumption; lia.
  - intros k Hk.
    apply (loop_pass_registers h instr body fuel s count start inc w);
      assumption.
Qed.

Lemma LOOP_runs_the_body_count_plus_one_times_witness :
  let g := Examples.loop_globals in
  let h := Examples.host in
  let instr := Examples.loop_instr in
  let body := Examples.loop_body in
  let s := Examples.loop_state in
  let a := Bits.wrap64 (gpr s UNIFORMS
             + (offsetof_uniforms_i + int_uniform_id (flow_control instr) * 4)) in
  (0 <= 0
   /\ program_code g !! Z.to_nat 0 = Some instr
   /\ opcode instr = OpCode.LOOP
   /\ 0 + 1 < dest_offset (flow_control instr)
   /\ Compile_Block g 10 (dest_offset (flow_control instr)) (0 + 1) true
      = Ok (body, 3, true)
   /\ bmem s !! a = Some 4
   /\ bmem s !! (a + 1) = Some 0
   /\ bmem s !! (a + 1 + 1) = Some 2
   /\ bmem s !! (a + 1 + 1 + 1) = Some 0
   /\ 4 < Z.of_nat 10)
  /\ exists code,
       Compile_NextInstr g 11 0 false = Ok (code, 3, false)
       /\ exec h code 10 s
          = Next (Spec.loop_passes h instr body 10 s (Z.to_nat (4 + 1)))
       /\ forall k : nat, Z.of_nat k <= 4 + 1 ->
            gpr (Spec.loop_passes h instr body 10 s k) LOOPCOUNT_REG
            = 0 + Z.of_nat k * 2.
Proof.
  intros g h instr body s a.
  split; [repeat split; try reflexivity; lia|].
  apply (LOOP_runs_the_body_count_plus_one_times g h 10 0 instr body 3 true 10 s 4 0 2 0);
    try reflexivity; try lia.
  intros k Hk.
  exists (state_of (exec h body 10 (Spec.loop_passes h instr body 10 s k))
                   Examples.empty_state).
  assert (k = 0 \/ k = 1 \/ k = 2 \/ k = 3 \/ k = 4)%nat
    as [-> | [-> | [-> | [-> | ->]]]] by lia;
    vm_compute; reflexivity.
Defined.

(** The loop scenario, end to end: the counter is 0, 2, 4, 6, 8 at the
    start of the five passes, and [Run] leaves 5.0 in r0. *)
Lemma loop_scenario :
  (fun k => gpr (Spec.loop_passes Examples.host Examples.loop_instr
                   Examples.loop_body 10 Examples.loop_state k) LOOPCOUNT_REG)
    <$> [0; 1; 2; 3; 4]%nat = [0; 2; 4; 6; 8]
  /\ (let ctx := Examples.example_context Examples.loop_program
                   [Examples.swizzle_identity] 0 Examples.all_caps true in
      (fun st => Shader.temporary (Shader.registers st) !! 0%nat)
        <$> Examples.jit_backend ctx
              (Shader.Run_setup ctx Examples.initial_state [] 0)
      = Some (Some (Vec.splat Examples.f5))).
Proof. split; vm_compute; reflexivity. Qed.

(** ** Divergences of the recompiler, at concrete inputs *)

Section Divergences.

Import Shader.

(** C2: MOVA on s1.x = 1.5 with only X enabled leaves 16 * 2 in
    ADDROFFS_REG_0, the offset register scaled to bytes: CVTPS2DQ rounds
    to the nearest integer, where truncation gives 1.  ADDROFFS_REG_1
    keeps the zero of the prologue. *)
Theorem C2_mova_rounds_to_nearest :
  Compile_MOVA Examples.mova_globals Examples.mova_instr = Ok Examples.mova_code
  /\ exec Examples.host Examples.mova_code 0 Examples.mova_state
     = Next Examples.mova_final
  /\ gpr Examples.mova_final ADDROFFS_REG_0 = 16 * 2
  /\ gpr Examples.mova_final ADDROFFS_REG_1 = 0
  /\ Bits.signed32 (F32.cvttps2dq Examples.f1_5) = 1.
Proof. repeat apply conj; vm_compute; reflexivity. Qed.

(** C3: SLTI on s1 = (0, 0, 0, 0) and s2 = (1, 1, 1, 1) writes
    (1.0, 0, 0, 0): CMPSS compares lane X only, the lanes Y, Z and W are
    those of s1 masked by the bits of 1.0, although s1 < s2 in every lane. *)
Theorem C3_slti_compares_lane_x_only :
  let ctx := Examples.slti_context true in
  exists st,
    Examples.jit_backend ctx
      (Run_setup ctx Examples.initial_state Examples.slti_input 2) = Some st
    /\ output (registers st) !! 0%nat = Some (mkVec4 Examples.f1 0 0 0)
    /\ F32.ltb 0 Examples.f1 = true.
Proof.
  intros ctx.
  exists (default Examples.initial_state
            (Examples.jit_backend ctx
               (Run_setup ctx Examples.initial_state Examples.slti_input 2))).
  repeat apply conj; vm_compute; reflexivity.
Qed.

(** C6: without SSE4.1, FLR on 1.5 writes 2.0 in every lane, where the
    floor is 1: the fallback converts with CVTPS2DQ, which rounds to the
    nearest integer.  With SSE4.1 the same instruction writes 1.0. *)
Theorem C6_flr_fallback_rounds_to_nearest :
  let run c :=
    (fun st => output (registers st) !! 0%nat)
      <$> Examples.jit_backend (Examples.flr_context c)
            (Run_setup (Examples.flr_context c) Examples.initial_state
                       Examples.flr_input 1) in
  run Examples.no_caps = Some (Some (Vec.splat Examples.f2))
  /\ run Examples.all_caps = Some (Some (Vec.splat Examples.f1))
  /\ F32.is_finite Examples.f1_5 = true
  /\ F32.floor_Z Examples.f1_5 = Some 1
  /\ F32.integer_value Examples.f1 = Some 1
  /\ F32.integer_value Examples.f2 = Some 2.
Proof. repeat apply conj; vm_compute; reflexivity. Qed.

(** C1: on [SLTI o0, v0, v1; END] with v0 = (0, 0, 0, 0) and
    v1 = (1, 1, 1, 1), [Run] returns pos = (1, 0, 0, 0) through the
    recompiled code and pos = (1, 1, 1, 1) through the interpreter: the
    two vertices differ by 1.0 in three components. *)
Theorem C1_jit_differs_from_interpreter :
  let run ctx :=
    Run (Examples.jit_backend ctx) (Examples.interpreter_backend ctx) ctx
        Examples.initial_state Examples.slti_input 2 Examples.garbage_vertex in
  let vertex_jit := Examples.slti_vertex [Examples.f1; 0; 0; 0] in
  let vertex_interpreter :=
    Examples.slti_vertex [Examples.f1; Examples.f1; Examples.f1; Examples.f1] in
  run (Examples.slti_context true) = Some vertex_jit
  /\ run (Examples.slti_context false) = Some vertex_interpreter
  /\ Spec.vertices_agree vertex_jit vertex_interpreter = false.
Proof. repeat apply conj; vm_compute; reflexivity. Qed.

(** C5: on the loop scenario with a body of one instruction,
    [LOOP i0 (dest = PC + 1); ADD r0, c0, r0; END] with
    i0 = (count 4, start 0, inc 2), the recompiler produces no code at
    any recursion bound: the assertion of [Compile_LOOP] compares the
    destination with the offset already advanced past the LOOP, and
    fails, as a backwards loop, on a loop whose destination lies
    ahead.  With a NOP appended to the body the same loop compiles and
    leaves 5.0 in r0, the result of count + 1 passes. *)
Theorem C5_loop_of_one_instruction_asserts :
  let g := Examples.loop1_globals in
  let ctx p :=
    Examples.example_context p [Examples.swizzle_identity] 0
      Examples.all_caps true in
  let r0 p :=
    (fun st => temporary (registers st) !! 0%nat)
      <$> Examples.jit_backend (ctx p)
            (Run_setup (ctx p) Examples.initial_state [] 0) in
  program_code g !! Z.to_nat 0 = Some Examples.loop1_instr
  /\ opcode Examples.loop1_instr = OpCode.LOOP
  /\ dest_offset (flow_control Examples.loop1_instr) = 0 + 1
  /\ Compile g 2 = Err (AssertFailed Backwards_loops_not_supported)
  /\ (forall fuel,
        Compile g fuel = Err OutOfFuel
        \/ Compile g fuel = Err (AssertFailed Backwards_loops_not_supported))
  /\ r0 Examples.loop1_program = None
  /\ r0 Examples.loop_program = Some (Some (Vec.splat Examples.f5)).
Proof.
  intros g ctx r0.
  do 4 (split; [reflexivity|]).
  split; [|split; vm_compute; reflexivity].
  intros [|[|fuel]]; [left|left|right]; reflexivity.
Qed.

End Divergences.

(** ** Relative addressing *)

Section RelativeAddressing.

Lemma load128_at s a v :
  a mod 16 = 0 -> vmem s !! a = Some v -> load128 s a = Some v.
Proof. intros Ha Hv. unfold load128. now rewrite Ha, Hv. Qed.

Lemma step_MOVAPS_load h dest arg s a v :
  effective_address s arg = Some a ->
  a mod 16 = 0 -> vmem s !! a = Some v ->
  step h (MOVAPS dest arg) s = Next (set_xmm s dest v).
Proof.
  intros Ha Hal Hv.
  unfold step, sse1, read_xmm.
  destruct arg; try discriminate;
    rewrite Ha, (load128_at s a v Hal Hv); reflexivity.
Qed.

(** C4, as stated, fails: after [MOVA a0.x, v0] with v0.x = 1.0, the
    load of c95[a0.x] reads 16 bytes past the end of the float bank
    (index 96), not the address of index (95 + 1) mod 96 = 0. *)
Lemma C4_counterexample :
  ~ Spec.offset_load_is_reduced Examples.mov_c95_a0
      127 SRC1 Examples.relative_state.
Proof.
  intros (load & Hl & Ha).
  vm_compute in Hl. injection Hl as <-.
  vm_compute in Ha. discriminate Ha.
Qed.

(** C4, amended: for an instruction that is not MAD or MADI and whose
    address-register index is 1 or 2, the source loaded as the
    offsettable one is read from the address of the register plus the
    byte offset in ADDROFFS_REG_0 or ADDROFFS_REG_1, without any
    reduction; the sources of MAD and MADI are read from the address of
    the register itself. *)
Theorem C4_offset_added_unreduced (h : Host)
  (instr : Instruction) (src_num r : Z) (dest : X64Reg) (s : State)
  (v : Vec4) :
  let idx := address_register_index (common instr) in
  let offset :=
    if is_mad instr then 0 else gpr s (Spec.offset_register idx) in
  let a := Bits.wrap64 (Spec.register_address s r + offset) in
  is_mad instr = true
  \/ ((idx = 1 \/ idx = 2) /\ src_num = Spec.offsettable_source instr) ->
  a mod 16 = 0 ->
  vmem s !! a = Some v ->
  exists load,
    Compile_SwizzleSrc_load instr src_num r dest = Ok load
    /\ Spec.load_address s load = Some a
    /\ step h load s = Next (set_xmm s dest v).
Proof.
  intros idx offset a Hcase Hal Hv.
  unfold Compile_SwizzleSrc_load.
  assert (Hreg : forall arg,
            effective_address s arg = Some a ->
            exists load,
              Ok (MOVAPS dest arg) = Ok load
              /\ Spec.load_address s load = Some a
              /\ step h load s = Next (set_xmm s dest v)).
  { intros arg Harg. exists (MOVAPS dest arg).
    split; [reflexivity|]. split; [exact Harg|].
    now apply (step_MOVAPS_load h dest arg s a v). }
  unfold a, offset, Spec.register_address in *. clear a offset.
  destruct Hcase as [Hmad | [Hidx Hsrc]].
  - rewrite Hmad in *.
    destruct (GetRegisterType r); apply Hreg; cbn [effective_address];
      f_equal; f_equal; lia.
  - destruct (is_mad instr) eqn:Hmad.
    + destruct (GetRegisterType r); apply Hreg; cbn [effective_address];
        f_equal; f_equal; lia.
    + unfold Spec.offsettable_source in Hsrc. rewrite Hsrc, Z.eqb_refl.
      fold idx.
      destruct Hidx as [Hidx | Hidx]; rewrite Hidx in *; cbn [negb Z.eqb andb];
        cbv beta iota;
        destruct (GetRegisterType r) eqn:Ht; apply Hreg;
        cbn [effective_address Spec.offset_register];
        f_equal; f_equal; lia.
Qed.

End RelativeAddressing.

Lemma C4_offset_added_unreduced_witness :
  let instr := Examples.mov_c94_a0 in
  let s := Examples.relative_state in
  let idx := address_register_index (common instr) in
  let offset :=
    if is_mad instr then 0 else gpr s (Spec.offset_register idx) in
  let a := Bits.wrap64 (Spec.register_address s 126 + offset) in
  (is_mad instr = true
   \/ ((idx = 1 \/ idx = 2) /\ 1 = Spec.offsettable_source instr))
  /\ a mod 16 = 0
  /\ vmem s !! a = Some (Vec.splat Examples.f1)
  /\ exists load,
       Compile_SwizzleSrc_load instr 1 126 SRC1 = Ok load
       /\ Spec.load_address s load = Some a
       /\ step Examples.host load s
          = Next (set_xmm s SRC1 (Vec.splat Examples.f1)).
Proof.
  intros instr s idx offset a.
  assert (H1 : is_mad instr = true
               \/ ((idx = 1 \/ idx = 2) /\ 1 = Spec.offsettable_source instr))
    by (right; split; [left|]; reflexivity).
  assert (H2 : a mod 16 = 0) by (vm_compute; reflexivity).
  assert (H3 : vmem s !! a = Some (Vec.splat Examples.f1))
    by (vm_compute; reflexivity).
  split; [exact H1|]. split; [exact H2|]. split; [exact H3|].
  exact (C4_offset_added_unreduced Examples.host instr 1 126 SRC1 s
           (Vec.splat Examples.f1) H1 H2 H3).
Defined.

(** ** The assertions of the control-flow handlers *)

Section Assertions.

Variable g : Globals.

Lemma is_assert_bind {A B : Type} (r : Result A) (k : A -> Result B) :
  is_assert r = false ->
  (forall a, r = Ok a -> is_assert (k a) = false) ->
  is_assert (bind r k) = false.
Proof. destruct r as [a|e]; cbn; intros Hr Hk; [now apply Hk | exact Hr]. Qed.

Lemma is_assert_load instr n r d :
  is_assert (Compile_SwizzleSrc_load instr n r d) = false.
Proof.
  unfold Compile_SwizzleSrc_load.
  destruct (GetRegisterType r); destruct (is_mad instr); try reflexivity;
    destruct (_ && _); try reflexivity;
    destruct (address_register_index (common instr)) as [|[[|[]|]|[|[]|]|]|];
    reflexivity.
Qed.

Lemma is_assert_SwizzleSrc instr n r d :
  is_assert (Compile_SwizzleSrc g instr n r d) = false.
Proof.
  unfold Compile_SwizzleSrc. apply is_assert_bind; [apply is_assert_load|].
  reflexivity.
Qed.

Lemma is_assert_cmp_at o : is_assert (cmp_at o) = false.
Proof.
  unfold cmp_at. destruct (cmp_table !! Z.to_nat o); [|reflexivity].
  destruct (0 <=? o); reflexivity.
Qed.

Ltac no_assert :=
  repeat first
    [ reflexivity
    | apply is_assert_SwizzleSrc
    | apply is_assert_cmp_at
    | apply is_assert_bind; [|intros ? _]
    | match goal with
      | |- is_assert (if ?b then _ else _) = false => destruct b
      | |- is_assert (let (_, _) := ?p in _) = false => destruct p
      end ].

Lemma is_assert_binary instr body :
  is_assert (Compile_binary g instr body) = false.
Proof. unfold Compile_binary. no_assert. Qed.

Lemma is_assert_unary instr body :
  is_assert (Compile_unary g instr body) = false.
Proof. unfold Compile_unary. no_assert. Qed.

(** The handlers of the instructions that are not control flow never
    fail an assertion. *)
Lemma is_assert_simple instr :
  is_assert (Compile_ADD g instr) = false
  /\ is_assert (Compile_DP3 g instr) = false
  /\ is_assert (Compile_DP4 g instr) = false
  /\ is_assert (Compile_MUL g instr) = false
  /\ is_assert (Compile_FLR g instr) = false
  /\ is_assert (Compile_MAX g instr) = false
  /\ is_assert (Compile_MIN g instr) = false
  /\ is_assert (Compile_RCP g instr) = false
  /\ is_assert (Compile_RSQ g instr) = false
  /\ is_assert (Compile_MOVA g instr) = false
  /\ is_assert (Compile_MOV g instr) = false
  /\ is_assert (Compile_SLTI g instr) = false
  /\ is_assert (Compile_CMP g instr) = false
  /\ is_assert (Compile_MAD g instr) = false.
Proof.
  repeat apply conj;
    try apply is_assert_binary; try apply is_assert_unary.
  - unfold Compile_MOVA. no_assert.
  - unfold Compile_SLTI. no_assert.
  - unfold Compile_CMP, Compile_CMP_body. no_assert.
  - unfold Compile_MAD. no_assert.
Qed.


(** A result that is no failed assertion and leaves [looping] at [l0]. *)
Definition good (l0 : bool) (r : Result (Code * Z * bool)) : Prop :=
  is_assert r = false /\ forall c o l, r = Ok (c, o, l) -> l = l0.

Definition good2 (l0 : bool) (r : Result (Code * bool)) : Prop :=
  is_assert r = false /\ forall c l, r = Ok (c, l) -> l = l0.

Lemma good_simple (r : Result Code) (offset : Z) (looping : bool) :
  is_assert r = false ->
  let r' := bind r (fun c => Ok (c, offset, looping)) in
  good looping r' /\ forall c o l, r' = Ok (c, o, l) -> o = offset.
Proof.
  intros Hr. destruct r as [c|e]; cbn in *.
  - split; [split; [reflexivity|]|]; intros c' o l [= _ <- <-]; reflexivity.
  - split; [split; [exact Hr|]|]; intros; discriminate.
Qed.

End Assertions.

(** ** The address offset registers *)

Section AddressOffsets.

Variable h : Host.

Lemma step_CVTPS2DQ_reg d r s :
  step h (CVTPS2DQ d (R r)) s
  = Next (set_xmm s d (Vec.map F32.cvtps2dq (xmm s r))).
Proof. reflexivity. Qed.

Lemma step_MOVSX64_32 d r s :
  step h (MOVSX 64 32 d (R r)) s
  = Next (set_gpr s d (Bits.wrap64 (Bits.signed32 (Bits.wrap32 (gpr s r))))).
Proof. reflexivity. Qed.

Lemma step_SHL64_imm4 r s :
  step h (SHL 64 (R r) (Imm8 4)) s
  = Next (set_zf (set_gpr s r (Bits.wrap64 (Bits.wrap64
                    (Z.shiftl (Bits.wrap64 (gpr s r)) 4))))
                 (Bits.wrap64 (Z.shiftl (Bits.wrap64 (gpr s r)) 4) =? 0)).
Proof. reflexivity. Qed.

Lemma cvtps2dq_range b : 0 <= F32.cvtps2dq b < 4294967296.
Proof.
  unfold F32.cvtps2dq, F32.int32_of_Z, F32.int_indefinite, Bits.wrap32.
  destruct (F32.to_sf b); try lia.
  destruct (_ && _); [apply Z.mod_pos_bound|]; lia.
Qed.

(** The byte offset MOVA leaves for a lane: sixteen times the signed
    integer CVTPS2DQ gives. *)
Lemma scaled_offset v :
  Bits.wrap64 (Bits.wrap64 (Z.shiftl (Bits.wrap64 (Bits.wrap64 v)) 4))
  = Bits.wrap64 (16 * v).
Proof.
  unfold Bits.wrap64. rewrite Z.shiftl_mul_pow2 by lia. change (2 ^ 4) with 16.
  rewrite !Z.mod_mod by lia. rewrite Z.mul_mod_idemp_l by lia.
  f_equal. lia.
Qed.

Lemma high_lane x y :
  0 <= x < 4294967296 -> 0 <= y < 4294967296 ->
  Bits.wrap32 (Bits.wrap64 (Bits.wrap64
    (Z.shiftr (Bits.wrap64 (Bits.wrap64 (x + y * 4294967296))) 32))) = y.
Proof.
  intros Hx Hy. unfold Bits.wrap64, Bits.wrap32.
  rewrite !(Z.mod_small (x + y * 4294967296)) by lia.
  rewrite Z.shiftr_div_pow2 by lia. change (2 ^ 32) with 4294967296.
  replace ((x + y * 4294967296) / 4294967296) with y
    by (Z.div_mod_to_equations; lia).
  rewrite !(Z.mod_small y) by lia. reflexivity.
Qed.

(** What the code after the source load of MOVA leaves in the two
    address offset registers: an enabled component receives the byte
    offset of its lane, a disabled one is left alone. *)
Lemma exec_Compile_MOVA_body swiz fuel s :
  exists s',
    exec h (Compile_MOVA_body swiz) fuel s = Next s'
    /\ gpr s' ADDROFFS_REG_0
       = (if DestComponentEnabled swiz 0
          then Bits.wrap64 (16 * Bits.signed32 (F32.cvtps2dq (vx (xmm s SRC1))))
          else gpr s ADDROFFS_REG_0)
    /\ gpr s' ADDROFFS_REG_1
       = (if DestComponentEnabled swiz 1
          then Bits.wrap64 (16 * Bits.signed32 (F32.cvtps2dq (vy (xmm s SRC1))))
          else gpr s ADDROFFS_REG_1).
Proof.
  pose proof (cvtps2dq_range (vx (xmm s SRC1))) as Hx.
  pose proof (cvtps2dq_range (vy (xmm s SRC1))) as Hy.
  unfold Compile_MOVA_body.
  destruct (DestComponentEnabled swiz 0), (DestComponentEnabled swiz 1);
    cbn [andb exec emit_all];
    rewrite step_CVTPS2DQ_reg; cbv beta iota;
    rewrite step_MOVQ_xmm_reg; cbv beta iota.
  - rewrite step_MOVSX64_32; cbv beta iota.
    rewrite step_SHR64_imm by auto; cbv beta iota.
    rewrite step_MOVSX64_32; cbv beta iota.
    rewrite !step_SHL64_imm4; cbv beta iota.
    eexists. split; [reflexivity|]. reg_simpl.
    unfold Vec.low64, Vec.map; cbn [vx vy].
    rewrite high_lane, wrap32_wrap64_low, !scaled_offset by assumption.
    split; reflexivity.
  - rewrite step_MOVSX64_32; cbv beta iota.
    rewrite !step_SHL64_imm4; cbv beta iota.
    eexists. split; [reflexivity|]. reg_simpl.
    unfold Vec.low64, Vec.map; cbn [vx vy].
    rewrite wrap32_wrap64_low, !scaled_offset by assumption.
    split; reflexivity.
  - rewrite step_SHR64_imm by auto; cbv beta iota.
    rewrite step_MOVSX64_32; cbv beta iota.
    rewrite !step_SHL64_imm4; cbv beta iota.
    eexists. split; [reflexivity|]. reg_simpl.
    unfold Vec.low64, Vec.map; cbn [vx vy].
    rewrite high_lane, !scaled_offset by assumption.
    split; reflexivity.
  - eexists. split; [reflexivity|]. reg_simpl. split; reflexivity.
Qed.

End AddressOffsets.
(** ** The source loads and the destination store *)

Lemma below_spec (P : Z -> bool) (n : nat) :
  Sem.below P n = true -> forall z, 0 <= z < Z.of_nat n -> P z = true.
Proof.
  unfold Sem.below. intros H z Hz.
  rewrite forallb_forall in H. apply H.
  apply in_map_iff. exists (Z.to_nat z). split; [lia|].
  apply in_seq. lia.
Qed.

Lemma shufps_reverse sel v :
  0 <= sel < 256 -> shufps (reverse_selector sel) v v = Sem.select sel v.
Proof.
  intros Hs.
  pose (P := fun sel =>
    (Z.land (reverse_selector sel) 3 =? Sem.selector_component sel 0)
    && (Z.land (Z.shiftr (reverse_selector sel) 2) 3
        =? Sem.selector_component sel 1)
    && (Z.land (Z.shiftr (reverse_selector sel) 4) 3
        =? Sem.selector_component sel 2)
    && (Z.land (Z.shiftr (reverse_selector sel) 6) 3
        =? Sem.selector_component sel 3)).
  assert (HP : Sem.below P 256 = true) by (vm_compute; reflexivity).
  pose proof (below_spec P 256 HP sel Hs) as H. unfold P in H.
  apply andb_true_iff in H as [H H3]. apply andb_true_iff in H as [H H2].
  apply andb_true_iff in H as [H0 H1].
  apply Z.eqb_eq in H0, H1, H2, H3.
  unfold shufps, Sem.select. now rewrite H0, H1, H2, H3.
Qed.

Lemma select_identity v : Sem.select NO_SRC_REG_SWIZZLE v = v.
Proof. destruct v. reflexivity. Qed.

Lemma source_address_load s instr n r a dest :
  Sem.source_address s instr n r = Some a ->
  exists arg,
    Compile_SwizzleSrc_load instr n r dest = Ok (MOVAPS dest arg)
    /\ effective_address s arg = Some a.
Proof.
  unfold Sem.source_address, Compile_SwizzleSrc_load.
  destruct (GetRegisterType r); destruct (is_mad instr);
    try (intros H; eexists; split; [reflexivity|exact H]);
    destruct (_ && _);
    try (intros H; eexists; split; [reflexivity|exact H]);
    destruct (address_register_index (common instr)) as [|[[|[]|]|[|[]|]|]|];
    try discriminate;
    intros H; eexists; (split; [reflexivity|exact H]).
Qed.

Lemma source_address_gpr s s' instr n r :
  gpr s' = gpr s ->
  Sem.source_address s' instr n r = Sem.source_address s instr n r.
Proof.
  intros Hg. unfold Sem.source_address.
  destruct (Compile_SwizzleSrc_load instr n r SCRATCH) as [load|]; [|reflexivity].
  destruct load; try reflexivity.
  destruct arg; cbn [effective_address]; now rewrite ?Hg.
Qed.

Lemma reads_frame s s' instr n r v :
  gpr s' = gpr s -> vmem s' = vmem s ->
  Sem.reads s instr n r v -> Sem.reads s' instr n r v.
Proof.
  intros Hg Hm (a & Ha & Hal & Hv). exists a.
  rewrite (source_address_gpr s s') by exact Hg. now rewrite Hm.
Qed.

Lemma selector_in_range swiz n :
  Sem.descriptor_in_range swiz -> 0 <= GetRawSelector swiz n < 256.
Proof.
  intros (_ & H1 & H2 & H3). unfold GetRawSelector.
  destruct n as [|[[]|[]|]|]; assumption.
Qed.

Section SourceAndDestination.

Variable g : Globals.
Variable h : Host.

Lemma step_SHUFPS_reg d r i s :
  step h (SHUFPS d (R r) i) s
  = Next (set_xmm s d (shufps i (xmm s d) (xmm s r))).
Proof. reflexivity. Qed.

Lemma step_XORPS_reg d r s :
  step h (XORPS d (R r)) s
  = Next (set_xmm s d (Vec.map2 Z.lxor (xmm s d) (xmm s r))).
Proof. reflexivity. Qed.

Lemma step_BLENDPS_reg d r i s :
  step h (BLENDPS d (R r) i) s
  = Next (set_xmm s d (blendps i (xmm s d) (xmm s r))).
Proof. reflexivity. Qed.

Lemma step_UNPCKHPS_reg d r s :
  step h (UNPCKHPS d (R r)) s
  = Next (set_xmm s d (unpckhps (xmm s d) (xmm s r))).
Proof. reflexivity. Qed.

Lemma step_UNPCKLPS_reg d r s :
  step h (UNPCKLPS d (R r)) s
  = Next (set_xmm s d (unpcklps (xmm s d) (xmm s r))).
Proof. reflexivity. Qed.

Lemma step_MOVAPS_store base disp src s a old :
  Bits.wrap64 (gpr s base + disp) = a ->
  a mod 16 = 0 -> vmem s !! a = Some old ->
  step h (MOVAPS_store (MDisp base disp) src) s
  = Next (set_vmem s (<[a := xmm s src]> (vmem s))).
Proof.
  intros Ha Hal Hv. cbn [step effective_address]. rewrite Ha.
  unfold store128. now rewrite Hal, Hv.
Qed.

(** A source is loaded, shuffled and negated into [dest]. *)
Lemma exec_source instr n r dest fuel s v :
  Sem.reads s instr n r v ->
  Sem.descriptor_in_range (Sem.descriptor g instr) ->
  reg_eqb dest NEGBIT = false ->
  xmm s NEGBIT = Vec.splat F32.neg_zero ->
  exists code s',
    Compile_SwizzleSrc g instr n r dest = Ok code
    /\ exec h code fuel s = Next s'
    /\ xmm s' dest = Sem.swizzled (Sem.descriptor g instr) n v
    /\ Sem.xmm_frame [dest] s s'.
Proof.
  intros (a & Ha & Hal & Hv) Hr Hd Hneg.
  assert (Hd' : reg_eqb NEGBIT dest = false)
    by (unfold reg_eqb in *; now rewrite Z.eqb_sym).
  destruct (source_address_load s instr n r a dest Ha) as (arg & Hl & Hea).
  pose proof (selector_in_range _ n Hr) as Hsel.
  unfold Compile_SwizzleSrc. rewrite Hl. cbn [bind].
  exists (Seq (Emit (MOVAPS dest arg))
              (Compile_SwizzleSrc_swizzle g instr n dest)).
  assert (Hstep : step h (MOVAPS dest arg) s = Next (set_xmm s dest v))
    by (now apply (step_MOVAPS_load h dest arg s a v)).
  unfold Compile_SwizzleSrc_swizzle. fold (Sem.descriptor g instr).
  unfold Sem.swizzled.
  set (swiz := Sem.descriptor g instr) in *.
  set (sel := GetRawSelector swiz n) in *.
  assert (Hframe : forall s' : State,
            gpr s' = gpr s -> zf s' = zf s -> vmem s' = vmem s ->
            bmem s' = bmem s ->
            (forall r0, reg_eqb r0 dest = false -> xmm s' r0 = xmm s r0) ->
            Sem.xmm_frame [dest] s s').
  { intros s' ? ? ? ? Hx. repeat apply conj; try assumption.
    intros r0 Hr0. cbn [existsb] in Hr0. rewrite orb_false_r in Hr0.
    now apply Hx. }
  destruct (sel =? NO_SRC_REG_SWIZZLE) eqn:Es.
  - apply Z.eqb_eq in Es. rewrite Es, select_identity.
    destruct (negate_of swiz n).
    + eexists. split; [reflexivity|]. split.
      * cbn [exec]. rewrite Hstep. rewrite step_XORPS_reg. reflexivity.
      * split.
        -- cbn [xmm set_xmm]. rewrite reg_eqb_refl, Hd', Hneg.
           destruct v; reflexivity.
        -- apply Hframe; try reflexivity.
           intros r0 Hr0. cbn [xmm set_xmm]. now rewrite Hr0.
    + eexists. split; [reflexivity|]. split.
      * cbn [exec]. rewrite Hstep. reflexivity.
      * split; [cbn [xmm set_xmm]; now rewrite reg_eqb_refl|].
        apply Hframe; try reflexivity.
        intros r0 Hr0. cbn [xmm set_xmm]. now rewrite Hr0.
  - destruct (negate_of swiz n).
    + eexists. split; [reflexivity|]. split.
      * cbn [exec]. rewrite Hstep, step_SHUFPS_reg, step_XORPS_reg. reflexivity.
      * split.
        -- cbn [xmm set_xmm]. rewrite !reg_eqb_refl, Hd', Hneg.
           rewrite shufps_reverse by exact Hsel.
           destruct (Sem.select sel v); reflexivity.
        -- apply Hframe; try reflexivity.
           intros r0 Hr0. cbn [xmm set_xmm]. now rewrite Hr0.
    + eexists. split; [reflexivity|]. split.
      * cbn [exec]. rewrite Hstep, step_SHUFPS_reg. reflexivity.
      * split.
        -- cbn [xmm set_xmm]. rewrite !reg_eqb_refl. now apply shufps_reverse.
        -- apply Hframe; try reflexivity.
           intros r0 Hr0. cbn [xmm set_xmm]. now rewrite Hr0.
Qed.

Lemma blendps_merge swiz old new :
  0 <= dest_mask swiz < 16 ->
  blendps (blend_mask (dest_mask swiz)) old new = Sem.merge swiz old new.
Proof.
  unfold Sem.merge, DestComponentEnabled. generalize (dest_mask swiz) as m.
  intros m Hm.
  assert (m = 0 \/ m = 1 \/ m = 2 \/ m = 3 \/ m = 4 \/ m = 5 \/ m = 6 \/ m = 7
          \/ m = 8 \/ m = 9 \/ m = 10 \/ m = 11 \/ m = 12 \/ m = 13 \/ m = 14
          \/ m = 15) as Hc by lia.
  repeat (destruct Hc as [-> | Hc]; [reflexivity|]). subst m. reflexivity.
Qed.

Lemma shuffle_merge swiz old new :
  shufps (shuffle_selector swiz) (unpcklps old new) (unpckhps new old)
  = Sem.merge swiz old new.
Proof.
  unfold Sem.merge, shuffle_selector.
  destruct (DestComponentEnabled swiz 0), (DestComponentEnabled swiz 1),
    (DestComponentEnabled swiz 2), (DestComponentEnabled swiz 3); reflexivity.
Qed.

Lemma merge_full swiz old new :
  dest_mask swiz = NO_DEST_REG_MASK -> Sem.merge swiz old new = new.
Proof.
  intros Hm. unfold Sem.merge, DestComponentEnabled. rewrite Hm.
  destruct new; reflexivity.
Qed.

Lemma Compile_DestEnable_eq instr src :
  Compile_DestEnable g instr src
  = let swiz := Sem.descriptor g instr in
    let d := if is_mad instr then mad_dest (mad instr)
             else dest (common instr) in
    if dest_mask swiz =? NO_DEST_REG_MASK then
      Emit (MOVAPS_store (MDisp REGISTERS (OutputOffset d)) src)
    else
      Seq (Emit (MOVAPS SCRATCH (MDisp REGISTERS (OutputOffset d))))
     (Seq (if sse4_1 (caps g) then
             Emit (BLENDPS SCRATCH (R src) (blend_mask (dest_mask swiz)))
           else
             emit_all [ MOVAPS XMM4 (R src);
                        UNPCKHPS XMM4 (R SCRATCH);
                        UNPCKLPS SCRATCH (R src);
                        SHUFPS SCRATCH (R XMM4) (shuffle_selector swiz) ])
          (Emit (MOVAPS_store (MDisp REGISTERS (OutputOffset d)) SCRATCH))).
Proof.
  unfold Compile_DestEnable, Sem.descriptor.
  destruct (is_mad instr); reflexivity.
Qed.

(** The result in [src] goes to the enabled components of the
    destination register, on either host path. *)
Lemma exec_Compile_DestEnable instr src fuel s old :
  Sem.dest_holds s instr old ->
  0 <= dest_mask (Sem.descriptor g instr) < 16 ->
  reg_eqb src SCRATCH = false -> reg_eqb src XMM4 = false ->
  exists s',
    exec h (Compile_DestEnable g instr src) fuel s = Next s'
    /\ vmem s' = <[Sem.dest_address s instr :=
                    Sem.merge (Sem.descriptor g instr) old (xmm s src)]> (vmem s)
    /\ gpr s' = gpr s /\ zf s' = zf s /\ bmem s' = bmem s
    /\ forall r, existsb (reg_eqb r) [SCRATCH; XMM4] = false ->
                 xmm s' r = xmm s r.
Proof.
  intros (Hal & Hv) Hm Hs0 Hs4.
  rewrite Compile_DestEnable_eq. cbv zeta.
  unfold Sem.dest_address in *.
  set (swiz := Sem.descriptor g instr) in *.
  set (d := if is_mad instr then mad_dest (mad instr) else dest (common instr)) in *.
  set (a := Bits.wrap64 (gpr s REGISTERS + OutputOffset d)) in *.
  destruct (dest_mask swiz =? NO_DEST_REG_MASK) eqn:Em.
  - apply Z.eqb_eq in Em.
    eexists. split.
    { cbn [exec].
      apply (step_MOVAPS_store REGISTERS (OutputOffset d) src s a old eq_refl Hal Hv). }
    rewrite merge_full by assumption. repeat apply conj; reflexivity.
  - pose proof (step_MOVAPS_load h SCRATCH (MDisp REGISTERS (OutputOffset d))
                  s a old eq_refl Hal Hv) as Hload.
    destruct (sse4_1 (caps g)).
    + eexists. split.
      { cbn [exec]. rewrite Hload, step_BLENDPS_reg.
        eapply step_MOVAPS_store; [reflexivity|exact Hal|exact Hv]. }
      cbn [vmem gpr zf bmem xmm set_vmem set_xmm].
      rewrite reg_eqb_refl, Hs0, blendps_merge by assumption.
      repeat apply conj; try reflexivity.
      intros r0 Hr. cbn [existsb] in Hr.
      apply orb_false_elim in Hr as [H0 Hr]. now rewrite H0.
    + eexists. split.
      { cbn [exec emit_all].
        rewrite Hload, step_MOVAPS_reg, step_UNPCKHPS_reg, step_UNPCKLPS_reg,
          step_SHUFPS_reg.
        eapply step_MOVAPS_store; [reflexivity|exact Hal|exact Hv]. }
      cbn [vmem gpr zf bmem xmm set_vmem set_xmm].
      rewrite ?reg_eqb_refl, ?Hs0, ?Hs4.
      change (reg_eqb SCRATCH XMM4) with false.
      change (reg_eqb XMM4 SCRATCH) with false. cbv beta iota.
      rewrite ?reg_eqb_refl, ?Hs0, ?Hs4.
      rewrite shuffle_merge.
      repeat apply conj; try reflexivity.
      intros r0 Hr. cbn [existsb] in Hr.
      apply orb_false_elim in Hr as [H0 Hr].
      apply orb_false_elim in Hr as [H4 _]. now rewrite H0, H4.
Qed.

End SourceAndDestination.

(** X1: the code of [Compile_SwizzleSrc] leaves in [dest] the loaded
    vector with component c replaced by the component the selector names
    for c (two bits per component, X first), every sign flipped when the
    negate flag of the source is set; no other register and no memory
    changes. *)
Theorem SwizzleSrc_loads_swizzled_source (g : Globals) (h : Host)
  (instr : Instruction) (src_num r : Z) (dest : X64Reg) (fuel : nat)
  (s : State) (v : Vec4) :
  Sem.reads s instr src_num r v ->
  Sem.descriptor_in_range (Sem.descriptor g instr) ->
  reg_eqb dest NEGBIT = false ->
  xmm s NEGBIT = Vec.splat F32.neg_zero ->
  exists code s',
    Compile_SwizzleSrc g instr src_num r dest = Ok code
    /\ exec h code fuel s = Next s'
    /\ xmm s' dest = Sem.swizzled (Sem.descriptor g instr) src_num v
    /\ Sem.xmm_frame [dest] s s'.
Proof. apply exec_source. Qed.

(** X2: the code of [Compile_DestEnable] replaces, in the destination
    register, exactly the components the destination mask enables by
    those of [src], with BLENDPS (SSE4.1) and with the unpack and
    shuffle sequence alike; [src] must be neither SCRATCH nor XMM4. *)
Theorem DestEnable_writes_enabled_components (g : Globals) (h : Host)
  (instr : Instruction) (src : X64Reg) (fuel : nat) (s : State) (old : Vec4) :
  Sem.dest_holds s instr old ->
  0 <= dest_mask (Sem.descriptor g instr) < 16 ->
  reg_eqb src SCRATCH = false -> reg_eqb src XMM4 = false ->
  exists s',
    exec h (Compile_DestEnable g instr src) fuel s = Next s'
    /\ vmem s' = <[Sem.dest_address s instr :=
                    Sem.merge (Sem.descriptor g instr) old (xmm s src)]> (vmem s)
    /\ gpr s' = gpr s /\ zf s' = zf s /\ bmem s' = bmem s
    /\ forall r, existsb (reg_eqb r) [SCRATCH; XMM4] = false ->
                 xmm s' r = xmm s r.
Proof. apply exec_Compile_DestEnable. Qed.

Lemma SwizzleSrc_loads_swizzled_source_witness :
  Sem.reads Examples.arith_state Examples.arith_instr 1 0 Examples.arith_v0
  /\ Sem.descriptor_in_range
       (Sem.descriptor Examples.arith_globals Examples.arith_instr)
  /\ reg_eqb SRC1 NEGBIT = false
  /\ xmm Examples.arith_state NEGBIT = Vec.splat F32.neg_zero
  /\ exists code s',
       Compile_SwizzleSrc Examples.arith_globals Examples.arith_instr 1 0 SRC1
       = Ok code
       /\ exec Examples.host code 0 Examples.arith_state = Next s'
       /\ xmm s' SRC1
          = Sem.swizzled
              (Sem.descriptor Examples.arith_globals Examples.arith_instr) 1
              Examples.arith_v0
       /\ Sem.xmm_frame [SRC1] Examples.arith_state s'.
Proof.
  assert (H1 : Sem.reads Examples.arith_state Examples.arith_instr 1 0
                 Examples.arith_v0)
    by (exists 65536; repeat apply conj; vm_compute; reflexivity).
  assert (H2 : Sem.descriptor_in_range
                 (Sem.descriptor Examples.arith_globals Examples.arith_instr))
    by (vm_compute; repeat split; discriminate).
  assert (H3 : reg_eqb SRC1 NEGBIT = false) by reflexivity.
  assert (H4 : xmm Examples.arith_state NEGBIT = Vec.splat F32.neg_zero)
    by (vm_compute; reflexivity).
  repeat (split; [assumption|]).
  exact (SwizzleSrc_loads_swizzled_source Examples.arith_globals Examples.host
           Examples.arith_instr 1 0 SRC1 0 Examples.arith_state
           Examples.arith_v0 H1 H2 H3 H4).
Defined.

Lemma DestEnable_writes_enabled_components_witness :
  Sem.dest_holds Examples.arith_state Examples.arith_instr
    (Vec.splat Examples.f0_5)
  /\ 0 <= dest_mask (Sem.descriptor Examples.arith_globals Examples.arith_instr)
     < 16
  /\ reg_eqb SRC1 SCRATCH = false /\ reg_eqb SRC1 XMM4 = false
  /\ exists s',
       exec Examples.host
         (Compile_DestEnable Examples.arith_globals Examples.arith_instr SRC1)
         0 Examples.arith_state = Next s'
       /\ vmem s'
          = <[Sem.dest_address Examples.arith_state Examples.arith_instr :=
               Sem.merge
                 (Sem.descriptor Examples.arith_globals Examples.arith_instr)
                 (Vec.splat Examples.f0_5)
                 (xmm Examples.arith_state SRC1)]>
              (vmem Examples.arith_state)
       /\ gpr s' = gpr Examples.arith_state
       /\ zf s' = zf Examples.arith_state
       /\ bmem s' = bmem Examples.arith_state
       /\ forall r, existsb (reg_eqb r) [SCRATCH; XMM4] = false ->
                    xmm s' r = xmm Examples.arith_state r.
Proof.
  assert (H1 : Sem.dest_holds Examples.arith_state Examples.arith_instr
                 (Vec.splat Examples.f0_5))
    by (split; vm_compute; reflexivity).
  assert (H2 : 0 <= dest_mask (Sem.descriptor Examples.arith_globals
                                 Examples.arith_instr) < 16)
    by (vm_compute; split; [discriminate|reflexivity]).
  assert (H3 : reg_eqb SRC1 SCRATCH = false) by reflexivity.
  assert (H4 : reg_eqb SRC1 XMM4 = false) by reflexivity.
  repeat (split; [assumption|]).
  exact (DestEnable_writes_enabled_components Examples.arith_globals
           Examples.host Examples.arith_instr SRC1 0 Examples.arith_state
           (Vec.splat Examples.f0_5) H1 H2 H3 H4).
Defined.

(** ** The arithmetic handlers *)

Section ArithmeticHandlers.

Variable g : Globals.
Variable h : Host.

Lemma exec_Compile_binary instr body f fuel s v1 v2 old :
  Sem.computes h body (fun a b _ => f a b) ->
  Sem.reads s instr 1 (src1 (common instr)) v1 ->
  Sem.reads s instr 2 (src2 (common instr)) v2 ->
  Sem.dest_holds s instr old ->
  Sem.descriptor_in_range (Sem.descriptor g instr) ->
  xmm s NEGBIT = Vec.splat F32.neg_zero ->
  Sem.stores h (Compile_binary g instr body) fuel s (Sem.dest_address s instr)
    (Sem.merge (Sem.descriptor g instr) old
       (f (Sem.swizzled (Sem.descriptor g instr) 1 v1)
          (Sem.swizzled (Sem.descriptor g instr) 2 v2))).
Proof.
  intros Hbody R1 R2 (Dal & Dv) Hr Hn.
  destruct (exec_source g h instr 1 (src1 (common instr)) SRC1 fuel s v1)
    as (c1 & s1 & C1 & E1 & X1 & G1 & Z1 & M1 & B1 & F1); auto.
  destruct (exec_source g h instr 2 (src2 (common instr)) SRC2 fuel s1 v2)
    as (c2 & s2 & C2 & E2 & X2 & G2 & Z2 & M2 & B2 & F2); auto.
  { now apply (reads_frame s s1). }
  { rewrite F1 by reflexivity. exact Hn. }
  destruct (Hbody fuel s2) as (s3 & E3 & X3 & G3 & M3 & B3).
  assert (Ha3 : Sem.dest_address s3 instr = Sem.dest_address s instr).
  { unfold Sem.dest_address. now rewrite G3, G2, G1. }
  destruct (exec_Compile_DestEnable g h instr SRC1 fuel s3 old)
    as (s4 & E4 & M4 & G4 & Z4 & B4 & F4); auto.
  { split; rewrite Ha3; [exact Dal|]. rewrite M3, M2, M1. exact Dv. }
  { apply Hr. }
  exists (Seq c1 (Seq c2 (Seq body (Compile_DestEnable g instr SRC1)))), s4.
  split; [unfold Compile_binary; rewrite C1, C2; reflexivity|].
  split; [cbn [exec]; rewrite E1, E2, E3; exact E4|].
  split.
  - rewrite M4, Ha3, M3, M2, M1, X3, X2, (F2 SRC1 eq_refl), X1. reflexivity.
  - split; [now rewrite G4, G3, G2, G1 | now rewrite B4, B3, B2, B1].
Qed.

Lemma exec_Compile_unary instr body f fuel s v1 old :
  Sem.computes h body (fun a _ _ => f a) ->
  Sem.reads s instr 1 (src1 (common instr)) v1 ->
  Sem.dest_holds s instr old ->
  Sem.descriptor_in_range (Sem.descriptor g instr) ->
  xmm s NEGBIT = Vec.splat F32.neg_zero ->
  Sem.stores h (Compile_unary g instr body) fuel s (Sem.dest_address s instr)
    (Sem.merge (Sem.descriptor g instr) old
       (f (Sem.swizzled (Sem.descriptor g instr) 1 v1))).
Proof.
  intros Hbody R1 (Dal & Dv) Hr Hn.
  destruct (exec_source g h instr 1 (src1 (common instr)) SRC1 fuel s v1)
    as (c1 & s1 & C1 & E1 & X1 & G1 & Z1 & M1 & B1 & F1); auto.
  destruct (Hbody fuel s1) as (s3 & E3 & X3 & G3 & M3 & B3).
  assert (Ha3 : Sem.dest_address s3 instr = Sem.dest_address s instr).
  { unfold Sem.dest_address. now rewrite G3, G1. }
  destruct (exec_Compile_DestEnable g h instr SRC1 fuel s3 old)
    as (s4 & E4 & M4 & G4 & Z4 & B4 & F4); auto.
  { split; rewrite Ha3; [exact Dal|]. rewrite M3, M1. exact Dv. }
  { apply Hr. }
  exists (Seq c1 (Seq body (Compile_DestEnable g instr SRC1))), s4.
  split; [unfold Compile_unary; rewrite C1; reflexivity|].
  split; [cbn [exec]; rewrite E1, E3; exact E4|].
  split.
  - rewrite M4, Ha3, M3, M1, X3, X1. reflexivity.
  - split; [now rewrite G4, G3, G1 | now rewrite B4, B3, B1].
Qed.

Ltac body_computes :=
  intros fuel s; eexists; split; [reflexivity|];
  repeat apply conj; reflexivity.

Lemma computes_ADD :
  Sem.computes h (Emit (ADDPS SRC1 (R SRC2)))
    (fun a b _ => Vec.map2 F32.add a b).
Proof. body_computes. Qed.

Lemma computes_MUL :
  Sem.computes h (Emit (MULPS SRC1 (R SRC2)))
    (fun a b _ => Vec.map2 F32.mul a b).
Proof. body_computes. Qed.

Lemma computes_MAX :
  Sem.computes h (Emit (MAXPS SRC1 (R SRC2)))
    (fun a b _ => Vec.map2 F32.maxps a b).
Proof. body_computes. Qed.

Lemma computes_MIN :
  Sem.computes h (Emit (MINPS SRC1 (R SRC2)))
    (fun a b _ => Vec.map2 F32.minps a b).
Proof. body_computes. Qed.

Lemma computes_DP3 :
  Sem.computes h
    (if sse4_1 (caps g) then Emit (DPPS SRC1 (R SRC2) 127)
     else emit_all [ MULPS SRC1 (R SRC2);
                     MOVAPS SRC2 (R SRC1);
                     SHUFPS SRC2 (R SRC2) (MM_SHUFFLE 1 1 1 1);
                     MOVAPS SRC3 (R SRC1);
                     SHUFPS SRC3 (R SRC3) (MM_SHUFFLE 2 2 2 2);
                     SHUFPS SRC1 (R SRC1) (MM_SHUFFLE 0 0 0 0);
                     ADDPS SRC1 (R SRC2);
                     ADDPS SRC1 (R SRC3) ])
    (fun a b _ => Sem.dot3 (caps g) a b).
Proof. unfold Sem.dot3. destruct (sse4_1 (caps g)); body_computes. Qed.

Lemma computes_DP4 :
  Sem.computes h
    (if sse4_1 (caps g) then Emit (DPPS SRC1 (R SRC2) 255)
     else emit_all [ MULPS SRC1 (R SRC2);
                     MOVAPS SRC2 (R SRC1);
                     SHUFPS SRC1 (R SRC1) (MM_SHUFFLE 2 3 0 1);
                     ADDPS SRC1 (R SRC2);
                     MOVAPS SRC2 (R SRC1);
                     SHUFPS SRC1 (R SRC1) (MM_SHUFFLE 0 1 2 3);
                     ADDPS SRC1 (R SRC2) ])
    (fun a b _ => Sem.dot4 (caps g) a b).
Proof. unfold Sem.dot4. destruct (sse4_1 (caps g)); body_computes. Qed.

Lemma computes_MOV : Sem.computes h Skip (fun a _ _ => a).
Proof. body_computes. Qed.

Lemma computes_RCP :
  Sem.computes h (Emit (RCPPS SRC1 (R SRC1)))
    (fun a _ _ => Vec.map (rcp_lane h) a).
Proof. body_computes. Qed.

Lemma computes_RSQ :
  Sem.computes h (Emit (RSQRTPS SRC1 (R SRC1)))
    (fun a _ _ => Vec.map (rsqrt_lane h) a).
Proof. body_computes. Qed.

Lemma computes_FLR :
  Sem.computes h (Compile_FLR_body g) (fun a _ _ => Sem.flr_lanes (caps g) a).
Proof.
  unfold Compile_FLR_body, Sem.flr_lanes.
  destruct (sse4_1 (caps g)); body_computes.
Qed.

Lemma computes_MAD :
  Sem.computes h
    (if fma (caps g) then Emit (VFMADD213PS SRC1 SRC2 (R SRC3))
     else emit_all [ MULPS SRC1 (R SRC2); ADDPS SRC1 (R SRC3) ])
    (Sem.mad_lanes (caps g)).
Proof. unfold Sem.mad_lanes. destruct (fma (caps g)); body_computes. Qed.

Lemma exec_Compile_MAD instr fuel s v1 v2 v3 old :
  Sem.reads s instr 1 (mad_src1 (mad instr)) v1 ->
  Sem.reads s instr 2
    (if OpCode.EffectiveOpCode (opcode instr) =? OpCode.MADI
     then mad_src2i (mad instr) else mad_src2 (mad instr)) v2 ->
  Sem.reads s instr 3
    (if OpCode.EffectiveOpCode (opcode instr) =? OpCode.MADI
     then mad_src3i (mad instr) else mad_src3 (mad instr)) v3 ->
  Sem.dest_holds s instr old ->
  Sem.descriptor_in_range (Sem.descriptor g instr) ->
  xmm s NEGBIT = Vec.splat F32.neg_zero ->
  Sem.stores h (Compile_MAD g instr) fuel s (Sem.dest_address s instr)
    (Sem.merge (Sem.descriptor g instr) old
       (Sem.mad_lanes (caps g)
          (Sem.swizzled (Sem.descriptor g instr) 1 v1)
          (Sem.swizzled (Sem.descriptor g instr) 2 v2)
          (Sem.swizzled (Sem.descriptor g instr) 3 v3))).
Proof.
  set (is_madi := OpCode.EffectiveOpCode (opcode instr) =? OpCode.MADI).
  set (r2 := if is_madi then mad_src2i (mad instr) else mad_src2 (mad instr)).
  set (r3 := if is_madi then mad_src3i (mad instr) else mad_src3 (mad instr)).
  intros R1 R2 R3 (Dal & Dv) Hr Hn.
  destruct (exec_source g h instr 1 (mad_src1 (mad instr)) SRC1 fuel s v1)
    as (c1 & s1 & C1 & E1 & X1 & G1 & Z1 & M1 & B1 & F1); auto.
  destruct (exec_source g h instr 2 r2 SRC2 fuel s1 v2)
    as (c2 & s2 & C2 & E2 & X2 & G2 & Z2 & M2 & B2 & F2); auto.
  { now apply (reads_frame s s1). }
  { rewrite F1 by reflexivity. exact Hn. }
  destruct (exec_source g h instr 3 r3 SRC3 fuel s2 v3)
    as (c3 & s3 & C3 & E3 & X3 & G3 & Z3 & M3 & B3 & F3); auto.
  { apply (reads_frame s1 s2); [assumption..|]. now apply (reads_frame s s1). }
  { rewrite F2, F1 by reflexivity. exact Hn. }
  destruct (computes_MAD fuel s3) as (s4 & E4 & X4 & G4 & M4 & B4).
  assert (Ha4 : Sem.dest_address s4 instr = Sem.dest_address s instr).
  { unfold Sem.dest_address. now rewrite G4, G3, G2, G1. }
  destruct (exec_Compile_DestEnable g h instr SRC1 fuel s4 old)
    as (s5 & E5 & M5 & G5 & Z5 & B5 & F5); auto.
  { split; rewrite Ha4; [exact Dal|]. rewrite M4, M3, M2, M1. exact Dv. }
  { apply Hr. }
  eexists (Seq c1 (Seq c2 (Seq c3 (Seq _ (Compile_DestEnable g instr SRC1))))), s5.
  split.
  { unfold Compile_MAD. rewrite C1. cbn [bind]. fold is_madi.
    unfold r2, r3 in C2, C3.
    destruct is_madi; rewrite C2, C3; reflexivity. }
  split; [cbn [exec]; rewrite E1, E2, E3, E4; exact E5|].
  split.
  - rewrite M5, Ha4, M4, M3, M2, M1, X4, X3, (F3 SRC2 eq_refl), X2,
      (F3 SRC1 eq_refl), (F2 SRC1 eq_refl), X1. reflexivity.
  - split; [now rewrite G5, G4, G3, G2, G1 | now rewrite B5, B4, B3, B2, B1].
Qed.

End ArithmeticHandlers.

(** X3: the code of ADD, MUL, MAX and MIN stores, in the enabled
    components of the destination register, the lane-wise ADDPS, MULPS,
    MAXPS and MINPS of the two swizzled sources, and changes nothing
    else in memory. *)
Theorem binary_handlers_store_lanewise_result (g : Globals) (h : Host)
  (instr : Instruction) (fuel : nat) (s : State) (v1 v2 old : Vec4) :
  Sem.reads s instr 1 (src1 (common instr)) v1 ->
  Sem.reads s instr 2 (src2 (common instr)) v2 ->
  Sem.dest_holds s instr old ->
  Sem.descriptor_in_range (Sem.descriptor g instr) ->
  xmm s NEGBIT = Vec.splat F32.neg_zero ->
  let swiz := Sem.descriptor g instr in
  let stores r f :=
    Sem.stores h r fuel s (Sem.dest_address s instr)
      (Sem.merge swiz old
         (Vec.map2 f (Sem.swizzled swiz 1 v1) (Sem.swizzled swiz 2 v2))) in
  stores (Compile_ADD g instr) F32.add
  /\ stores (Compile_MUL g instr) F32.mul
  /\ stores (Compile_MAX g instr) F32.maxps
  /\ stores (Compile_MIN g instr) F32.minps.
Proof.
  intros R1 R2 D Hr Hn swiz stores.
  repeat apply conj; unfold stores, swiz.
  - apply (exec_Compile_binary g h instr _ (Vec.map2 F32.add));
      auto using computes_ADD.
  - apply (exec_Compile_binary g h instr _ (Vec.map2 F32.mul));
      auto using computes_MUL.
  - apply (exec_Compile_binary g h instr _ (Vec.map2 F32.maxps));
      auto using computes_MAX.
  - apply (exec_Compile_binary g h instr _ (Vec.map2 F32.minps));
      auto using computes_MIN.
Qed.

Lemma binary_handlers_store_lanewise_result_witness :
  let g := Examples.arith_globals in
  let instr := Examples.arith_instr in
  let s := Examples.arith_state in
  Sem.reads s instr 1 (src1 (common instr)) Examples.arith_v0
  /\ Sem.reads s instr 2 (src2 (common instr)) (Vec.splat Examples.f1)
  /\ Sem.dest_holds s instr (Vec.splat Examples.f0_5)
  /\ Sem.descriptor_in_range (Sem.descriptor g instr)
  /\ xmm s NEGBIT = Vec.splat F32.neg_zero
  /\ Sem.stores Examples.host (Compile_ADD g instr) 0 s
       (Sem.dest_address s instr)
       (Sem.merge (Sem.descriptor g instr) (Vec.splat Examples.f0_5)
          (Vec.map2 F32.add
             (Sem.swizzled (Sem.descriptor g instr) 1 Examples.arith_v0)
             (Sem.swizzled (Sem.descriptor g instr) 2 (Vec.splat Examples.f1))))
  /\ Sem.merge (Sem.descriptor g instr) (Vec.splat Examples.f0_5)
       (Vec.map2 F32.add
          (Sem.swizzled (Sem.descriptor g instr) 1 Examples.arith_v0)
          (Sem.swizzled (Sem.descriptor g instr) 2 (Vec.splat Examples.f1)))
     = mkVec4 3267756032 Examples.f0_5 3212836864 Examples.f0_5.
Proof.
  intros g instr s.
  assert (H1 : Sem.reads s instr 1 (src1 (common instr)) Examples.arith_v0)
    by (exists 65536; repeat apply conj; vm_compute; reflexivity).
  assert (H2 : Sem.reads s instr 2 (src2 (common instr)) (Vec.splat Examples.f1))
    by (exists 65552; repeat apply conj; vm_compute; reflexivity).
  assert (H3 : Sem.dest_holds s instr (Vec.splat Examples.f0_5))
    by (split; vm_compute; reflexivity).
  assert (H4 : Sem.descriptor_in_range (Sem.descriptor g instr))
    by (vm_compute; repeat split; discriminate).
  assert (H5 : xmm s NEGBIT = Vec.splat F32.neg_zero)
    by (vm_compute; reflexivity).
  repeat (split; [assumption|]).
  split; [|vm_compute; reflexivity].
  exact (proj1 (binary_handlers_store_lanewise_result g Examples.host instr 0 s
                  Examples.arith_v0 (Vec.splat Examples.f1)
                  (Vec.splat Examples.f0_5) H1 H2 H3 H4 H5)).
Defined.

(** X4: the code of DP3 and DP4 stores, in the enabled components of
    the destination register, the sum of the first three (four) lane
    products of the swizzled sources.  DPPS adds (p0 + p1) + (p2 + p3),
    with +0.0 for p3 in DP3; the sequence emitted without SSE4.1 adds
    (p0 + p1) + p2 for DP3 and, for DP4, the four products in an order
    that differs from lane to lane. *)
Theorem dot_product_handlers_store_sum_of_products (g : Globals) (h : Host)
  (instr : Instruction) (fuel : nat) (s : State) (v1 v2 old : Vec4) :
  Sem.reads s instr 1 (src1 (common instr)) v1 ->
  Sem.reads s instr 2 (src2 (common instr)) v2 ->
  Sem.dest_holds s instr old ->
  Sem.descriptor_in_range (Sem.descriptor g instr) ->
  xmm s NEGBIT = Vec.splat F32.neg_zero ->
  let swiz := Sem.descriptor g instr in
  let stores r f :=
    Sem.stores h r fuel s (Sem.dest_address s instr)
      (Sem.merge swiz old
         (f (caps g) (Sem.swizzled swiz 1 v1) (Sem.swizzled swiz 2 v2))) in
  stores (Compile_DP3 g instr) Sem.dot3
  /\ stores (Compile_DP4 g instr) Sem.dot4.
Proof.
  intros R1 R2 D Hr Hn swiz stores.
  split; unfold stores, swiz.
  - apply (exec_Compile_binary g h instr _ (Sem.dot3 (caps g)));
      auto using computes_DP3.
  - apply (exec_Compile_binary g h instr _ (Sem.dot4 (caps g)));
      auto using computes_DP4.
Qed.

Lemma dot_product_handlers_store_sum_of_products_witness :
  let g := Examples.arith_globals in
  let instr := Examples.arith_instr in
  let s := Examples.arith_state in
  Sem.reads s instr 1 (src1 (common instr)) Examples.arith_v0
  /\ Sem.reads s instr 2 (src2 (common instr)) (Vec.splat Examples.f1)
  /\ Sem.dest_holds s instr (Vec.splat Examples.f0_5)
  /\ Sem.descriptor_in_range (Sem.descriptor g instr)
  /\ xmm s NEGBIT = Vec.splat F32.neg_zero
  /\ Sem.stores Examples.host (Compile_DP4 g instr) 0 s
       (Sem.dest_address s instr)
       (Sem.merge (Sem.descriptor g instr) (Vec.splat Examples.f0_5)
          (Sem.dot4 (caps g)
             (Sem.swizzled (Sem.descriptor g instr) 1 Examples.arith_v0)
             (Sem.swizzled (Sem.descriptor g instr) 2 (Vec.splat Examples.f1))))
  /\ Sem.merge (Sem.descriptor g instr) (Vec.splat Examples.f0_5)
       (Sem.dot4 (caps g)
          (Sem.swizzled (Sem.descriptor g instr) 1 Examples.arith_v0)
          (Sem.swizzled (Sem.descriptor g instr) 2 (Vec.splat Examples.f1)))
     = mkVec4 3268935680 Examples.f0_5 3268935680 Examples.f0_5.
Proof.
  intros g instr s.
  assert (H1 : Sem.reads s instr 1 (src1 (common instr)) Examples.arith_v0)
    by (exists 65536; repeat apply conj; vm_compute; reflexivity).
  assert (H2 : Sem.reads s instr 2 (src2 (common instr)) (Vec.splat Examples.f1))
    by (exists 65552; repeat apply conj; vm_compute; reflexivity).
  assert (H3 : Sem.dest_holds s instr (Vec.splat Examples.f0_5))
    by (split; vm_compute; reflexivity).
  assert (H4 : Sem.descriptor_in_range (Sem.descriptor g instr))
    by (vm_compute; repeat split; discriminate).
  assert (H5 : xmm s NEGBIT = Vec.splat F32.neg_zero)
    by (vm_compute; reflexivity).
  repeat (split; [assumption|]).
  split; [|vm_compute; reflexivity].
  exact (proj2 (dot_product_handlers_store_sum_of_products g Examples.host
                  instr 0 s Examples.arith_v0 (Vec.splat Examples.f1)
                  (Vec.splat Examples.f0_5) H1 H2 H3 H4 H5)).
Defined.

(** X5: the code of MOV, RCP, RSQ and FLR stores, in the enabled
    components of the destination register, the swizzled source itself
    (MOV), the host's RCPPS or RSQRTPS approximation of every lane (RCP,
    RSQ), or every lane rounded down by ROUNDPS, without SSE4.1
    converted to an integer and back (FLR). *)
Theorem unary_handlers_store_lanewise_result (g : Globals) (h : Host)
  (instr : Instruction) (fuel : nat) (s : State) (v1 old : Vec4) :
  Sem.reads s instr 1 (src1 (common instr)) v1 ->
  Sem.dest_holds s instr old ->
  Sem.descriptor_in_range (Sem.descriptor g instr) ->
  xmm s NEGBIT = Vec.splat F32.neg_zero ->
  let swiz := Sem.descriptor g instr in
  let stores r f :=
    Sem.stores h r fuel s (Sem.dest_address s instr)
      (Sem.merge swiz old (f (Sem.swizzled swiz 1 v1))) in
  stores (Compile_MOV g instr) (fun v => v)
  /\ stores (Compile_RCP g instr) (Vec.map (rcp_lane h))
  /\ stores (Compile_RSQ g instr) (Vec.map (rsqrt_lane h))
  /\ stores (Compile_FLR g instr) (Sem.flr_lanes (caps g)).
Proof.
  intros R1 D Hr Hn swiz stores.
  repeat apply conj; unfold stores, swiz.
  - apply (exec_Compile_unary g h instr _ (fun v => v));
      auto using computes_MOV.
  - apply (exec_Compile_unary g h instr _ (Vec.map (rcp_lane h)));
      auto using computes_RCP.
  - apply (exec_Compile_unary g h instr _ (Vec.map (rsqrt_lane h)));
      auto using computes_RSQ.
  - apply (exec_Compile_unary g h instr _ (Sem.flr_lanes (caps g)));
      auto using computes_FLR.
Qed.

Lemma unary_handlers_store_lanewise_result_witness :
  let g := Examples.arith_globals in
  let instr := Examples.arith_instr in
  let s := Examples.arith_state in
  Sem.reads s instr 1 (src1 (common instr)) Examples.arith_v0
  /\ Sem.dest_holds s instr (Vec.splat Examples.f0_5)
  /\ Sem.descriptor_in_range (Sem.descriptor g instr)
  /\ xmm s NEGBIT = Vec.splat F32.neg_zero
  /\ Sem.stores Examples.host (Compile_MOV g instr) 0 s
       (Sem.dest_address s instr)
       (Sem.merge (Sem.descriptor g instr) (Vec.splat Examples.f0_5)
          (Sem.swizzled (Sem.descriptor g instr) 1 Examples.arith_v0))
  /\ Sem.merge (Sem.descriptor g instr) (Vec.splat Examples.f0_5)
       (Sem.swizzled (Sem.descriptor g instr) 1 Examples.arith_v0)
     = mkVec4 3267887104 Examples.f0_5 3221225472 Examples.f0_5.
Proof.
  intros g instr s.
  assert (H1 : Sem.reads s instr 1 (src1 (common instr)) Examples.arith_v0)
    by (exists 65536; repeat apply conj; vm_compute; reflexivity).
  assert (H3 : Sem.dest_holds s instr (Vec.splat Examples.f0_5))
    by (split; vm_compute; reflexivity).
  assert (H4 : Sem.descriptor_in_range (Sem.descriptor g instr))
    by (vm_compute; repeat split; discriminate).
  assert (H5 : xmm s NEGBIT = Vec.splat F32.neg_zero)
    by (vm_compute; reflexivity).
  repeat (split; [assumption|]).
  split; [|vm_compute; reflexivity].
  exact (proj1 (unary_handlers_store_lanewise_result g Examples.host instr 0 s
                  Examples.arith_v0 (Vec.splat Examples.f0_5) H1 H3 H4 H5)).
Defined.

(** X6: the code of MAD and MADI stores, in the enabled components of
    the destination register, s1 * s2 + s3 of the three swizzled
    sources: rounded once by VFMADD213PS on a host with FMA, rounded
    after the product and after the sum by MULPS and ADDPS otherwise. *)
Theorem MAD_stores_multiply_add (g : Globals) (h : Host)
  (instr : Instruction) (fuel : nat) (s : State) (v1 v2 v3 old : Vec4) :
  Sem.reads s instr 1 (mad_src1 (mad instr)) v1 ->
  Sem.reads s instr 2
    (if OpCode.EffectiveOpCode (opcode instr) =? OpCode.MADI
     then mad_src2i (mad instr) else mad_src2 (mad instr)) v2 ->
  Sem.reads s instr 3
    (if OpCode.EffectiveOpCode (opcode instr) =? OpCode.MADI
     then mad_src3i (mad instr) else mad_src3 (mad instr)) v3 ->
  Sem.dest_holds s instr old ->
  Sem.descriptor_in_range (Sem.descriptor g instr) ->
  xmm s NEGBIT = Vec.splat F32.neg_zero ->
  Sem.stores h (Compile_MAD g instr) fuel s (Sem.dest_address s instr)
    (Sem.merge (Sem.descriptor g instr) old
       (Sem.mad_lanes (caps g)
          (Sem.swizzled (Sem.descriptor g instr) 1 v1)
          (Sem.swizzled (Sem.descriptor g instr) 2 v2)
          (Sem.swizzled (Sem.descriptor g instr) 3 v3))).
Proof. apply exec_Compile_MAD. Qed.

Lemma MAD_stores_multiply_add_witness :
  let g := Examples.arith_globals in
  let instr := Examples.mad_v0_v1_v2 in
  let s := Examples.arith_state in
  Sem.reads s instr 1 (mad_src1 (mad instr)) Examples.arith_v0
  /\ Sem.reads s instr 2
       (if OpCode.EffectiveOpCode (opcode instr) =? OpCode.MADI
        then mad_src2i (mad instr) else mad_src2 (mad instr))
       (Vec.splat Examples.f1)
  /\ Sem.reads s instr 3
       (if OpCode.EffectiveOpCode (opcode instr) =? OpCode.MADI
        then mad_src3i (mad instr) else mad_src3 (mad instr))
       (Vec.splat Examples.f2)
  /\ Sem.dest_holds s instr (Vec.splat Examples.f0_5)
  /\ Sem.descriptor_in_range (Sem.descriptor g instr)
  /\ xmm s NEGBIT = Vec.splat F32.neg_zero
  /\ Sem.stores Examples.host (Compile_MAD g instr) 0 s
       (Sem.dest_address s instr)
       (Sem.merge (Sem.descriptor g instr) (Vec.splat Examples.f0_5)
          (Sem.mad_lanes (caps g)
             (Sem.swizzled (Sem.descriptor g instr) 1 Examples.arith_v0)
             (Sem.swizzled (Sem.descriptor g instr) 2 (Vec.splat Examples.f1))
             (Sem.swizzled (Sem.descriptor g instr) 3 (Vec.splat Examples.f2)))).
Proof.
  intros g instr s.
  assert (H1 : Sem.reads s instr 1 (mad_src1 (mad instr)) Examples.arith_v0)
    by (exists 65536; repeat apply conj; vm_compute; reflexivity).
  assert (H2 : Sem.reads s instr 2
                 (if OpCode.EffectiveOpCode (opcode instr) =? OpCode.MADI
                  then mad_src2i (mad instr) else mad_src2 (mad instr))
                 (Vec.splat Examples.f1))
    by (exists 65552; repeat apply conj; vm_compute; reflexivity).
  assert (H3 : Sem.reads s instr 3
                 (if OpCode.EffectiveOpCode (opcode instr) =? OpCode.MADI
                  then mad_src3i (mad instr) else mad_src3 (mad instr))
                 (Vec.splat Examples.f2))
    by (exists 65568; repeat apply conj; vm_compute; reflexivity).
  assert (H4 : Sem.dest_holds s instr (Vec.splat Examples.f0_5))
    by (split; vm_compute; reflexivity).
  assert (H5 : Sem.descriptor_in_range (Sem.descriptor g instr))
    by (vm_compute; repeat split; discriminate).
  assert (H6 : xmm s NEGBIT = Vec.splat F32.neg_zero)
    by (vm_compute; reflexivity).
  repeat (split; [assumption|]).
  exact (MAD_stores_multiply_add g Examples.host instr 0 s Examples.arith_v0
           (Vec.splat Examples.f1) (Vec.splat Examples.f2)
           (Vec.splat Examples.f0_5) H1 H2 H3 H4 H5 H6).
Defined.

(** ** Conditions and branches *)

Section Conditions.

Variable h : Host.

Lemma step_XOR32_imm r v s :
  step h (XOR 32 (R r) (Imm32 v)) s
  = Next (set_zf (set_gpr s r
            (Bits.wrap 32 (Bits.wrap 32
               (Z.lxor (Bits.wrap 32 (gpr s r))
                       (Bits.wrap 32 (Bits.signed 32 v))))))
          (Bits.wrap 32 (Z.lxor (Bits.wrap 32 (gpr s r))
                                (Bits.wrap 32 (Bits.signed 32 v))) =? 0)).
Proof. reflexivity. Qed.

Lemma step_OR32_reg a b s :
  step h (OR 32 (R a) (R b)) s
  = Next (set_zf (set_gpr s a
            (Bits.wrap 32 (Bits.wrap 32
               (Z.lor (Bits.wrap 32 (gpr s a)) (Bits.wrap 32 (gpr s b))))))
          (Bits.wrap 32 (Z.lor (Bits.wrap 32 (gpr s a))
                               (Bits.wrap 32 (gpr s b))) =? 0)).
Proof. reflexivity. Qed.

Lemma step_AND32_reg a b s :
  step h (AND 32 (R a) (R b)) s
  = Next (set_zf (set_gpr s a
            (Bits.wrap 32 (Bits.wrap 32
               (Z.land (Bits.wrap 32 (gpr s a)) (Bits.wrap 32 (gpr s b))))))
          (Bits.wrap 32 (Z.land (Bits.wrap 32 (gpr s a))
                                (Bits.wrap 32 (gpr s b))) =? 0)).
Proof. reflexivity. Qed.

Lemma scratch_frame_gpr (s s' : State) :
  xmm s' = xmm s -> vmem s' = vmem s -> bmem s' = bmem s ->
  (forall r, reg_eqb r RAX = false -> reg_eqb r RBX = false ->
             gpr s' r = gpr s r) ->
  Sem.scratch_frame s s'.
Proof. intros. repeat apply conj; assumption. Qed.

Lemma exec_Compile_EvaluateCondition instr fuel s :
  Sem.is_bit (gpr s COND0) -> Sem.is_bit (gpr s COND1) ->
  Sem.is_bit (refx (flow_control instr)) ->
  Sem.is_bit (refy (flow_control instr)) ->
  exists s',
    exec h (Compile_EvaluateCondition instr) fuel s = Next s'
    /\ zf s' = negb (Sem.condition (flow_control instr)
                       (gpr s COND0) (gpr s COND1))
    /\ Sem.scratch_frame s s'.
Proof.
  intros H0 H1 Hx Hy.
  unfold Compile_EvaluateCondition, Sem.condition.
  destruct (op (flow_control instr)); cbn [exec emit_all];
    rewrite ?step_MOV32_reg, ?step_XOR32_imm; cbv beta iota;
    rewrite ?step_MOV32_reg, ?step_XOR32_imm; cbv beta iota;
    rewrite ?step_XOR32_imm; cbv beta iota;
    rewrite ?step_XOR32_imm; cbv beta iota;
    rewrite ?step_OR32_reg, ?step_AND32_reg; cbv beta iota;
    (eexists; split; [reflexivity|]; split;
     [ reg_simpl;
       destruct H0 as [E0 | E0], H1 as [E1 | E1], Hx as [Ex | Ex],
         Hy as [Ey | Ey]; rewrite ?E0, ?E1, ?Ex, ?Ey; reflexivity
     | apply scratch_frame_gpr; try reflexivity;
       intros r Ha Hb; cbn [gpr set_gpr set_zf]; now rewrite ?Ha, ?Hb ]).
Qed.

Lemma exec_Compile_UniformCondition instr fuel s byte :
  bmem s !! Sem.bool_uniform_address s instr = Some byte ->
  0 <= byte < 256 ->
  exec h (Compile_UniformCondition instr) fuel s
  = Next (set_zf s (byte =? 0)).
Proof.
  intros Hb Hr. unfold Compile_UniformCondition, Sem.bool_uniform_address in *.
  cbn [exec step read_int effective_address].
  change (Z.to_nat (8 / 8)) with 1%nat. cbn [load_bytes]. rewrite Hb.
  f_equal. f_equal. unfold Bits.wrap, Bits.signed.
  change (2 ^ 8) with 256. cbn.
  rewrite Z.add_0_r, Z.sub_0_r, Z.mod_small by lia. reflexivity.
Qed.

(** The test of a conditional instruction leaves ZF clear exactly when
    the test succeeds. *)
Lemma exec_test kind instr fuel s b :
  Sem.tested kind s instr b ->
  exists s',
    exec h (Sem.test_code kind instr) fuel s = Next s'
    /\ zf s' = negb b /\ Sem.scratch_frame s s'.
Proof.
  destruct kind; cbn [Sem.tested Sem.test_code].
  - intros (byte & Hb & Hr & ->).
    rewrite (exec_Compile_UniformCondition instr fuel s byte Hb Hr).
    eexists. split; [reflexivity|]. split.
    + cbn [zf set_zf]. now rewrite negb_involutive.
    + apply scratch_frame_gpr; reflexivity.
  - intros (H0 & H1 & Hx & Hy & ->).
    now apply exec_Compile_EvaluateCondition.
Qed.

End Conditions.

Section Branches.

Variable g : Globals.
Variable h : Host.

Lemma NextInstr_lookup pc instr :
  0 <= pc -> program_code g !! Z.to_nat pc = Some instr ->
  (if 0 <=? pc then program_code g !! Z.to_nat pc else None) = Some instr.
Proof.
  intros Hpc Hi. destruct (0 <=? pc) eqn:E; [exact Hi|].
  apply Z.leb_gt in E. lia.
Qed.

(** [Compile_Block] returns with the offset beyond [stop]. *)
Lemma Compile_Block_beyond_stop f : forall stop offset l c o l',
  Compile_Block g f stop offset l = Ok (c, o, l') -> stop < o.
Proof.
  induction f as [|f IH]; intros stop offset l c o l'; cbn [Compile_Block];
    [discriminate|].
  destruct (offset <=? stop) eqn:E.
  - destruct (Compile_NextInstr g f offset l) as [[[c1 o1] l1]|]; [|discriminate].
    cbn [bind].
    destruct (Compile_Block g f stop o1 l1) as [[[c2 o2] l2]|] eqn:E2;
      [|discriminate].
    cbn [bind]. intros [= _ <- _]. eapply IH; exact E2.
  - intros [= _ <- _]. apply Z.leb_gt in E. exact E.
Qed.

End Branches.

(** X7: the code of IFU and IFC runs the code of the instructions
    [PC+1, dest-1] when the test succeeds and the code of the
    instructions [dest, dest+num-1] otherwise (nothing when num is 0);
    the test itself changes RAX, RBX and the flags only. *)
Theorem IF_runs_one_branch (g : Globals) (h : Host) (f : nat) (pc : Z)
  (looping : bool) (instr : Instruction) (code : Code) (off' : Z) (l : bool)
  (fuel : nat) (s : State) (b : bool) :
  let fc := flow_control instr in
  let kind := if opcode instr =? OpCode.IFU then Sem.OnUniform
              else Sem.OnCondition in
  0 <= pc ->
  program_code g !! Z.to_nat pc = Some instr ->
  opcode instr = OpCode.IFU \/ opcode instr = OpCode.IFC ->
  Compile_NextInstr g (S f) pc looping = Ok (code, off', l) ->
  Sem.tested kind s instr b ->
  exists thn els o1 l1 s1,
    Compile_Block g f (dest_offset fc - 1) (pc + 1) looping = Ok (thn, o1, l1)
    /\ (if num_instructions fc =? 0 then (els, off', l) = (Skip, o1, l1)
        else Compile_Block g f (dest_offset fc + num_instructions fc - 1)
               o1 l1 = Ok (els, off', l))
    /\ Sem.scratch_frame s s1
    /\ exec h code fuel s = exec h (if b then thn else els) fuel s1.
Proof.
  intros fc kind Hpc Hi Hop HC Ht.
  cbn [Compile_NextInstr] in HC.
  rewrite (NextInstr_lookup g pc instr Hpc Hi) in HC.
  cbv zeta in HC. fold fc in HC.
  assert (Hh : default None (instr_table !! Z.to_nat (opcode instr))
               = Some F_IF) by (destruct Hop as [-> | ->]; reflexivity).
  rewrite Hh in HC.
  destruct (dest_offset fc <=? pc + 1); [discriminate|].
  destruct (Compile_Block g f (dest_offset fc - 1) (pc + 1) looping)
    as [[[thn o1] l1]|] eqn:E1; [|discriminate].
  cbn [bind] in HC.
  assert (Hcond : (if opcode instr =? OpCode.IFU
                   then Compile_UniformCondition instr
                   else if opcode instr =? OpCode.IFC
                        then Compile_EvaluateCondition instr else Skip)
                  = Sem.test_code kind instr).
  { unfold kind. destruct Hop as [-> | ->]; reflexivity. }
  rewrite Hcond in HC.
  destruct (exec_test h kind instr fuel s b Ht) as (s1 & Ec & Hz & Hf).
  destruct (num_instructions fc =? 0) eqn:En.
  - injection HC as <- <- <-.
    exists thn, Skip, o1, l1, s1.
    split; [reflexivity|]. split; [reflexivity|]. split; [exact Hf|].
    cbn [exec]. rewrite Ec. unfold test_cc. rewrite Hz.
    destruct b; reflexivity.
  - destruct (Compile_Block g f _ o1 l1) as [[[els o2] l2]|] eqn:E2;
      [|discriminate].
    cbn [bind] in HC. injection HC as <- <- <-.
    exists thn, els, o1, l1, s1.
    split; [reflexivity|]. split; [exact E2|]. split; [exact Hf|].
    cbn [exec]. rewrite Ec. unfold test_cc. rewrite Hz.
    destruct b; reflexivity.
Qed.

(** X8: the code of JMPC and JMPU skips, when the test succeeds, the
    code of the instructions [PC+1, dest], the instruction at the
    destination offset included: compilation resumes beyond [dest], and
    none of that code runs. *)
Theorem JMP_skips_through_destination (g : Globals) (h : Host) (f : nat)
  (pc : Z) (looping : bool) (instr : Instruction) (code : Code) (off' : Z)
  (l : bool) (fuel : nat) (s : State) (b : bool) :
  let fc := flow_control instr in
  let kind := if opcode instr =? OpCode.JMPU then Sem.OnUniform
              else Sem.OnCondition in
  0 <= pc ->
  program_code g !! Z.to_nat pc = Some instr ->
  opcode instr = OpCode.JMPC \/ opcode instr = OpCode.JMPU ->
  Compile_NextInstr g (S f) pc looping = Ok (code, off', l) ->
  Sem.tested kind s instr b ->
  exists body s1,
    Compile_Block g f (dest_offset fc) (pc + 1) looping = Ok (body, off', l)
    /\ dest_offset fc < off'
    /\ Sem.scratch_frame s s1
    /\ exec h code fuel s = if b then Next s1 else exec h body fuel s1.
Proof.
  intros fc kind Hpc Hi Hop HC Ht.
  cbn [Compile_NextInstr] in HC.
  rewrite (NextInstr_lookup g pc instr Hpc Hi) in HC.
  cbv zeta in HC. fold fc in HC.
  assert (Hh : default None (instr_table !! Z.to_nat (opcode instr))
               = Some F_JMP) by (destruct Hop as [-> | ->]; reflexivity).
  rewrite Hh in HC.
  destruct (dest_offset fc <=? pc + 1); [discriminate|].
  assert (Hcond : (if opcode instr =? OpCode.JMPC
                   then Ok (Compile_EvaluateCondition instr)
                   else if opcode instr =? OpCode.JMPU
                        then Ok (Compile_UniformCondition instr)
                        else Err Unreachable)
                  = Ok (Sem.test_code kind instr)).
  { unfold kind. destruct Hop as [-> | ->]; reflexivity. }
  rewrite Hcond in HC. cbn [bind] in HC.
  destruct (Compile_Block g f (dest_offset fc) (pc + 1) looping)
    as [[[body o1] l1]|] eqn:E1; [|discriminate].
  cbn [bind] in HC. injection HC as <- <- <-.
  destruct (exec_test h kind instr fuel s b Ht) as (s1 & Ec & Hz & Hf).
  exists body, s1.
  split; [reflexivity|].
  split; [exact (Compile_Block_beyond_stop g f _ _ _ _ _ _ E1)|].
  split; [exact Hf|].
  cbn [exec]. rewrite Ec. unfold test_cc. rewrite Hz.
  destruct b; reflexivity.
Qed.

(** X9: CALL, CALLC and CALLU compile the instructions
    [dest, dest+num-1] in place and leave the offset of the caller one
    past the call; the code of CALL is the code of that range, the code
    of CALLC and CALLU runs it when the test succeeds and nothing
    otherwise. *)
Theorem CALL_compiles_the_callee_in_place (g : Globals) (h : Host) (f : nat)
  (pc : Z) (looping : bool) (instr : Instruction) (code : Code) (off' : Z)
  (l : bool) :
  let fc := flow_control instr in
  let kind := if opcode instr =? OpCode.CALLU then Sem.OnUniform
              else Sem.OnCondition in
  0 <= pc ->
  program_code g !! Z.to_nat pc = Some instr ->
  opcode instr = OpCode.CALL \/ opcode instr = OpCode.CALLC
  \/ opcode instr = OpCode.CALLU ->
  Compile_NextInstr g (S f) pc looping = Ok (code, off', l) ->
  off' = pc + 1
  /\ exists callee,
       Compile_CALL_loop g f (dest_offset fc + num_instructions fc)
                         (dest_offset fc) looping = Ok (callee, l)
       /\ (opcode instr = OpCode.CALL -> code = callee)
       /\ (opcode instr <> OpCode.CALL ->
           forall fuel s b, Sem.tested kind s instr b ->
           exists s1,
             Sem.scratch_frame s s1
             /\ exec h code fuel s
                = if b then exec h callee fuel s1 else Next s1).
Proof.
  intros fc kind Hpc Hi Hop HC.
  cbn [Compile_NextInstr] in HC.
  rewrite (NextInstr_lookup g pc instr Hpc Hi) in HC.
  cbv zeta in HC. fold fc in HC.
  destruct (Compile_CALL_loop g f (dest_offset fc + num_instructions fc)
              (dest_offset fc) looping) as [[callee l0]|] eqn:E;
    [|destruct Hop as [Ho | [Ho | Ho]]; rewrite Ho in HC; discriminate].
  destruct Hop as [Ho | [Ho | Ho]]; rewrite Ho in HC;
    cbn [bind default lookup] in HC;
    change (instr_table !! Z.to_nat OpCode.CALL) with (Some (Some F_CALL)) in HC;
    change (instr_table !! Z.to_nat OpCode.CALLC) with (Some (Some F_CALLC)) in HC;
    change (instr_table !! Z.to_nat OpCode.CALLU) with (Some (Some F_CALLU)) in HC;
    cbn [bind default] in HC; injection HC as <- <- <-;
    (split; [reflexivity|]); exists callee; (split; [reflexivity|]).
  - split; [reflexivity|]. intros Hn. now rewrite Ho in Hn.
  - split; [intros Hc; rewrite Ho in Hc; discriminate|].
    intros _ fuel s b Ht. unfold kind in Ht. rewrite Ho in Ht.
    destruct (exec_test h Sem.OnCondition instr fuel s b Ht) as (s1 & Ec & Hz & Hf).
    exists s1. split; [exact Hf|].
    cbn [exec]. cbn [Sem.test_code] in Ec. rewrite Ec. unfold test_cc.
    rewrite Hz. destruct b; reflexivity.
  - split; [intros Hc; rewrite Ho in Hc; discriminate|].
    intros _ fuel s b Ht. unfold kind in Ht. rewrite Ho in Ht.
    destruct (exec_test h Sem.OnUniform instr fuel s b Ht) as (s1 & Ec & Hz & Hf).
    exists s1. split; [exact Hf|].
    cbn [exec]. cbn [Sem.test_code] in Ec. rewrite Ec. unfold test_cc.
    rewrite Hz. destruct b; reflexivity.
Qed.

Lemma IF_runs_one_branch_witness :
  let g := Examples.branch_globals Examples.ifu_instr in
  let instr := Examples.ifu_instr in
  let s := Examples.branch_state in
  0 <= 0
  /\ program_code g !! Z.to_nat 0 = Some instr
  /\ (opcode instr = OpCode.IFU \/ opcode instr = OpCode.IFC)
  /\ Compile_NextInstr g 6 0 false = Ok (Examples.first_code g, 3, false)
  /\ Sem.tested Sem.OnUniform s instr false
  /\ exists thn els o1 l1 s1,
       Compile_Block g 5 (dest_offset (flow_control instr) - 1) (0 + 1) false
       = Ok (thn, o1, l1)
       /\ (if num_instructions (flow_control instr) =? 0
           then (els, 3, false) = (Skip, o1, l1)
           else Compile_Block g 5
                  (dest_offset (flow_control instr)
                   + num_instructions (flow_control instr) - 1) o1 l1
                = Ok (els, 3, false))
       /\ Sem.scratch_frame s s1
       /\ exec Examples.host (Examples.first_code g) 0 s
          = exec Examples.host (if false then thn else els) 0 s1.
Proof.
  intros g instr s.
  assert (H0 : 0 <= 0) by lia.
  assert (H1 : program_code g !! Z.to_nat 0 = Some instr) by reflexivity.
  assert (H2 : opcode instr = OpCode.IFU \/ opcode instr = OpCode.IFC)
    by (left; reflexivity).
  assert (H3 : Compile_NextInstr g 6 0 false
               = Ok (Examples.first_code g, 3, false))
    by (vm_compute; reflexivity).
  assert (H4 : Sem.tested Sem.OnUniform s instr false)
    by (exists 0; repeat apply conj; vm_compute; congruence).
  repeat (split; [assumption|]).
  exact (IF_runs_one_branch g Examples.host 5 0 false instr
           (Examples.first_code g) 3 false 0 s false H0 H1 H2 H3 H4).
Defined.

Lemma JMP_skips_through_destination_witness :
  let g := Examples.branch_globals Examples.jmpu_instr in
  let instr := Examples.jmpu_instr in
  let s := Examples.branch_state in
  0 <= 0
  /\ program_code g !! Z.to_nat 0 = Some instr
  /\ (opcode instr = OpCode.JMPC \/ opcode instr = OpCode.JMPU)
  /\ Compile_NextInstr g 6 0 false = Ok (Examples.first_code g, 3, false)
  /\ Sem.tested Sem.OnUniform s instr false
  /\ exists body s1,
       Compile_Block g 5 (dest_offset (flow_control instr)) (0 + 1) false
       = Ok (body, 3, false)
       /\ dest_offset (flow_control instr) < 3
       /\ Sem.scratch_frame s s1
       /\ exec Examples.host (Examples.first_code g) 0 s
          = if false then Next s1 else exec Examples.host body 0 s1.
Proof.
  intros g instr s.
  assert (H0 : 0 <= 0) by lia.
  assert (H1 : program_code g !! Z.to_nat 0 = Some instr) by reflexivity.
  assert (H2 : opcode instr = OpCode.JMPC \/ opcode instr = OpCode.JMPU)
    by (right; reflexivity).
  assert (H3 : Compile_NextInstr g 6 0 false
               = Ok (Examples.first_code g, 3, false))
    by (vm_compute; reflexivity).
  assert (H4 : Sem.tested Sem.OnUniform s instr false)
    by (exists 0; repeat apply conj; vm_compute; congruence).
  repeat (split; [assumption|]).
  exact (JMP_skips_through_destination g Examples.host 5 0 false instr
           (Examples.first_code g) 3 false 0 s false H0 H1 H2 H3 H4).
Defined.

Lemma CALL_compiles_the_callee_in_place_witness :
  let g := Examples.callu_globals in
  let instr := Examples.callu_instr in
  0 <= 0
  /\ program_code g !! Z.to_nat 0 = Some instr
  /\ (opcode instr = OpCode.CALL \/ opcode instr = OpCode.CALLC
      \/ opcode instr = OpCode.CALLU)
  /\ Compile_NextInstr g 6 0 false = Ok (Examples.first_code g, 1, false)
  /\ 1 = 0 + 1
  /\ exists callee,
       Compile_CALL_loop g 5
         (dest_offset (flow_control instr)
          + num_instructions (flow_control instr))
         (dest_offset (flow_control instr)) false = Ok (callee, false)
       /\ (opcode instr = OpCode.CALL -> Examples.first_code g = callee)
       /\ (opcode instr <> OpCode.CALL ->
           forall fuel s b, Sem.tested Sem.OnUniform s instr b ->
           exists s1,
             Sem.scratch_frame s s1
             /\ exec Examples.host (Examples.first_code g) fuel s
                = if b then exec Examples.host callee fuel s1 else Next s1).
Proof.
  intros g instr.
  assert (H0 : 0 <= 0) by lia.
  assert (H1 : program_code g !! Z.to_nat 0 = Some instr) by reflexivity.
  assert (H2 : opcode instr = OpCode.CALL \/ opcode instr = OpCode.CALLC
               \/ opcode instr = OpCode.CALLU)
    by (right; right; reflexivity).
  assert (H3 : Compile_NextInstr g 6 0 false
               = Ok (Examples.first_code g, 1, false))
    by (vm_compute; reflexivity).
  repeat (split; [assumption|]).
  exact (CALL_compiles_the_callee_in_place g Examples.host 5 0 false instr
           (Examples.first_code g) 1 false H0 H1 H2 H3).
Defined.

(** ** The offsets of the compilation *)

Section Offsets.

Variable g : Globals.

Lemma simple_offset (r : Result Code) (offset : Z) (looping : bool) c o l :
  bind r (fun c0 => Ok (c0, offset, looping)) = Ok (c, o, l) ->
  r = Ok c /\ o = offset /\ l = looping.
Proof.
  destruct r as [c0|]; [|discriminate]. cbn [bind].
  intros [= <- <- <-]. repeat split.
Qed.

Lemma offsets_forward fuel :
  (forall pc l c o l',
     Compile_NextInstr g fuel pc l = Ok (c, o, l') -> pc < o)
  /\ (forall stop offset l c o l',
        Compile_Block g fuel stop offset l = Ok (c, o, l') ->
        offset <= o /\ stop < o).
Proof.
  induction fuel as [|fuel [IHn IHb]].
  { split; intros; discriminate. }
  split.
  - intros pc l c o l'. cbn [Compile_NextInstr].
    destruct (if 0 <=? pc then program_code g !! Z.to_nat pc else None)
      as [instr|]; [|discriminate].
    cbv zeta.
    destruct (default None (instr_table !! Z.to_nat (opcode instr)))
      as [[]|];
      try (intros H; apply simple_offset in H as (_ & -> & _); lia).
    + (* CALL *)
      destruct (bind (Compile_CALL_loop g fuel _ _ l) _) as [[c0 l0]|];
        [|discriminate].
      cbn [bind]. intros [= _ <- _]. lia.
    + (* CALLC *)
      destruct (bind (Compile_CALL_loop g fuel _ _ l) _) as [[c0 l0]|];
        [|discriminate].
      cbn [bind]. intros [= _ <- _]. lia.
    + (* CALLU *)
      destruct (bind (Compile_CALL_loop g fuel _ _ l) _) as [[c0 l0]|];
        [|discriminate].
      cbn [bind]. intros [= _ <- _]. lia.
    + (* IF *)
      destruct (_ <=? _); [discriminate|].
      destruct (Compile_Block g fuel _ (pc + 1) l) as [[[thn o1] l1]|] eqn:E1;
        [|discriminate].
      cbn [bind]. apply IHb in E1 as [E1 _].
      destruct (_ =? 0).
      * intros [= _ <- _]. lia.
      * destruct (Compile_Block g fuel _ o1 l1) as [[[els o2] l2]|] eqn:E2;
          [|discriminate].
        cbn [bind]. apply IHb in E2 as [E2 _]. intros [= _ <- _]. lia.
    + (* LOOP *)
      destruct (_ <=? _); [discriminate|]. destruct l; [discriminate|].
      destruct (Compile_Block g fuel _ (pc + 1) true) as [[[body o1] l1]|] eqn:E1;
        [|discriminate].
      cbn [bind]. apply IHb in E1 as [E1 _]. intros [= _ <- _]. lia.
    + (* JMP *)
      destruct (_ <=? _); [discriminate|].
      destruct (if opcode instr =? OpCode.JMPC then _ else _) as [cond|];
        [|discriminate].
      cbn [bind].
      destruct (Compile_Block g fuel _ (pc + 1) l) as [[[body o1] l1]|] eqn:E1;
        [|discriminate].
      cbn [bind]. apply IHb in E1 as [E1 _]. intros [= _ <- _]. lia.
    + (* unhandled *)
      intros [= _ <- _]. lia.
  - intros stop offset l c o l'. cbn [Compile_Block].
    destruct (offset <=? stop) eqn:E.
    + destruct (Compile_NextInstr g fuel offset l) as [[[c1 o1] l1]|] eqn:E1;
        [|discriminate].
      cbn [bind]. apply IHn in E1.
      destruct (Compile_Block g fuel stop o1 l1) as [[[c2 o2] l2]|] eqn:E2;
        [|discriminate].
      cbn [bind]. apply IHb in E2 as [E2 E3]. intros [= _ <- _]. lia.
    + apply Z.leb_gt in E. intros [= _ <- _]. lia.
Qed.

End Offsets.

(** ** The assertions, on the instructions compilation reaches *)

Section ReachedAssertions.

Variable g : Globals.

Hypothesis Hwf : Spec.reached_well_formed g.

Lemma reached_never_asserts fuel :
  (forall offset l,
     Spec.reaches g offset l -> good l (Compile_NextInstr g fuel offset l))
  /\ (forall stop offset l,
        (forall q, offset <= q <= stop -> Spec.reaches g q l) ->
        good l (Compile_Block g fuel stop offset l))
  /\ (forall limit offset l,
        (forall q, offset <= q < limit -> Spec.reaches g q l) ->
        good2 l (Compile_CALL_loop g fuel limit offset l)).
Proof.
  induction fuel as [|fuel (IHn & IHb & IHc)].
  { repeat apply conj; intros; (split; [reflexivity|]; intros; discriminate). }
  split; [|split].
  - intros offset l Hr. cbn [Compile_NextInstr].
    destruct (0 <=? offset) eqn:Ho;
      [|split; [reflexivity|]; intros; discriminate].
    apply Z.leb_le in Ho.
    destruct (program_code g !! Z.to_nat offset) as [instr|] eqn:Hi;
      [|split; [reflexivity|]; intros; discriminate].
    destruct (is_assert_simple g instr)
      as (? & ? & ? & ? & ? & ? & ? & ? & ? & ? & ? & ? & ? & ?).
    cbv zeta.
    destruct (Hwf offset l instr Hr Ho Hi) as [Hfwd Hloop].
    assert (Hrange : forall q l',
              Spec.range_of instr offset l q l' -> Spec.reaches g q l')
      by (intros q l'; apply (Spec.reaches_range g offset l instr q l' Hr Ho Hi)).
    assert (Htr : Spec.is_transfer instr = true ->
                  (dest_offset (flow_control instr) <=? offset + 1) = false)
      by (intros Ht; apply Z.leb_gt; now apply Hfwd).
    assert (Hcall :
      Spec.is_flow instr = true -> Spec.is_transfer instr = false ->
      good2 l
        (bind (Compile_CALL_loop g fuel
                 (dest_offset (flow_control instr)
                  + num_instructions (flow_control instr))
                 (dest_offset (flow_control instr)) l)
              (fun '(c, l0) => Ok (c, l0)))).
    { intros Hf Ht.
      destruct (IHc (dest_offset (flow_control instr)
                     + num_instructions (flow_control instr))
                    (dest_offset (flow_control instr)) l) as [Ha Hl].
      { intros q Hq. apply Hrange. unfold Spec.range_of.
        unfold Spec.is_flow in Hf. unfold Spec.is_transfer in Ht.
        destruct (Spec.handler instr) as [[]|]; try discriminate;
          (split; [reflexivity|exact Hq]). }
      destruct (Compile_CALL_loop g fuel _ _ l) as [[c l0]|e]; cbn [bind].
      - split; [reflexivity|]. intros c' l' [= _ <-]. exact (Hl c l0 eq_refl).
      - split; [exact Ha|]; intros; discriminate. }
    unfold Spec.range_of in Hrange.
    unfold Spec.is_transfer, Spec.is_flow, Spec.is_loop, Spec.handler in *.
    destruct (default None (instr_table !! Z.to_nat (opcode instr)))
      as [[]|];
      try (apply good_simple; first [assumption | reflexivity]).
    + (* CALL *)
      destruct (Hcall eq_refl eq_refl) as [Ha Hl].
      destruct (bind (Compile_CALL_loop g fuel _ _ l) _) as [[c l0]|e];
        cbn [bind].
      * split; [reflexivity|]. intros c' o' l' [= _ _ <-]. exact (Hl c l0 eq_refl).
      * split; [exact Ha|]; intros; discriminate.
    + (* CALLC *)
      destruct (Hcall eq_refl eq_refl) as [Ha Hl].
      destruct (bind (Compile_CALL_loop g fuel _ _ l) _) as [[c l0]|e];
        cbn [bind].
      * split; [reflexivity|]. intros c' o' l' [= _ _ <-]. exact (Hl c l0 eq_refl).
      * split; [exact Ha|]; intros; discriminate.
    + (* CALLU *)
      destruct (Hcall eq_refl eq_refl) as [Ha Hl].
      destruct (bind (Compile_CALL_loop g fuel _ _ l) _) as [[c l0]|e];
        cbn [bind].
      * split; [reflexivity|]. intros c' o' l' [= _ _ <-]. exact (Hl c l0 eq_refl).
      * split; [exact Ha|]; intros; discriminate.
    + (* IF *)
      rewrite (Htr eq_refl).
      pose proof (Htr eq_refl) as Hd. apply Z.leb_gt in Hd.
      destruct (IHb (dest_offset (flow_control instr) - 1) (offset + 1) l)
        as [Ha Hl].
      { intros q Hq. apply Hrange. split; [reflexivity|]. split; lia. }
      destruct (Compile_Block g fuel _ (offset + 1) l)
        as [[[thn o1] l1]|e] eqn:E1; cbn [bind];
        [|split; [exact Ha|]; intros; discriminate].
      rewrite (Hl thn o1 l1 eq_refl).
      destruct (offsets_forward g fuel) as [_ Hob].
      destruct (Hob _ _ _ _ _ _ E1) as [Ho1 _].
      destruct (num_instructions (flow_control instr) =? 0) eqn:En.
      * split; [reflexivity|]. intros c o l' [= _ _ <-]. reflexivity.
      * apply Z.eqb_neq in En.
        destruct (IHb (dest_offset (flow_control instr)
                       + num_instructions (flow_control instr) - 1) o1 l)
          as [Ha' Hl'].
        { intros q Hq. apply Hrange. split; [reflexivity|].
          split; [lia|]. right. split; [exact En|lia]. }
        destruct (Compile_Block g fuel _ o1 l) as [[[els o2] l2]|e];
          cbn [bind].
        -- split; [reflexivity|]. intros c o l' [= _ _ <-].
           exact (Hl' els o2 l2 eq_refl).
        -- split; [exact Ha'|]; intros; discriminate.
    + (* LOOP *)
      rewrite (Htr eq_refl). rewrite (Hloop eq_refl) in *.
      destruct (IHb (dest_offset (flow_control instr)) (offset + 1) true)
        as [Ha Hl].
      { intros q Hq. apply Hrange. split; [reflexivity|lia]. }
      destruct (Compile_Block g fuel _ (offset + 1) true)
        as [[[body o1] l1]|e]; cbn [bind].
      * split; [reflexivity|]. intros c o l' [= _ _ <-]. reflexivity.
      * split; [exact Ha|]; intros; discriminate.
    + (* JMP *)
      rewrite (Htr eq_refl).
      destruct (IHb (dest_offset (flow_control instr)) (offset + 1) l)
        as [Ha Hl].
      { intros q Hq. apply Hrange. split; [reflexivity|lia]. }
      destruct (opcode instr =? OpCode.JMPC); [|destruct (opcode instr =? OpCode.JMPU)];
        cbn [bind]; try (split; [reflexivity|]; intros; discriminate);
        (destruct (Compile_Block g fuel _ (offset + 1) l)
           as [[[body o1] l1]|e]; cbn [bind];
         [ split; [reflexivity|]; intros c o l' [= _ _ <-];
           exact (Hl body o1 l1 eq_refl)
         | split; [exact Ha|]; intros; discriminate ]).
    + (* unhandled *)
      split; [reflexivity|]. intros c o l' [= _ _ <-]. reflexivity.
  - intros stop offset l Hq. cbn [Compile_Block].
    destruct (offset <=? stop) eqn:Hle.
    + apply Z.leb_le in Hle.
      destruct (IHn offset l) as [Ha Hl]; [apply Hq; lia|].
      destruct (Compile_NextInstr g fuel offset l) as [[[c1 o1] l1]|e] eqn:E1;
        cbn [bind]; [|split; [exact Ha|]; intros; discriminate].
      rewrite (Hl c1 o1 l1 eq_refl).
      destruct (offsets_forward g fuel) as [Hon _].
      pose proof (Hon _ _ _ _ _ E1) as Ho1.
      destruct (IHb stop o1 l) as [Ha' Hl']; [intros q Hq'; apply Hq; lia|].
      destruct (Compile_Block g fuel stop o1 l) as [[[c2 o2] l2]|e];
        cbn [bind].
      * split; [reflexivity|]. intros c o l' [= _ _ <-].
        exact (Hl' c2 o2 l2 eq_refl).
      * split; [exact Ha'|]; intros; discriminate.
    + split; [reflexivity|]. intros c o l' [= _ _ <-]. reflexivity.
  - intros limit offset l Hq. cbn [Compile_CALL_loop].
    destruct (offset <? limit) eqn:Hlt.
    + apply Z.ltb_lt in Hlt.
      destruct (IHn offset l) as [Ha Hl]; [apply Hq; lia|].
      destruct (Compile_NextInstr g fuel offset l) as [[[c1 o1] l1]|e] eqn:E1;
        cbn [bind]; [|split; [exact Ha|]; intros; discriminate].
      rewrite (Hl c1 o1 l1 eq_refl).
      destruct (offsets_forward g fuel) as [Hon _].
      pose proof (Hon _ _ _ _ _ E1) as Ho1.
      destruct (IHc limit o1 l) as [Ha' Hl']; [intros q Hq'; apply Hq; lia|].
      destruct (Compile_CALL_loop g fuel limit o1 l) as [[c2 l2]|e];
        cbn [bind].
      * split; [reflexivity|]. intros c l' [= _ <-]. exact (Hl' c2 l2 eq_refl).
      * split; [exact Ha'|]; intros; discriminate.
    + split; [reflexivity|]. intros c l' [= _ <-]. reflexivity.
Qed.

Lemma Compile_reached_never_asserts fuel : is_assert (Compile g fuel) = false.
Proof.
  unfold Compile, Compile_main.
  destruct (reached_never_asserts fuel) as (_ & _ & Hc).
  destruct (Hc (Z.of_nat (length (program_code g))) (main_offset g) false)
    as [Ha _].
  { intros q Hq. apply Spec.reaches_entry. lia. }
  destruct (Compile_CALL_loop g fuel _ _ false) as [[c l]|e];
    [reflexivity|exact Ha].
Qed.

End ReachedAssertions.

(** Programs whose IF, LOOP and JMP all go forward and whose LOOP
    bodies are straight-line code are among them. *)
Lemma straight_bodies_reached_well_formed (g : Globals) :
  Spec.transfers_forward (program_code g) ->
  Spec.straight_loop_bodies (program_code g) ->
  Spec.reached_well_formed g.
Proof.
  intros Hfwd Hstr.
  assert (Hin : forall q l, Spec.reaches g q l -> l = true ->
            exists (p : nat) ip,
              program_code g !! p = Some ip /\ Spec.is_loop ip = true
              /\ Z.of_nat p < q <= dest_offset (flow_control ip)).
  { intros q l Hr. induction Hr as [q Hq|p l instr q l' Hr IH Hp Hi Hrange].
    - discriminate.
    - intros ->.
      assert (Hflow : l = true -> Spec.is_flow instr = false).
      { intros Hl. destruct (IH Hl) as (P & iP & HP & HlP & HPq).
        apply (Hstr P iP HP HlP (Z.to_nat p)); [lia|exact Hi]. }
      unfold Spec.range_of in Hrange.
      unfold Spec.is_flow in Hflow. unfold Spec.is_loop.
      destruct (Spec.handler instr) as [[]|] eqn:Hh; try contradiction;
        try (destruct Hrange as [El _]; symmetry in El;
             specialize (Hflow El); discriminate Hflow).
      destruct Hrange as [_ Hq].
      exists (Z.to_nat p), instr. rewrite Hh.
      split; [exact Hi|]. split; [reflexivity|lia]. }
  intros p l instr Hr Hp Hi. split.
  - intros Ht. specialize (Hfwd (Z.to_nat p) instr Hi Ht). lia.
  - intros Hl. destruct l; [|reflexivity]. exfalso.
    destruct (Hin p true Hr eq_refl) as (P & iP & HP & HlP & HPq).
    assert (Hf : Spec.is_flow instr = false)
      by (apply (Hstr P iP HP HlP (Z.to_nat p)); [lia|exact Hi]).
    unfold Spec.is_loop in Hl. unfold Spec.is_flow in Hf.
    destruct (Spec.handler instr) as [[]|]; discriminate.
Qed.

(** The range of a concrete instruction. *)
Ltac range_of_instr H :=
  unfold Spec.range_of in H;
  match type of H with
  | context [Spec.handler ?i] =>
      let h := eval vm_compute in (Spec.handler i) in
      change (Spec.handler i) with h in H
  end;
  cbn in H.

(** The instruction at a reached offset of a concrete program. *)
Ltac at_offset p Hp Hi :=
  let n := fresh "n" in
  let Hn := fresh "Hn" in
  remember (Z.to_nat p) as n eqn:Hn;
  do 9 (try (destruct n as [|n])); cbn in Hi; try discriminate Hi;
  injection Hi as <-.

(** In [JMPC 0; END] entered at 1 compilation reaches the END only. *)
Lemma unreached_program_well_formed :
  Spec.reached_well_formed Examples.unreached_globals.
Proof.
  assert (Hin : forall q l, Spec.reaches Examples.unreached_globals q l ->
            1 <= q /\ l = false).
  { intros q l Hr. induction Hr as [q Hq|p l instr q l' Hr [IH1 IH2] Hp Hi Hrange].
    - split; [exact Hq|reflexivity].
    - at_offset p Hp Hi; [exfalso; lia|].
      range_of_instr Hrange. contradiction. }
  intros p l instr Hr Hp Hi. destruct (Hin p l Hr) as [H1 ->].
  at_offset p Hp Hi; try lia.
  split; [discriminate|reflexivity].
Qed.

(** In [LOOP (dest 3); IFU (dest 3); NOP; NOP; END] the offsets 1 to 3
    are reached as part of the body of the LOOP, and only they. *)
Lemma loop_if_program_well_formed :
  Spec.reached_well_formed Examples.loop_if_globals.
Proof.
  assert (Hin : forall q l, Spec.reaches Examples.loop_if_globals q l ->
            l = true -> 1 <= q <= 3).
  { intros q l Hr. induction Hr as [q Hq|p l instr q l' Hr IH Hp Hi Hrange].
    - discriminate.
    - intros ->. at_offset p Hp Hi; range_of_instr Hrange;
        try contradiction.
      + lia.
      + destruct Hrange as (El & ? & ?). symmetry in El.
        specialize (IH El). lia. }
  intros p l instr Hr Hp Hi. pose proof (Hin p l Hr) as Hl.
  at_offset p Hp Hi;
    (split;
      [ first [discriminate | intros _; cbn; lia]
      | first [discriminate | intros _; destruct l; [lia|reflexivity]] ]).
Qed.

(** C9, as stated, fails in both directions.  A backwards JMPC in front
    of the entry offset is never compiled, so no assertion fires for a
    program that contains a backwards transfer.  And the assertion on
    nested loops fires for [LOOP; CALL 4, 3; NOP; END; LOOP; ...], in
    which every destination lies ahead and neither LOOP is inside the
    body of the other: the range of the CALL is compiled as part of the
    body of the first LOOP. *)
Lemma C9_counterexample :
  ~ Spec.assertions_characterised Examples.unreached_globals
  /\ ~ Spec.assertions_characterised Examples.call_in_loop_globals.
Proof.
  split.
  - intros [Hfires _].
    destruct Hfires as (fuel & msg & Hc).
    + left. exists 0%nat, Examples.jmpc_backwards.
      split; [reflexivity|]. split; [reflexivity|]. cbn. lia.
    + assert (Hn : is_assert (Compile Examples.unreached_globals fuel) = false)
        by (destruct fuel as [|[|fuel]]; reflexivity).
      rewrite Hc in Hn. discriminate Hn.
  - intros [_ Hstatic].
    destruct Hstatic as [(pc & instr & Hi & Ht & Hd)
                        |(p & q & ip & iq & Hp & Hq & Hlp & Hlq & Hpq)].
    + exists 10%nat, Nested_loops_not_supported. reflexivity.
    + do 9 (try (destruct pc as [|pc])); cbn in Hi; try discriminate Hi;
        injection Hi as <-; try discriminate Ht; cbn in Hd; lia.
    + do 9 (try (destruct p as [|p])); cbn in Hp; try discriminate Hp;
        injection Hp as <-; try discriminate Hlp;
        do 9 (try (destruct q as [|q])); cbn in Hq; try discriminate Hq;
        injection Hq as <-; try discriminate Hlq; cbn in Hpq; lia.
Qed.

(** The assertion of [Compile_IF] also fires for a destination one past
    the IF, which is a forward destination. *)
Lemma forward_if_asserts :
  Compile Examples.if_next_globals 10
  = Err (AssertFailed Backwards_if_statements_not_supported).
Proof. reflexivity. Qed.

(** C9, amended: compiling an IF, LOOP or JMP at PC whose destination
    offset is not greater than PC fails an assertion, and so does
    compiling a LOOP while the body of another LOOP is being compiled.
    Compilation reaches the instructions from the entry offset on and
    those in the ranges of the CALL, IF, JMP and LOOP instructions it
    reaches, a range reached from the body of a LOOP being part of that
    body: when every IF, LOOP and JMP so reached has a destination
    offset greater than PC + 1 and no LOOP is reached as part of the
    body of a LOOP, no assertion fires, whatever the recursion bound and
    whatever the instructions that are not reached. *)
Theorem C9_assertions (g : Globals) (f : nat) (pc : Z) (looping : bool)
  (instr : Instruction) :
  0 <= pc ->
  program_code g !! Z.to_nat pc = Some instr ->
  (Spec.is_transfer instr = true ->
   dest_offset (flow_control instr) <= pc ->
   is_assert (Compile_NextInstr g (S f) pc looping) = true)
  /\ (Spec.is_loop instr = true -> looping = true ->
      is_assert (Compile_NextInstr g (S f) pc looping) = true)
  /\ (Spec.reached_well_formed g ->
      forall fuel, is_assert (Compile g fuel) = false).
Proof.
  intros Hpc Hi. split; [|split].
  - intros Ht Hd. cbn [Compile_NextInstr].
    destruct (0 <=? pc) eqn:E; [|apply Z.leb_gt in E; lia].
    rewrite Hi. cbv zeta.
    unfold Spec.is_transfer, Spec.handler in Ht.
    assert (Hle : (dest_offset (flow_control instr) <=? pc + 1) = true)
      by (apply Z.leb_le; lia).
    destruct (default None (instr_table !! Z.to_nat (opcode instr)))
      as [[]|]; try discriminate Ht; rewrite Hle; reflexivity.
  - intros Hl ->. cbn [Compile_NextInstr].
    destruct (0 <=? pc) eqn:E; [|apply Z.leb_gt in E; lia].
    rewrite Hi. cbv zeta.
    unfold Spec.is_loop, Spec.handler in Hl.
    destruct (default None (instr_table !! Z.to_nat (opcode instr)))
      as [[]|]; try discriminate Hl.
    destruct (dest_offset (flow_control instr) <=? pc + 1); reflexivity.
  - intros Hwf fuel. now apply Compile_reached_never_asserts.
Qed.

Lemma loop_program_transfers_forward :
  Spec.transfers_forward Examples.loop_program.
Proof.
  intros pc instr Hi Ht.
  destruct pc as [|[|[|[|pc]]]]; cbn in Hi; try discriminate Hi;
    injection Hi as <-; try discriminate Ht.
  cbn. lia.
Qed.

Lemma loop_program_straight_bodies :
  Spec.straight_loop_bodies Examples.loop_program.
Proof.
  intros p ip Hi Hl.
  destruct p as [|[|[|[|p]]]]; cbn in Hi; try discriminate Hi;
    injection Hi as <-; try discriminate Hl.
  intros q iq Hq Hiq. cbn in Hq.
  destruct q as [|[|[|q]]]; try lia; cbn in Hiq; injection Hiq as <-;
    reflexivity.
Qed.

Lemma C9_assertions_witness :
  (let g := Examples.unreached_globals in
   let instr := Examples.jmpc_backwards in
   0 <= 0
   /\ program_code g !! Z.to_nat 0 = Some instr
   /\ Spec.is_transfer instr = true
   /\ dest_offset (flow_control instr) <= 0
   /\ is_assert (Compile_NextInstr g 6 0 false) = true
   /\ Spec.reached_well_formed g
   /\ forall fuel, is_assert (Compile g fuel) = false)
  /\ (let g := Examples.nested_globals in
      let instr := flow_instr OpCode.LOOP (mkFlow 0 4 Or 0 0 0 0) in
      0 <= 2
      /\ program_code g !! Z.to_nat 2 = Some instr
      /\ Spec.is_loop instr = true
      /\ is_assert (Compile_NextInstr g 6 2 true) = true)
  /\ (let g := Examples.loop_if_globals in
      0 <= 1
      /\ program_code g !! Z.to_nat 1
         = Some (flow_instr OpCode.IFU (mkFlow 0 3 Or 0 0 0 0))
      /\ Spec.reached_well_formed g
      /\ (forall fuel, is_assert (Compile g fuel) = false)
      /\ exists code, Compile g 10 = Ok code)
  /\ (let g := Examples.loop_globals in
      0 <= 0
      /\ program_code g !! Z.to_nat 0 = Some Examples.loop_instr
      /\ Spec.reached_well_formed g
      /\ forall fuel, is_assert (Compile g fuel) = false).
Proof.
  split; [|split; [|split]].
  - intros g instr.
    assert (H0 : 0 <= 0) by lia.
    assert (H1 : program_code g !! Z.to_nat 0 = Some instr) by reflexivity.
    assert (H2 : Spec.is_transfer instr = true) by reflexivity.
    assert (H3 : dest_offset (flow_control instr) <= 0) by (cbn; lia).
    split; [exact H0|]. split; [exact H1|]. split; [exact H2|].
    split; [exact H3|].
    split; [exact (proj1 (C9_assertions g 5 0 false instr H0 H1) H2 H3)|].
    split; [exact unreached_program_well_formed|].
    exact (proj2 (proj2 (C9_assertions g 5 0 false instr H0 H1))
             unreached_program_well_formed).
  - intros g instr.
    assert (H0 : 0 <= 2) by lia.
    assert (H1 : program_code g !! Z.to_nat 2 = Some instr) by reflexivity.
    split; [exact H0|]. split; [exact H1|]. split; [reflexivity|].
    exact (proj1 (proj2 (C9_assertions g 5 2 true instr H0 H1))
             eq_refl eq_refl).
  - intros g.
    assert (H0 : 0 <= 1) by lia.
    assert (H1 : program_code g !! Z.to_nat 1
                 = Some (flow_instr OpCode.IFU (mkFlow 0 3 Or 0 0 0 0)))
      by reflexivity.
    split; [exact H0|]. split; [exact H1|].
    split; [exact loop_if_program_well_formed|].
    split; [|eexists; vm_compute; reflexivity].
    exact (proj2 (proj2 (C9_assertions g 0 1 false _ H0 H1))
             loop_if_program_well_formed).
  - intros g.
    assert (H0 : 0 <= 0) by lia.
    assert (H1 : program_code g !! Z.to_nat 0 = Some Examples.loop_instr)
      by reflexivity.
    split; [exact H0|]. split; [exact H1|].
    assert (Hwf : Spec.reached_well_formed g)
      by (exact (straight_bodies_reached_well_formed g
                   loop_program_transfers_forward
                   loop_program_straight_bodies)).
    split; [exact Hwf|].
    exact (proj2 (proj2 (C9_assertions g 0 0 false Examples.loop_instr H0 H1))
             Hwf).
Defined.


(** X10: compilation only moves forward: [Compile_NextInstr] leaves
    the offset beyond the instruction it compiled, and [Compile_Block]
    leaves it beyond [stop] and not before the offset it started at. *)
Theorem compilation_moves_forward (g : Globals) (fuel : nat) (pc stop : Z)
  (l : bool) (c : Code) (o : Z) (l' : bool) :
  (Compile_NextInstr g fuel pc l = Ok (c, o, l') -> pc < o)
  /\ (Compile_Block g fuel stop pc l = Ok (c, o, l') -> pc <= o /\ stop < o).
Proof.
  destruct (offsets_forward g fuel) as [Hn Hb].
  split; [apply Hn | apply Hb].
Qed.

(** ** The registers and the memory the emitted code leaves alone *)

Section Reserved.

Variable h : Host.

Lemma keeps_reserved_refl s : Sem.keeps_reserved s s.
Proof. repeat apply conj; try reflexivity. Qed.

Lemma keeps_reserved_trans s1 s2 s3 :
  Sem.keeps_reserved s1 s2 -> Sem.keeps_reserved s2 s3 ->
  Sem.keeps_reserved s1 s3.
Proof.
  intros (A & B & C & D & E & F) (A' & B' & C' & D' & E' & F').
  repeat apply conj; try congruence.
  intros a. rewrite F'. apply F.
Qed.

Lemma reserved_gpr r :
  Sem.reserved r = false ->
  reg_eqb REGISTERS r = false /\ reg_eqb UNIFORMS r = false
  /\ reg_eqb ONE r = false /\ reg_eqb NEGBIT r = false.
Proof.
  unfold Sem.reserved, reg_eqb. intros H.
  apply orb_false_elim in H as [H H4]. apply orb_false_elim in H as [H H3].
  apply orb_false_elim in H as [H1 H2].
  rewrite Z.eqb_sym in H1, H2, H3, H4. repeat split; assumption.
Qed.

Lemma keeps_reserved_set_gpr s r v :
  Sem.reserved r = false -> Sem.keeps_reserved s (set_gpr s r v).
Proof.
  intros Hr. apply reserved_gpr in Hr as (H1 & H2 & _).
  repeat apply conj; try reflexivity; cbn [gpr set_gpr]; now rewrite ?H1, ?H2.
Qed.

Lemma keeps_reserved_set_xmm s r v :
  Sem.reserved r = false -> Sem.keeps_reserved s (set_xmm s r v).
Proof.
  intros Hr. apply reserved_gpr in Hr as (_ & _ & H3 & H4).
  repeat apply conj; try reflexivity; cbn [xmm set_xmm]; now rewrite ?H3, ?H4.
Qed.

Lemma keeps_reserved_set_zf s s' b :
  Sem.keeps_reserved s s' -> Sem.keeps_reserved s (set_zf s' b).
Proof. intros H. exact H. Qed.

Lemma keeps_reserved_write_int bits s r v s' :
  Sem.reserved r = false ->
  write_int bits s (R r) v = Some s' -> Sem.keeps_reserved s s'.
Proof.
  intros Hr. cbn [write_int].
  destruct ((bits =? 64) || (bits =? 32)); intros [= <-];
    now apply keeps_reserved_set_gpr.
Qed.

Lemma keeps_reserved_sse2 f s d arg s' :
  Sem.reserved d = false ->
  sse2 f s d arg = Next s' -> Sem.keeps_reserved s s'.
Proof.
  intros Hd. unfold sse2. destruct (read_xmm s arg); [|discriminate].
  intros [= <-]. now apply keeps_reserved_set_xmm.
Qed.

Lemma keeps_reserved_sse1 f s d arg s' :
  Sem.reserved d = false ->
  sse1 f s d arg = Next s' -> Sem.keeps_reserved s s'.
Proof.
  intros Hd. unfold sse1. destruct (read_xmm s arg); [|discriminate].
  intros [= <-]. now apply keeps_reserved_set_xmm.
Qed.

Lemma keeps_reserved_alu bits f s r a2 s' :
  Sem.reserved r = false ->
  alu bits f s (R r) a2 = Next s' -> Sem.keeps_reserved s s'.
Proof.
  intros Hr. unfold alu.
  destruct (read_int bits s (R r)); [|discriminate].
  destruct (read_int bits s a2); [|discriminate].
  destruct (write_int bits s (R r) _) as [s1|] eqn:Hw; [|discriminate].
  intros [= <-]. apply keeps_reserved_set_zf.
  eapply keeps_reserved_write_int; eassumption.
Qed.

Lemma keeps_reserved_shift bits f s r a2 s' :
  Sem.reserved r = false ->
  shift bits f s (R r) a2 = Next s' -> Sem.keeps_reserved s s'.
Proof.
  intros Hr. unfold shift.
  destruct (read_int bits s (R r)); [|discriminate].
  destruct (read_int 8 s a2); [|discriminate].
  destruct (write_int bits s (R r) _) as [s1|] eqn:Hw; [|discriminate].
  intros [= <-].
  destruct (_ =? 0); [|apply keeps_reserved_set_zf];
    eapply keeps_reserved_write_int; eassumption.
Qed.

Lemma keeps_reserved_store s a v s' :
  store128 s a v = Some s' -> Sem.keeps_reserved s s'.
Proof.
  unfold store128. destruct (a mod 16 =? 0); [|discriminate].
  destruct (vmem s !! a) as [old|] eqn:Ha; [|discriminate].
  intros [= <-]. repeat apply conj; try reflexivity.
  intros a0. cbn [vmem set_vmem].
  destruct (decide (a0 = a)) as [->|Hne].
  - rewrite lookup_insert_eq, Ha. split; eauto.
  - now rewrite lookup_insert_ne by congruence.
Qed.

Ltac destination_register H :=
  match type of H with
  | context [match ?a with R _ => _ | _ => _ end] =>
      destruct a; try discriminate H
  end.

Lemma step_respects i s s' :
  Sem.respects i = true -> step h i s = Next s' -> Sem.keeps_reserved s s'.
Proof.
  intros Hi Hs.
  destruct i; cbn [Sem.respects] in Hi; cbn [step] in Hs;
    unfold of_option in Hs;
    try apply negb_true_iff in Hi;
    try (eapply keeps_reserved_sse2; eassumption);
    try (eapply keeps_reserved_sse1; eassumption).
  - (* MOVAPS_store *)
    destruct arg; try discriminate Hi.
    cbn [effective_address] in Hs.
    destruct (store128 s _ _) as [s1|] eqn:E; [|discriminate].
    injection Hs as <-. eapply keeps_reserved_store; exact E.
  - (* MOVQ_xmm *)
    destination_register Hi. apply negb_true_iff in Hi.
    destruct (write_int 64 s (R r) _) as [s1|] eqn:E; [|discriminate].
    injection Hs as <-. eapply keeps_reserved_write_int; eassumption.
  - (* MOVSX *)
    destruct (read_int sbits s arg); [|discriminate].
    destruct (write_int dbits s _ _) as [s1|] eqn:E; [|discriminate].
    injection Hs as <-. eapply keeps_reserved_write_int; eassumption.
  - (* MOVZX *)
    destruct (read_int sbits s arg); [|discriminate].
    destruct (write_int dbits s _ _) as [s1|] eqn:E; [|discriminate].
    injection Hs as <-. eapply keeps_reserved_write_int; eassumption.
  - (* MOV *)
    destination_register Hi. apply negb_true_iff in Hi.
    destruct (read_int bits s a2); [|discriminate].
    destruct (write_int bits s (R r) _) as [s1|] eqn:E; [|discriminate].
    injection Hs as <-. eapply keeps_reserved_write_int; eassumption.
  - destination_register Hi. apply negb_true_iff in Hi.
    eapply keeps_reserved_shift; eassumption.
  - destination_register Hi. apply negb_true_iff in Hi.
    eapply keeps_reserved_shift; eassumption.
  - destination_register Hi. apply negb_true_iff in Hi.
    eapply keeps_reserved_alu; eassumption.
  - destination_register Hi. apply negb_true_iff in Hi.
    eapply keeps_reserved_alu; eassumption.
  - destination_register Hi. apply negb_true_iff in Hi.
    eapply keeps_reserved_alu; eassumption.
  - destination_register Hi. apply negb_true_iff in Hi.
    eapply keeps_reserved_alu; eassumption.
  - destination_register Hi. apply negb_true_iff in Hi.
    eapply keeps_reserved_alu; eassumption.
  - (* CMP *)
    destruct (read_int bits s a1); [|discriminate].
    destruct (read_int bits s a2); [|discriminate].
    injection Hs as <-. apply keeps_reserved_set_zf, keeps_reserved_refl.
  - injection Hs as <-. apply keeps_reserved_refl.
  - injection Hs as <-. apply keeps_reserved_refl.
  - discriminate.
Qed.

Lemma exec_respects c : forall fuel s s',
  Sem.every Sem.respects c = true ->
  exec h c fuel s = Next s' -> Sem.keeps_reserved s s'.
Proof.
  induction c as [|i|c1 IH1 c2 IH2|cc body IH|cc thn IHt els IHe|body IH cc];
    intros fuel s s' Hc He; cbn [exec] in He; cbn [Sem.every] in Hc.
  - injection He as <-. apply keeps_reserved_refl.
  - eapply step_respects; eassumption.
  - apply andb_true_iff in Hc as [H1 H2].
    destruct (exec h c1 fuel s) as [s1| | |] eqn:E1; try discriminate.
    eapply keeps_reserved_trans; [eapply IH1|eapply IH2]; eassumption.
  - destruct (test_cc cc s).
    + injection He as <-. apply keeps_reserved_refl.
    + eapply IH; eassumption.
  - apply andb_true_iff in Hc as [H1 H2].
    destruct (test_cc cc s); [eapply IHe|eapply IHt]; eassumption.
  - revert s He. generalize fuel at 2. intros n.
    induction n as [|n IHn]; intros s He; cbn [loop_back] in He;
      [discriminate|].
    destruct (exec h body fuel s) as [s1| | |] eqn:E1; try discriminate.
    destruct (test_cc cc s1).
    + eapply keeps_reserved_trans; [eapply IH; eassumption|]. now apply IHn.
    + injection He as <-. eapply IH; eassumption.
Qed.

End Reserved.

(** ** The shape of compiled code *)

Section CompiledCode.

Variable g : Globals.

(** A property of code that holds of the code of every handler that is
    not control flow, of the tests and of the loop bookkeeping, and that
    sequences and branches preserve, holds of all compiled code. *)
Variable Q : Code -> Prop.

Hypothesis Q_Skip : Q Skip.
Hypothesis Q_Seq : forall c1 c2, Q c1 -> Q c2 -> Q (Seq c1 c2).
Hypothesis Q_skip : forall cc c, Q c -> Q (J_CC_skip cc c).
Hypothesis Q_else : forall cc c1 c2, Q c1 -> Q c2 -> Q (J_CC_else cc c1 c2).
Hypothesis Q_loop : forall cc c, Q c -> Q (J_CC_loop c cc).
Hypothesis Q_simple : forall instr c,
  Compile_ADD g instr = Ok c \/ Compile_DP3 g instr = Ok c
  \/ Compile_DP4 g instr = Ok c \/ Compile_MUL g instr = Ok c
  \/ Compile_FLR g instr = Ok c \/ Compile_MAX g instr = Ok c
  \/ Compile_MIN g instr = Ok c \/ Compile_RCP g instr = Ok c
  \/ Compile_RSQ g instr = Ok c \/ Compile_MOVA g instr = Ok c
  \/ Compile_MOV g instr = Ok c \/ Compile_SLTI g instr = Ok c
  \/ Compile_NOP instr = Ok c \/ Compile_END instr = Ok c
  \/ Compile_CMP g instr = Ok c \/ Compile_MAD g instr = Ok c ->
  Q c.
Hypothesis Q_test : forall kind instr, Q (Sem.test_code kind instr).
Hypothesis Q_init : forall instr, Q (Compile_LOOP_init instr).
Hypothesis Q_step : Q Compile_LOOP_step.

Lemma compiled_ind fuel :
  (forall pc l c o l',
     Compile_NextInstr g fuel pc l = Ok (c, o, l') -> Q c)
  /\ (forall stop pc l c o l',
        Compile_Block g fuel stop pc l = Ok (c, o, l') -> Q c)
  /\ (forall limit pc l c l',
        Compile_CALL_loop g fuel limit pc l = Ok (c, l') -> Q c).
Proof.
  induction fuel as [|fuel (IHn & IHb & IHc)].
  { repeat apply conj; intros; discriminate. }
  split; [|split].
  - intros pc l c o l'. cbn [Compile_NextInstr].
    destruct (if 0 <=? pc then program_code g !! Z.to_nat pc else None)
      as [instr|]; [|discriminate].
    cbv zeta.
    assert (Hcall : forall c0 l0,
              bind (Compile_CALL_loop g fuel
                      (dest_offset (flow_control instr)
                       + num_instructions (flow_control instr))
                      (dest_offset (flow_control instr)) l)
                   (fun '(c1, l1) => Ok (c1, l1)) = Ok (c0, l0) -> Q c0).
    { intros c0 l0 Hb.
      destruct (Compile_CALL_loop g fuel _ _ l) as [[c1 l1]|] eqn:E;
        [|discriminate].
      cbn [bind] in Hb. injection Hb as <- <-. eapply IHc; exact E. }
    destruct (default None (instr_table !! Z.to_nat (opcode instr)))
      as [[]|];
      try (intros H; apply simple_offset in H as (H & _ & _);
           apply (Q_simple instr c); tauto).
    + (* CALL *)
      destruct (bind (Compile_CALL_loop g fuel _ _ l) _) as [[c0 l0]|] eqn:E;
        [|discriminate].
      cbn [bind]. intros [= <- _ _]. now apply (Hcall c0 l0).
    + (* CALLC *)
      destruct (bind (Compile_CALL_loop g fuel _ _ l) _) as [[c0 l0]|] eqn:E;
        [|discriminate].
      cbn [bind]. intros [= <- _ _].
      apply Q_Seq; [apply (Q_test Sem.OnCondition)|].
      apply Q_skip. now apply (Hcall c0 l0).
    + (* CALLU *)
      destruct (bind (Compile_CALL_loop g fuel _ _ l) _) as [[c0 l0]|] eqn:E;
        [|discriminate].
      cbn [bind]. intros [= <- _ _].
      apply Q_Seq; [apply (Q_test Sem.OnUniform)|].
      apply Q_skip. now apply (Hcall c0 l0).
    + (* IF *)
      destruct (_ <=? _); [discriminate|].
      destruct (Compile_Block g fuel _ (pc + 1) l) as [[[thn o1] l1]|] eqn:E1;
        [|discriminate].
      cbn [bind]. apply IHb in E1.
      assert (Hcond : Q (if opcode instr =? OpCode.IFU
                         then Compile_UniformCondition instr
                         else if opcode instr =? OpCode.IFC
                              then Compile_EvaluateCondition instr else Skip)).
      { destruct (_ =? OpCode.IFU); [apply (Q_test Sem.OnUniform)|].
        destruct (_ =? OpCode.IFC); [apply (Q_test Sem.OnCondition)|apply Q_Skip]. }
      destruct (_ =? 0).
      * intros [= <- _ _]. apply Q_Seq; [exact Hcond|]. now apply Q_skip.
      * destruct (Compile_Block g fuel _ o1 l1) as [[[els o2] l2]|] eqn:E2;
          [|discriminate].
        cbn [bind]. apply IHb in E2. intros [= <- _ _].
        apply Q_Seq; [exact Hcond|]. now apply Q_else.
    + (* LOOP *)
      destruct (_ <=? _); [discriminate|]. destruct l; [discriminate|].
      destruct (Compile_Block g fuel _ (pc + 1) true) as [[[body o1] l1]|] eqn:E1;
        [|discriminate].
      cbn [bind]. apply IHb in E1. intros [= <- _ _].
      apply Q_Seq; [apply Q_init|]. apply Q_loop. now apply Q_Seq.
    + (* JMP *)
      destruct (_ <=? _); [discriminate|].
      assert (Hcond : forall cond,
                (if opcode instr =? OpCode.JMPC
                 then Ok (Compile_EvaluateCondition instr)
                 else if opcode instr =? OpCode.JMPU
                      then Ok (Compile_UniformCondition instr)
                      else Err Unreachable) = Ok cond -> Q cond).
      { intros cond. destruct (_ =? OpCode.JMPC);
          [intros [= <-]; apply (Q_test Sem.OnCondition)|].
        destruct (_ =? OpCode.JMPU); [|discriminate].
        intros [= <-]. apply (Q_test Sem.OnUniform). }
      destruct (if opcode instr =? OpCode.JMPC then _ else _) as [cond|];
        [|discriminate].
      cbn [bind].
      destruct (Compile_Block g fuel _ (pc + 1) l) as [[[body o1] l1]|] eqn:E1;
        [|discriminate].
      cbn [bind]. apply IHb in E1. intros [= <- _ _].
      apply Q_Seq; [now apply Hcond|]. now apply Q_skip.
    + (* unhandled *)
      intros [= <- _ _]. apply Q_Skip.
  - intros stop pc l c o l'. cbn [Compile_Block].
    destruct (pc <=? stop).
    + destruct (Compile_NextInstr g fuel pc l) as [[[c1 o1] l1]|] eqn:E1;
        [|discriminate].
      cbn [bind]. apply IHn in E1.
      destruct (Compile_Block g fuel stop o1 l1) as [[[c2 o2] l2]|] eqn:E2;
        [|discriminate].
      cbn [bind]. apply IHb in E2. intros [= <- _ _]. now apply Q_Seq.
    + intros [= <- _ _]. apply Q_Skip.
  - intros limit pc l c l'. cbn [Compile_CALL_loop].
    destruct (pc <? limit).
    + destruct (Compile_NextInstr g fuel pc l) as [[[c1 o1] l1]|] eqn:E1;
        [|discriminate].
      cbn [bind]. apply IHn in E1.
      destruct (Compile_CALL_loop g fuel limit o1 l1) as [[c2 l2]|] eqn:E2;
        [|discriminate].
      cbn [bind]. apply IHc in E2. intros [= <- _]. now apply Q_Seq.
    + intros [= <- _]. apply Q_Skip.
Qed.

End CompiledCode.

Section CompiledRespects.

Variable g : Globals.

Lemma respects_SwizzleSrc instr n r d c :
  Compile_SwizzleSrc g instr n r d = Ok c ->
  Sem.reserved d = false ->
  Sem.every Sem.respects c = true.
Proof.
  unfold Compile_SwizzleSrc, Compile_SwizzleSrc_load,
    Compile_SwizzleSrc_swizzle.
  intros Hc Hd.
  repeat match type of Hc with
         | context [match ?x with _ => _ end] => destruct x
         | context [if ?x then _ else _] => destruct x
         end;
    cbn [bind] in Hc; try discriminate Hc; injection Hc as <-;
    cbn [Sem.every Sem.respects andb]; now rewrite ?Hd.
Qed.

Lemma respects_DestEnable instr src :
  Sem.every Sem.respects (Compile_DestEnable g instr src) = true.
Proof.
  rewrite Compile_DestEnable_eq. cbv zeta.
  repeat match goal with
         | |- context [if ?x then _ else _] => destruct x
         end; reflexivity.
Qed.

Lemma respects_binary instr body c :
  Sem.every Sem.respects body = true ->
  Compile_binary g instr body = Ok c ->
  Sem.every Sem.respects c = true.
Proof.
  unfold Compile_binary. intros Hb Hc.
  destruct (Compile_SwizzleSrc g instr 1 _ SRC1) as [s1|] eqn:H1;
    [|discriminate].
  destruct (Compile_SwizzleSrc g instr 2 _ SRC2) as [s2|] eqn:H2;
    [|discriminate].
  cbn [bind] in Hc. injection Hc as <-. cbn [Sem.every].
  now rewrite (respects_SwizzleSrc _ _ _ _ _ H1 eq_refl),
    (respects_SwizzleSrc _ _ _ _ _ H2 eq_refl), Hb, respects_DestEnable.
Qed.

Lemma respects_unary instr body c :
  Sem.every Sem.respects body = true ->
  Compile_unary g instr body = Ok c ->
  Sem.every Sem.respects c = true.
Proof.
  unfold Compile_unary. intros Hb Hc.
  destruct (Compile_SwizzleSrc g instr 1 _ SRC1) as [s1|] eqn:H1;
    [|discriminate].
  cbn [bind] in Hc. injection Hc as <-. cbn [Sem.every].
  now rewrite (respects_SwizzleSrc _ _ _ _ _ H1 eq_refl), Hb,
    respects_DestEnable.
Qed.

Lemma respects_simple instr c :
  Compile_ADD g instr = Ok c \/ Compile_DP3 g instr = Ok c
  \/ Compile_DP4 g instr = Ok c \/ Compile_MUL g instr = Ok c
  \/ Compile_FLR g instr = Ok c \/ Compile_MAX g instr = Ok c
  \/ Compile_MIN g instr = Ok c \/ Compile_RCP g instr = Ok c
  \/ Compile_RSQ g instr = Ok c \/ Compile_MOVA g instr = Ok c
  \/ Compile_MOV g instr = Ok c \/ Compile_SLTI g instr = Ok c
  \/ Compile_NOP instr = Ok c \/ Compile_END instr = Ok c
  \/ Compile_CMP g instr = Ok c \/ Compile_MAD g instr = Ok c ->
  Sem.every Sem.respects c = true.
Proof.
  intros H.
  repeat (destruct H as [H|H];
          [try (eapply respects_binary; [|exact H];
                first [reflexivity | destruct (sse4_1 (caps g)); reflexivity]);
           try (eapply respects_unary; [|exact H];
                first [reflexivity
                      | unfold Compile_FLR_body;
                        destruct (sse4_1 (caps g)); reflexivity])|]).
  - (* MOVA *)
    unfold Compile_MOVA in H.
    destruct (negb _ && negb _); [injection H as <-; reflexivity|].
    destruct (Compile_SwizzleSrc g instr 1 _ SRC1) as [s1|] eqn:H1;
      [|discriminate].
    cbn [bind] in H. injection H as <-. cbn [Sem.every].
    rewrite (respects_SwizzleSrc _ _ _ _ _ H1 eq_refl). unfold Compile_MOVA_body.
    destruct (DestComponentEnabled _ 0), (DestComponentEnabled _ 1);
      reflexivity.
  - (* SLTI *)
    unfold Compile_SLTI in H.
    destruct (Compile_SwizzleSrc g instr 1 (src1i _) SRC1) as [s1|] eqn:H1;
      [|discriminate].
    destruct (Compile_SwizzleSrc g instr 1 (src2i _) SRC2) as [s2|] eqn:H2;
      [|discriminate].
    cbn [bind] in H. injection H as <-. cbn [Sem.every].
    now rewrite (respects_SwizzleSrc _ _ _ _ _ H1 eq_refl),
      (respects_SwizzleSrc _ _ _ _ _ H2 eq_refl), respects_DestEnable.
  - injection H as <-. reflexivity.
  - injection H as <-. reflexivity.
  - (* CMP *)
    unfold Compile_CMP, Compile_CMP_body in H.
    destruct (Compile_SwizzleSrc g instr 1 _ SRC1) as [s1|] eqn:H1;
      [|discriminate].
    destruct (Compile_SwizzleSrc g instr 2 _ SRC2) as [s2|] eqn:H2;
      [|discriminate].
    destruct (cmp_at (compare_op_x _)); [|discriminate].
    destruct (cmp_at (compare_op_y _)); [|discriminate].
    cbn [bind] in H. injection H as <-. cbn [Sem.every].
    rewrite (respects_SwizzleSrc _ _ _ _ _ H1 eq_refl),
      (respects_SwizzleSrc _ _ _ _ _ H2 eq_refl).
    destruct (_ =? _); reflexivity.
  - (* MAD *)
    unfold Compile_MAD in H.
    destruct (Compile_SwizzleSrc g instr 1 _ SRC1) as [s1|] eqn:H1;
      [|discriminate].
    cbn [bind] in H.
    destruct (_ =? OpCode.MADI);
      (destruct (Compile_SwizzleSrc g instr 2 _ SRC2) as [s2|] eqn:H2;
         [|discriminate];
       destruct (Compile_SwizzleSrc g instr 3 _ SRC3) as [s3|] eqn:H3;
         [|discriminate];
       cbn [bind] in H; injection H as <-; cbn [Sem.every];
       rewrite (respects_SwizzleSrc _ _ _ _ _ H1 eq_refl),
         (respects_SwizzleSrc _ _ _ _ _ H2 eq_refl),
         (respects_SwizzleSrc _ _ _ _ _ H3 eq_refl), respects_DestEnable;
       destruct (fma (caps g)); reflexivity).
Qed.

Lemma compiled_respects fuel :
  (forall pc l c o l',
     Compile_NextInstr g fuel pc l = Ok (c, o, l') ->
     Sem.every Sem.respects c = true)
  /\ (forall stop pc l c o l',
        Compile_Block g fuel stop pc l = Ok (c, o, l') ->
        Sem.every Sem.respects c = true)
  /\ (forall limit pc l c l',
        Compile_CALL_loop g fuel limit pc l = Ok (c, l') ->
        Sem.every Sem.respects c = true).
Proof.
  apply (compiled_ind g (fun c => Sem.every Sem.respects c = true)).
  - reflexivity.
  - intros c1 c2 H1 H2. cbn [Sem.every]. now rewrite H1, H2.
  - intros cc c H. exact H.
  - intros cc c1 c2 H1 H2. cbn [Sem.every]. now rewrite H1, H2.
  - intros cc c H. exact H.
  - apply respects_simple.
  - intros [] instr; cbn [Sem.test_code]; [reflexivity|].
    unfold Compile_EvaluateCondition. destruct (op _); reflexivity.
  - reflexivity.
  - reflexivity.
Qed.

End CompiledRespects.

(** X11: code compiled from shader instructions writes none of the
    registers the prologue sets up (REGISTERS, UNIFORMS, ONE, NEGBIT),
    never writes the boolean and integer uniforms, and stores vectors
    only through REGISTERS into memory that is already mapped: as long
    as it has not returned, the four registers, the uniform bytes and
    the extent of the vector memory are those it started with. *)
Theorem compiled_code_keeps_reserved_state (g : Globals) (h : Host)
  (f : nat) (pc : Z) (l : bool) (c : Code) (o : Z) (l' : bool) (fuel : nat)
  (s s' : State) :
  Compile_NextInstr g f pc l = Ok (c, o, l') ->
  exec h c fuel s = Next s' ->
  Sem.every Sem.respects c = true /\ Sem.keeps_reserved s s'.
Proof.
  intros HC He.
  destruct (compiled_respects g f) as (Hn & _ & _).
  pose proof (Hn _ _ _ _ _ HC) as Hr.
  split; [exact Hr|]. eapply exec_respects; eassumption.
Qed.

(** ** Compilations that succeed, fail, or do not end *)

Section Totality.

Variable g : Globals.

Lemma SwizzleSrc_load_total instr n r d :
  0 <= address_register_index (common instr) <= 3 ->
  exists load, Compile_SwizzleSrc_load instr n r d = Ok load.
Proof.
  intros Ha. unfold Compile_SwizzleSrc_load.
  destruct (GetRegisterType r); destruct (is_mad instr);
    try (eexists; reflexivity);
    destruct (_ && _) eqn:E; try (eexists; reflexivity);
    assert (address_register_index (common instr) = 0
            \/ address_register_index (common instr) = 1
            \/ address_register_index (common instr) = 2
            \/ address_register_index (common instr) = 3)
      as [H | [-> | [-> | ->]]] by lia; try (eexists; reflexivity);
    rewrite H, andb_false_r in E; discriminate E.
Qed.

Lemma SwizzleSrc_total instr n r d :
  0 <= address_register_index (common instr) <= 3 ->
  exists c, Compile_SwizzleSrc g instr n r d = Ok c.
Proof.
  intros Ha. unfold Compile_SwizzleSrc.
  destruct (SwizzleSrc_load_total instr n r d Ha) as [load ->].
  cbn [bind]. eexists; reflexivity.
Qed.

Lemma binary_total instr body :
  0 <= address_register_index (common instr) <= 3 ->
  exists c, Compile_binary g instr body = Ok c.
Proof.
  intros Ha. unfold Compile_binary.
  destruct (SwizzleSrc_total instr 1 (src1 (common instr)) SRC1 Ha) as [c1 ->].
  destruct (SwizzleSrc_total instr 2 (src2 (common instr)) SRC2 Ha) as [c2 ->].
  cbn [bind]. eexists; reflexivity.
Qed.

Lemma unary_total instr body :
  0 <= address_register_index (common instr) <= 3 ->
  exists c, Compile_unary g instr body = Ok c.
Proof.
  intros Ha. unfold Compile_unary.
  destruct (SwizzleSrc_total instr 1 (src1 (common instr)) SRC1 Ha) as [c1 ->].
  cbn [bind]. eexists; reflexivity.
Qed.

Lemma CMP_body_total instr :
  0 <= compare_op_x (common instr) <= 5 ->
  0 <= compare_op_y (common instr) <= 5 ->
  exists c, Compile_CMP_body instr = Ok c.
Proof.
  intros Hx Hy. unfold Compile_CMP_body.
  destruct (cmp_at_defined _ Hx) as [px ->].
  destruct (cmp_at_defined _ Hy) as [py ->].
  cbn [bind]. eexists; reflexivity.
Qed.

Lemma cmp_at_outside o : 5 < o -> cmp_at o = Err OutOfBounds.
Proof.
  intros Ho. unfold cmp_at.
  destruct (cmp_table !! Z.to_nat o) eqn:E; [|reflexivity].
  apply lookup_lt_Some in E. cbn in E. lia.
Qed.

Lemma CMP_total instr :
  0 <= address_register_index (common instr) <= 3 ->
  0 <= compare_op_x (common instr) <= 5 ->
  0 <= compare_op_y (common instr) <= 5 ->
  exists c, Compile_CMP g instr = Ok c.
Proof.
  intros Ha Hx Hy. unfold Compile_CMP.
  destruct (SwizzleSrc_total instr 1 (src1 (common instr)) SRC1 Ha) as [c1 ->].
  destruct (SwizzleSrc_total instr 2 (src2 (common instr)) SRC2 Ha) as [c2 ->].
  destruct (CMP_body_total instr Hx Hy) as [c3 ->].
  cbn [bind]. eexists; reflexivity.
Qed.

Lemma MAD_total instr :
  0 <= address_register_index (common instr) <= 3 ->
  exists c, Compile_MAD g instr = Ok c.
Proof.
  intros Ha. unfold Compile_MAD.
  destruct (SwizzleSrc_total instr 1 (mad_src1 (mad instr)) SRC1 Ha) as [c1 ->].
  cbn [bind].
  destruct (_ =? OpCode.MADI).
  - destruct (SwizzleSrc_total instr 2 (mad_src2i (mad instr)) SRC2 Ha) as [c2 ->].
    destruct (SwizzleSrc_total instr 3 (mad_src3i (mad instr)) SRC3 Ha) as [c3 ->].
    cbn [bind]. eexists; reflexivity.
  - destruct (SwizzleSrc_total instr 2 (mad_src2 (mad instr)) SRC2 Ha) as [c2 ->].
    destruct (SwizzleSrc_total instr 3 (mad_src3 (mad instr)) SRC3 Ha) as [c3 ->].
    cbn [bind]. eexists; reflexivity.
Qed.

(** An encodable instruction that is not control flow compiles, to code
    that does not depend on the recursion bound. *)
Lemma NextInstr_straight_total pc instr l :
  0 <= pc -> program_code g !! Z.to_nat pc = Some instr ->
  Spec.is_flow instr = false -> Sem.encodable instr ->
  exists c, forall f, Compile_NextInstr g (S f) pc l = Ok (c, pc + 1, l).
Proof.
  intros Hpc Hi Hf (Ha & Hc).
  unfold Spec.is_flow in Hf. unfold Spec.handler in Hf, Hc.
  assert (Hs : forall r : Result Code,
            (exists c, r = Ok c) ->
            exists c, bind r (fun c0 => Ok (c0, pc + 1, l)) = Ok (c, pc + 1, l)).
  { intros r [c ->]. exists c. reflexivity. }
  assert (Hgoal : exists c,
            (let offset := pc + 1 in
             let simple (r : Result Code) :=
               bind r (fun c0 => Ok (c0, offset, l)) in
             match default None (instr_table !! Z.to_nat (opcode instr)) with
             | None => Ok (Skip, offset, l)
             | Some F_ADD => simple (Compile_ADD g instr)
             | Some F_DP3 => simple (Compile_DP3 g instr)
             | Some F_DP4 => simple (Compile_DP4 g instr)
             | Some F_MUL => simple (Compile_MUL g instr)
             | Some F_FLR => simple (Compile_FLR g instr)
             | Some F_MAX => simple (Compile_MAX g instr)
             | Some F_MIN => simple (Compile_MIN g instr)
             | Some F_RCP => simple (Compile_RCP g instr)
             | Some F_RSQ => simple (Compile_RSQ g instr)
             | Some F_MOVA => simple (Compile_MOVA g instr)
             | Some F_MOV => simple (Compile_MOV g instr)
             | Some F_SLTI => simple (Compile_SLTI g instr)
             | Some F_NOP => simple (Compile_NOP instr)
             | Some F_END => simple (Compile_END instr)
             | Some F_CMP => simple (Compile_CMP g instr)
             | Some F_MAD => simple (Compile_MAD g instr)
             | _ => Err Unreachable
             end) = Ok (c, pc + 1, l)).
  { cbv zeta.
    destruct (default None (instr_table !! Z.to_nat (opcode instr)))
      as [[]|]; try discriminate Hf; try (apply Hs);
      try (apply binary_total; exact Ha);
      try (apply unary_total; exact Ha);
      try (eexists; reflexivity).
    - (* MOVA *)
      unfold Compile_MOVA. destruct (negb _ && negb _); [eexists; reflexivity|].
      destruct (SwizzleSrc_total instr 1 (src1 (common instr)) SRC1 Ha) as [c1 ->].
      cbn [bind]. eexists; reflexivity.
    - (* SLTI *)
      unfold Compile_SLTI.
      destruct (SwizzleSrc_total instr 1 (src1i (common instr)) SRC1 Ha) as [c1 ->].
      destruct (SwizzleSrc_total instr 1 (src2i (common instr)) SRC2 Ha) as [c2 ->].
      cbn [bind]. eexists; reflexivity.
    - (* CMP *)
      destruct (Hc eq_refl) as [Hx Hy]. now apply CMP_total.
    - (* MAD *)
      now apply MAD_total. }
  destruct Hgoal as [c Hgoal]. exists c. intros f.
  cbn [Compile_NextInstr].
  rewrite (NextInstr_lookup g pc instr Hpc Hi). cbv zeta in Hgoal |- *.
  destruct (default None (instr_table !! Z.to_nat (opcode instr)))
    as [[]|]; try discriminate Hf; exact Hgoal.
Qed.

Lemma CALL_loop_straight_total (n : nat) : forall pc l limit,
  0 <= pc -> limit <= Z.of_nat (length (program_code g)) ->
  Sem.straight_from (program_code g) pc ->
  limit - pc <= Z.of_nat n ->
  exists c, forall fuel, (n < fuel)%nat ->
    Compile_CALL_loop g fuel limit pc l = Ok (c, l).
Proof.
  induction n as [|n IH]; intros pc l limit Hpc Hlim Hs Hn.
  - exists Skip. intros [|fuel] Hf; [lia|]. cbn [Compile_CALL_loop].
    destruct (pc <? limit) eqn:E; [apply Z.ltb_lt in E; lia|reflexivity].
  - destruct (pc <? limit) eqn:E.
    + pose proof E as E'. apply Z.ltb_lt in E.
      destruct (lookup_lt_is_Some_2 (program_code g) (Z.to_nat pc))
        as [instr Hi]; [lia|].
      destruct (Hs (Z.to_nat pc) instr) as [Hflow Henc]; [lia|exact Hi|].
      destruct (NextInstr_straight_total pc instr l Hpc Hi Hflow Henc)
        as [c1 H1].
      destruct (IH (pc + 1) l limit) as [c2 H2]; try lia.
      { intros q iq Hq. apply Hs. lia. }
      exists (Seq c1 c2). intros [|fuel] Hf; [lia|].
      cbn [Compile_CALL_loop]. rewrite E'.
      destruct fuel as [|fuel]; [lia|]. rewrite H1. cbn [bind].
      rewrite H2 by lia. reflexivity.
    + exists Skip. intros [|fuel] Hf; [lia|]. cbn [Compile_CALL_loop].
      now rewrite E.
Qed.

(** A call whose range starts with the call itself is compiled again
    and again. *)
Lemma self_call_diverges pc instr :
  0 <= pc -> program_code g !! Z.to_nat pc = Some instr ->
  opcode instr = OpCode.CALL \/ opcode instr = OpCode.CALLC
  \/ opcode instr = OpCode.CALLU ->
  dest_offset (flow_control instr) = pc ->
  0 < num_instructions (flow_control instr) ->
  forall fuel l, Compile_NextInstr g fuel pc l = Err OutOfFuel.
Proof.
  intros Hpc Hi Hop Hd Hnum fuel.
  induction fuel as [fuel IH] using lt_wf_ind. intros l.
  destruct fuel as [|fuel]; [reflexivity|].
  cbn [Compile_NextInstr].
  rewrite (NextInstr_lookup g pc instr Hpc Hi). cbv zeta.
  assert (Hcall : Compile_CALL_loop g fuel
                    (dest_offset (flow_control instr)
                     + num_instructions (flow_control instr))
                    (dest_offset (flow_control instr)) l = Err OutOfFuel).
  { destruct fuel as [|fuel]; [reflexivity|].
    cbn [Compile_CALL_loop]. rewrite Hd.
    destruct (pc <? pc + num_instructions (flow_control instr)) eqn:E;
      [|apply Z.ltb_ge in E; lia].
    rewrite IH by lia. reflexivity. }
  rewrite Hcall.
  destruct Hop as [-> | [-> | ->]]; reflexivity.
Qed.

End Totality.

(** X12: a program whose instructions from the entry offset on are
    encodable and are no CALL, IF, LOOP or JMP compiles, to the same
    code at every recursion bound above the number of instructions from
    the entry offset to the end of the program. *)
Theorem straight_line_program_compiles (g : Globals) :
  0 <= main_offset g <= Z.of_nat (length (program_code g)) ->
  Sem.straight_from (program_code g) (main_offset g) ->
  exists code, forall fuel,
    Z.of_nat (length (program_code g)) - main_offset g < Z.of_nat fuel ->
    Compile g fuel = Ok code.
Proof.
  intros Hm Hs.
  destruct (CALL_loop_straight_total g
              (Z.to_nat (Z.of_nat (length (program_code g)) - main_offset g))
              (main_offset g) false (Z.of_nat (length (program_code g))))
    as [c Hc]; try lia; try assumption.
  exists (Seq (Compile_prologue g) c). intros fuel Hf.
  unfold Compile, Compile_main. rewrite Hc by lia. reflexivity.
Qed.

(** X13: a CALL, CALLC or CALLU whose range starts at the call itself
    is never compiled: at every recursion bound the compilation of the
    call is still going on, and so is the compilation of a program
    entered at the call. *)
Theorem self_call_is_compiled_forever (g : Globals) (pc : Z)
  (instr : Instruction) :
  0 <= pc ->
  program_code g !! Z.to_nat pc = Some instr ->
  opcode instr = OpCode.CALL \/ opcode instr = OpCode.CALLC
  \/ opcode instr = OpCode.CALLU ->
  dest_offset (flow_control instr) = pc ->
  0 < num_instructions (flow_control instr) ->
  (forall fuel l, Compile_NextInstr g fuel pc l = Err OutOfFuel)
  /\ (main_offset g = pc -> forall fuel, Compile g fuel = Err OutOfFuel).
Proof.
  intros Hpc Hi Hop Hd Hnum.
  pose proof (self_call_diverges g pc instr Hpc Hi Hop Hd Hnum) as Hn.
  split; [exact Hn|].
  intros Hm fuel. unfold Compile, Compile_main.
  destruct fuel as [|fuel]; [reflexivity|].
  cbn [Compile_CALL_loop]. rewrite Hm.
  destruct (pc <? Z.of_nat (length (program_code g))) eqn:E.
  - rewrite Hn. reflexivity.
  - apply Z.ltb_ge in E. apply lookup_lt_Some in Hi. lia.
Qed.

(** X14: CMP indexes the six-entry table [cmp] with its two 3-bit
    comparison operators: with both at most 5 the instruction compiles,
    with one of them 6 or 7 the read is outside the table. *)
Theorem CMP_operator_outside_the_table (g : Globals) (instr : Instruction) :
  0 <= address_register_index (common instr) <= 3 ->
  0 <= compare_op_x (common instr) < 8 ->
  0 <= compare_op_y (common instr) < 8 ->
  (compare_op_x (common instr) <= 5 /\ compare_op_y (common instr) <= 5 ->
   exists c, Compile_CMP g instr = Ok c)
  /\ (5 < compare_op_x (common instr) \/ 5 < compare_op_y (common instr) ->
      Compile_CMP g instr = Err OutOfBounds).
Proof.
  intros Ha Hx Hy. split.
  - intros [Hx5 Hy5]. apply CMP_total; lia.
  - intros Hout. unfold Compile_CMP.
    destruct (SwizzleSrc_total g instr 1 (src1 (common instr)) SRC1 Ha) as [c1 ->].
    destruct (SwizzleSrc_total g instr 2 (src2 (common instr)) SRC2 Ha) as [c2 ->].
    cbn [bind]. unfold Compile_CMP_body.
    destruct (Z_le_gt_dec (compare_op_x (common instr)) 5) as [Hx5|Hx5].
    + destruct (cmp_at_defined (compare_op_x (common instr))) as [px ->]; [lia|].
      cbn [bind]. rewrite cmp_at_outside by lia. reflexivity.
    + rewrite cmp_at_outside by lia. reflexivity.
Qed.

Lemma compilation_moves_forward_witness :
  (Compile_NextInstr Examples.loop_globals 6 0 false
   = Ok (Examples.first_code Examples.loop_globals, 3, false)
   /\ 0 < 3)
  /\ (Compile_Block Examples.loop_globals 10 2 1 true
      = Ok (Examples.loop_body, 3, true)
      /\ 1 <= 3 /\ 2 < 3).
Proof.
  assert (H1 : Compile_NextInstr Examples.loop_globals 6 0 false
               = Ok (Examples.first_code Examples.loop_globals, 3, false))
    by (vm_compute; reflexivity).
  assert (H2 : Compile_Block Examples.loop_globals 10 2 1 true
               = Ok (Examples.loop_body, 3, true))
    by (vm_compute; reflexivity).
  split; (split; [assumption|]).
  - exact (proj1 (compilation_moves_forward Examples.loop_globals 6 0 0 false
                    (Examples.first_code Examples.loop_globals) 3 false) H1).
  - exact (proj2 (compilation_moves_forward Examples.loop_globals 10 1 2 true
                    Examples.loop_body 3 true) H2).
Defined.

Lemma compiled_code_keeps_reserved_state_witness :
  let g := Examples.loop_globals in
  Compile_NextInstr g 6 0 false = Ok (Examples.first_code g, 3, false)
  /\ exec Examples.host (Examples.first_code g) 10 Examples.loop_state
     = Next Examples.loop_final
  /\ Sem.every Sem.respects (Examples.first_code g) = true
  /\ Sem.keeps_reserved Examples.loop_state Examples.loop_final.
Proof.
  intros g.
  assert (H1 : Compile_NextInstr g 6 0 false
               = Ok (Examples.first_code g, 3, false))
    by (vm_compute; reflexivity).
  assert (H2 : exec Examples.host (Examples.first_code g) 10 Examples.loop_state
               = Next Examples.loop_final)
    by (vm_compute; reflexivity).
  repeat (split; [assumption|]).
  exact (compiled_code_keeps_reserved_state g Examples.host 6 0 false
           (Examples.first_code g) 3 false 10 Examples.loop_state
           Examples.loop_final H1 H2).
Defined.

Lemma program_color_straight :
  Sem.straight_from Examples.program_color 0.
Proof.
  intros q iq _ Hi.
  destruct q as [|[|q]]; cbn in Hi; try discriminate Hi; injection Hi as <-;
    (split; [reflexivity|]); (split; [cbn; lia|]); discriminate.
Qed.

Lemma straight_line_program_compiles_witness :
  let g := Shader.globals Examples.color_context in
  0 <= main_offset g <= Z.of_nat (length (program_code g))
  /\ Sem.straight_from (program_code g) (main_offset g)
  /\ exists code, forall fuel,
       Z.of_nat (length (program_code g)) - main_offset g < Z.of_nat fuel ->
       Compile g fuel = Ok code.
Proof.
  intros g.
  assert (H1 : 0 <= main_offset g <= Z.of_nat (length (program_code g)))
    by (cbn; lia).
  assert (H2 : Sem.straight_from (program_code g) (main_offset g))
    by exact program_color_straight.
  repeat (split; [assumption|]).
  exact (straight_line_program_compiles g H1 H2).
Defined.

Lemma self_call_is_compiled_forever_witness :
  let g := Examples.self_call_globals in
  let instr := Examples.self_call in
  0 <= 0
  /\ program_code g !! Z.to_nat 0 = Some instr
  /\ (opcode instr = OpCode.CALL \/ opcode instr = OpCode.CALLC
      \/ opcode instr = OpCode.CALLU)
  /\ dest_offset (flow_control instr) = 0
  /\ 0 < num_instructions (flow_control instr)
  /\ (forall fuel l, Compile_NextInstr g fuel 0 l = Err OutOfFuel)
  /\ (main_offset g = 0 -> forall fuel, Compile g fuel = Err OutOfFuel).
Proof.
  intros g instr.
  assert (H0 : 0 <= 0) by lia.
  assert (H1 : program_code g !! Z.to_nat 0 = Some instr) by reflexivity.
  assert (H2 : opcode instr = OpCode.CALL \/ opcode instr = OpCode.CALLC
               \/ opcode instr = OpCode.CALLU) by (left; reflexivity).
  assert (H3 : dest_offset (flow_control instr) = 0) by reflexivity.
  assert (H4 : 0 < num_instructions (flow_control instr)) by (cbn; lia).
  repeat (split; [assumption|]).
  exact (self_call_is_compiled_forever g 0 instr H0 H1 H2 H3 H4).
Defined.

Lemma CMP_operator_outside_the_table_witness :
  (exists c, Compile_CMP Examples.cmp_globals Examples.cmp_instr = Ok c)
  /\ Compile_CMP Examples.cmp_globals Examples.cmp_unknown = Err OutOfBounds.
Proof.
  split.
  - apply (CMP_operator_outside_the_table Examples.cmp_globals
             Examples.cmp_instr); cbn; lia.
  - apply (CMP_operator_outside_the_table Examples.cmp_globals
             Examples.cmp_unknown); cbn; lia.
Defined.

(** ** The input and output stages of Run *)

Section RunStages.

Import Shader.

Lemma lookup_insert_at (A : Type) (l : list A) (i k : nat) (v : A) :
  (k < length l)%nat ->
  <[i := v]> l !! k = if (i =? k)%nat then Some v else l !! k.
Proof.
  intros Hk. destruct (i =? k)%nat eqn:E.
  - apply Nat.eqb_eq in E as ->. now apply list_lookup_insert_eq.
  - apply Nat.eqb_neq in E. now apply list_lookup_insert_ne.
Qed.

Lemma load_attributes_last num : forall map attrs i regs k,
  (k < length regs)%nat ->
  load_attributes num i map attrs regs !! k
  = Sem.last_load k (Sem.attribute_writes num i map attrs) (regs !! k).
Proof.
  induction map as [|r map IH]; intros attrs i regs k Hk; [reflexivity|].
  destruct attrs as [|a attrs]; [reflexivity|].
  cbn [load_attributes Sem.attribute_writes].
  destruct (i <? num); cbn [app Sem.last_load fst snd].
  - rewrite IH by now rewrite length_insert.
    now rewrite lookup_insert_at.
  - now apply IH.
Qed.

Lemma length_load_attributes num : forall map attrs i regs,
  length (load_attributes num i map attrs regs) = length regs.
Proof.
  induction map as [|r map IH]; intros attrs i regs; [reflexivity|].
  destruct attrs as [|a attrs]; [reflexivity|].
  cbn [load_attributes]. rewrite IH.
  destruct (i <? num); [apply length_insert|reflexivity].
Qed.

Lemma attribute_writes_none num : forall map attrs i,
  num <= i -> Sem.attribute_writes num i map attrs = [].
Proof.
  induction map as [|r map IH]; intros attrs i Hi; [reflexivity|].
  destruct attrs as [|a attrs]; [reflexivity|].
  cbn [Sem.attribute_writes].
  destruct (i <? num) eqn:E; [apply Z.ltb_lt in E; lia|].
  rewrite IH by lia. reflexivity.
Qed.

Lemma write_semantic_insert ret sem v :
  write_semantic ret sem v
  = <[Z.to_nat sem := if sem =? INVALID then 0 else v]> ret.
Proof. unfold write_semantic. now destruct (sem =? INVALID). Qed.

Lemma write_output_registers_last n : forall maps outs ret k,
  (k < length ret)%nat ->
  write_output_registers n ret maps outs !! k
  = Sem.last_write k (Sem.register_writes n maps outs) (ret !! k).
Proof.
  induction n as [|n IH]; intros maps outs ret k Hk; [reflexivity|].
  destruct maps as [|m maps]; [reflexivity|].
  destruct outs as [|o outs]; [reflexivity|].
  cbn [write_output_registers Sem.register_writes].
  rewrite IH by now rewrite length_write_output_register.
  unfold write_output_register, Sem.component_writes.
  rewrite !write_semantic_insert.
  cbn [app Sem.last_write fst snd].
  rewrite !lookup_insert_at by now rewrite ?length_insert.
  reflexivity.
Qed.

Lemma lookup_saturate_color_other (ret : list Z) (k : nat) :
  Sem.is_color_slot k = false -> saturate_color ret !! k = ret !! k.
Proof.
  intros Hk. unfold saturate_color, color_index. cbn [foldl].
  change (Z.to_nat (8 + 0)) with 8%nat. change (Z.to_nat (8 + 1)) with 9%nat.
  change (Z.to_nat (8 + 2)) with 10%nat. change (Z.to_nat (8 + 3)) with 11%nat.
  unfold Sem.is_color_slot in Hk. apply andb_false_iff in Hk.
  assert (k < 8 \/ 11 < k)%nat as Hk'.
  { destruct Hk as [Hk|Hk]; [apply Nat.leb_gt in Hk|apply Nat.leb_gt in Hk]; lia. }
  now rewrite !list_lookup_alter_ne by lia.
Qed.

Lemma lookup_saturate_color_slot (ret : list Z) (k : nat) :
  Sem.is_color_slot k = true ->
  saturate_color ret !! k = saturate <$> ret !! k.
Proof.
  intros Hk. unfold Sem.is_color_slot in Hk. apply andb_true_iff in Hk as [H8 H11].
  apply Nat.leb_le in H8, H11.
  replace k with (color_index (Z.of_nat k - 8))
    by (unfold color_index; lia).
  apply lookup_saturate_color. lia.
Qed.

Lemma last_write_slot_31 ws : forall d,
  (forall w, In w ws -> fst w = 31%nat -> snd w = 0) ->
  Sem.last_write 31 ws d = d \/ Sem.last_write 31 ws d = Some 0.
Proof.
  induction ws as [|w ws IH]; intros d Hw; [now left|].
  cbn [Sem.last_write].
  destruct (fst w =? 31)%nat eqn:E.
  - apply Nat.eqb_eq in E.
    rewrite (Hw w (or_introl eq_refl) E).
    destruct (IH (Some 0)) as [H|H]; [intros; apply Hw; [now right|assumption]|..];
      right; exact H.
  - apply IH. intros w' Hin. apply Hw. now right.
Qed.

Lemma register_writes_slot_31 n : forall maps outs w,
  In w (Sem.register_writes n maps outs) -> fst w = 31%nat -> snd w = 0.
Proof.
  assert (Hc : forall sem v,
            Z.to_nat sem = 31%nat -> (if sem =? INVALID then 0 else v) = 0).
  { intros sem v Hs. replace sem with 31 by lia. reflexivity. }
  induction n as [|n IH]; intros maps outs w Hin Hf; [destruct Hin|].
  destruct maps as [|m maps]; [destruct Hin|].
  destruct outs as [|o outs]; [destruct Hin|].
  cbn [Sem.register_writes] in Hin. apply in_app_or in Hin as [Hin|Hin].
  - unfold Sem.component_writes in Hin.
    destruct Hin as [<- | [<- | [<- | [<- | []]]]]; cbn [fst snd] in *;
      now apply Hc.
  - eapply IH; eassumption.
Qed.

End RunStages.

(** X15: the input stage of [Run] leaves in every input register the
    attribute loaded last into it among the first [num_attributes]
    attributes, and what the register held when no attribute is mapped
    to it; with [num_attributes] at most 0 no register changes.  The
    program counter is the entry offset and both condition flags are
    clear. *)
Theorem Run_loads_the_mapped_attributes (ctx : Shader.Context)
  (state : Shader.UnitState) (input : list Vec4) (num_attributes : Z)
  (k : nat) :
  let regs := Shader.input (Shader.registers state) in
  let state' := Shader.Run_setup ctx state input num_attributes in
  (k < length regs)%nat ->
  Shader.input (Shader.registers state') !! k
  = Sem.last_load k
      (Sem.attribute_writes num_attributes 0 (Shader.input_register_map ctx)
         input)
      (regs !! k)
  /\ (num_attributes <= 0 -> Shader.input (Shader.registers state') = regs)
  /\ length (Shader.input (Shader.registers state')) = length regs
  /\ Shader.program_counter state' = main_offset (Shader.globals ctx)
  /\ Shader.conditional_code state' = (false, false).
Proof.
  intros regs state' Hk. unfold state', Shader.Run_setup. cbn.
  split; [now apply load_attributes_last|].
  split; [|split; [apply length_load_attributes|split; reflexivity]].
  intros Hn. apply list_eq. intros j.
  destruct (decide (j < length regs)%nat) as [Hj|Hj].
  - rewrite load_attributes_last by exact Hj.
    now rewrite attribute_writes_none.
  - rewrite !lookup_ge_None_2; [reflexivity|fold regs; lia|].
    rewrite length_load_attributes. fold regs. lia.
Qed.

(** X16: the output stage of [Run] leaves in every slot of the output
    vertex the component written last to it by the first seven output
    registers (zero for the INVALID semantic), saturated in the four
    colour slots, and the content of the uninitialised local in a slot
    no component is mapped to; slot 31, the INVALID semantic, never
    receives a register component. *)
Theorem Run_output_holds_the_last_write (ctx : Shader.Context)
  (state : Shader.UnitState) (ret : list Z) (k : nat) :
  let ws := Sem.register_writes 7 (Shader.vs_output_attributes ctx)
              (Shader.output (Shader.registers state)) in
  (k < length ret)%nat ->
  Shader.Run_output ctx state ret !! k
  = (if Sem.is_color_slot k then fmap Shader.saturate else id)
      (Sem.last_write k ws (ret !! k))
  /\ (Shader.Run_output ctx state ret !! 31%nat = ret !! 31%nat
      \/ Shader.Run_output ctx state ret !! 31%nat = Some 0).
Proof.
  intros ws Hk. unfold Shader.Run_output. split.
  - destruct (Sem.is_color_slot k) eqn:Hc.
    + rewrite lookup_saturate_color_slot by exact Hc.
      now rewrite write_output_registers_last.
    + rewrite lookup_saturate_color_other by exact Hc.
      now rewrite write_output_registers_last.
  - rewrite lookup_saturate_color_other by reflexivity.
    destruct (decide (31 < length ret)%nat) as [H31|H31].
    + rewrite write_output_registers_last by exact H31.
      apply last_write_slot_31. apply register_writes_slot_31.
    + left. rewrite !lookup_ge_None_2; [reflexivity|lia|].
      rewrite length_write_output_registers. lia.
Qed.

Lemma Run_loads_the_mapped_attributes_witness :
  let ctx := Examples.color_context in
  let state := Examples.initial_state in
  let regs := Shader.input (Shader.registers state) in
  let state' := Shader.Run_setup ctx state Examples.color_input 2 in
  (1 < length regs)%nat
  /\ (Shader.input (Shader.registers state') !! 1%nat
      = Sem.last_load 1
          (Sem.attribute_writes 2 0 (Shader.input_register_map ctx)
             Examples.color_input)
          (regs !! 1%nat)
      /\ (2 <= 0 -> Shader.input (Shader.registers state') = regs)
      /\ length (Shader.input (Shader.registers state')) = length regs
      /\ Shader.program_counter state' = main_offset (Shader.globals ctx)
      /\ Shader.conditional_code state' = (false, false))
  /\ Shader.input (Shader.registers state') !! 1%nat
     = Some (mkVec4 Examples.fneg2 Examples.f0_5 Examples.fnan Examples.f100).
Proof.
  intros ctx state regs state'.
  assert (H1 : (1 < length regs)%nat) by (cbn; lia).
  split; [exact H1|]. split; [|reflexivity].
  exact (Run_loads_the_mapped_attributes ctx state Examples.color_input 2 1 H1).
Defined.

Lemma Run_output_holds_the_last_write_witness :
  let ctx := Examples.color_context in
  let state := Examples.output_state in
  let ret := Examples.garbage_vertex in
  let ws := Sem.register_writes 7 (Shader.vs_output_attributes ctx)
              (Shader.output (Shader.registers state)) in
  (8 < length ret)%nat
  /\ (Shader.Run_output ctx state ret !! 8%nat
      = (if Sem.is_color_slot 8 then fmap Shader.saturate else id)
          (Sem.last_write 8 ws (ret !! 8%nat))
      /\ (Shader.Run_output ctx state ret !! 31%nat = ret !! 31%nat
          \/ Shader.Run_output ctx state ret !! 31%nat = Some 0))
  /\ Shader.Run_output ctx state ret !! 8%nat = Some Examples.f1
  /\ Shader.Run_output ctx state ret !! 31%nat = Some 0
  /\ Shader.Run_output ctx state ret !! 12%nat = Some 3735928559.
Proof.
  intros ctx state ret ws.
  assert (H1 : (8 < length ret)%nat) by (cbn; lia).
  split; [exact H1|].
  split; [|repeat apply conj; vm_compute; reflexivity].
  exact (Run_output_holds_the_last_write ctx state ret 8 H1).
Defined.

(** ** The cache, entry by entry *)

Section CacheEntries.

Import Shader.

Variable H1 : list Pica.Instruction -> Z.
Variable H2 : list Pica.SwizzlePattern -> Z.

Lemma Setup_miss fuel ctx core core' :
  g_shader_jit_enabled ctx = true ->
  shader_map core !! cache_key H1 H2 (globals ctx) = None ->
  Setup H1 H2 fuel ctx core = Ok core' ->
  exists code,
    Compile (globals ctx) fuel = Ok code
    /\ jit_shader core' = Some (compilations core)
    /\ shader_map core'
       = <[cache_key H1 H2 (globals ctx) := compilations core]> (shader_map core)
    /\ code_space (jit core') = code_space (jit core) ++ [code].
Proof.
  intros He Hk. unfold Setup. rewrite He, Hk. unfold jit_Compile.
  destruct (Compile (globals ctx) fuel) as [code|]; [|discriminate].
  cbn [bind]. intros [= <-]. exists code. repeat split.
Qed.

Lemma lxor_cancel_l a x y : Z.lxor a x = Z.lxor a y -> x = y.
Proof.
  intros H.
  rewrite <- (Z.lxor_0_l x), <- (Z.lxor_0_l y), <- (Z.lxor_nilpotent a),
    !Z.lxor_assoc.
  now rewrite H.
Qed.

End CacheEntries.

(** X18: the cache is looked up by the fingerprint alone: after a
    [Setup] that compiled the program of one context, a [Setup] for a
    context with the same fingerprint compiles nothing and selects the
    code compiled from the first program, whatever its own program
    is. *)
Theorem Setup_hit_selects_the_code_of_the_fingerprint
  (H1 : list Pica.Instruction -> Z) (H2 : list Pica.SwizzlePattern -> Z)
  (fuel fuel' : nat) (ctx ctx' : Shader.Context)
  (core core1 : Shader.Core) :
  Shader.g_shader_jit_enabled ctx = true ->
  Shader.g_shader_jit_enabled ctx' = true ->
  Shader.shader_map core !! Shader.cache_key H1 H2 (Shader.globals ctx) = None ->
  Shader.Setup H1 H2 fuel ctx core = Ok core1 ->
  Shader.cache_key H1 H2 (Shader.globals ctx')
  = Shader.cache_key H1 H2 (Shader.globals ctx) ->
  exists code sh core2,
    Compile (Shader.globals ctx) fuel = Ok code
    /\ Shader.Setup H1 H2 fuel' ctx' core1 = Ok core2
    /\ Shader.jit_shader core2 = Some sh
    /\ Shader.code_space (Shader.jit core2) !! sh = Some code
    /\ Shader.compilations core2 = Shader.compilations core1.
Proof.
  intros He He' Hk HS Hkey.
  destruct (Setup_miss H1 H2 fuel ctx core core1 He Hk HS)
    as (code & HC & Hj & Hm & Hcs).
  exists code, (Shader.compilations core).
  eexists. split; [exact HC|]. split.
  - apply Setup_hit; [exact He'|]. rewrite Hkey, Hm. apply lookup_insert_eq.
  - cbn. split; [reflexivity|]. split; [|reflexivity].
    rewrite Hcs. unfold Shader.compilations.
    rewrite lookup_app_r by lia. now rewrite Nat.sub_diag.
Qed.

(** X19: two contexts with the same program code and the same
    descriptor table have the same fingerprint exactly when they have
    the same entry offset. *)
Theorem fingerprint_separates_entry_offsets
  (H1 : list Pica.Instruction -> Z) (H2 : list Pica.SwizzlePattern -> Z)
  (g g' : Globals) :
  program_code g' = program_code g ->
  swizzle_data g' = swizzle_data g ->
  Shader.cache_key H1 H2 g' = Shader.cache_key H1 H2 g
  <-> main_offset g' = main_offset g.
Proof.
  intros Hp Hs. unfold Shader.cache_key. rewrite Hp, Hs. split.
  - apply lxor_cancel_l.
  - now intros ->.
Qed.

Lemma Setup_hit_selects_the_code_of_the_fingerprint_witness :
  let H1 := Examples.toy_hash_code in
  let H2 := Examples.toy_hash_swizzle in
  let ctx := Examples.color_context in
  let ctx' := Examples.other_context in
  Shader.g_shader_jit_enabled ctx = true
  /\ Shader.g_shader_jit_enabled ctx' = true
  /\ Shader.shader_map Examples.fresh_core
       !! Shader.cache_key H1 H2 (Shader.globals ctx) = None
  /\ Shader.Setup H1 H2 100 ctx Examples.fresh_core
     = Ok Examples.core_after_setup
  /\ Shader.cache_key H1 H2 (Shader.globals ctx')
     = Shader.cache_key H1 H2 (Shader.globals ctx)
  /\ Compile (Shader.globals ctx') 100 <> Compile (Shader.globals ctx) 100
  /\ exists code sh core2,
       Compile (Shader.globals ctx) 100 = Ok code
       /\ Shader.Setup H1 H2 100 ctx' Examples.core_after_setup = Ok core2
       /\ Shader.jit_shader core2 = Some sh
       /\ Shader.code_space (Shader.jit core2) !! sh = Some code
       /\ Shader.compilations core2
          = Shader.compilations Examples.core_after_setup.
Proof.
  intros H1 H2 ctx ctx'.
  assert (He : Shader.g_shader_jit_enabled ctx = true) by reflexivity.
  assert (He' : Shader.g_shader_jit_enabled ctx' = true) by reflexivity.
  assert (Hk : Shader.shader_map Examples.fresh_core
                 !! Shader.cache_key H1 H2 (Shader.globals ctx) = None)
    by (vm_compute; reflexivity).
  assert (HS : Shader.Setup H1 H2 100 ctx Examples.fresh_core
               = Ok Examples.core_after_setup) by (vm_compute; reflexivity).
  assert (Hkey : Shader.cache_key H1 H2 (Shader.globals ctx')
                 = Shader.cache_key H1 H2 (Shader.globals ctx))
    by (vm_compute; reflexivity).
  repeat (split; [assumption|]).
  split; [vm_compute; discriminate|].
  exact (Setup_hit_selects_the_code_of_the_fingerprint H1 H2 100 100 ctx ctx'
           Examples.fresh_core Examples.core_after_setup He He' Hk HS Hkey).
Defined.

Lemma fingerprint_separates_entry_offsets_witness :
  let H1 := Examples.toy_hash_code in
  let H2 := Examples.toy_hash_swizzle in
  let g := Examples.example_globals Examples.program_color
             [Examples.swizzle_identity] 0 Examples.all_caps in
  let g' := Examples.example_globals Examples.program_color
              [Examples.swizzle_identity] 1 Examples.all_caps in
  program_code g' = program_code g
  /\ swizzle_data g' = swizzle_data g
  /\ (Shader.cache_key H1 H2 g' = Shader.cache_key H1 H2 g
      <-> main_offset g' = main_offset g)
  /\ Shader.cache_key H1 H2 g' <> Shader.cache_key H1 H2 g.
Proof.
  intros H1 H2 g g'.
  assert (Hp : program_code g' = program_code g) by reflexivity.
  assert (Hs : swizzle_data g' = swizzle_data g) by reflexivity.
  repeat (split; [assumption|]).
  split; [|vm_compute; discriminate].
  exact (fingerprint_separates_entry_offsets H1 H2 g g' Hp Hs).
Defined.

(** ** CMP on ordered operands *)

Lemma SFcompare_antisym a b c :
  SFcompare a b = Some c -> SFcompare b a = Some (CompOpp c).
Proof.
  destruct a as [sa|sa| |sa ma ea], b as [sb|sb| |sb mb eb]; cbn;
    try discriminate; intros [= <-];
    try (destruct sa; reflexivity); try (destruct sb; reflexivity);
    try (destruct sa, sb; reflexivity).
  f_equal. rewrite (Z.compare_antisym ea eb).
  change (Pcompare mb ma Eq) with (Pos.compare mb ma).
  change (Pcompare ma mb Eq) with (Pos.compare ma mb).
  rewrite (Pos.compare_antisym ma mb).
  destruct sa, sb; try reflexivity;
    destruct (ea ?= eb); cbn; try reflexivity;
    destruct (ma ?= mb)%positive; reflexivity.
Qed.

Lemma SFcompare_ordered a b :
  F32.unordered a b = false ->
  exists c, SFcompare (F32.to_sf a) (F32.to_sf b) = Some c.
Proof.
  unfold F32.unordered, F32.is_nan. intros Hu.
  apply orb_false_elim in Hu as [Ha Hb].
  destruct (F32.to_sf a) as [sa|sa| |sa ma ea]; try discriminate;
    destruct (F32.to_sf b) as [sb|sb| |sb mb eb]; try discriminate;
    cbn; eauto.
Qed.

Lemma compare_ordered o p a b :
  cmp_at o = Ok p ->
  F32.unordered a b = false ->
  compare p a b = Sem.ordered_compare o a b.
Proof.
  intros Hp Hu.
  destruct (SFcompare_ordered a b Hu) as [c Hc].
  pose proof (SFcompare_antisym _ _ _ Hc) as Hc'.
  unfold cmp_at in Hp.
  destruct (cmp_table !! Z.to_nat o) as [q|] eqn:Hq; [|discriminate].
  destruct (0 <=? o) eqn:Ho; [|discriminate]. injection Hp as ->.
  apply Z.leb_le in Ho.
  assert (Hlt : (Z.to_nat o < 6)%nat).
  { apply lookup_lt_Some in Hq. exact Hq. }
  assert (o = 0 \/ o = 1 \/ o = 2 \/ o = 3 \/ o = 4 \/ o = 5)
    as [-> | [-> | [-> | [-> | [-> | ->]]]]] by lia;
    cbn in Hq; injection Hq as <-;
    unfold compare, Sem.ordered_compare, F32.eqb, F32.ltb, F32.leb,
      SFeqb, SFltb, SFleb; rewrite ?Hc, ?Hc'; destruct c; reflexivity.
Qed.

Section CompareHandler.

Variable g : Globals.
Variable h : Host.

Lemma exec_Compile_CMP instr fuel s v1 v2 :
  Sem.reads s instr 1 (src1 (common instr)) v1 ->
  Sem.reads s instr 2 (src2 (common instr)) v2 ->
  Sem.descriptor_in_range (Sem.descriptor g instr) ->
  xmm s NEGBIT = Vec.splat F32.neg_zero ->
  0 <= compare_op_x (common instr) <= 5 ->
  0 <= compare_op_y (common instr) <= 5 ->
  exists px py code s',
    cmp_at (compare_op_x (common instr)) = Ok px
    /\ cmp_at (compare_op_y (common instr)) = Ok py
    /\ Compile_CMP g instr = Ok code
    /\ exec h code fuel s = Next s'
    /\ gpr s' COND0
       = Z.b2z (compare px (vx (Sem.swizzled (Sem.descriptor g instr) 1 v1))
                           (vx (Sem.swizzled (Sem.descriptor g instr) 2 v2)))
    /\ gpr s' COND1
       = Z.b2z (compare py (vy (Sem.swizzled (Sem.descriptor g instr) 1 v1))
                           (vy (Sem.swizzled (Sem.descriptor g instr) 2 v2))).
Proof.
  intros R1 R2 Hr Hn Hx Hy.
  destruct (exec_source g h instr 1 (src1 (common instr)) SRC1 fuel s v1)
    as (c1 & s1 & C1 & E1 & X1 & G1 & Z1 & M1 & B1 & F1); auto.
  destruct (exec_source g h instr 2 (src2 (common instr)) SRC2 fuel s1 v2)
    as (c2 & s2 & C2 & E2 & X2 & G2 & Z2 & M2 & B2 & F2); auto.
  { now apply (reads_frame s s1). }
  { rewrite F1 by reflexivity. exact Hn. }
  destruct (cmp_at_defined _ Hx) as [px Hpx].
  destruct (cmp_at_defined _ Hy) as [py Hpy].
  assert (Hbody : exists body, Compile_CMP_body instr = Ok body).
  { unfold Compile_CMP_body. rewrite Hpx, Hpy. cbn [bind]. eauto. }
  destruct Hbody as [body Hbody].
  destruct (exec_Compile_CMP_body h instr body fuel s2 Hbody)
    as (px' & py' & s3 & Hpx' & Hpy' & E3 & H0 & H1).
  rewrite Hpx in Hpx'. injection Hpx' as <-.
  rewrite Hpy in Hpy'. injection Hpy' as <-.
  exists px, py, (Seq c1 (Seq c2 body)), s3.
  split; [exact Hpx|]. split; [exact Hpy|].
  split; [unfold Compile_CMP; rewrite C1, C2, Hbody; reflexivity|].
  split; [cbn [exec]; rewrite E1, E2; exact E3|].
  rewrite H0, H1, X2, (F2 SRC1 eq_refl), X1. split; reflexivity.
Qed.

End CompareHandler.

(** X20: the code of CMP leaves 0 or 1 in each condition register:
    COND0 from the X lanes of the two swizzled sources under the first
    operator, COND1 from the Y lanes under the second.  On lanes that
    are not NaN the six operators are equal, not equal, less, less or
    equal, greater and greater or equal: there the negated predicates
    CMP_NLE and CMP_NLT of the table are "greater" and "greater or
    equal". *)
Theorem CMP_orders_lanes_that_are_not_NaN (g : Globals) (h : Host)
  (instr : Instruction) (fuel : nat) (s : State) (v1 v2 : Vec4) :
  Sem.reads s instr 1 (src1 (common instr)) v1 ->
  Sem.reads s instr 2 (src2 (common instr)) v2 ->
  Sem.descriptor_in_range (Sem.descriptor g instr) ->
  xmm s NEGBIT = Vec.splat F32.neg_zero ->
  0 <= compare_op_x (common instr) <= 5 ->
  0 <= compare_op_y (common instr) <= 5 ->
  let a := Sem.swizzled (Sem.descriptor g instr) 1 v1 in
  let b := Sem.swizzled (Sem.descriptor g instr) 2 v2 in
  exists code s',
    Compile_CMP g instr = Ok code
    /\ exec h code fuel s = Next s'
    /\ Sem.is_bit (gpr s' COND0) /\ Sem.is_bit (gpr s' COND1)
    /\ (F32.unordered (vx a) (vx b) = false ->
        gpr s' COND0
        = Z.b2z (Sem.ordered_compare (compare_op_x (common instr)) (vx a) (vx b)))
    /\ (F32.unordered (vy a) (vy b) = false ->
        gpr s' COND1
        = Z.b2z (Sem.ordered_compare (compare_op_y (common instr)) (vy a) (vy b))).
Proof.
  intros R1 R2 Hr Hn Hx Hy a b.
  destruct (exec_Compile_CMP g h instr fuel s v1 v2 R1 R2 Hr Hn Hx Hy)
    as (px & py & code & s' & Hpx & Hpy & HC & HE & H0 & H1).
  exists code, s'. split; [exact HC|]. split; [exact HE|].
  fold a b in H0, H1. rewrite H0, H1.
  split; [unfold Sem.is_bit; destruct (compare px _ _); auto|].
  split; [unfold Sem.is_bit; destruct (compare py _ _); auto|].
  split; intros Hu; f_equal; now apply compare_ordered.
Qed.

Lemma CMP_orders_lanes_that_are_not_NaN_witness :
  let g := Examples.arith_globals in
  let instr := Examples.cmp_gt_le in
  let s := Examples.arith_state in
  let a := Sem.swizzled (Sem.descriptor g instr) 1 Examples.arith_v0 in
  let b := Sem.swizzled (Sem.descriptor g instr) 2 (Vec.splat Examples.f1) in
  Sem.reads s instr 1 (src1 (common instr)) Examples.arith_v0
  /\ Sem.reads s instr 2 (src2 (common instr)) (Vec.splat Examples.f1)
  /\ Sem.descriptor_in_range (Sem.descriptor g instr)
  /\ xmm s NEGBIT = Vec.splat F32.neg_zero
  /\ 0 <= compare_op_x (common instr) <= 5
  /\ 0 <= compare_op_y (common instr) <= 5
  /\ (exists code s',
        Compile_CMP g instr = Ok code
        /\ exec Examples.host code 0 s = Next s'
        /\ Sem.is_bit (gpr s' COND0) /\ Sem.is_bit (gpr s' COND1)
        /\ (F32.unordered (vx a) (vx b) = false ->
            gpr s' COND0
            = Z.b2z (Sem.ordered_compare (compare_op_x (common instr))
                       (vx a) (vx b)))
        /\ (F32.unordered (vy a) (vy b) = false ->
            gpr s' COND1
            = Z.b2z (Sem.ordered_compare (compare_op_y (common instr))
                       (vy a) (vy b))))
  /\ F32.unordered (vx a) (vx b) = false
  /\ F32.unordered (vy a) (vy b) = false
  /\ Z.b2z (Sem.ordered_compare (compare_op_x (common instr)) (vx a) (vx b)) = 0
  /\ Z.b2z (Sem.ordered_compare (compare_op_y (common instr)) (vy a) (vy b)) = 1.
Proof.
  intros g instr s a b.
  assert (H1 : Sem.reads s instr 1 (src1 (common instr)) Examples.arith_v0)
    by (exists 65536; repeat apply conj; vm_compute; reflexivity).
  assert (H2 : Sem.reads s instr 2 (src2 (common instr)) (Vec.splat Examples.f1))
    by (exists 65552; repeat apply conj; vm_compute; reflexivity).
  assert (H4 : Sem.descriptor_in_range (Sem.descriptor g instr))
    by (vm_compute; repeat split; discriminate).
  assert (H5 : xmm s NEGBIT = Vec.splat F32.neg_zero)
    by (vm_compute; reflexivity).
  assert (Hx : 0 <= compare_op_x (common instr) <= 5) by (cbn; lia).
  assert (Hy : 0 <= compare_op_y (common instr) <= 5) by (cbn; lia).
  repeat (split; [assumption|]).
  split; [|repeat apply conj; vm_compute; reflexivity].
  exact (CMP_orders_lanes_that_are_not_NaN g Examples.host instr 0 s
           Examples.arith_v0 (Vec.splat Examples.f1) H1 H2 H4 H5 Hx Hy).
Defined.

(** ** The prologue *)

Section Prologue.

Variable g : Globals.
Variable h : Host.

Lemma step_MOV64_ptr r p s :
  step h (MOV 64 (R r) (ImmPtr p)) s
  = Next (set_gpr s r (Bits.wrap64 (Bits.wrap64 p))).
Proof. reflexivity. Qed.

Lemma step_XOR64_self r s :
  step h (XOR 64 (R r) (R r)) s = Next (set_zf (set_gpr s r 0) true).
Proof.
  cbn. rewrite Z.lxor_nilpotent. reflexivity.
Qed.

Lemma step_MOVAPS_constant d s p v :
  gpr s RAX = Bits.wrap64 (Bits.wrap64 p) ->
  Sem.constant_at s p v ->
  step h (MOVAPS d (MDisp RAX 0)) s = Next (set_xmm s d v).
Proof.
  intros Hr [Hal Hv].
  assert (Ha : Bits.wrap64 (gpr s RAX + 0) = Bits.wrap64 p).
  { rewrite Hr, Z.add_0_r. unfold Bits.wrap64. now rewrite !Z.mod_mod by lia. }
  apply (step_MOVAPS_load h d (MDisp RAX 0) s (Bits.wrap64 p) v);
    [cbn [effective_address]; now rewrite Ha | exact Hal | exact Hv].
Qed.

Lemma exec_Compile_prologue fuel s :
  Sem.constant_at s (one_ptr g) (Vec.splat F32.one) ->
  Sem.constant_at s (neg_ptr g) (Vec.splat F32.neg_zero) ->
  exists s',
    exec h (Compile_prologue g) fuel s = Next s'
    /\ gpr s' REGISTERS = Bits.wrap64 (gpr s ABI_PARAM1)
    /\ gpr s' UNIFORMS = Bits.wrap64 (uniforms_ptr g)
    /\ gpr s' ADDROFFS_REG_0 = 0 /\ gpr s' ADDROFFS_REG_1 = 0
    /\ gpr s' LOOPCOUNT_REG = 0
    /\ xmm s' ONE = Vec.splat F32.one
    /\ xmm s' NEGBIT = Vec.splat F32.neg_zero
    /\ gpr s' COND0 = gpr s COND0 /\ gpr s' COND1 = gpr s COND1.
Proof.
  intros H1 Hn. unfold Compile_prologue.
  rewrite exec_emit_all_cons.
  change (step h ABI_PushAllCalleeSavedRegsAndAdjustStack s) with (Next s).
  cbv beta iota.
  rewrite exec_emit_all_cons, step_MOV64_reg; cbv beta iota.
  rewrite exec_emit_all_cons, step_MOV64_ptr; cbv beta iota.
  rewrite exec_emit_all_cons, step_XOR64_self; cbv beta iota.
  rewrite exec_emit_all_cons, step_XOR64_self; cbv beta iota.
  rewrite exec_emit_all_cons, step_XOR64_self; cbv beta iota.
  rewrite exec_emit_all_cons, step_MOV64_ptr; cbv beta iota.
  rewrite exec_emit_all_cons.
  rewrite (step_MOVAPS_constant ONE _ (one_ptr g) (Vec.splat F32.one));
    [|reg_simpl; reflexivity|exact H1].
  cbv beta iota.
  rewrite exec_emit_all_cons, step_MOV64_ptr; cbv beta iota.
  rewrite exec_emit_all_cons.
  rewrite (step_MOVAPS_constant NEGBIT _ (neg_ptr g) (Vec.splat F32.neg_zero));
    [|reg_simpl; reflexivity|exact Hn].
  cbv beta iota.
  eexists. split; [reflexivity|].
  reg_simpl. unfold Bits.wrap64. rewrite !Z.mod_mod by lia.
  repeat apply conj; reflexivity.
Qed.

End Prologue.

(** X21: the prologue copies the argument of the call into REGISTERS
    and the address of the uniforms into UNIFORMS, zeroes the two
    address offsets and the loop counter, and loads the constants ONE
    and NEGBIT.  It does not write COND0 and COND1: the condition codes
    a compiled shader starts with are what the caller left in these two
    registers. *)
Theorem prologue_sets_all_but_the_condition_codes (g : Globals) (h : Host)
  (fuel : nat) (s : State) :
  Sem.constant_at s (one_ptr g) (Vec.splat F32.one) ->
  Sem.constant_at s (neg_ptr g) (Vec.splat F32.neg_zero) ->
  exists s',
    exec h (Compile_prologue g) fuel s = Next s'
    /\ gpr s' REGISTERS = Bits.wrap64 (gpr s ABI_PARAM1)
    /\ gpr s' UNIFORMS = Bits.wrap64 (uniforms_ptr g)
    /\ gpr s' ADDROFFS_REG_0 = 0 /\ gpr s' ADDROFFS_REG_1 = 0
    /\ gpr s' LOOPCOUNT_REG = 0
    /\ xmm s' ONE = Vec.splat F32.one
    /\ xmm s' NEGBIT = Vec.splat F32.neg_zero
    /\ gpr s' COND0 = gpr s COND0 /\ gpr s' COND1 = gpr s COND1.
Proof. apply exec_Compile_prologue. Qed.

Lemma prologue_sets_all_but_the_condition_codes_witness :
  let g := Examples.arith_globals in
  let s := Shader.entry_state g Examples.example_uniforms Examples.registers_ptr
             Examples.garbage_gpr Examples.garbage_xmm
             Examples.arith_registers in
  Sem.constant_at s (one_ptr g) (Vec.splat F32.one)
  /\ Sem.constant_at s (neg_ptr g) (Vec.splat F32.neg_zero)
  /\ (exists s',
        exec Examples.host (Compile_prologue g) 0 s = Next s'
        /\ gpr s' REGISTERS = Bits.wrap64 (gpr s ABI_PARAM1)
        /\ gpr s' UNIFORMS = Bits.wrap64 (uniforms_ptr g)
        /\ gpr s' ADDROFFS_REG_0 = 0 /\ gpr s' ADDROFFS_REG_1 = 0
        /\ gpr s' LOOPCOUNT_REG = 0
        /\ xmm s' ONE = Vec.splat F32.one
        /\ xmm s' NEGBIT = Vec.splat F32.neg_zero
        /\ gpr s' COND0 = gpr s COND0 /\ gpr s' COND1 = gpr s COND1)
  /\ gpr s COND0 = 3735928559.
Proof.
  intros g s.
  assert (H1 : Sem.constant_at s (one_ptr g) (Vec.splat F32.one))
    by (split; vm_compute; reflexivity).
  assert (H2 : Sem.constant_at s (neg_ptr g) (Vec.splat F32.neg_zero))
    by (split; vm_compute; reflexivity).
  repeat (split; [assumption|]).
  split; [|vm_compute; reflexivity].
  exact (prologue_sets_all_but_the_condition_codes g Examples.host 0 s H1 H2).
Defined.

(** ** MOVA on any source *)

Section AddressRegisters.

Variable g : Globals.
Variable h : Host.

Lemma exec_Compile_MOVA instr fuel s v1 :
  is_mad instr = false ->
  Sem.reads s instr 1 (src1 (common instr)) v1 ->
  Sem.descriptor_in_range (Sem.descriptor g instr) ->
  xmm s NEGBIT = Vec.splat F32.neg_zero ->
  exists code s',
    Compile_MOVA g instr = Ok code
    /\ exec h code fuel s = Next s'
    /\ gpr s' ADDROFFS_REG_0
       = (if DestComponentEnabled (Sem.descriptor g instr) 0
          then Bits.wrap64
                 (16 * Bits.signed32
                         (F32.cvtps2dq
                            (vx (Sem.swizzled (Sem.descriptor g instr) 1 v1))))
          else gpr s ADDROFFS_REG_0)
    /\ gpr s' ADDROFFS_REG_1
       = (if DestComponentEnabled (Sem.descriptor g instr) 1
          then Bits.wrap64
                 (16 * Bits.signed32
                         (F32.cvtps2dq
                            (vy (Sem.swizzled (Sem.descriptor g instr) 1 v1))))
          else gpr s ADDROFFS_REG_1).
Proof.
  intros Hm R1 Hr Hn.
  assert (Hd : Sem.descriptor g instr
               = swizzle_at g (operand_desc_id (common instr)))
    by (unfold Sem.descriptor; now rewrite Hm).
  unfold Compile_MOVA. rewrite <- Hd.
  set (swiz := Sem.descriptor g instr) in *.
  destruct (negb (DestComponentEnabled swiz 0)
            && negb (DestComponentEnabled swiz 1)) eqn:En.
  - apply andb_true_iff in En as [E0 E1].
    apply negb_true_iff in E0, E1. rewrite E0, E1.
    exists Skip, s. repeat apply conj; reflexivity.
  - destruct (exec_source g h instr 1 (src1 (common instr)) SRC1 fuel s v1)
      as (c1 & s1 & C1 & E1 & X1 & G1 & Z1 & M1 & B1 & F1); auto.
    destruct (exec_Compile_MOVA_body h swiz fuel s1) as (s2 & E2 & A0 & A1).
    exists (Seq c1 (Compile_MOVA_body swiz)), s2.
    split; [rewrite C1; reflexivity|].
    split; [cbn [exec]; rewrite E1; exact E2|].
    fold swiz in X1. rewrite A0, A1, X1, G1. split; reflexivity.
Qed.

End AddressRegisters.

(** X22: the code of MOVA converts the X and Y lanes of the swizzled
    source with CVTPS2DQ (rounding to nearest) and leaves 16 times the
    signed result in ADDROFFS_REG_0 for an enabled X component and in
    ADDROFFS_REG_1 for an enabled Y component; the register of a
    component that is not enabled keeps its value. *)
Theorem MOVA_sets_the_enabled_address_offsets (g : Globals) (h : Host)
  (instr : Instruction) (fuel : nat) (s : State) (v1 : Vec4) :
  is_mad instr = false ->
  Sem.reads s instr 1 (src1 (common instr)) v1 ->
  Sem.descriptor_in_range (Sem.descriptor g instr) ->
  xmm s NEGBIT = Vec.splat F32.neg_zero ->
  let swiz := Sem.descriptor g instr in
  let offset lane :=
    Bits.wrap64 (16 * Bits.signed32 (F32.cvtps2dq lane)) in
  exists code s',
    Compile_MOVA g instr = Ok code
    /\ exec h code fuel s = Next s'
    /\ gpr s' ADDROFFS_REG_0
       = (if DestComponentEnabled swiz 0
          then offset (vx (Sem.swizzled swiz 1 v1))
          else gpr s ADDROFFS_REG_0)
    /\ gpr s' ADDROFFS_REG_1
       = (if DestComponentEnabled swiz 1
          then offset (vy (Sem.swizzled swiz 1 v1))
          else gpr s ADDROFFS_REG_1).
Proof.
  intros Hm R1 Hr Hn swiz offset.
  exact (exec_Compile_MOVA g h instr fuel s v1 Hm R1 Hr Hn).
Qed.

Lemma MOVA_sets_the_enabled_address_offsets_witness :
  let g := Examples.arith_globals in
  let instr := Examples.mova_instr in
  let s := Examples.arith_state in
  let swiz := Sem.descriptor g instr in
  let offset lane :=
    Bits.wrap64 (16 * Bits.signed32 (F32.cvtps2dq lane)) in
  is_mad instr = false
  /\ Sem.reads s instr 1 (src1 (common instr)) Examples.arith_v0
  /\ Sem.descriptor_in_range swiz
  /\ xmm s NEGBIT = Vec.splat F32.neg_zero
  /\ (exists code s',
        Compile_MOVA g instr = Ok code
        /\ exec Examples.host code 0 s = Next s'
        /\ gpr s' ADDROFFS_REG_0
           = (if DestComponentEnabled swiz 0
              then offset (vx (Sem.swizzled swiz 1 Examples.arith_v0))
              else gpr s ADDROFFS_REG_0)
        /\ gpr s' ADDROFFS_REG_1
           = (if DestComponentEnabled swiz 1
              then offset (vy (Sem.swizzled swiz 1 Examples.arith_v0))
              else gpr s ADDROFFS_REG_1))
  /\ DestComponentEnabled swiz 0 = true
  /\ DestComponentEnabled swiz 1 = false
  /\ offset (vx (Sem.swizzled swiz 1 Examples.arith_v0))
     = 18446744073709551616 - 16 * 100
  /\ gpr s ADDROFFS_REG_1 = 0.
Proof.
  intros g instr s swiz offset.
  assert (H0 : is_mad instr = false) by reflexivity.
  assert (H1 : Sem.reads s instr 1 (src1 (common instr)) Examples.arith_v0)
    by (exists 65536; repeat apply conj; vm_compute; reflexivity).
  assert (H4 : Sem.descriptor_in_range swiz)
    by (vm_compute; repeat split; discriminate).
  assert (H5 : xmm s NEGBIT = Vec.splat F32.neg_zero)
    by (vm_compute; reflexivity).
  repeat (split; [assumption|]).
  split; [|repeat apply conj; vm_compute; reflexivity].
  exact (MOVA_sets_the_enabled_address_offsets g Examples.host instr 0 s
           Examples.arith_v0 H0 H1 H4 H5).
Defined.

(** ** SLTI on any sources *)

Section SetOnLess.

Variable g : Globals.
Variable h : Host.

Lemma step_ANDPS_reg d r s :
  step h (ANDPS d (R r)) s
  = Next (set_xmm s d (Vec.map2 Z.land (xmm s d) (xmm s r))).
Proof. reflexivity. Qed.

Lemma exec_Compile_SLTI instr fuel s v1 v2 old :
  Sem.reads s instr 1 (src1i (common instr)) v1 ->
  Sem.reads s instr 1 (src2i (common instr)) v2 ->
  Sem.dest_holds s instr old ->
  Sem.descriptor_in_range (Sem.descriptor g instr) ->
  xmm s NEGBIT = Vec.splat F32.neg_zero ->
  xmm s ONE = Vec.splat F32.one ->
  Sem.stores h (Compile_SLTI g instr) fuel s (Sem.dest_address s instr)
    (Sem.merge (Sem.descriptor g instr) old
       (Vec.map2 Z.land
          (cmpss CMP_LT (Sem.swizzled (Sem.descriptor g instr) 1 v1)
                        (Sem.swizzled (Sem.descriptor g instr) 1 v2))
          (Vec.splat F32.one))).
Proof.
  intros R1 R2 (Dal & Dv) Hr Hn Ho.
  destruct (exec_source g h instr 1 (src1i (common instr)) SRC1 fuel s v1)
    as (c1 & s1 & C1 & E1 & X1 & G1 & Z1 & M1 & B1 & F1); auto.
  destruct (exec_source g h instr 1 (src2i (common instr)) SRC2 fuel s1 v2)
    as (c2 & s2 & C2 & E2 & X2 & G2 & Z2 & M2 & B2 & F2); auto.
  { now apply (reads_frame s s1). }
  { rewrite F1 by reflexivity. exact Hn. }
  set (s3 := set_xmm (set_xmm s2 SRC1 (cmpss CMP_LT (xmm s2 SRC1) (xmm s2 SRC2)))
               SRC1
               (Vec.map2 Z.land (cmpss CMP_LT (xmm s2 SRC1) (xmm s2 SRC2))
                  (xmm s2 ONE))).
  assert (E3 : exec h Compile_SLTI_body fuel s2 = Next s3).
  { unfold Compile_SLTI_body. cbn [exec emit_all].
    rewrite step_CMPSS_reg; cbv beta iota.
    rewrite step_ANDPS_reg. reflexivity. }
  assert (Ha3 : Sem.dest_address s3 instr = Sem.dest_address s instr).
  { unfold Sem.dest_address. cbn [s3 gpr set_xmm]. now rewrite G2, G1. }
  destruct (exec_Compile_DestEnable g h instr SRC1 fuel s3 old)
    as (s4 & E4 & M4 & G4 & Z4 & B4 & F4); auto.
  { split; rewrite Ha3; [exact Dal|]. cbn [s3 vmem set_xmm].
    rewrite M2, M1. exact Dv. }
  { apply Hr. }
  exists (Seq c1 (Seq c2 (Seq Compile_SLTI_body (Compile_DestEnable g instr SRC1)))), s4.
  split; [unfold Compile_SLTI; rewrite C1, C2; reflexivity|].
  split; [cbn [exec]; rewrite E1, E2, E3; exact E4|].
  split.
  - rewrite M4, Ha3. cbn [s3 vmem xmm set_xmm]. rewrite reg_eqb_refl.
    rewrite M2, M1, X2, (F2 SRC1 eq_refl), X1, (F2 ONE eq_refl),
      (F1 ONE eq_refl), Ho. reflexivity.
  - cbn [s3 gpr bmem set_xmm] in G4, B4.
    split; [now rewrite G4, G2, G1 | now rewrite B4, B2, B1].
Qed.

End SetOnLess.

(** X23: the code of SLTI swizzles both sources with the first
    selector of the descriptor, compares their X lanes only, and
    stores, in the enabled components of the destination, 1.0 or 0 in
    X according to that comparison and, in Y, Z and W, the bits the
    lane of the first source shares with 1.0. *)
Theorem SLTI_compares_the_X_lanes_only (g : Globals) (h : Host)
  (instr : Instruction) (fuel : nat) (s : State) (v1 v2 old : Vec4) :
  Sem.reads s instr 1 (src1i (common instr)) v1 ->
  Sem.reads s instr 1 (src2i (common instr)) v2 ->
  Sem.dest_holds s instr old ->
  Sem.descriptor_in_range (Sem.descriptor g instr) ->
  xmm s NEGBIT = Vec.splat F32.neg_zero ->
  xmm s ONE = Vec.splat F32.one ->
  let swiz := Sem.descriptor g instr in
  let a := Sem.swizzled swiz 1 v1 in
  let b := Sem.swizzled swiz 1 v2 in
  Sem.stores h (Compile_SLTI g instr) fuel s (Sem.dest_address s instr)
    (Sem.merge swiz old
       (mkVec4 (if F32.ltb (vx a) (vx b) then F32.one else 0)
               (Z.land (vy a) F32.one) (Z.land (vz a) F32.one)
               (Z.land (vw a) F32.one))).
Proof.
  intros R1 R2 D Hr Hn Ho swiz a b.
  pose proof (exec_Compile_SLTI g h instr fuel s v1 v2 old R1 R2 D Hr Hn Ho)
    as H.
  fold swiz a b in H.
  replace (mkVec4 (if F32.ltb (vx a) (vx b) then F32.one else 0)
                  (Z.land (vy a) F32.one) (Z.land (vz a) F32.one)
                  (Z.land (vw a) F32.one))
    with (Vec.map2 Z.land (cmpss CMP_LT a b) (Vec.splat F32.one)); [exact H|].
  unfold Vec.map2, cmpss, compare_mask, compare, Vec.splat; cbn [vx vy vz vw].
  destruct (F32.ltb (vx a) (vx b)); reflexivity.
Qed.

Lemma SLTI_compares_the_X_lanes_only_witness :
  let g := Examples.arith_globals in
  let instr := Examples.slti_instr in
  let s := Examples.arith_state in
  let swiz := Sem.descriptor g instr in
  let a := Sem.swizzled swiz 1 Examples.arith_v0 in
  let b := Sem.swizzled swiz 1 (Vec.splat Examples.f1) in
  let old := Vec.splat Examples.f0_5 in
  Sem.reads s instr 1 (src1i (common instr)) Examples.arith_v0
  /\ Sem.reads s instr 1 (src2i (common instr)) (Vec.splat Examples.f1)
  /\ Sem.dest_holds s instr old
  /\ Sem.descriptor_in_range swiz
  /\ xmm s NEGBIT = Vec.splat F32.neg_zero
  /\ xmm s ONE = Vec.splat F32.one
  /\ Sem.stores Examples.host (Compile_SLTI g instr) 0 s
       (Sem.dest_address s instr)
       (Sem.merge swiz old
          (mkVec4 (if F32.ltb (vx a) (vx b) then F32.one else 0)
                  (Z.land (vy a) F32.one) (Z.land (vz a) F32.one)
                  (Z.land (vw a) F32.one)))
  /\ Sem.merge swiz old
       (mkVec4 (if F32.ltb (vx a) (vx b) then F32.one else 0)
               (Z.land (vy a) F32.one) (Z.land (vz a) F32.one)
               (Z.land (vw a) F32.one))
     = mkVec4 Examples.f1 Examples.f0_5 0 Examples.f0_5
  /\ F32.ltb (vz a) (vz b) = true.
Proof.
  intros g instr s swiz a b old.
  assert (H1 : Sem.reads s instr 1 (src1i (common instr)) Examples.arith_v0)
    by (exists 65536; repeat apply conj; vm_compute; reflexivity).
  assert (H2 : Sem.reads s instr 1 (src2i (common instr)) (Vec.splat Examples.f1))
    by (exists 65552; repeat apply conj; vm_compute; reflexivity).
  assert (H3 : Sem.dest_holds s instr old)
    by (split; vm_compute; reflexivity).
  assert (H4 : Sem.descriptor_in_range swiz)
    by (vm_compute; repeat split; discriminate).
  assert (H5 : xmm s NEGBIT = Vec.splat F32.neg_zero)
    by (vm_compute; reflexivity).
  assert (H6 : xmm s ONE = Vec.splat F32.one)
    by (vm_compute; reflexivity).
  repeat (split; [assumption|]).
  split; [|split; vm_compute; reflexivity].
  exact (SLTI_compares_the_X_lanes_only g Examples.host instr 0 s
           Examples.arith_v0 (Vec.splat Examples.f1) old H1 H2 H3 H4 H5 H6).
Defined.

(** ** Instructions without a handler *)

Section Unhandled.

Variable g : Globals.

Lemma unhandled_as_NOP fuel :
  let g' := Sem.with_program g (Sem.without_unhandled <$> program_code g) in
  (forall pc l, Compile_NextInstr g' fuel pc l = Compile_NextInstr g fuel pc l)
  /\ (forall stop pc l,
        Compile_Block g' fuel stop pc l = Compile_Block g fuel stop pc l)
  /\ (forall limit pc l,
        Compile_CALL_loop g' fuel limit pc l
        = Compile_CALL_loop g fuel limit pc l).
Proof.
  intros g'.
  induction fuel as [|fuel (IHn & IHb & IHc)];
    [repeat apply conj; reflexivity|].
  split; [|split].
  - intros pc l. cbn [Compile_NextInstr].
    change (program_code g') with (Sem.without_unhandled <$> program_code g).
    destruct (0 <=? pc); [|reflexivity].
    rewrite list_lookup_fmap.
    destruct (program_code g !! Z.to_nat pc) as [instr|]; [|reflexivity].
    cbn [fmap option_fmap option_map]. cbv zeta.
    unfold Sem.without_unhandled, Spec.handler.
    destruct (default None (instr_table !! Z.to_nat (opcode instr)))
      as [f|] eqn:Hf; [|reflexivity].
    rewrite Hf, ?IHc, ?IHb.
    destruct f; try reflexivity.
    + (* IF *)
      destruct (_ <=? _); [reflexivity|].
      destruct (Compile_Block g fuel _ (pc + 1) l) as [[[thn o1] l1]|];
        [|reflexivity].
      cbn [bind]. rewrite IHb. reflexivity.
  - intros stop pc l. cbn [Compile_Block].
    destruct (pc <=? stop); [|reflexivity]. rewrite IHn.
    destruct (Compile_NextInstr g fuel pc l) as [[[c1 o1] l1]|];
      [|reflexivity].
    cbn [bind]. now rewrite IHb.
  - intros limit pc l. cbn [Compile_CALL_loop].
    destruct (pc <? limit); [|reflexivity]. rewrite IHn.
    destruct (Compile_NextInstr g fuel pc l) as [[[c1 o1] l1]|];
      [|reflexivity].
    cbn [bind]. now rewrite IHc.
Qed.

End Unhandled.

(** X24: an instruction word [instr_table] has no handler for is
    compiled to nothing: a program compiles to the code of the program
    that has NOP in the place of every such word. *)
Theorem unhandled_instructions_compile_as_NOP (g : Globals) (fuel : nat) :
  Compile (Sem.with_program g (Sem.without_unhandled <$> program_code g)) fuel
  = Compile g fuel.
Proof.
  unfold Compile, Compile_main.
  cbn [Sem.with_program program_code main_offset].
  rewrite length_fmap.
  destruct (unhandled_as_NOP g fuel) as (_ & _ & ->).
  reflexivity.
Qed.
